(** * Auto-batching engine of CNTK (Source/CNTKv2LibraryDll/AutoBatch.cpp)

    A shallow embedding of [class Variable::Memoize]: the arena allocator,
    the ready-op scheduler [ReadyOps], the forward executor [GetValue] and
    the backward executor [Backward], together with the properties of the
    engine's specification that are stated about them.

    Conventions of the embedding.
    - C++ objects live in heaps indexed by object identifiers; a pointer is
      an identifier, [nullptr] is [None].
    - [size_t] values that are computed from data are integers of [Z] with
      the wrap-around modulo 2^64 written out; counts of live objects
      (list lengths, loop indices over lists) are [nat].
    - Every function that can throw, trip an assertion, or run into
      undefined behaviour returns a [result].
    - Recursion that follows pointers takes a fuel argument. *)

From Stdlib Require Import ZArith QArith Lia.
From stdpp Require Import gmap strings list.

Open Scope Z_scope.

(** ** Results of fallible code *)

Inductive error : Type :=
| LogicError (msg : string)        (* CNTK's LogicError(), fail_if *)
| InvalidArgument (msg : string)   (* thrown by NDArrayView collaborators *)
| AssertionFailure (msg : string)  (* assert() *)
| UndefinedBehavior (msg : string) (* null dereference, index out of range *)
| OutOfFuel.

Inductive result (A : Type) : Type :=
| Ok (a : A)
| Err (e : error).
Arguments Ok {A} a.
Arguments Err {A} e.

Definition M (S A : Type) : Type := S -> result (A * S).

Definition ret {S A : Type} (a : A) : M S A := fun s => Ok (a, s).

Definition bind {S A B : Type} (c : M S A) (k : A -> M S B) : M S B :=
  fun s => match c s with
           | Ok (a, s') => k a s'
           | Err e => Err e
           end.

Definition throw {S A : Type} (e : error) : M S A := fun _ => Err e.
Definition get {S : Type} : M S S := fun s => Ok (s, s).
Definition put {S : Type} (s : S) : M S unit := fun _ => Ok (tt, s).
Definition modify {S : Type} (f : S -> S) : M S unit := fun s => Ok (tt, f s).

Notation "'do' x <- c ; k" := (bind c (fun x => k))
  (at level 10, x pattern, c at level 100, k at level 200).
Notation "c ;; k" := (bind c (fun _ => k))
  (at level 100, k at level 200, right associativity).

(** [fail_if(cond, err)] *)
Definition fail_if {S : Type} (cond : bool) (msg : string) : M S unit :=
  if cond then throw (LogicError msg) else ret tt.

(** a [for] loop over a vector *)
Fixpoint for_each {S A : Type} (body : A -> M S unit) (l : list A) : M S unit :=
  match l with
  | [] => ret tt
  | x :: l' => body x ;; for_each body l'
  end.

(** ** Machine integers *)

Definition SIZE_MAX : Z := 2 ^ 64 - 1.
Definition size_t_wrap (z : Z) : Z := z mod 2 ^ 64.
Definition size_t_add (a b : Z) : Z := size_t_wrap (a + b).
Definition size_t_sub (a b : Z) : Z := size_t_wrap (a - b).
Definition size_t_mul (a b : Z) : Z := size_t_wrap (a * b).

(** [(int)n] for a [size_t] n: two's complement on 32 bits *)
Definition int_of_size_t (n : Z) : Z := (n + 2 ^ 31) mod 2 ^ 32 - 2 ^ 31.

(** ** Collaborator types (declared in CNTKLibrary.h, PrimitiveOpType.h)

    Only the members that AutoBatch.cpp names are distinguished. *)

Inductive PrimitiveOpType : Type :=
| StopGradient | Pass | NoOp | Reshape | Slice | Times | Splice
| OtherOp (code : nat).

(** [#define BarrierOp NoOp] *)
Definition BarrierOp : PrimitiveOpType := NoOp.

Inductive VariableKind : Type :=
| VK_Input | VK_Placeholder | VK_Parameter | VK_Constant | VK_Output.

Inductive DataType : Type := DT_Unknown | DT_Float | DT_Double.
Inductive DeviceDescriptor : Type := CPUDevice | GPUDevice (id : nat).

Inductive DictionaryValue : Type :=
| DV_Int (z : Z)
| DV_Axis (a : Z).

#[global] Instance PrimitiveOpType_eq_dec : EqDecision PrimitiveOpType.
Proof. solve_decision. Defined.
#[global] Instance VariableKind_eq_dec : EqDecision VariableKind.
Proof. solve_decision. Defined.
#[global] Instance DataType_eq_dec : EqDecision DataType.
Proof. solve_decision. Defined.
#[global] Instance DeviceDescriptor_eq_dec : EqDecision DeviceDescriptor.
Proof. solve_decision. Defined.
#[global] Instance DictionaryValue_eq_dec : EqDecision DictionaryValue.
Proof. solve_decision. Defined.

(** [Dictionary]: an unordered map from attribute names to values; [!=]
    compares the two maps extensionally. *)
Abbreviation Dictionary := (gmap string DictionaryValue).

(** ** Shapes *)

Abbreviation NDShape := (list Z).

(** [NDShape::TotalSize()] *)
Definition TotalSize (shape : NDShape) : Z :=
  fold_right (fun d acc => size_t_mul d acc) 1 shape.

(** [NDShape::Rank()] *)
Definition Rank (shape : NDShape) : nat := length shape.

(** [std::vector::resize(n, 1)]: truncate or pad with 1 *)
Definition resize_pad (n : nat) (shape : NDShape) : NDShape :=
  take n shape ++ replicate (n - length shape) 1.

(** Modelled from the spec: [NDShape::AppendAxis(axisIndex, dim)] is declared
    in CNTKLibrary.h; it yields the shape "with an appended trailing axis of
    size N", after padding with 1 up to [axisIndex]. *)
Definition AppendAxis (shape : NDShape) (axisIndex : nat) (dim : Z) : NDShape :=
  shape ++ replicate (axisIndex - length shape) 1 ++ [dim].

(** ** Tensors: NDArrayView objects over storage buffers *)

Record NDArrayView : Type := mkNDArrayView {
  nd_id : nat;        (* identity of the NDArrayView object *)
  nd_block : nat;     (* the storage buffer it views *)
  nd_offset : Z;      (* first element inside the buffer *)
  nd_shape : NDShape;
  nd_dataType : DataType;
  nd_device : DeviceDescriptor;
  nd_sparse : bool;
}.

#[global] Instance NDArrayView_eq_dec : EqDecision NDArrayView.
Proof. solve_decision. Defined.

(** [NDArrayViewPtr]: a shared pointer, possibly null *)
Abbreviation NDArrayViewPtr := (option NDArrayView).

(** The tensor heap: allocation counters, buffer contents, and the two
    function-local statics of [AllocateTensorInArena]. An element that was
    never written holds [None]. *)
Record TensorHeap : Type := mkTensorHeap {
  th_nextView : nat;
  th_nextBlock : nat;
  th_contents : nat -> Z -> option Q;
  m_currentArena : NDArrayViewPtr;
  m_currentArenaUsed : Z;
}.

Definition th_set_contents (c : nat -> Z -> option Q) (th : TensorHeap) : TensorHeap :=
  mkTensorHeap (th_nextView th) (th_nextBlock th) c (m_currentArena th) (m_currentArenaUsed th).
Definition th_set_arena (a : NDArrayViewPtr) (used : Z) (th : TensorHeap) : TensorHeap :=
  mkTensorHeap (th_nextView th) (th_nextBlock th) (th_contents th) a used.
Definition th_set_used (used : Z) (th : TensorHeap) : TensorHeap :=
  mkTensorHeap (th_nextView th) (th_nextBlock th) (th_contents th) (m_currentArena th) used.

(** the element range a view covers inside its buffer *)
Definition nd_covers (v : NDArrayView) (blk : nat) (i : Z) : Prop :=
  blk = nd_block v /\ nd_offset v <= i < nd_offset v + TotalSize (nd_shape v).

Definition nd_coversb (v : NDArrayView) (blk : nat) (i : Z) : bool :=
  bool_decide (blk = nd_block v) && (nd_offset v <=? i) && (i <? nd_offset v + TotalSize (nd_shape v)).

(** two views overlap when they cover a common element *)
Definition nd_overlap (v w : NDArrayView) : Prop :=
  exists blk i, nd_covers v blk i /\ nd_covers w blk i.

(** [make_shared<NDArrayView>(dataType, StorageFormat::Dense, shape, device)]:
    a new object over a new buffer *)
Definition new_NDArrayView (dt : DataType) (shape : NDShape) (dev : DeviceDescriptor)
  : M TensorHeap NDArrayView :=
  fun th =>
    Ok (mkNDArrayView (th_nextView th) (th_nextBlock th) 0 shape dt dev false,
        mkTensorHeap (S (th_nextView th)) (S (th_nextBlock th)) (th_contents th)
                     (m_currentArena th) (m_currentArenaUsed th)).

(** a new NDArrayView object over the buffer of an existing one *)
Definition new_view_of (v : NDArrayView) (offset : Z) (shape : NDShape)
  : M TensorHeap NDArrayView :=
  fun th =>
    Ok (mkNDArrayView (th_nextView th) (nd_block v) offset shape
                      (nd_dataType v) (nd_device v) (nd_sparse v),
        mkTensorHeap (S (th_nextView th)) (th_nextBlock th) (th_contents th)
                     (m_currentArena th) (m_currentArenaUsed th)).

(** Modelled from the spec: [NDArrayView::SliceView(startOffset, extent)]
    (the tensor-view collaborator [slice_view]), for the flat tensors it is
    called on here: the elements [start, start+extent) of a rank-1 view. *)
Definition SliceView (v : NDArrayView) (startOffset extent : Z) : M TensorHeap NDArrayView :=
  match nd_shape v with
  | [n] =>
      if (0 <=? startOffset) && (0 <=? extent) && (startOffset + extent <=? n)
      then new_view_of v (nd_offset v + startOffset) [extent]
      else throw (InvalidArgument "SliceView: out of range")
  | _ => throw (InvalidArgument "SliceView: rank")
  end.

(** Modelled from the spec: [NDArrayView::AsShape(shape)] (collaborator
    [as_shape]): the same elements under another shape of equal size. *)
Definition AsShape (v : NDArrayView) (shape : NDShape) : M TensorHeap NDArrayView :=
  if TotalSize shape =? TotalSize (nd_shape v)
  then new_view_of v (nd_offset v) shape
  else throw (InvalidArgument "AsShape: size mismatch").

(** Modelled from the spec: [NDArrayView::IndexLastAxis(index)] (collaborator
    [index_last_axis]): the [index]-th slice along the last axis, which is
    contiguous in the column-major layout. *)
Definition IndexLastAxis (v : NDArrayView) (index : Z) : M TensorHeap NDArrayView :=
  match reverse (nd_shape v) with
  | d :: rest =>
      if (0 <=? index) && (index <? d)
      then new_view_of v (nd_offset v + index * TotalSize (reverse rest)) (reverse rest)
      else throw (InvalidArgument "IndexLastAxis: out of range")
  | [] => throw (InvalidArgument "IndexLastAxis: scalar")
  end.

(** Modelled from the spec: [NDArrayView::SetValue(c)] (collaborator
    [set_value]): every element the view covers becomes [c]. *)
Definition SetValue (v : NDArrayView) (c : Q) : M TensorHeap unit :=
  modify (fun th =>
    th_set_contents
      (fun blk i => if nd_coversb v blk i then Some c else th_contents th blk i) th).

(** ** The arena allocator *)

Definition ARENASIZE : Z := 64000000.

Definition AllocateTensorInArena (shape : NDShape) (dataType : DataType)
    (device : DeviceDescriptor) : M TensorHeap NDArrayView :=
  let numElements := TotalSize shape in
  (* if too large then plain alloc *)
  if numElements >? ARENASIZE then new_NDArrayView dataType shape device
  else
    do th <- get;
    (* if arena not large enough then waste its remainder and allocate a fresh one *)
    (if bool_decide (m_currentArena th = None)
        || (numElements >? size_t_sub ARENASIZE (m_currentArenaUsed th))
     then
       do a <- new_NDArrayView dataType [ARENASIZE] device;
       modify (th_set_arena (Some a) 0)
     else ret tt) ;;
    do th <- get;
    match m_currentArena th with
    | None => throw (UndefinedBehavior "null arena")
    | Some arena =>
        do region <- SliceView arena (m_currentArenaUsed th) numElements;
        modify (fun th' => th_set_used (size_t_add (m_currentArenaUsed th) numElements) th') ;;
        AsShape region shape
    end.

(** ** The graph: Variables and Functions *)

Abbreviation VarId := nat.   (* identity of a VariableFields object *)
Abbreviation FunId := nat.   (* identity of a Function object *)

(** A [Variable] is a handle: a shared pointer to its data fields, plus the
    strong reference [m_outputComposite]. (The type is named [CNTKVariable]
    because [Variable] is reserved.) *)
Record CNTKVariable : Type := mkVariable {
  m_dataFields : VarId;
  m_outputComposite : option FunId;
}.

#[global] Instance Variable_eq_dec : EqDecision CNTKVariable.
Proof. solve_decision. Defined.

Record VariableFields : Type := mkVariableFields {
  m_varKind : VariableKind;
  m_shape : NDShape;
  m_dataType : DataType;
  m_needsGradient : bool;
  m_value : NDArrayViewPtr;
  m_gradient : NDArrayViewPtr;
  m_lazyIndex : option FunId * Z;                           (* pair<FunctionPtr, size_t> *)
  m_consumers : (option FunId * nat) * list (FunId * nat);  (* first consumer, other consumers *)
  m_visited : bool;
  m_ownerFunction : option FunId;                           (* weak_ptr *)
}.

Record Function : Type := mkFunction {
  m_op : PrimitiveOpType;
  m_inputs : list CNTKVariable;
  m_outputs : list CNTKVariable;
  m_attributes : Dictionary;
  m_pendingInputs : Z;          (* int *)
  m_link : option FunId;        (* next Function on the same ready list *)
}.

Definition set_value (x : NDArrayViewPtr) (v : VariableFields) : VariableFields :=
  mkVariableFields (m_varKind v) (m_shape v) (m_dataType v) (m_needsGradient v) x
    (m_gradient v) (m_lazyIndex v) (m_consumers v) (m_visited v) (m_ownerFunction v).
Definition set_gradient (x : NDArrayViewPtr) (v : VariableFields) : VariableFields :=
  mkVariableFields (m_varKind v) (m_shape v) (m_dataType v) (m_needsGradient v) (m_value v)
    x (m_lazyIndex v) (m_consumers v) (m_visited v) (m_ownerFunction v).
Definition set_lazyIndex (x : option FunId * Z) (v : VariableFields) : VariableFields :=
  mkVariableFields (m_varKind v) (m_shape v) (m_dataType v) (m_needsGradient v) (m_value v)
    (m_gradient v) x (m_consumers v) (m_visited v) (m_ownerFunction v).
Definition set_consumers (x : (option FunId * nat) * list (FunId * nat)) (v : VariableFields)
  : VariableFields :=
  mkVariableFields (m_varKind v) (m_shape v) (m_dataType v) (m_needsGradient v) (m_value v)
    (m_gradient v) (m_lazyIndex v) x (m_visited v) (m_ownerFunction v).
Definition set_visited (x : bool) (v : VariableFields) : VariableFields :=
  mkVariableFields (m_varKind v) (m_shape v) (m_dataType v) (m_needsGradient v) (m_value v)
    (m_gradient v) (m_lazyIndex v) (m_consumers v) x (m_ownerFunction v).

Definition set_pendingInputs (x : Z) (f : Function) : Function :=
  mkFunction (m_op f) (m_inputs f) (m_outputs f) (m_attributes f) x (m_link f).
Definition set_link (x : option FunId) (f : Function) : Function :=
  mkFunction (m_op f) (m_inputs f) (m_outputs f) (m_attributes f) (m_pendingInputs f) x.

(** record ourselves as a consumer: the first slot when it is free, the
    overflow vector otherwise *)
Definition add_consumer (c : FunId * nat) (v : VariableFields) : VariableFields :=
  match m_consumers v with
  | ((None, _), more) => set_consumers ((Some (fst c), snd c), more) v
  | (first, more) => set_consumers (first, more ++ [c]) v
  end.

(** [m_consumers.first.first = nullptr; m_consumers.second.clear()] *)
Definition clear_consumers (v : VariableFields) : VariableFields :=
  set_consumers ((None, snd (fst (m_consumers v))), []) v.

(** predicate whether an op is only taking a view on its input *)
Definition IsViewOp (op : PrimitiveOpType) : bool :=
  bool_decide (op = StopGradient) ||
  bool_decide (op = Pass)         ||
  bool_decide (op = NoOp)         ||
  bool_decide (op = BarrierOp)    ||
  bool_decide (op = Reshape)      ||
  bool_decide (op = Slice).

(** ** Intrusive lists of Functions, threaded through [m_link] *)

Module NonOwningFunctionList.
Record t : Type := mk { head : option FunId; count : nat }.
Definition front (l : t) : option FunId := head l.
Definition empty (l : t) : bool := bool_decide (head l = None).
Definition size (l : t) : nat := count l.
Definition clear : t := mk None 0.
End NonOwningFunctionList.

Module NonOwningFunctionListBuilder.
(** [tail] is undefined while the list is empty; [None] stands for the
    uninitialised pointer of a default-constructed builder. *)
Record t : Type := mk { base : NonOwningFunctionList.t; tail : option FunId }.
Definition front (b : t) : option FunId := NonOwningFunctionList.front (base b).
Definition empty (b : t) : bool := NonOwningFunctionList.empty (base b).
Definition size (b : t) : nat := NonOwningFunctionList.size (base b).
(** the default constructor *)
Definition new : t := mk NonOwningFunctionList.clear None.
(** what [std::move] leaves behind: the base is cleared, [tail] is stale *)
Definition moved_from (b : t) : t := mk NonOwningFunctionList.clear (tail b).
End NonOwningFunctionListBuilder.

Abbreviation FList := NonOwningFunctionList.t.
Abbreviation FListBuilder := NonOwningFunctionListBuilder.t.

(** the set of ready operations (the schedule) *)
Record ReadyOps : Type := mkReadyOps {
  m_viewOps : FListBuilder;
  m_regularOps : list FListBuilder;
  m_barrierOps : FListBuilder;
}.

(** ** The engine state: the object heaps and the members of [Memoize] *)

Record Memoize : Type := mkMemoize {
  vars : gmap VarId VariableFields;
  funs : gmap FunId Function;
  next_id : nat;                      (* next unused object identifier *)
  tensors : TensorHeap;
  m_schedule : ReadyOps;
  m_numBatchedLaunches : Z;
  m_matrixWeightConsumers : list (FunId * nat);
  m_otherConsumers : list (FunId * nat);
}.

Definition with_vars (x : gmap VarId VariableFields) (s : Memoize) : Memoize :=
  mkMemoize x (funs s) (next_id s) (tensors s) (m_schedule s) (m_numBatchedLaunches s)
    (m_matrixWeightConsumers s) (m_otherConsumers s).
Definition with_funs (x : gmap FunId Function) (s : Memoize) : Memoize :=
  mkMemoize (vars s) x (next_id s) (tensors s) (m_schedule s) (m_numBatchedLaunches s)
    (m_matrixWeightConsumers s) (m_otherConsumers s).
Definition with_next_id (x : nat) (s : Memoize) : Memoize :=
  mkMemoize (vars s) (funs s) x (tensors s) (m_schedule s) (m_numBatchedLaunches s)
    (m_matrixWeightConsumers s) (m_otherConsumers s).
Definition with_tensors (x : TensorHeap) (s : Memoize) : Memoize :=
  mkMemoize (vars s) (funs s) (next_id s) x (m_schedule s) (m_numBatchedLaunches s)
    (m_matrixWeightConsumers s) (m_otherConsumers s).
Definition with_schedule (x : ReadyOps) (s : Memoize) : Memoize :=
  mkMemoize (vars s) (funs s) (next_id s) (tensors s) x (m_numBatchedLaunches s)
    (m_matrixWeightConsumers s) (m_otherConsumers s).
Definition with_numBatchedLaunches (x : Z) (s : Memoize) : Memoize :=
  mkMemoize (vars s) (funs s) (next_id s) (tensors s) (m_schedule s) x
    (m_matrixWeightConsumers s) (m_otherConsumers s).
Definition with_matrixWeightConsumers (x : list (FunId * nat)) (s : Memoize) : Memoize :=
  mkMemoize (vars s) (funs s) (next_id s) (tensors s) (m_schedule s) (m_numBatchedLaunches s)
    x (m_otherConsumers s).
Definition with_otherConsumers (x : list (FunId * nat)) (s : Memoize) : Memoize :=
  mkMemoize (vars s) (funs s) (next_id s) (tensors s) (m_schedule s) (m_numBatchedLaunches s)
    (m_matrixWeightConsumers s) x.

(** dereferencing: a dangling identifier is undefined behaviour *)
Definition get_var (v : VarId) : M Memoize VariableFields :=
  fun s => match vars s !! v with
           | Some x => Ok (x, s)
           | None => Err (UndefinedBehavior "dangling Variable")
           end.
Definition get_fun (f : FunId) : M Memoize Function :=
  fun s => match funs s !! f with
           | Some x => Ok (x, s)
           | None => Err (UndefinedBehavior "dangling Function")
           end.
Definition update_var (v : VarId) (g : VariableFields -> VariableFields) : M Memoize unit :=
  do x <- get_var v; modify (fun s => with_vars (<[v := g x]> (vars s)) s).
Definition update_fun (f : FunId) (g : Function -> Function) : M Memoize unit :=
  do x <- get_fun f; modify (fun s => with_funs (<[f := g x]> (funs s)) s).

(** run a tensor-heap computation inside the engine state *)
Definition on_tensors {A : Type} (c : M TensorHeap A) : M Memoize A :=
  fun s => match c (tensors s) with
           | Ok (a, th) => Ok (a, with_tensors th s)
           | Err e => Err e
           end.

(** [Variable::Shape()] *)
Definition Shape (v : CNTKVariable) : M Memoize NDShape :=
  do x <- get_var (m_dataFields v); ret (m_shape x).

(** iterate [for (op = ops.begin(); op != ops.end(); ++op)]: the successor is
    read from [m_link] after the body has run *)
Fixpoint fold_chain {A : Type} (fuel : nat) (body : A -> FunId -> M Memoize A)
    (acc : A) (iter : option FunId) : M Memoize A :=
  match iter with
  | None => ret acc
  | Some f =>
      match fuel with
      | O => throw OutOfFuel
      | S fuel' =>
          do acc' <- body acc f;
          do F <- get_fun f;
          fold_chain fuel' body acc' (m_link F)
      end
  end.

Definition for_chain (fuel : nat) (body : FunId -> M Memoize unit) (iter : option FunId)
  : M Memoize unit :=
  fold_chain fuel (fun _ f => body f) tt iter.

(** read-only access to the engine state *)
Definition read {A : Type} (g : Memoize -> result A) : M Memoize A :=
  fun s => match g s with
           | Ok a => Ok (a, s)
           | Err e => Err e
           end.

Definition ShapeOf (s : Memoize) (v : CNTKVariable) : option NDShape :=
  m_shape <$> vars s !! m_dataFields v.

(** ** class ReadyOps *)

Module L := NonOwningFunctionList.
Module B := NonOwningFunctionListBuilder.

(** [NonOwningFunctionListBuilder(Function* f)] *)
Definition Builder_of (f : FunId) : M Memoize FListBuilder :=
  update_fun f (set_link None) ;;
  ret (B.mk (L.mk (Some f) 1) (Some f)).

(** [NonOwningFunctionListBuilder::push_back] *)
Definition push_back (f : FunId) (b : FListBuilder) : M Memoize FListBuilder :=
  (match L.head (B.base b) with
   | None => ret tt                                   (* head = f *)
   | Some _ =>
       match B.tail b with
       | Some t => update_fun t (set_link (Some f))   (* tail->m_link = f *)
       | None => throw (UndefinedBehavior "tail of a non-empty list is uninitialised")
       end
   end) ;;
  update_fun f (set_link None) ;;
  ret (B.mk
         (L.mk
            (match L.head (B.base b) with None => Some f | Some h => Some h end)
            (S (L.count (B.base b))))
         (Some f)).

(** the loop of [AreBatchable] over the input positions, from position [i];
    [Ok true] means that no position returned false *)
Fixpoint AreBatchable_inputs (s : Memoize) (op : PrimitiveOpType) (i : nat)
    (ias ibs : list CNTKVariable) : result bool :=
  match ias with
  | [] => Ok true
  | ia :: ias' =>
      match ibs with
      | [] => Err (UndefinedBehavior "b->m_inputs[i] out of range")
      | ib :: ibs' =>
          if bool_decide (op = Times) && bool_decide (i = 0%nat)
          then
            (* for Times, the first arg must be the same object, not just the same shape *)
            if bool_decide (m_dataFields ia <> m_dataFields ib) then Ok false
            else AreBatchable_inputs s op (S i) ias' ibs'
          else
            (* shapes must match *)
            match ShapeOf s ia, ShapeOf s ib with
            | Some sa, Some sb =>
                if bool_decide (sa <> sb) then Ok false
                else AreBatchable_inputs s op (S i) ias' ibs'
            | _, _ => Err (UndefinedBehavior "dangling Variable")
            end
      end
  end.

(** test whether two PrimitiveFunctions can be executed as a single batched
    operation *)
Definition AreBatchable (s : Memoize) (a b : FunId) : result bool :=
  match funs s !! a, funs s !! b with
  | Some A, Some B =>
      let op := m_op A in
      if IsViewOp op && bool_decide (op <> BarrierOp)
      then Err (LogicError "should not get here for view ops or barrier ops")
      else if bool_decide (op <> m_op B) then Ok false
      else if bool_decide (length (m_inputs A) <> length (m_inputs B))
      then Err (AssertionFailure "a->m_inputs.size() == b->m_inputs.size()")
      else
        match AreBatchable_inputs s op 0 (m_inputs A) (m_inputs B) with
        | Ok true =>
            (* attributes must also match *)
            if bool_decide (m_attributes A <> m_attributes B) then Ok false
            else Ok true
        | other => other
        end
  | _, _ => Err (UndefinedBehavior "dangling Function")
  end.

(** the linear scan of [Schedule] over [m_regularOps]; returns the updated
    vector *)
Fixpoint Schedule_scan (f : FunId) (buckets : list FListBuilder)
  : M Memoize (list FListBuilder) :=
  match buckets with
  | [] =>
      (* none fit: open a new set *)
      do b <- Builder_of f; ret [b]
  | b :: rest =>
      match B.front b with
      | None => throw (UndefinedBehavior "front() of an empty bucket")
      | Some h =>
          do ok <- read (fun s => AreBatchable s f h);
          if (ok : bool)
          then do b' <- push_back f b; ret (b' :: rest)
          else do rest' <- Schedule_scan f rest; ret (b :: rest')
      end
  end.

Definition set_viewOps (b : FListBuilder) (r : ReadyOps) : ReadyOps :=
  mkReadyOps b (m_regularOps r) (m_barrierOps r).
Definition set_regularOps (l : list FListBuilder) (r : ReadyOps) : ReadyOps :=
  mkReadyOps (m_viewOps r) l (m_barrierOps r).
Definition set_barrierOps (b : FListBuilder) (r : ReadyOps) : ReadyOps :=
  mkReadyOps (m_viewOps r) (m_regularOps r) b.

Definition modify_schedule (g : ReadyOps -> ReadyOps) : M Memoize unit :=
  modify (fun s => with_schedule (g (m_schedule s)) s).

(** schedule an operation that has been confirmed ready *)
Definition Schedule (f : FunId) : M Memoize unit :=
  do F <- get_fun f;
  let op := m_op F in
  do s <- get;
  if bool_decide (op = BarrierOp) then
    do b <- push_back f (m_barrierOps (m_schedule s));
    modify_schedule (set_barrierOps b)
  else if IsViewOp op then
    do b <- push_back f (m_viewOps (m_schedule s));
    modify_schedule (set_viewOps b)
  else
    do l <- Schedule_scan f (m_regularOps (m_schedule s));
    modify_schedule (set_regularOps l).

(** notify a function that an input has become available; schedule it when
    all inputs are now available *)
Definition NotifyInputAvailable (f : FunId) : M Memoize unit :=
  do F <- get_fun f;
  if m_pendingInputs F <=? 0
  then throw (LogicError "NotifyInputAvailable: pending inputs already 0 yet we are executing it")
  else
    update_fun f (set_pendingInputs (m_pendingInputs F - 1)) ;;
    (* if it is now ready then schedule it *)
    if m_pendingInputs F - 1 =? 0 then Schedule f else ret tt.

(** test if no more ready ops *)
Definition ReadyOps_empty (r : ReadyOps) : bool :=
  B.empty (m_viewOps r)
  && bool_decide (m_regularOps r = [])
  && B.empty (m_barrierOps r).

(** the search loop of [pop_best]: [best] is the position and the bucket of
    the best candidate so far, [i] the position of the first bucket of [rest] *)
Fixpoint pop_best_scan (best : nat * FListBuilder) (i : nat) (rest : list FListBuilder)
  : nat * FListBuilder :=
  match rest with
  | [] => best
  | b :: rest' =>
      if (B.size (snd best) <? B.size b)%nat
      then pop_best_scan (i, b) (S i) rest'
      else pop_best_scan best (S i) rest'
  end.

(** select the next batched op to execute *)
Definition pop_best (r : ReadyOps) : FList * ReadyOps :=
  (* try all three queues, in priority order *)
  if negb (B.empty (m_viewOps r)) then
    (* view ops always go first *)
    (B.base (m_viewOps r), set_viewOps (B.moved_from (m_viewOps r)) r)
  else
    match m_regularOps r with
    | b0 :: rest =>
        let best := pop_best_scan (0%nat, b0) 1 rest in
        (* and remove this one from the list *)
        (B.base (snd best), set_regularOps (delete (fst best) (m_regularOps r)) r)
    | [] =>
        (* barriers only get returned when no other op is available *)
        (B.base (m_barrierOps r), set_barrierOps (B.moved_from (m_barrierOps r)) r)
    end.

(** the schedule of a newly constructed engine *)
Definition ReadyOps_new : ReadyOps :=
  mkReadyOps B.new [] B.new.

(** ** Collaborators of the engine

    The kernels and the lazy initialisation of leaf values live outside
    AutoBatch.cpp; the engine is parametric in them. They act on the
    tensor heap only. *)

Record Collaborators : Type := mkCollaborators {
  (* PrimitiveFunction::ComputeKnowableValue(op, inputValues, attributes, outputShape, outValue) *)
  ComputeKnowableValue :
    PrimitiveOpType -> list NDArrayView -> Dictionary -> NDShape -> NDArrayViewPtr ->
    M TensorHeap NDArrayViewPtr;
  (* PrimitiveFunction::BackpropTo(outputGradient, index, op, attributes, outputValue,
                                   inputValues, gradient, beta) *)
  BackpropToKernel :
    NDArrayView -> nat -> PrimitiveOpType -> Dictionary -> NDArrayView -> list NDArrayView ->
    NDArrayViewPtr -> Q -> M TensorHeap unit;
  (* Variable::Value() of a Parameter or Constant whose value is not yet initialised *)
  InitialValue : VarId -> VariableFields -> M TensorHeap NDArrayViewPtr;
}.

Fixpoint mapM {S A B : Type} (g : A -> M S B) (l : list A) : M S (list B) :=
  match l with
  | [] => ret []
  | x :: l' => do y <- g x; do ys <- mapM g l'; ret (y :: ys)
  end.

Fixpoint foldM {S A B : Type} (g : B -> A -> M S B) (acc : B) (l : list A) : M S B :=
  match l with
  | [] => ret acc
  | x :: l' => do acc' <- g acc x; foldM g acc' l'
  end.

(** Modelled from the spec: [Function::RawPrimitiveFunction(op, inputs,
    outputShape, attributes)] is defined in Function.cpp; it "creates an
    unregistered primitive function object suitable for direct invocation":
    a new Function with one new Output variable of the given shape, idle
    ([m_pendingInputs] initialised to -1 by the constructor). *)
Definition RawPrimitiveFunction (op : PrimitiveOpType) (inputs : list CNTKVariable)
    (outputShape : NDShape) (attributes : Dictionary) : M Memoize FunId :=
  do s <- get;
  let id := next_id s in
  let inputFields := omap (fun v => vars s !! m_dataFields v) inputs in
  let needsGradient := existsb m_needsGradient inputFields in
  let dataType := match inputFields with x :: _ => m_dataType x | [] => DT_Unknown end in
  let F := mkFunction op inputs [mkVariable id None] attributes (-1) None in
  let O := mkVariableFields VK_Output outputShape dataType needsGradient None None
             (None, 0) ((None, 0%nat), []) false (Some id) in
  put (with_next_id (S id) (with_funs (<[id := F]> (funs s)) (with_vars (<[id := O]> (vars s)) s))) ;;
  ret id.

Section Forward.
Context (K : Collaborators).

(** return the m_value field of a variable, but possibly realizing it lazily
    if it is an index operation *)
Fixpoint LazilyIndexedValue (fuel : nat) (v : CNTKVariable) : M Memoize NDArrayView :=
  match fuel with
  | O => throw OutOfFuel
  | S fuel' =>
      do fields <- get_var (m_dataFields v);
      match m_value fields with
      | Some t => ret t
      | None =>
          match fst (m_lazyIndex fields) with
          | None =>
              throw (LogicError
                "variable unexpectedly has no value yet, nor is it a slice view into a batched op")
          | Some p =>
              (* the Function does not own its output, it is a slice view into another *)
              do P <- get_fun p;
              match m_outputs P !! 0%nat with
              | None => throw (UndefinedBehavior "m_outputs[0]")
              | Some out =>
                  do from <- LazilyIndexedValue fuel' out;
                  let index := snd (m_lazyIndex fields) in
                  do t <- (if index =? SIZE_MAX
                           then ret from   (* "don't slice, actually" *)
                           else on_tensors (IndexLastAxis from index));
                  update_var (m_dataFields v) (set_value (Some t)) ;;
                  ret t
              end
          end
      end
  end.

(** compute the value of 'f', storing it in the arena (unless 'isFree') *)
Definition MemoizeKnowableValueInArena (fuel : nat) (f : FunId) (isFree : bool)
  : M Memoize CNTKVariable :=
  do F <- get_fun f;
  match m_outputs F with
  | [output] =>
      (* fetch the NDArrayViewPtrs for all inputs *)
      do inputValues <- mapM (LazilyIndexedValue fuel) (m_inputs F);
      do outputShape <- read (fun s =>
                          match ShapeOf s output with
                          | Some sh => Ok sh
                          | None => Err (UndefinedBehavior "dangling Variable")
                          end);
      (* allocate the output NDArrayViewPtr in the arena *)
      do outValue <- (if isFree then ret None
                      else match inputValues with
                           | v0 :: _ =>
                               do t <- on_tensors
                                         (AllocateTensorInArena outputShape (nd_dataType v0) (nd_device v0));
                               ret (Some t)
                           | [] => throw (UndefinedBehavior "inputValues[0]")
                           end);
      (* execute it *)
      do val <- on_tensors
                  (ComputeKnowableValue K (m_op F) inputValues (m_attributes F) outputShape outValue);
      update_var (m_dataFields output) (set_value val) ;;
      ret output
  | _ => throw (LogicError "MemoizeKnowableValueInArena: only functions with 1 output are supported")
  end.

Definition ResetPendingToIdle (f : FunId) : M Memoize unit :=
  do F <- get_fun f;
  if bool_decide (m_pendingInputs F <> 0)
  then throw (LogicError
         "ResetPendingToIdle: pendingINputs is not 0, so we should not have gotten here")
  else update_fun f (set_pendingInputs (-1)).

(** [doNaively] of [ExecuteBatchedOpAndUpdateSchedule], for the
    representative op [F0] and the batch size *)
Definition doNaively (s : Memoize) (F0 : Function) (batchSize : nat) : result bool :=
  let op := m_op F0 in
  let isFree := IsViewOp op in
  let isTimes := bool_decide (op = Times) in
  if isFree then Ok true
  else
    if isTimes then
      match m_inputs F0 !! 1%nat with
      | None => Err (UndefinedBehavior "f0.m_inputs[1]")
      | Some in1 =>
          match vars s !! m_dataFields in1 with
          | None => Err (UndefinedBehavior "dangling Variable")
          | Some x =>
              Ok (match m_value x with
                  | Some t => nd_sparse t   (* can't batch sparse *)
                  | None => false
                  end
                  || bool_decide (op = Splice)
                  || bool_decide (batchSize = 1%nat))
          end
      end
    else Ok (bool_decide (op = Splice) || bool_decide (batchSize = 1%nat)).

(** the naive branch: compute the ops without actual batching *)
Definition execute_naively (fuel : nat) (ops : FList) (isFree : bool) : M Memoize unit :=
  for_chain fuel
    (fun op =>
       (* execute it *)
       MemoizeKnowableValueInArena fuel op isFree ;;
       (* reset state *)
       ResetPendingToIdle op)
    (L.head ops).

(** the loop "over all batched ops" for input position [i]: classifies the
    operands and collects them. The accumulator is
    (allSame, allConsecutiveSlices, j, spliceInputs). *)
Definition collect_step (i : nat) (pfields0 : VarId) (lazyIndex0 : option FunId * Z)
    (acc : bool * bool * nat * list CNTKVariable) (op : FunId)
  : M Memoize (bool * bool * nat * list CNTKVariable) :=
  let '(allSame, allConsecutiveSlices, j, spliceInputs) := acc in
  do OP <- get_fun op;
  match m_inputs OP !! i with
  | None => throw (UndefinedBehavior "op->m_inputs[i]")
  | Some input =>
      let pfields := m_dataFields input in
      do fields <- get_var pfields;
      let lazyIndex := m_lazyIndex fields in
      let is0LazyIndex := bool_decide (fst lazyIndex0 <> None) in
      (* optimization: if all args are the same, then don't batch *)
      let allSame' :=
        allSame && (bool_decide (pfields = pfields0)
                    || (is0LazyIndex && bool_decide (lazyIndex = lazyIndex0))) in
      (* optimization: if all args are consecutive slices, then use a slice view instead *)
      let allConsecutiveSlices' :=
        if allConsecutiveSlices
        then bool_decide (fst lazyIndex = fst lazyIndex0)
             && bool_decide (snd lazyIndex = size_t_add (snd lazyIndex0) (Z.of_nat j))
        else allConsecutiveSlices in
      ret (allSame', allConsecutiveSlices', S j, spliceInputs ++ [input])
  end.

(** build the batched input for position [i]; returns it together with
    whether an input was actually batched *)
Definition batch_input (fuel : nat) (ops : FList) (F0 : Function) (maxRank : nat) (i : nat)
  : M Memoize (CNTKVariable * bool) :=
  match m_inputs F0 !! i with
  | None => throw (UndefinedBehavior "f0.m_inputs[i]")
  | Some input0 =>
      let pfields0 := m_dataFields input0 in
      do fields0 <- get_var pfields0;
      let lazyIndex0 := m_lazyIndex fields0 in
      let is0LazyIndex := bool_decide (fst lazyIndex0 <> None) in
      do r <- fold_chain fuel (collect_step i pfields0 lazyIndex0)
                (true, is0LazyIndex && bool_decide (snd lazyIndex0 <> SIZE_MAX), 0%nat, [])
                (L.head ops);
      let '(allSame, allConsecutiveSlices, j, spliceInputs) := r in
      if (allSame : bool) then
        (* all ops share the same operand: no need to batch them *)
        match spliceInputs with
        | x :: _ => ret (x, false)
        | [] => throw (UndefinedBehavior "spliceInputs[0]")
        end
      else if (allConsecutiveSlices : bool) then
        (* they are consecutive: can short-circuit as a slice view *)
        match fst lazyIndex0 with
        | None => throw (UndefinedBehavior "lazyIndex0.first")
        | Some from =>
            let begin := snd lazyIndex0 in
            do FROM <- get_fun from;
            match m_outputs FROM !! 0%nat with
            | None => throw (UndefinedBehavior "from->m_outputs[0]")
            | Some output =>
                do ofields <- get_var (m_dataFields output);
                fail_if (bool_decide (m_value ofields = None)) "value not yet available??" ;;
                let fromDims := m_shape ofields in
                let axis := size_t_sub (Z.of_nat (length fromDims)) 1 in
                match fromDims !! Z.to_nat axis with
                | None => throw (UndefinedBehavior "fromDims[axis]")
                | Some d =>
                    if (begin =? 0) && (Z.of_nat j =? d)
                    then (* full range: just take it *) ret (output, true)
                    else
                      (* sub-range: take a slice view on the previously spliced batch *)
                      let outputShape := <[Z.to_nat axis := Z.of_nat j]> fromDims in
                      let additionalProperties : Dictionary :=
                        <["axis" := DV_Axis (int_of_size_t axis)]>
                          (<["beginIndex" := DV_Int (int_of_size_t begin)]>
                             (<["endIndex" := DV_Int (int_of_size_t (size_t_add begin (Z.of_nat j)))]>
                                ∅)) in
                      do spliceOp <- RawPrimitiveFunction Slice [output] outputShape
                                       additionalProperties;
                      (* and execute it *)
                      do output' <- MemoizeKnowableValueInArena fuel spliceOp true;
                      ret (mkVariable (m_dataFields output') (Some spliceOp), true)
                end
            end
        end
      else
        (* create a new Function Splice() *)
        match spliceInputs with
        | [] => throw (UndefinedBehavior "spliceInputs[0]")
        | x :: _ =>
            do v0 <- LazilyIndexedValue fuel x;
            let outputShape :=
              resize_pad maxRank (nd_shape v0) ++ [Z.of_nat (length spliceInputs)] in
            let additionalProperties : Dictionary :=
              <["axis" := DV_Axis (int_of_size_t (Z.of_nat maxRank))]> ∅ in
            do spliceOp <- RawPrimitiveFunction Splice spliceInputs outputShape
                             additionalProperties;
            (* and execute it *)
            do output <- MemoizeKnowableValueInArena fuel spliceOp false;
            ret (mkVariable (m_dataFields output) (Some spliceOp), true)
        end
  end.

(** implant all results (all as lazy/virtual references through m_lazyIndex) *)
Definition implant_step (batchedOp : FunId) (j : Z) (op : FunId) : M Memoize Z :=
  do OP <- get_fun op;
  match m_outputs OP !! 0%nat with
  | None => throw (UndefinedBehavior "op->m_outputs[0]")
  | Some out =>
      update_var (m_dataFields out) (set_lazyIndex (Some batchedOp, j)) ;;
      (* reset state *)
      ResetPendingToIdle op ;;
      ret (if bool_decide (j <> SIZE_MAX) then size_t_add j 1 else j)
  end.

(** the batched branch: returns the identifier of the fused op *)
Definition execute_batched (fuel : nat) (ops : FList) (F0 : Function) : M Memoize FunId :=
  let op := m_op F0 in
  let isTimes := bool_decide (op = Times) in
  let batchSize := L.size ops in
  let numArgs := length (m_inputs F0) in
  let i0 := if isTimes then 1%nat else 0%nat in
  (* determine max rank *)
  do maxRank <- foldM (fun maxRank input =>
                         do sh <- Shape input;
                         ret (if (maxRank <? Rank sh)%nat then Rank sh else maxRank))
                      0%nat (drop i0 (m_inputs F0));
  (* Times(): matrix must be identical *)
  do first <- (if isTimes
               then match m_inputs F0 !! 0%nat with
                    | Some w => ret [w]
                    | None => throw (UndefinedBehavior "f0.m_inputs[0]")
                    end
               else ret []);
  do r <- foldM (fun (acc : list CNTKVariable * bool) i =>
                   do bi <- batch_input fuel ops F0 maxRank i;
                   ret (fst acc ++ [fst bi], snd acc || snd bi))
                (first, false) (seq i0 (numArgs - i0));
  let '(m_batchedInputs, anyBatchedInputs) := r in
  (* execute the operation and implant the results *)
  match m_outputs F0 !! 0%nat with
  | None => throw (UndefinedBehavior "f0.m_outputs[0]")
  | Some out0 =>
      do unbatchedOutputShape <- Shape out0;
      do batchedOp <-
        (if (anyBatchedInputs : bool)
         then (* create a new Function for the batched op *)
           RawPrimitiveFunction op m_batchedInputs
             (AppendAxis unbatchedOutputShape maxRank (Z.of_nat batchSize)) (m_attributes F0)
         else (* all inputs identical: compute it only once *)
           RawPrimitiveFunction op (m_inputs F0) unbatchedOutputShape (m_attributes F0));
      (* execute it *)
      MemoizeKnowableValueInArena fuel batchedOp false ;;
      fold_chain fuel (implant_step batchedOp)
        (if anyBatchedInputs then 0 else SIZE_MAX) (L.head ops) ;;
      ret batchedOp
  end.

(** update all ops' consumers and schedule them when possible *)
Definition notify_consumers (fuel : nat) (ops : FList) : M Memoize unit :=
  for_chain fuel
    (fun op =>
       do OP <- get_fun op;
       for_each
         (fun output : CNTKVariable =>
            do fields <- get_var (m_dataFields output);
            (* notify consumers *)
            (match fst (fst (m_consumers fields)) with
             | Some c => NotifyInputAvailable c
             | None => ret tt
             end) ;;
            for_each (fun c : FunId * nat => NotifyInputAvailable (fst c))
                     (snd (m_consumers fields)) ;;
            (* clear consumer list (this operation is done) *)
            update_var (m_dataFields output) clear_consumers)
         (m_outputs OP))
    (L.head ops).

(** batch-execute a set of ops that are known to be batchable *)
Definition ExecuteBatchedOpAndUpdateSchedule (fuel : nat) (ops : FList) : M Memoize unit :=
  match L.front ops with
  | None => throw (UndefinedBehavior "*ops.front()")
  | Some f0 =>
      do F0 <- get_fun f0;
      let isFree := IsViewOp (m_op F0) in
      (if isFree then ret tt
       else modify (fun s =>
              with_numBatchedLaunches (size_t_add (m_numBatchedLaunches s) 1) s)) ;;
      do naive <- read (fun s => doNaively s F0 (L.size ops));
      (if (naive : bool)
       then execute_naively fuel ops isFree
       else execute_batched fuel ops F0 ;; ret tt) ;;
      notify_consumers fuel ops
  end.

(** the loop of [TraverseFunctionTreeForward] over the inputs of [f], with
    the recursive call abstracted; returns the number of pending inputs *)
Definition traverse_inputs (rec : CNTKVariable -> M Memoize unit) (f : FunId)
    (inputs : list CNTKVariable) : M Memoize nat :=
  do r <-
  foldM (fun (acc : nat * nat) (input : CNTKVariable) =>
           let '(pendingInputs, i) := acc in
           do fields <- get_var (m_dataFields input);
           match m_value fields with
           | Some _ => ret (pendingInputs, S i)
           | None =>
               (* recursively traverse *)
               rec input ;;
               do fields' <- get_var (m_dataFields input);
               match m_value fields' with
               | Some _ => ret (pendingInputs, S i)  (* a Parameter may now have a value *)
               | None =>
                   (* record ourselves as a consumer of the input *)
                   update_var (m_dataFields input) (add_consumer (f, i)) ;;
                   ret (S pendingInputs, S i)
               end
           end)
        (0%nat, 0%nat) inputs;
  ret (fst r).

(** recursively traverse the tree hanging off a Variable: prepare all nodes
    for batched execution and schedule all ready operations *)
Fixpoint TraverseFunctionTreeForward (fuel : nat) (var : CNTKVariable) : M Memoize unit :=
  match fuel with
  | O => throw OutOfFuel
  | S fuel' =>
      do fields <- get_var (m_dataFields var);
      if bool_decide (m_value fields <> None) then
        throw (LogicError "TraverseFunctionTreeForward() should not have been called on variables that already have a value.")
      else if bool_decide (m_varKind fields = VK_Input) || bool_decide (m_varKind fields = VK_Placeholder) then
        throw (LogicError "Value() depends on Input or Placeholder, it is not knowable.")
      else if bool_decide (m_varKind fields = VK_Parameter) || bool_decide (m_varKind fields = VK_Constant) then
        (* var.Value() initializes it *)
        do val <- on_tensors (InitialValue K (m_dataFields var) fields);
        update_var (m_dataFields var) (set_value val) ;;
        if bool_decide (val = None)
        then throw (LogicError "Parameter/Constant has no Value??")
        else ret tt
      else
        match m_ownerFunction fields with
        | None => throw (UndefinedBehavior "*fields.m_ownerFunction.lock()")
        | Some f =>
            do F <- get_fun f;
            if bool_decide (m_pendingInputs F <> -1) then ret tt   (* already visited *)
            else
              (* determine how many inputs are pending; recurse and set up the consumer list *)
              do pendingInputs <-
                traverse_inputs (TraverseFunctionTreeForward fuel') f (m_inputs F);
              update_fun f (set_pendingInputs (int_of_size_t (Z.of_nat pendingInputs))) ;;
              (* if none then operation is ready *)
              if bool_decide (pendingInputs = 0%nat) then Schedule f else ret tt
        end
  end.

(** the loop of [GetValue]: compute the entire graph *)
Fixpoint run_schedule (fuel : nat) (execFuel : nat) : M Memoize unit :=
  do s <- get;
  if ReadyOps_empty (m_schedule s) then ret tt
  else
    match fuel with
    | O => throw OutOfFuel
    | S fuel' =>
        (* select the best amongst the scheduled ops *)
        let opBatch := pop_best (m_schedule s) in
        modify_schedule (fun _ => snd opBatch) ;;
        (* execute it, and also update all outputs' values and consumers, and the schedule *)
        ExecuteBatchedOpAndUpdateSchedule execFuel (fst opBatch) ;;
        run_schedule fuel' execFuel
    end.

(** Value(), computed with automatic batching *)
Definition GetValue (fuel : nat) (v : CNTKVariable) : M Memoize NDArrayViewPtr :=
  do fields <- get_var (m_dataFields v);
  (* if value already there then just return it *)
  match m_value fields with
  | Some t => ret (Some t)
  | None =>
      (* prepare and schedule first set *)
      TraverseFunctionTreeForward fuel v ;;
      run_schedule fuel fuel ;;
      do fields' <- get_var (m_dataFields v);
      if bool_decide (m_value fields' = None)
      then throw (AssertionFailure "fields.m_value")
      else
        do t <- LazilyIndexedValue fuel v;
        ret (Some t)
  end.

End Forward.

(** ** Backward *)

(** lazily create m_gradient, which may live in a batched op.
    Returns beta = 0 if gradient was newly created, otherwise 1 *)
Fixpoint LazilyCreateLazilyIndexedGradient (fuel : nat) (v : CNTKVariable) : M Memoize Q :=
  match fuel with
  | O => throw OutOfFuel
  | S fuel' =>
      do fields <- get_var (m_dataFields v);
      match m_gradient fields with
      | Some _ => ret 1%Q   (* if gradient exists then return it *)
      | None =>
          match fst (m_lazyIndex fields) with
          | Some from =>
              (* the gradient lives in the batched op as well; we return a view onto it *)
              let index := snd (m_lazyIndex fields) in
              do FROM <- get_fun from;
              match m_outputs FROM !! 0%nat with
              | None => throw (UndefinedBehavior "from->m_outputs[0]")
              | Some fromOutput =>
                  do beta <- LazilyCreateLazilyIndexedGradient fuel' fromOutput;
                  do fromFields <- get_var (m_dataFields fromOutput);
                  let fromGradient := m_gradient fromFields in
                  if index =? SIZE_MAX
                  then (* "don't slice, actually" *)
                    update_var (m_dataFields v) (set_gradient fromGradient) ;;
                    ret beta
                  else
                    (* it's a slice: gradient is a slice view into from's output gradient *)
                    match fromGradient with
                    | None => throw (UndefinedBehavior "fromGradient is null")
                    | Some g =>
                        do beta' <- (if Qeq_bool beta 0
                                     then (* gradient is fresh: explicitly reset all *)
                                       on_tensors (SetValue g 0%Q) ;; ret 1%Q
                                     else ret beta);
                        do t <- on_tensors (IndexLastAxis g index);
                        update_var (m_dataFields v) (set_gradient (Some t)) ;;
                        ret beta'
                    end
              end
          | None =>
              (* create a new one *)
              match m_value fields with
              | None => throw (UndefinedBehavior "fields.m_value is null")
              | Some val =>
                  do t <- on_tensors
                            (AllocateTensorInArena (m_shape fields) (m_dataType fields) (nd_device val));
                  update_var (m_dataFields v) (set_gradient (Some t)) ;;
                  ret 0%Q   (* has not been initialized *)
              end
          end
      end
  end.

(** [DetermineConsumersForBackward(Function& f)], with the recursive call
    on Variables abstracted *)
Definition DetermineConsumersForBackward_Function (rec : CNTKVariable -> M Memoize unit)
    (f : FunId) : M Memoize unit :=
  do F <- get_fun f;
  fail_if (bool_decide (m_pendingInputs F = -2)) "unexpectedly encountered a cyclic graph??" ;;
  if bool_decide (m_pendingInputs F <> -1) then ret tt   (* already visited *)
  else
    fail_if (bool_decide (m_op F = StopGradient))
      "unexpectedly encountered a StopGradient, which should have propagated m_needsGradient=false upwards" ;;
    (* we are now in a Function that should backprop its gradient *)
    update_fun f (set_pendingInputs (-2)) ;;
    foldM (fun (i : nat) (input0 : CNTKVariable) =>
             do fields0 <- get_var (m_dataFields input0);
             do input <- (match fst (m_lazyIndex fields0) with
                          | Some p =>
                              do P <- get_fun p;
                              match m_outputs P !! 0%nat with
                              | Some o => ret o
                              | None => throw (UndefinedBehavior "m_lazyIndex.first->m_outputs[0]")
                              end
                          | None => ret input0
                          end);
             update_var (m_dataFields input) (set_visited false) ;;
             do fields <- get_var (m_dataFields input);
             if negb (m_needsGradient fields) then ret (S i) (* skip inputs that receive no gradients *)
             else
               (* this input will receive a gradient; reset it *)
               update_var (m_dataFields input) (set_gradient None) ;;
               (* record ourselves as a consumer of the input *)
               update_var (m_dataFields input) (add_consumer (f, i)) ;;
               (* now process recursively the inputs *)
               rec input ;;
               ret (S i))
          0%nat (m_inputs F) ;;
    update_fun f (set_pendingInputs 0).   (* used as a visited flag *)

(** recursively traverse the tree hanging off a Variable and build the
    m_consumer fields *)
Fixpoint DetermineConsumersForBackward (fuel : nat) (var : CNTKVariable) : M Memoize unit :=
  match fuel with
  | O => throw OutOfFuel
  | S fuel' =>
      update_var (m_dataFields var) (set_visited false) ;;
      do fields <- get_var (m_dataFields var);
      if bool_decide (m_varKind fields = VK_Parameter) || bool_decide (m_varKind fields = VK_Constant)
      then ret tt   (* reached a leaf *)
      else
        fail_if (bool_decide (m_value fields = None)) "variable has no value yet??" ;;
        fail_if (negb (m_needsGradient fields))
          "unexpectedly encountered a node with m_needsGradient=false??" ;;
        fail_if (bool_decide (m_varKind fields = VK_Input) || bool_decide (m_varKind fields = VK_Placeholder))
          "unexpectedly encountered an Input or a Placeholder??" ;;
        match fst (m_lazyIndex fields) with
        | Some f =>
            DetermineConsumersForBackward_Function (DetermineConsumersForBackward fuel') f
        | None =>
            match m_ownerFunction fields with
            | Some f =>
                DetermineConsumersForBackward_Function (DetermineConsumersForBackward fuel') f
            | None => throw (UndefinedBehavior "*fields.m_ownerFunction.lock()")
            end
        end
  end.

(** [DetermineBucket]: [true] stands for m_matrixWeightConsumers, [false]
    for m_otherConsumers *)
Definition DetermineBucket (c : FunId * nat) : M Memoize bool :=
  do F <- get_fun (fst c);
  fail_if (bool_decide (length (m_outputs F) <> 1%nat))
    "for now only functions with a single output are supported" ;;
  (* backprop into Times' matrix argument *)
  ret (bool_decide (m_op F = Times) && bool_decide (snd c = 0%nat)).

Definition bucket_push_back (c : FunId * nat) : M Memoize unit :=
  do isMatrixWeight <- DetermineBucket c;
  modify (fun s =>
    if (isMatrixWeight : bool)
    then with_matrixWeightConsumers (m_matrixWeightConsumers s ++ [c]) s
    else with_otherConsumers (m_otherConsumers s ++ [c]) s).

Section Backward.
Context (K : Collaborators).

(** back-propagate all of f's outputs' m_gradients to one input *)
Definition BackpropTo (fuel : nat) (f : FunId) (index : nat) : M Memoize unit :=
  do F <- get_fun f;
  match m_inputs F !! index with
  | None => throw (UndefinedBehavior "inputs[index]")
  | Some input =>
      do fields <- get_var (m_dataFields input);
      fail_if (negb (m_needsGradient fields)) "function unexpectedly does not need a gradient" ;;
      fail_if (bool_decide (length (m_outputs F) <> 1%nat))
        "only functions with 1 output are currently supported" ;;
      match m_outputs F !! 0%nat with
      | None => throw (UndefinedBehavior "outputs[0]")
      | Some output =>
          do outputFields <- get_var (m_dataFields output);
          fail_if (bool_decide (fst (m_lazyIndex outputFields) <> None))
            "unexpectedly ran into a function that does not own its output" ;;
          match m_value outputFields, m_gradient outputFields with
          | None, _ =>
              throw (LogicError "unexpectedly ran into a function that has no m_value yet??")
          | Some _, None =>
              throw (LogicError "unexpectedly ran into a function that has no m_gradient yet??")
          | Some outputValue, Some outputGradient =>
              (* input values *)
              do inputValues <-
                mapM (fun input1 : CNTKVariable =>
                        do fields1 <- get_var (m_dataFields input1);
                        match m_value fields1 with
                        | Some t => ret t
                        | None => throw (LogicError
                            "unexpectedly ran into a function that has no m_value yet??")
                        end)
                     (m_inputs F);
              (* get or create m_gradient as the desired gradient's TensorView *)
              do beta <- LazilyCreateLazilyIndexedGradient fuel input;
              do fields' <- get_var (m_dataFields input);
              (* backprop into the input *)
              on_tensors (BackpropToKernel K outputGradient index (m_op F) (m_attributes F)
                            outputValue inputValues (m_gradient fields') beta)
          end
      end
  end.

(** backprop into weight parameter of a Times op (inputs[0]); the [#if 1]
    branch *)
Definition BackpropToMatrixWeight (fuel : nat) (consumers : list (FunId * nat))
  : M Memoize unit :=
  for_each (fun c : FunId * nat => BackpropTo fuel (fst c) (snd c)) consumers.

(** backprop gradient into 'var' by pulling all of its consumers (recursively) *)
Fixpoint AggregateGradientFromAllConsumers (fuel : nat) (var : CNTKVariable) : M Memoize unit :=
  match fuel with
  | O => throw OutOfFuel
  | S fuel' =>
      do fields <- get_var (m_dataFields var);
      if m_visited fields then ret tt
      else
        let c := fst (m_consumers fields) in
        match fst c with
        | None => ret tt   (* reached a leaf *)
        | Some cf =>
            fail_if (negb (m_needsGradient fields))
              "backprop into variable that does not need gradient" ;;
            update_var (m_dataFields var) (set_visited true) ;;
            (* realize all consumers' outputs' gradients *)
            do CF <- get_fun cf;
            for_each (AggregateGradientFromAllConsumers fuel') (m_outputs CF) ;;
            for_each (fun c' : FunId * nat =>
                        do CF' <- get_fun (fst c');
                        for_each (AggregateGradientFromAllConsumers fuel') (m_outputs CF'))
                     (snd (m_consumers fields)) ;;
            (* Now all consumers are ready to propagate into var's m_gradient. *)
            do fields' <- get_var (m_dataFields var);
            fail_if (bool_decide (m_varKind fields' <> VK_Parameter)
                     && bool_decide (m_gradient fields' <> None))
              "non-Parameter variable unexpectedly already has a gradient" ;;
            (* fast path: only one consumer, nothing to batch *)
            if bool_decide (snd (m_consumers fields') = [])
            then BackpropTo fuel cf (snd c)
            else
              (* optimized path: first sort all consumer gradients according to their operation *)
              do s <- get;
              fail_if (bool_decide (m_otherConsumers s <> []))
                "consumer bucket lists unexpectedly not cleaned up" ;;
              bucket_push_back (cf, snd c) ;;
              for_each bucket_push_back (snd (m_consumers fields')) ;;
              (* matrix-weight bucket *)
              do s1 <- get;
              (if bool_decide (m_matrixWeightConsumers s1 <> [])
               then BackpropToMatrixWeight fuel (m_matrixWeightConsumers s1) ;;
                    modify (with_matrixWeightConsumers [])
               else ret tt) ;;
              (* others bucket *)
              do s2 <- get;
              for_each (fun c' : FunId * nat => BackpropTo fuel (fst c') (snd c'))
                       (m_otherConsumers s2) ;;
              modify (with_otherConsumers [])
        end
  end.

(** the start of [Backward]: "implant the first gradient".
    [root.Value()] is read from the value slot, which [GetValue] has filled. *)
Definition implant_first_gradient (root : CNTKVariable) : M Memoize unit :=
  do fields <- get_var (m_dataFields root);
  match m_value fields with
  | None => throw (UndefinedBehavior "root.Value() is null")
  | Some val =>
      do g <- on_tensors (AllocateTensorInArena (m_shape fields) (m_dataType fields) (nd_device val));
      update_var (m_dataFields root) (set_gradient (Some g)) ;;
      on_tensors (SetValue g 1%Q)
  end.

(** the rest of [Backward], after the first gradient has been implanted *)
Definition backward_pull (fuel : nat) (gradients : list (CNTKVariable * NDArrayViewPtr))
  : M Memoize (list (CNTKVariable * NDArrayViewPtr)) :=
  (* if user passed NDArrayViewPtrs for the gradients, then keep using them *)
  for_each (fun kv : CNTKVariable * NDArrayViewPtr =>
              (match snd kv with
               | Some t => on_tensors (SetValue t 0%Q)
               | None => ret tt
               end) ;;
              update_var (m_dataFields (fst kv)) (set_gradient (snd kv)))
           gradients ;;
  (* perform backprop; the two [logic_error(...)] statements construct an
     exception object without throwing it *)
  for_each (fun kv : CNTKVariable * NDArrayViewPtr =>
              do fields <- get_var (m_dataFields (fst kv));
              AggregateGradientFromAllConsumers fuel (fst kv))
           gradients ;;
  (* implant the results into the map the user passed in *)
  do result <- mapM (fun kv : CNTKVariable * NDArrayViewPtr =>
                       do fields <- get_var (m_dataFields (fst kv));
                       ret (fst kv, m_gradient fields))
                    gradients;
  (* WORKAROUND: clear the consumers of the requested parameters *)
  for_each (fun kv : CNTKVariable * NDArrayViewPtr =>
              update_var (m_dataFields (fst kv)) clear_consumers)
           gradients ;;
  ret result.

(** implant gradients into all variables. [gradients] lists the entries of
    the unordered map in iteration order. *)
Definition Backward (fuel : nat) (root : CNTKVariable)
    (gradients : list (CNTKVariable * NDArrayViewPtr))
  : M Memoize (list (CNTKVariable * NDArrayViewPtr)) :=
  (* [if (!root.m_dataFields->m_needsGradient) logic_error(...)]: the
     exception object is constructed, not thrown *)
  do rootFields <- get_var (m_dataFields root);
  (* first get the forward computation, batching, etc. done if not yet *)
  GetValue K fuel root ;;
  (* set up the m_consumer fields, which Backward() will work off *)
  DetermineConsumersForBackward fuel root ;;
  (* implant the first gradient *)
  implant_first_gradient root ;;
  backward_pull fuel gradients.

End Backward.

(** ** Predicates used in the statements *)

(** the invariant of the allocator's statics: the used counter stays within
    the block, and the block is a flat buffer of [ARENASIZE] elements that
    was allocated earlier *)
Definition arena_wf (th : TensorHeap) : Prop :=
  0 <= m_currentArenaUsed th <= ARENASIZE /\
  forall a, m_currentArena th = Some a ->
            nd_shape a = [ARENASIZE] /\ nd_offset a = 0 /\ (nd_block a < th_nextBlock th)%nat.

(** a tensor is standalone when its buffer is not the arena block *)
Definition standalone (r : NDArrayView) (th : TensorHeap) : Prop :=
  forall a, m_currentArena th = Some a -> nd_block a <> nd_block r.

(** a run of allocation requests *)
Fixpoint allocate_all (reqs : list (NDShape * DataType * DeviceDescriptor))
  : M TensorHeap unit :=
  match reqs with
  | [] => ret tt
  | (shape, dt, dev) :: reqs' =>
      AllocateTensorInArena shape dt dev ;; allocate_all reqs'
  end.

(** an allocated tensor is accounted for: its buffer exists and, when it
    lies in the current arena block, it lies below the used counter *)
Definition accounted (r : NDArrayView) (th : TensorHeap) : Prop :=
  (nd_block r < th_nextBlock th)%nat /\
  forall a, m_currentArena th = Some a -> nd_block a = nd_block r ->
            nd_offset r + TotalSize (nd_shape r) <= m_currentArenaUsed th.

(** the tensor heap of a new process, and one in which a first small
    tensor has been carved from the arena *)
Definition th_init : TensorHeap := mkTensorHeap 0 0 (fun _ _ => None) None 0.

Definition th_one_block : TensorHeap :=
  mkTensorHeap 3 1 (fun _ _ => None)
    (Some (mkNDArrayView 0 0 0 [ARENASIZE] DT_Float CPUDevice false)) 4.

(** *** The ready lists as sequences

    [is_chain fh h l]: following [m_link] from [h] visits exactly the
    Functions [l] and ends at the null pointer. *)
Inductive is_chain (fh : gmap FunId Function) : option FunId -> list FunId -> Prop :=
| chain_nil : is_chain fh None []
| chain_cons (f : FunId) (F : Function) (l : list FunId) :
    fh !! f = Some F -> is_chain fh (m_link F) l -> is_chain fh (Some f) (f :: l).

(** a builder represents the sequence [l] *)
Definition builder_repr (fh : gmap FunId Function) (b : FListBuilder) (l : list FunId) : Prop :=
  is_chain fh (B.front b) l /\
  B.size b = length l /\
  (l <> [] -> B.tail b = last l).

(** the batchability predicate in the words of the specification: same op
    code, same arity, for every input position equal shapes, except that
    position 0 of a Times must be the very same variable, and equal
    attribute dictionaries *)
Definition batchable_spec (s : Memoize) (a b : FunId) : Prop :=
  exists A B,
    funs s !! a = Some A /\ funs s !! b = Some B /\
    m_op A = m_op B /\
    length (m_inputs A) = length (m_inputs B) /\
    (forall (i : nat) ia ib,
        m_inputs A !! i = Some ia -> m_inputs B !! i = Some ib ->
        if bool_decide (m_op A = Times /\ i = 0%nat)
        then m_dataFields ia = m_dataFields ib
        else exists sh, ShapeOf s ia = Some sh /\ ShapeOf s ib = Some sh) /\
    m_attributes A = m_attributes B.

(** every member of a bucket is its head or batchable with its head *)
Definition homogeneous (s : Memoize) (l : list FunId) : Prop :=
  forall h g, head l = Some h -> g ∈ l -> g = h \/ batchable_spec s g h.

(** the schedule represents a view queue [V], regular buckets [R] and a
    barrier queue [Bq] *)
Record sched_repr (s : Memoize) (V : list FunId) (R : list (list FunId)) (Bq : list FunId)
  : Prop := mk_sched_repr {
  repr_view : builder_repr (funs s) (m_viewOps (m_schedule s)) V;
  repr_regular : Forall2 (builder_repr (funs s)) (m_regularOps (m_schedule s)) R;
  repr_barrier : builder_repr (funs s) (m_barrierOps (m_schedule s)) Bq;
  repr_nodup : NoDup (V ++ concat R ++ Bq);
  repr_nonempty : Forall (fun l => l <> []) R;
  repr_homogeneous : Forall (homogeneous s) R;
}.

(** [f] is on one of the ready lists *)
Definition queued (s : Memoize) (f : FunId) : Prop :=
  exists b l,
    (b = m_viewOps (m_schedule s) \/ b ∈ m_regularOps (m_schedule s)
     \/ b = m_barrierOps (m_schedule s)) /\
    is_chain (funs s) (B.front b) l /\ f ∈ l.

(** what the scheduler never changes and what the rest of the engine never
    changes behind its back: op codes, inputs, attributes and links of
    existing Functions, and shapes of existing Variables *)
Definition same_skeleton (s s' : Memoize) : Prop :=
  (forall f F, funs s !! f = Some F ->
     exists F', funs s' !! f = Some F' /\ m_op F' = m_op F /\ m_inputs F' = m_inputs F /\
                m_attributes F' = m_attributes F /\ m_link F' = m_link F) /\
  (forall v x, vars s !! v = Some x ->
     exists x', vars s' !! v = Some x' /\ m_shape x' = m_shape x).

(** the scheduler states of a run: from a new schedule, by scheduling
    Functions that are not queued, by popping, and by steps of the rest of
    the engine that leave the schedule alone *)
Inductive sched_reachable : Memoize -> Prop :=
| reach_new (s : Memoize) :
    m_schedule s = ReadyOps_new -> sched_reachable s
| reach_Schedule (s s' : Memoize) (f : FunId) :
    sched_reachable s -> ~ queued s f -> Schedule f s = Ok (tt, s') -> sched_reachable s'
| reach_pop (s : Memoize) :
    sched_reachable s ->
    sched_reachable (with_schedule (snd (pop_best (m_schedule s))) s)
| reach_frame (s s' : Memoize) :
    sched_reachable s -> m_schedule s' = m_schedule s -> same_skeleton s s' ->
    sched_reachable s'.

(** a change of the Function heap that touches links only *)
Definition links_only (fh fh' : gmap FunId Function) : Prop :=
  forall g G, fh !! g = Some G ->
    exists G', fh' !! g = Some G' /\ m_op G' = m_op G /\ m_inputs G' = m_inputs G /\
               m_outputs G' = m_outputs G /\ m_attributes G' = m_attributes G /\
               m_pendingInputs G' = m_pendingInputs G.

(** the position of the first bucket whose head is batchable with [f], as
    the scan of [Schedule] finds it; an error of the predicate on the way
    is an error of the scan *)
Fixpoint first_batchable (s : Memoize) (f : FunId) (heads : list FunId)
  : result (option nat) :=
  match heads with
  | [] => Ok None
  | h :: hs =>
      match AreBatchable s f h with
      | Err e => Err e
      | Ok true => Ok (Some 0%nat)
      | Ok false =>
          match first_batchable s f hs with
          | Ok (Some k) => Ok (Some (S k))
          | r => r
          end
      end
  end.

(** *** Example graphs *)

Definition ex_var (kind : VariableKind) (shape : NDShape) (owner : option FunId)
  : VariableFields :=
  mkVariableFields kind shape DT_Float true None None (None, 0) ((None, 0%nat), []) false owner.

Definition ex_fun (op : PrimitiveOpType) (inputs : list VarId) (output : VarId) : Function :=
  mkFunction op (map (fun v => mkVariable v None) inputs) [mkVariable output None] ∅ (-1) None.

Definition ex_engine (vs : gmap VarId VariableFields) (fs : gmap FunId Function) : Memoize :=
  mkMemoize vs fs 100 th_init ReadyOps_new 0 [] [].

(** two Times ops whose weights W1 (variable 0) and W2 (variable 1) have the
    same shape but are distinct variables, applied to the same x (variable 2) *)
Definition ex_two_weights : Memoize :=
  ex_engine
    (<[0%nat := ex_var VK_Parameter [3; 4] None]>
     (<[1%nat := ex_var VK_Parameter [3; 4] None]>
      (<[2%nat := ex_var VK_Parameter [4] None]>
       (<[3%nat := ex_var VK_Output [3] (Some 10%nat)]>
        (<[4%nat := ex_var VK_Output [3] (Some 11%nat)]> ∅)))))
    (<[10%nat := ex_fun Times [0%nat; 2%nat] 3%nat]>
     (<[11%nat := ex_fun Times [1%nat; 2%nat] 4%nat]> ∅)).

(** the same graph after [Schedule] of the first Times *)
Definition ex_two_weights_scheduled : Memoize :=
  match Schedule 10 ex_two_weights with
  | Ok (_, s') => s'
  | Err _ => ex_two_weights
  end.

(** a barrier: NoOp applied to a parameter *)
Definition ex_barrier : Memoize :=
  ex_engine
    (<[0%nat := ex_var VK_Parameter [4] None]>
     (<[1%nat := ex_var VK_Output [4] (Some 10%nat)]> ∅))
    (<[10%nat := ex_fun NoOp [0%nat] 1%nat]> ∅).

(** *** The mode of a batch execution, in the words of the specification *)



(** a Function that waits for its last input *)
Definition ex_one_pending : Memoize :=
  with_funs (<[10%nat := set_pendingInputs 1 (ex_fun Times [0%nat; 2%nat] 3%nat)]>
               (funs ex_two_weights)) ex_two_weights.

(** collaborators for the examples: the forward kernel returns the output
    buffer it is given, or a new view of its first input; the backward
    kernel leaves the tensors alone; a leaf gets a new tensor of its shape *)
Definition ex_kernels : Collaborators :=
  mkCollaborators
    (fun op inputValues attributes outputShape outValue =>
       match outValue with
       | Some t => ret (Some t)
       | None =>
           match inputValues with
           | v :: _ => do t <- new_view_of v (nd_offset v) outputShape; ret (Some t)
           | [] => ret None
           end
       end)
    (fun outputGradient index op attributes outputValue inputValues gradient beta => ret tt)
    (fun v fields =>
       do t <- new_NDArrayView (m_dataType fields) (m_shape fields) CPUDevice; ret (Some t)).

(** a chain y = g(h), h = g(p) over a parameter p: variables 0 (p), 1 (h),
    2 (y), Functions 10 (producing h) and 11 (producing y) *)
Definition ex_chain : Memoize :=
  ex_engine
    (<[0%nat := ex_var VK_Parameter [4] None]>
     (<[1%nat := ex_var VK_Output [4] (Some 10%nat)]>
      (<[2%nat := ex_var VK_Output [4] (Some 11%nat)]> ∅)))
    (<[10%nat := ex_fun (OtherOp 0) [0%nat] 1%nat]>
     (<[11%nat := ex_fun (OtherOp 0) [1%nat] 2%nat]> ∅)).

(** the state is clean: every Function is idle and no Variable has a consumer *)
Definition state_clean (s : Memoize) : Prop :=
  (forall f F, funs s !! f = Some F -> m_pendingInputs F = -1) /\
  (forall v x, vars s !! v = Some x ->
     fst (fst (m_consumers x)) = None /\ snd (m_consumers x) = []).

Definition state_cleanb (s : Memoize) : bool :=
  forallb (fun fF : FunId * Function => m_pendingInputs (snd fF) =? -1) (map_to_list (funs s))
  && forallb (fun vx : VarId * VariableFields =>
                bool_decide (fst (fst (m_consumers (snd vx))) = None)
                && bool_decide (snd (m_consumers (snd vx)) = []))
             (map_to_list (vars s)).

(** the chain in which the parameter p holds a value *)
Definition ex_chain_valued : Memoize :=
  with_vars
    (<[0%nat := set_value (Some (mkNDArrayView 0 0 0 [4] DT_Float CPUDevice false))
                  (ex_var VK_Parameter [4] None)]> (vars ex_chain))
    ex_chain.

(** two Times ops that share their weight W (variable 0) and differ in the
    second operand (variables 2 and 5, of the same shape) *)
Definition ex_shared_weight : Memoize :=
  ex_engine
    (<[0%nat := ex_var VK_Parameter [3; 4] None]>
     (<[2%nat := ex_var VK_Parameter [4] None]>
      (<[5%nat := ex_var VK_Parameter [4] None]>
       (<[3%nat := ex_var VK_Output [3] (Some 10%nat)]>
        (<[4%nat := ex_var VK_Output [3] (Some 11%nat)]> ∅)))))
    (<[10%nat := ex_fun Times [0%nat; 2%nat] 3%nat]>
     (<[11%nat := ex_fun Times [0%nat; 5%nat] 4%nat]> ∅)).

(** ** Further members of the engine *)

(** [auto autoBatcher = Variable::Memoize();]: the members of a newly
    constructed engine. The objects of the graph, the tensors and the
    statics of the allocator are not members; they carry over. *)
Definition Memoize_new (s : Memoize) : Memoize :=
  mkMemoize (vars s) (funs s) (next_id s) (tensors s) ReadyOps_new 0 [] [].

(** [PrimitiveFunction::BatchedForward()] of the Function [f] *)
Definition BatchedForward (K : Collaborators) (fuel : nat) (f : FunId)
  : M Memoize NDArrayViewPtr :=
  modify Memoize_new ;;
  do F <- get_fun f;
  match m_outputs F !! 0%nat with
  | Some out => GetValue K fuel out
  | None => throw (UndefinedBehavior "m_outputs[0]")
  end.

(** [PrimitiveFunction::BatchedBackward(gradients)] of the Function [f] *)
Definition BatchedBackward (K : Collaborators) (fuel : nat) (f : FunId)
    (gradients : list (CNTKVariable * NDArrayViewPtr))
  : M Memoize (list (CNTKVariable * NDArrayViewPtr)) :=
  modify Memoize_new ;;
  do F <- get_fun f;
  match m_outputs F !! 0%nat with
  | Some out => Backward K fuel out gradients
  | None => throw (UndefinedBehavior "m_outputs[0]")
  end.

(** [GatherBatchInArena]: batch an array of NDArrayViews of the same shape
    into a new axis. [NDArrayView::GatherBatch(inputs, axis, out)] is a
    collaborator; the function is parametric in it. *)
Definition GatherBatchInArena
    (GatherBatch : list NDArrayViewPtr -> Z -> NDArrayView -> M TensorHeap NDArrayViewPtr)
    (inputs : list NDArrayViewPtr) : M TensorHeap NDArrayViewPtr :=
  match inputs with
  | Some input0 :: _ =>
      let inputShape := nd_shape input0 in
      let axis := Z.of_nat (length inputShape) in
      let gatherBatchResultDims := inputShape ++ [Z.of_nat (length inputs)] in
      do out <- AllocateTensorInArena gatherBatchResultDims (nd_dataType input0) (nd_device input0);
      GatherBatch inputs (int_of_size_t axis) out
  | _ => throw (UndefinedBehavior "*inputs[0]")
  end.

(** *** Relations between the states before and after a call *)

(** a computation, whenever it returns, relates its initial and final
    state by [R] *)
Definition preserves {A : Type} (R : Memoize -> Memoize -> Prop) (c : M Memoize A) : Prop :=
  forall s a s', c s = Ok (a, s') -> R s s'.

(** object identifiers are handed out in increasing order: every live
    object is older than the next identifier *)
Definition ids_fresh (s : Memoize) : Prop :=
  (forall f, is_Some (funs s !! f) -> (f < next_id s)%nat) /\
  (forall v, is_Some (vars s !! v) -> (v < next_id s)%nat).

(** the members of a Function that define the graph *)
Definition fun_static (G G' : Function) : Prop :=
  m_op G' = m_op G /\ m_inputs G' = m_inputs G /\ m_outputs G' = m_outputs G /\
  m_attributes G' = m_attributes G.

(** the members of a Variable that define the graph *)
Definition var_static (x x' : VariableFields) : Prop :=
  m_varKind x' = m_varKind x /\ m_shape x' = m_shape x /\ m_dataType x' = m_dataType x /\
  m_needsGradient x' = m_needsGradient x /\ m_ownerFunction x' = m_ownerFunction x.

(** the graph is augmented, not transformed: the objects that existed
    before are still there and define the same graph, their gradient slots
    and visited flags are as before; new objects have new identifiers *)
Definition graph_augmented (s s' : Memoize) : Prop :=
  ids_fresh s ->
  ids_fresh s' /\ (next_id s <= next_id s')%nat /\
  (forall f G, funs s !! f = Some G -> exists G', funs s' !! f = Some G' /\ fun_static G G') /\
  (forall v x, vars s !! v = Some x ->
     exists x', vars s' !! v = Some x' /\ var_static x x' /\
                m_gradient x' = m_gradient x /\ m_visited x' = m_visited x).

(** the statistics counter is untouched *)
Definition launches_kept (s s' : Memoize) : Prop :=
  m_numBatchedLaunches s' = m_numBatchedLaunches s.


Definition ids_freshb (s : Memoize) : bool :=
  forallb (fun fF : FunId * Function => (fst fF <? next_id s)%nat) (map_to_list (funs s))
  && forallb (fun vx : VarId * VariableFields => (fst vx <? next_id s)%nat)
             (map_to_list (vars s)).

(** the chain in which p holds a value and the Function producing h has been
    counted ready ([m_pendingInputs] 0) *)
Definition ex_chain_ready : Memoize :=
  with_funs (<[10%nat := set_pendingInputs 0 (ex_fun (OtherOp 0) [0%nat] 1%nat)]>
               (funs ex_chain_valued)) ex_chain_valued.


(** the Functions that [for (op = l.begin(); op != l.end(); ++op)] visits *)
Definition elements (fuel : nat) (l : FList) : M Memoize (list FunId) :=
  fold_chain fuel (fun acc f => ret (acc ++ [f])) [] (L.head l).

(** a list that is built by [push_back] from a default-constructed builder *)
Definition build (l : list FunId) : M Memoize FListBuilder :=
  foldM (fun b f => push_back f b) B.new l.


(** the chain in which Function 10 is linked to Function 11: the list
    [10; 11] *)
Definition ex_chain_linked : Memoize :=
  with_funs (<[10%nat := set_link (Some 11%nat) (ex_fun (OtherOp 0) [0%nat] 1%nat)]>
               (funs ex_chain)) ex_chain.


(** the graph with the shared weight after [Schedule] of the first Times,
    and after [Schedule] of both *)
Definition ex_shared_weight_first : Memoize :=
  match Schedule 10 ex_shared_weight with
  | Ok (_, s') => s'
  | Err _ => ex_shared_weight
  end.

Definition ex_shared_weight_scheduled : Memoize :=
  match Schedule 11 ex_shared_weight_first with
  | Ok (_, s') => s'
  | Err _ => ex_shared_weight_first
  end.


(** the consumers that a Variable records: the first slot when it is
    occupied, then the overflow vector *)
Definition consumers_of (x : VariableFields) : list (FunId * nat) :=
  match fst (m_consumers x) with
  | (Some c, i) => (c, i) :: snd (m_consumers x)
  | (None, _) => snd (m_consumers x)
  end.

(** the Variable of an input has no value (yet) *)
Definition no_value (s : Memoize) (input : CNTKVariable) : bool :=
  match vars s !! m_dataFields input with
  | Some x => bool_decide (m_value x = None)
  | None => false
  end.

(** what the forward traversal does to Variables: a value is never
    replaced and only a Parameter or Constant receives one; kinds stay;
    consumers are only added *)
Definition values_grow (s s' : Memoize) : Prop :=
  forall v x, vars s !! v = Some x ->
    exists x', vars s' !! v = Some x' /\ m_varKind x' = m_varKind x /\
      (m_value x' = m_value x \/
       (m_value x = None /\ (m_varKind x = VK_Parameter \/ m_varKind x = VK_Constant))) /\
      consumers_of x ⊆ consumers_of x'.

(** only list links have changed *)
Definition relinked (s s' : Memoize) : Prop :=
  vars s' = vars s /\ links_only (funs s) (funs s').


(** a batched result and two ops that refer to it lazily: Function 20 owns
    variable 5, whose value is a tensor of shape [4; 3]; variables 6 and 7
    are the slices 1 and 2 of it *)
Definition ex_lazy : Memoize :=
  ex_engine
    (<[5%nat := set_value (Some (mkNDArrayView 0 0 0 [4; 3] DT_Float CPUDevice false))
                  (ex_var VK_Output [4; 3] (Some 20%nat))]>
     (<[6%nat := set_lazyIndex (Some 20%nat, 1) (ex_var VK_Output [4] (Some 21%nat))]>
      (<[7%nat := set_lazyIndex (Some 20%nat, 2) (ex_var VK_Output [4] (Some 22%nat))]> ∅)))
    (<[20%nat := ex_fun (OtherOp 0) [] 5%nat]> ∅).


(** a tensor heap whose arena block was allocated for doubles on a GPU *)
Definition th_double_block : TensorHeap :=
  mkTensorHeap 3 1 (fun _ _ => None)
    (Some (mkNDArrayView 0 0 0 [ARENASIZE] DT_Double (GPUDevice 0) false)) 4.

(** a collaborator for the examples: GatherBatch hands back its output
    buffer *)
Definition ex_GatherBatch (inputs : list NDArrayViewPtr) (axis : Z) (out : NDArrayView)
  : M TensorHeap NDArrayViewPtr :=
  ret (Some out).


(** the graph with the shared weight, both Times ops ready and on one list *)
Definition ex_shared_weight_ready : Memoize :=
  with_funs
    (<[10%nat := set_link (Some 11%nat) (set_pendingInputs 0 (ex_fun Times [0%nat; 2%nat] 3%nat))]>
       (<[11%nat := set_pendingInputs 0 (ex_fun Times [0%nat; 5%nat] 4%nat)]>
          (funs ex_shared_weight)))
    ex_shared_weight.

(** what the backward pass leaves of the forward pass: the graph, the
    values and lazy indices, the list links, the schedule *)
Definition forward_kept (s s' : Memoize) : Prop :=
  (forall v x, vars s !! v = Some x ->
     exists x', vars s' !! v = Some x' /\ var_static x x' /\
                m_value x' = m_value x /\ m_lazyIndex x' = m_lazyIndex x) /\
  (forall f F, funs s !! f = Some F ->
     exists F', funs s' !! f = Some F' /\ fun_static F F' /\ m_link F' = m_link F) /\
  dom (vars s') = dom (vars s) /\ dom (funs s') = dom (funs s) /\
  m_schedule s' = m_schedule s /\ next_id s' = next_id s /\
  m_numBatchedLaunches s' = m_numBatchedLaunches s.

(** a gradient slot that holds a tensor keeps holding this tensor *)
Definition gradients_stay (s s' : Memoize) : Prop :=
  forall v x g, vars s !! v = Some x -> m_gradient x = Some g ->
    exists x', vars s' !! v = Some x' /\ m_gradient x' = Some g.


(** the counter of a Function stays, or goes from ready (0) to idle (-1);
    list links stay *)
Definition only_resets (s s' : Memoize) : Prop :=
  ids_fresh s ->
  ids_fresh s' /\
  forall f F, funs s !! f = Some F ->
    exists F', funs s' !! f = Some F' /\ m_link F' = m_link F /\
      (m_pendingInputs F' = m_pendingInputs F \/
       (m_pendingInputs F = 0 /\ m_pendingInputs F' = -1)).

(** a counter that is not positive stays *)
Definition only_counts_down (s s' : Memoize) : Prop :=
  forall f F, funs s !! f = Some F ->
    exists F', funs s' !! f = Some F' /\
      (m_pendingInputs F <= 0 -> m_pendingInputs F' = m_pendingInputs F).

(** the barrier graph after its op has been scheduled and popped: the
    schedule is empty, but not that of a new engine *)
Definition ex_barrier_popped : Memoize :=
  match Schedule 10 ex_barrier with
  | Ok (_, s1) => with_schedule (snd (pop_best (m_schedule s1))) s1
  | Err _ => ex_barrier
  end.

(** *** What the two modes of a batch execution do *)

(** no object was created *)
Definition same_objects (s s' : Memoize) : Prop :=
  next_id s' = next_id s /\ dom (funs s') = dom (funs s) /\ dom (vars s') = dom (vars s).







(** existing Variables keep their lazy index *)
Definition lazy_kept (s s' : Memoize) : Prop :=
  ids_fresh s ->
  ids_fresh s' /\
  forall v x, vars s !! v = Some x ->
    exists x', vars s' !! v = Some x' /\ m_lazyIndex x' = m_lazyIndex x.

(** what building the batched inputs keeps of the state: the graph, the
    list links and the lazy indices *)
Definition operands_kept (s s' : Memoize) : Prop :=
  graph_augmented s s' /\ only_resets s s' /\ lazy_kept s s'.

(** existing Variables keep their value *)
Definition values_kept (s s' : Memoize) : Prop :=
  forall v x, vars s !! v = Some x ->
    exists x', vars s' !! v = Some x' /\ m_value x' = m_value x.

(** a Variable that refers lazily to the Function [b] keeps doing so *)
Definition refers_kept (b : FunId) (s s' : Memoize) : Prop :=
  forall v x, vars s !! v = Some x -> fst (m_lazyIndex x) = Some b ->
    exists x', vars s' !! v = Some x' /\ fst (m_lazyIndex x') = Some b.



(** * Properties *)

Lemma bind_ok {S A B : Type} (c : M S A) (k : A -> M S B) (s s' : S) (a : A) :
  c s = Ok (a, s') -> bind c k s = k a s'.
Proof. intros H. unfold bind. rewrite H. reflexivity. Qed.

Lemma bind_err {S A B : Type} (c : M S A) (k : A -> M S B) (s : S) (e : error) :
  c s = Err e -> bind c k s = Err e.
Proof. intros H. unfold bind. rewrite H. reflexivity. Qed.

Lemma bind_inv {S A B : Type} (c : M S A) (k : A -> M S B) (s s2 : S) (b : B) :
  bind c k s = Ok (b, s2) -> exists a s1, c s = Ok (a, s1) /\ k a s1 = Ok (b, s2).
Proof.
  unfold bind. destruct (c s) as [[a s1]|e]; [|discriminate]. intros H. eauto.
Qed.

Lemma read_ok {A : Type} (g : Memoize -> result A) (s : Memoize) (a : A) :
  g s = Ok a -> read g s = Ok (a, s).
Proof. intros H. unfold read. rewrite H. reflexivity. Qed.

Lemma read_err {A : Type} (g : Memoize -> result A) (s : Memoize) (e : error) :
  g s = Err e -> read g s = Err e.
Proof. intros H. unfold read. rewrite H. reflexivity. Qed.

(** ** The arena allocator *)

Lemma TotalSize_range (shape : NDShape) : 0 <= TotalSize shape < 2 ^ 64.
Proof.
  destruct shape as [|d shape]; simpl; [lia|].
  unfold size_t_mul, size_t_wrap. apply Z.mod_pos_bound. lia.
Qed.

Lemma TotalSize_flat (n : Z) : 0 <= n < 2 ^ 64 -> TotalSize [n] = n.
Proof.
  intros H. simpl. unfold size_t_mul, size_t_wrap.
  rewrite Z.mul_1_r. apply Z.mod_small. lia.
Qed.

Lemma SliceView_flat (v : NDArrayView) (n start extent : Z) (th : TensorHeap) :
  nd_shape v = [n] -> 0 <= start -> 0 <= extent -> start + extent <= n ->
  SliceView v start extent th = new_view_of v (nd_offset v + start) [extent] th.
Proof.
  intros Hs H1 H2 H3. unfold SliceView. rewrite Hs.
  replace ((0 <=? start) && (0 <=? extent) && (start + extent <=? n)) with true; [reflexivity|].
  symmetry. rewrite !andb_true_iff. repeat split; apply Z.leb_le; assumption.
Qed.

Lemma AsShape_same (v : NDArrayView) (shape : NDShape) (th : TensorHeap) :
  TotalSize shape = TotalSize (nd_shape v) ->
  AsShape v shape th = new_view_of v (nd_offset v) shape th.
Proof. intros H. unfold AsShape. rewrite H, Z.eqb_refl. reflexivity. Qed.

Lemma size_t_sub_small (a b : Z) : 0 <= b <= a -> a < 2 ^ 64 -> size_t_sub a b = a - b.
Proof. intros H1 H2. unfold size_t_sub, size_t_wrap. apply Z.mod_small. lia. Qed.

Lemma size_t_add_small (a b : Z) : 0 <= a -> 0 <= b -> a + b < 2 ^ 64 -> size_t_add a b = a + b.
Proof. intros H1 H2 H3. unfold size_t_add, size_t_wrap. apply Z.mod_small. lia. Qed.

Lemma ARENASIZE_small : 0 < ARENASIZE < 2 ^ 64.
Proof. unfold ARENASIZE. lia. Qed.

(** the three cases of the allocator, as equations *)
Lemma allocate_plain (shape : NDShape) dt dev (th : TensorHeap) :
  TotalSize shape > ARENASIZE ->
  AllocateTensorInArena shape dt dev th =
    Ok (mkNDArrayView (th_nextView th) (th_nextBlock th) 0 shape dt dev false,
        mkTensorHeap (S (th_nextView th)) (S (th_nextBlock th)) (th_contents th)
                     (m_currentArena th) (m_currentArenaUsed th)).
Proof.
  intros H. unfold AllocateTensorInArena.
  destruct (Z.gtb_spec (TotalSize shape) ARENASIZE); [reflexivity | lia].
Qed.

Lemma allocate_fresh_block (shape : NDShape) dt dev (th : TensorHeap) :
  TotalSize shape <= ARENASIZE ->
  0 <= m_currentArenaUsed th <= ARENASIZE ->
  m_currentArena th = None \/ TotalSize shape > ARENASIZE - m_currentArenaUsed th ->
  AllocateTensorInArena shape dt dev th =
    Ok (mkNDArrayView (S (S (th_nextView th))) (th_nextBlock th) 0 shape dt dev false,
        mkTensorHeap (S (S (S (th_nextView th)))) (S (th_nextBlock th)) (th_contents th)
          (Some (mkNDArrayView (th_nextView th) (th_nextBlock th) 0 [ARENASIZE] dt dev false))
          (TotalSize shape)).
Proof.
  intros Hle Hused Hcase. unfold AllocateTensorInArena.
  pose proof (TotalSize_range shape) as Hr. pose proof ARENASIZE_small as HA.
  destruct (Z.gtb_spec (TotalSize shape) ARENASIZE); [lia|].
  assert (Hc : bool_decide (m_currentArena th = None)
               || (TotalSize shape >? size_t_sub ARENASIZE (m_currentArenaUsed th)) = true).
  { destruct Hcase as [Hn | Hgt].
    - rewrite bool_decide_eq_true_2 by exact Hn. reflexivity.
    - apply orb_true_iff. right. rewrite size_t_sub_small by lia.
      apply Z.gtb_lt. lia. }
  unfold bind at 1. unfold get at 1. cbv beta iota. rewrite Hc.
  unfold bind, new_NDArrayView, modify, get, th_set_arena. cbn [m_currentArena m_currentArenaUsed].
  erewrite SliceView_flat by (cbn [nd_shape]; first [reflexivity | lia]).
  unfold new_view_of. cbn [th_nextView th_nextBlock th_contents m_currentArena m_currentArenaUsed
                           nd_block nd_offset nd_dataType nd_device nd_sparse].
  rewrite AsShape_same by (cbn [nd_shape]; rewrite TotalSize_flat; lia).
  unfold new_view_of, th_set_used.
  cbn [th_nextView th_nextBlock th_contents m_currentArena m_currentArenaUsed
       nd_block nd_offset nd_dataType nd_device nd_sparse].
  rewrite size_t_add_small by lia. rewrite !Z.add_0_l. reflexivity.
Qed.

Lemma allocate_carve (shape : NDShape) dt dev (th : TensorHeap) (a : NDArrayView) :
  TotalSize shape <= ARENASIZE ->
  0 <= m_currentArenaUsed th <= ARENASIZE ->
  m_currentArena th = Some a ->
  nd_shape a = [ARENASIZE] ->
  TotalSize shape <= ARENASIZE - m_currentArenaUsed th ->
  AllocateTensorInArena shape dt dev th =
    Ok (mkNDArrayView (S (th_nextView th)) (nd_block a) (nd_offset a + m_currentArenaUsed th)
                      shape (nd_dataType a) (nd_device a) (nd_sparse a),
        mkTensorHeap (S (S (th_nextView th))) (th_nextBlock th) (th_contents th)
          (Some a) (m_currentArenaUsed th + TotalSize shape)).
Proof.
  intros Hle Hused Ha Hsh Hfit. unfold AllocateTensorInArena.
  pose proof (TotalSize_range shape) as Hr. pose proof ARENASIZE_small as HA.
  destruct (Z.gtb_spec (TotalSize shape) ARENASIZE); [lia|].
  assert (Hc : bool_decide (m_currentArena th = None)
               || (TotalSize shape >? size_t_sub ARENASIZE (m_currentArenaUsed th)) = false).
  { apply orb_false_iff. split.
    - apply bool_decide_eq_false_2. congruence.
    - rewrite size_t_sub_small by lia.
      destruct (Z.gtb_spec (TotalSize shape) (ARENASIZE - m_currentArenaUsed th)); [lia|reflexivity]. }
  unfold bind at 1. unfold get at 1. cbv beta iota. rewrite Hc.
  unfold bind, ret, modify, get. rewrite Ha.
  erewrite SliceView_flat by (first [eassumption | lia]).
  unfold new_view_of.
  rewrite AsShape_same by (cbn [nd_shape]; rewrite TotalSize_flat; lia).
  unfold new_view_of, th_set_used.
  cbn [th_nextView th_nextBlock th_contents m_currentArena m_currentArenaUsed
       nd_block nd_offset nd_dataType nd_device nd_sparse].
  rewrite Ha. rewrite size_t_add_small by lia. reflexivity.
Qed.

Lemma allocate_cases (shape : NDShape) dt dev (th : TensorHeap) :
  arena_wf th ->
  exists r th',
    AllocateTensorInArena shape dt dev th = Ok (r, th') /\
    nd_shape r = shape /\
    ((TotalSize shape > ARENASIZE /\
      nd_block r = th_nextBlock th /\ nd_offset r = 0 /\
      th_nextBlock th' = S (th_nextBlock th) /\
      m_currentArena th' = m_currentArena th /\
      m_currentArenaUsed th' = m_currentArenaUsed th)
     \/
     (TotalSize shape <= ARENASIZE /\
      (m_currentArena th = None \/ TotalSize shape > ARENASIZE - m_currentArenaUsed th) /\
      th_nextBlock th' = S (th_nextBlock th) /\
      exists a, m_currentArena th' = Some a /\ nd_block a = th_nextBlock th /\
                nd_shape a = [ARENASIZE] /\ nd_offset a = 0 /\
                nd_block r = nd_block a /\ nd_offset r = 0 /\
                m_currentArenaUsed th' = TotalSize shape)
     \/
     (TotalSize shape <= ARENASIZE /\
      th_nextBlock th' = th_nextBlock th /\
      exists a, m_currentArena th = Some a /\
                TotalSize shape <= ARENASIZE - m_currentArenaUsed th /\
                m_currentArena th' = Some a /\
                nd_block r = nd_block a /\ nd_offset r = m_currentArenaUsed th /\
                m_currentArenaUsed th' = m_currentArenaUsed th + TotalSize shape)).
Proof.
  intros [Hused Harena].
  destruct (Z_gt_le_dec (TotalSize shape) ARENASIZE) as [Hbig | Hsmall].
  - eexists _, _. split; [apply allocate_plain; exact Hbig|].
    split; [reflexivity|]. left. cbn. repeat split; auto.
  - destruct (m_currentArena th) as [a|] eqn:Ha.
    + destruct (Harena a eq_refl) as (Hsh & Hoff & Hblk).
      destruct (Z_gt_le_dec (TotalSize shape) (ARENASIZE - m_currentArenaUsed th)) as [Hfull | Hfit].
      * eexists _, _. split; [apply allocate_fresh_block; auto|].
        split; [reflexivity|]. right. left. cbn.
        repeat split; auto. eexists. cbn. repeat split; reflexivity.
      * eexists _, _. split; [eapply allocate_carve; eauto|].
        split; [reflexivity|]. right. right. cbn.
        repeat split; auto. exists a. cbn. repeat split; auto. lia.
    + eexists _, _. split; [apply allocate_fresh_block; auto|].
      split; [reflexivity|]. right. left. cbn.
      repeat split; auto. eexists. cbn. repeat split; reflexivity.
Qed.

Lemma allocate_preserves_wf (shape : NDShape) dt dev (th th' : TensorHeap) (r : NDArrayView) :
  arena_wf th ->
  AllocateTensorInArena shape dt dev th = Ok (r, th') ->
  arena_wf th' /\ accounted r th' /\
  forall r0, accounted r0 th -> accounted r0 th' /\ ~ nd_overlap r0 r.
Proof.
  intros Hwf Hrun.
  destruct (allocate_cases shape dt dev th Hwf) as (r1 & th1 & Hrun1 & Hshape & Hcase).
  rewrite Hrun in Hrun1. injection Hrun1 as <- <-.
  pose proof (TotalSize_range shape) as Hr.
  destruct Hwf as [Hused Harena].
  destruct Hcase as [(Hbig & Hb & Ho & Hnb & Ha' & Hu')
                    | [(Hsmall & Hc & Hnb & a & Ha' & Hab & Hash & Haoff & Hrb & Hro & Hu')
                      | (Hsmall & Hnb & a & Ha & Hfit & Ha' & Hrb & Hro & Hu')]].
  - split; [|split].
    + split; [rewrite Hu'; exact Hused|]. intros a Ha. rewrite Ha' in Ha.
      destruct (Harena a Ha) as (? & ? & ?). rewrite Hnb. repeat split; auto with lia.
    + split; [lia|]. intros a Ha Hab. rewrite Ha' in Ha.
      destruct (Harena a Ha) as (? & ? & ?). lia.
    + intros r0 [Hlt Hbelow]. split.
      * split; [lia|]. intros a Ha Hab. rewrite Ha' in Ha. rewrite Hu'. eauto.
      * intros (blk & i & [Hb0 _] & [Hb1 _]). lia.
  - split; [|split].
    + split; [rewrite Hu'; lia|]. intros a0 Ha0. rewrite Ha' in Ha0. injection Ha0 as <-.
      repeat split; auto. lia.
    + split; [lia|]. intros a0 Ha0 _. rewrite Hu', Hro, Hshape. lia.
    + intros r0 [Hlt Hbelow]. split.
      * split; [lia|]. intros a0 Ha0 Hab0. rewrite Ha' in Ha0. injection Ha0 as <-. lia.
      * intros (blk & i & [Hb0 _] & [Hb1 _]). lia.
  - destruct (Harena a Ha) as (Hash & Haoff & Hablk).
    split; [|split].
    + split; [rewrite Hu'; lia|]. intros a0 Ha0. rewrite Ha' in Ha0. injection Ha0 as <-.
      rewrite Hnb. auto.
    + split; [lia|]. intros a0 Ha0 _. rewrite Hu', Hro, Hshape. lia.
    + intros r0 [Hlt Hbelow]. split.
      * split; [lia|]. intros a0 Ha0 Hab0. rewrite Ha' in Ha0. injection Ha0 as <-.
        specialize (Hbelow a Ha Hab0). pose proof (TotalSize_range (nd_shape r0)). lia.
      * intros (blk & i & [Hb0 Hi0] & [Hb1 Hi1]).
        assert (Hab0 : nd_block a = nd_block r0) by congruence.
        specialize (Hbelow a Ha Hab0). lia.
Qed.

Lemma allocate_all_preserves (reqs : list (NDShape * DataType * DeviceDescriptor))
    (th th' : TensorHeap) :
  arena_wf th -> allocate_all reqs th = Ok (tt, th') ->
  arena_wf th' /\ forall r0, accounted r0 th -> accounted r0 th'.
Proof.
  revert th. induction reqs as [|[[shape dt] dev] reqs IH]; intros th Hwf Hrun.
  - cbn in Hrun. injection Hrun as <-. auto.
  - cbn in Hrun. unfold bind in Hrun.
    destruct (AllocateTensorInArena shape dt dev th) as [[r th1]|] eqn:Ha; [|discriminate].
    destruct (allocate_preserves_wf _ _ _ _ _ _ Hwf Ha) as (Hwf1 & _ & Hacc).
    destruct (IH th1 Hwf1 Hrun) as (Hwf' & Hacc').
    split; [exact Hwf'|]. intros r0 H0. apply Hacc'. apply Hacc. exact H0.
Qed.

Lemma th_init_wf : arena_wf th_init.
Proof.
  split; [cbn; unfold ARENASIZE; lia|]. intros a Ha. discriminate Ha.
Defined.

(** C7, as stated, fails: a request for 65,000,000 elements does not exceed
    64 Mi = 67,108,864 elements, yet the allocator answers it with a
    standalone tensor. *)
Lemma arena_threshold_is_not_64Mi :
  exists r th',
    AllocateTensorInArena [65000000] DT_Float CPUDevice th_one_block = Ok (r, th') /\
    standalone r th' /\
    ~ (TotalSize [65000000] > 64 * 2 ^ 20).
Proof.
  eexists _, _. split; [apply allocate_plain; vm_compute; reflexivity|].
  split.
  - intros a Ha. cbn in Ha. injection Ha as <-. cbn. lia.
  - vm_compute. intros H. discriminate H.
Qed.

(** C7 (amended): the arena allocator returns a standalone tensor iff the
    element count exceeds ARENASIZE = 64,000,000 elements. Otherwise the
    tensor lies in the arena block: when no block exists or the remaining
    capacity is insufficient, a fresh block of ARENASIZE elements becomes
    the arena and the offset restarts at 0; in both cases the range
    [used, used + numel) of the block is carved and reshaped to the requested
    shape, and the used counter advances by numel. No later allocation
    overlaps the tensor. *)
Theorem arena_allocation_policy (th : TensorHeap) (shape : NDShape) (dt : DataType)
    (dev : DeviceDescriptor) :
  arena_wf th ->
  exists r th',
    AllocateTensorInArena shape dt dev th = Ok (r, th') /\
    nd_shape r = shape /\
    (standalone r th' <-> TotalSize shape > 64000000) /\
    (TotalSize shape <= 64000000 ->
     exists a,
       m_currentArena th' = Some a /\ nd_shape a = [ARENASIZE] /\ nd_block r = nd_block a /\
       (m_currentArena th = None \/ TotalSize shape > ARENASIZE - m_currentArenaUsed th ->
        nd_block a = th_nextBlock th /\ nd_offset r = 0 /\
        m_currentArenaUsed th' = TotalSize shape) /\
       (forall a0, m_currentArena th = Some a0 ->
                   TotalSize shape <= ARENASIZE - m_currentArenaUsed th ->
                   a = a0 /\ nd_offset r = m_currentArenaUsed th /\
                   m_currentArenaUsed th' = m_currentArenaUsed th + TotalSize shape)) /\
    (forall reqs th2 shape2 dt2 dev2 r2 th3,
        allocate_all reqs th' = Ok (tt, th2) ->
        AllocateTensorInArena shape2 dt2 dev2 th2 = Ok (r2, th3) ->
        ~ nd_overlap r r2).
Proof.
  intros Hwf.
  destruct (allocate_cases shape dt dev th Hwf) as (r & th' & Hrun & Hshape & Hcase).
  destruct (allocate_preserves_wf _ _ _ _ _ _ Hwf Hrun) as (Hwf' & Hacc & _).
  exists r, th'. split; [exact Hrun|]. split; [exact Hshape|].
  change 64000000 with ARENASIZE.
  destruct Hwf as [Hused Harena].
  split; [|split].
  - destruct Hcase as [(Hbig & Hb & Ho & Hnb & Ha' & Hu')
                      | [(Hsmall & Hc & Hnb & a & Ha' & Hab & Hash & Haoff & Hrb & Hro & Hu')
                        | (Hsmall & Hnb & a & Ha & Hfit & Ha' & Hrb & Hro & Hu')]].
    + split; [intros _; exact Hbig|]. intros _ a Ha. rewrite Ha' in Ha.
      destruct (Harena a Ha) as (_ & _ & Hlt). lia.
    + split; [|lia]. intros Hst. exfalso. apply (Hst a Ha'). congruence.
    + split; [|lia]. intros Hst. exfalso. apply (Hst a Ha'). congruence.
  - intros Hsmall.
    destruct Hcase as [(Hbig & _)
                      | [(_ & Hc & Hnb & a & Ha' & Hab & Hash & Haoff & Hrb & Hro & Hu')
                        | (_ & Hnb & a & Ha & Hfit & Ha' & Hrb & Hro & Hu')]].
    + lia.
    + exists a. repeat split; auto.
      * destruct Hc as [Hn | Hgt]; [congruence | lia].
      * destruct Hc as [Hn | Hgt]; [congruence | lia].
      * destruct Hc as [Hn | Hgt]; [congruence | lia].
    + destruct (Harena a Ha) as (Hash & Haoff & Hablk).
      exists a. repeat split; auto.
      * destruct H as [Hn | Hgt]; [congruence | lia].
      * destruct H as [Hn | Hgt]; [congruence | lia].
      * destruct H as [Hn | Hgt]; [congruence | lia].
      * congruence.
  - intros reqs th2 shape2 dt2 dev2 r2 th3 Hall Hrun2.
    destruct (allocate_all_preserves reqs th' th2 Hwf' Hall) as (Hwf2 & Hacc2).
    destruct (allocate_preserves_wf _ _ _ _ _ _ Hwf2 Hrun2) as (_ & _ & Hfresh).
    apply Hfresh. apply Hacc2. exact Hacc.
Qed.

Lemma arena_allocation_policy_witness :
  exists r th',
    AllocateTensorInArena [4] DT_Float CPUDevice th_init = Ok (r, th') /\
    nd_shape r = [4] /\
    (standalone r th' <-> TotalSize [4] > 64000000) /\
    (TotalSize [4] <= 64000000 ->
     exists a,
       m_currentArena th' = Some a /\ nd_shape a = [ARENASIZE] /\ nd_block r = nd_block a /\
       (m_currentArena th_init = None \/ TotalSize [4] > ARENASIZE - m_currentArenaUsed th_init ->
        nd_block a = th_nextBlock th_init /\ nd_offset r = 0 /\
        m_currentArenaUsed th' = TotalSize [4]) /\
       (forall a0, m_currentArena th_init = Some a0 ->
                   TotalSize [4] <= ARENASIZE - m_currentArenaUsed th_init ->
                   a = a0 /\ nd_offset r = m_currentArenaUsed th_init /\
                   m_currentArenaUsed th' = m_currentArenaUsed th_init + TotalSize [4])) /\
    (forall reqs th2 shape2 dt2 dev2 r2 th3,
        allocate_all reqs th' = Ok (tt, th2) ->
        AllocateTensorInArena shape2 dt2 dev2 th2 = Ok (r2, th3) ->
        ~ nd_overlap r r2).
Proof.
  apply (arena_allocation_policy th_init [4] DT_Float CPUDevice).
  exact th_init_wf.
Defined.

(** ** The batchability predicate *)

Lemma AreBatchable_inputs_spec (s : Memoize) (op : PrimitiveOpType) (ias : list CNTKVariable) :
  forall (i : nat) (ibs : list CNTKVariable),
    length ias = length ibs ->
    (AreBatchable_inputs s op i ias ibs = Ok true <->
     forall (k : nat) ia ib,
       ias !! k = Some ia -> ibs !! k = Some ib ->
       if bool_decide (op = Times /\ (i + k)%nat = 0%nat)
       then m_dataFields ia = m_dataFields ib
       else exists sh, ShapeOf s ia = Some sh /\ ShapeOf s ib = Some sh).
Proof.
  induction ias as [|ia ias IH]; intros i ibs Hlen.
  - split; [|reflexivity]. intros _ k ia ib Hk. discriminate Hk.
  - destruct ibs as [|ib ibs]; [discriminate Hlen|].
    injection Hlen as Hlen. specialize (IH (S i) ibs Hlen).
    cbn [AreBatchable_inputs].
    assert (Hstep : forall P : nat -> Prop,
               (forall k, P k) <-> P 0%nat /\ forall k, P (S k)).
    { intros P. split; [auto|]. intros [H0 HS] [|k]; auto. }
    destruct (bool_decide (op = Times) && bool_decide (i = 0%nat)) eqn:Hspecial.
    + apply andb_true_iff in Hspecial as [Hop Hi].
      apply bool_decide_eq_true in Hop. apply bool_decide_eq_true in Hi. subst i.
      destruct (decide (m_dataFields ia = m_dataFields ib)) as [Heq | Hne].
      * rewrite bool_decide_eq_false_2 by tauto. rewrite IH. split.
        -- intros Hrest [|k] ia' ib' Ha Hb.
           ++ cbn in Ha, Hb. injection Ha as <-. injection Hb as <-.
              rewrite bool_decide_eq_true_2 by (split; [exact Hop | lia]). exact Heq.
           ++ cbn in Ha, Hb. specialize (Hrest k ia' ib' Ha Hb).
              replace (0 + S k)%nat with (1 + k)%nat by lia. exact Hrest.
        -- intros Hall k ia' ib' Ha Hb. specialize (Hall (S k) ia' ib' Ha Hb).
           replace (0 + S k)%nat with (1 + k)%nat in Hall by lia. exact Hall.
      * rewrite bool_decide_eq_true_2 by exact Hne. split; [discriminate|].
        intros Hall. specialize (Hall 0%nat ia ib eq_refl eq_refl).
        rewrite bool_decide_eq_true_2 in Hall by (split; [exact Hop | lia]). contradiction.
    + assert (Hns : ~ (op = Times /\ (i + 0)%nat = 0%nat)).
      { intros [Hop Hi]. apply andb_false_iff in Hspecial as [H | H];
          apply bool_decide_eq_false in H; [tauto | lia]. }
      destruct (ShapeOf s ia) as [sa|] eqn:Hsa; destruct (ShapeOf s ib) as [sb|] eqn:Hsb.
      * destruct (decide (sa = sb)) as [Heq | Hne].
        -- subst sb. rewrite bool_decide_eq_false_2 by tauto. rewrite IH. split.
           ++ intros Hrest [|k] ia' ib' Ha Hb.
              ** cbn in Ha, Hb. injection Ha as <-. injection Hb as <-.
                 rewrite bool_decide_eq_false_2 by exact Hns. exists sa. auto.
              ** cbn in Ha, Hb. specialize (Hrest k ia' ib' Ha Hb).
                 replace (i + S k)%nat with (S i + k)%nat by lia. exact Hrest.
           ++ intros Hall k ia' ib' Ha Hb. specialize (Hall (S k) ia' ib' Ha Hb).
              replace (i + S k)%nat with (S i + k)%nat in Hall by lia. exact Hall.
        -- rewrite bool_decide_eq_true_2 by exact Hne. split; [discriminate|].
           intros Hall. specialize (Hall 0%nat ia ib eq_refl eq_refl).
           rewrite bool_decide_eq_false_2 in Hall by exact Hns.
           destruct Hall as (sh & H1 & H2). congruence.
      * split; [discriminate|]. intros Hall. specialize (Hall 0%nat ia ib eq_refl eq_refl).
        rewrite bool_decide_eq_false_2 in Hall by exact Hns.
        destruct Hall as (sh & H1 & H2). congruence.
      * split; [discriminate|]. intros Hall. specialize (Hall 0%nat ia ib eq_refl eq_refl).
        rewrite bool_decide_eq_false_2 in Hall by exact Hns.
        destruct Hall as (sh & H1 & H2). congruence.
      * split; [discriminate|]. intros Hall. specialize (Hall 0%nat ia ib eq_refl eq_refl).
        rewrite bool_decide_eq_false_2 in Hall by exact Hns.
        destruct Hall as (sh & H1 & H2). congruence.
Qed.

(** [AreBatchable] answers true exactly on the specified predicate *)
Lemma AreBatchable_true (s : Memoize) (a b : FunId) (A : Function) :
  funs s !! a = Some A ->
  IsViewOp (m_op A) = false ->
  (AreBatchable s a b = Ok true <-> batchable_spec s a b).
Proof.
  intros Ha Hview. unfold AreBatchable, batchable_spec. rewrite Ha.
  destruct (funs s !! b) as [Bf|] eqn:Hb.
  2:{ split; [discriminate|]. intros (A' & B' & _ & HB & _). discriminate HB. }
  rewrite Hview. cbn [andb].
  destruct (decide (m_op A = m_op Bf)) as [Hop | Hop].
  2:{ rewrite bool_decide_eq_true_2 by exact Hop. split; [discriminate|].
      intros (A' & B' & HA & HB & Hop' & _). congruence. }
  rewrite bool_decide_eq_false_2 by tauto.
  destruct (decide (length (m_inputs A) = length (m_inputs Bf))) as [Hlen | Hlen].
  2:{ rewrite bool_decide_eq_true_2 by exact Hlen. split; [discriminate|].
      intros (A' & B' & HA & HB & _ & Hlen' & _). congruence. }
  rewrite bool_decide_eq_false_2 by tauto.
  pose proof (AreBatchable_inputs_spec s (m_op A) (m_inputs A) 0 (m_inputs Bf) Hlen) as Hin.
  destruct (AreBatchable_inputs s (m_op A) 0 (m_inputs A) (m_inputs Bf)) as [[|]|e] eqn:Hloop.
  - destruct (decide (m_attributes A = m_attributes Bf)) as [Hat | Hat].
    + rewrite bool_decide_eq_false_2 by tauto. split; [intros _|reflexivity].
      exists A, Bf. repeat split; auto. apply Hin. reflexivity.
    + rewrite bool_decide_eq_true_2 by exact Hat. split; [discriminate|].
      intros (A' & B' & HA & HB & _ & _ & _ & Hat'). congruence.
  - split; [discriminate|]. intros (A' & B' & HA & HB & _ & _ & Hall & _).
    injection HA as <-. injection HB as <-.
    assert (Ok false = Ok true) as Habs by (apply Hin; exact Hall). discriminate Habs.
  - split; [discriminate|]. intros (A' & B' & HA & HB & _ & _ & Hall & _).
    injection HA as <-. injection HB as <-.
    assert (Err e = Ok true) as Habs by (apply Hin; exact Hall). discriminate Habs.
Qed.

(** when the arities differ the assertion trips: the predicate does not
    answer false *)
Lemma AreBatchable_arity_asserted (s : Memoize) (a b : FunId) (A Bf : Function) :
  funs s !! a = Some A -> funs s !! b = Some Bf ->
  IsViewOp (m_op A) = false -> m_op A = m_op Bf ->
  length (m_inputs A) <> length (m_inputs Bf) ->
  AreBatchable s a b = Err (AssertionFailure "a->m_inputs.size() == b->m_inputs.size()").
Proof.
  intros Ha Hb Hview Hop Hlen. unfold AreBatchable. rewrite Ha, Hb, Hview. cbn [andb].
  rewrite bool_decide_eq_false_2 by tauto.
  rewrite bool_decide_eq_true_2 by exact Hlen. reflexivity.
Qed.

(** ** Intrusive lists: chains through [m_link] *)

Lemma is_chain_functional (fh : gmap FunId Function) (h : option FunId) (l1 l2 : list FunId) :
  is_chain fh h l1 -> is_chain fh h l2 -> l1 = l2.
Proof.
  intros H1. revert l2. induction H1 as [|f F l Hf Hl IH]; intros l2 H2.
  - inversion H2. reflexivity.
  - inversion H2 as [|f' F' l' Hf' Hl']; subst.
    rewrite Hf in Hf'. injection Hf' as <-. f_equal. apply IH. exact Hl'.
Qed.

Lemma is_chain_from_member (fh : gmap FunId Function) (h : option FunId) (l : list FunId)
    (g : FunId) :
  is_chain fh h l -> g ∈ l -> exists l', is_chain fh (Some g) l' /\ l' `suffix_of` l.
Proof.
  intros H. induction H as [|f F l Hf Hl IH]; intros Hg.
  - inversion Hg.
  - apply elem_of_cons in Hg as [-> | Hg].
    + exists (f :: l). split; [econstructor; eauto | reflexivity].
    + destruct (IH Hg) as (l' & Hc & Hsuf). exists l'. split; [exact Hc|].
      apply suffix_cons_r. exact Hsuf.
Qed.

Lemma is_chain_NoDup (fh : gmap FunId Function) (h : option FunId) (l : list FunId) :
  is_chain fh h l -> NoDup l.
Proof.
  intros H. induction H as [|f F l Hf Hl IH]; constructor; [|exact IH].
  intros Hin.
  destruct (is_chain_from_member _ _ _ _ Hl Hin) as (l' & Hc & Hsuf).
  assert (l' = f :: l) as -> by (eapply is_chain_functional; [exact Hc | econstructor; eauto]).
  apply suffix_length in Hsuf. cbn in Hsuf. lia.
Qed.

Lemma is_chain_lookup (fh : gmap FunId Function) (h : option FunId) (l : list FunId)
    (g : FunId) :
  is_chain fh h l -> g ∈ l -> is_Some (fh !! g).
Proof.
  intros H. induction H as [|f F l Hf Hl IH]; intros Hg.
  - inversion Hg.
  - apply elem_of_cons in Hg as [-> | Hg]; [eauto | auto].
Qed.

Lemma is_chain_head (fh : gmap FunId Function) (h : option FunId) (l : list FunId) :
  is_chain fh h l -> head l = h.
Proof. intros H. destruct H; reflexivity. Qed.

(** a chain survives any change of the heap that keeps the links of its
    members *)
Lemma is_chain_frame (fh fh' : gmap FunId Function) (h : option FunId) (l : list FunId) :
  is_chain fh h l ->
  (forall g F, g ∈ l -> fh !! g = Some F -> exists F', fh' !! g = Some F' /\ m_link F' = m_link F) ->
  is_chain fh' h l.
Proof.
  intros H. induction H as [|f F l Hf Hl IH]; intros Hsame; [constructor|].
  destruct (Hsame f F) as (F' & Hf' & Hlink); [left | exact Hf |].
  econstructor; [exact Hf'|]. rewrite Hlink. apply IH.
  intros g G Hg. apply Hsame. right. exact Hg.
Qed.

(** linking a new last element *)
Lemma is_chain_snoc (fh : gmap FunId Function) (h : option FunId) (l : list FunId)
    (t f : FunId) (T F : Function) :
  is_chain fh h l -> last l = Some t -> fh !! t = Some T -> fh !! f = Some F -> f ∉ l ->
  is_chain (<[f := set_link None F]> (<[t := set_link (Some f) T]> fh)) h (l ++ [f]).
Proof.
  intros H. pose proof (is_chain_NoDup _ _ _ H) as Hnd. revert Hnd.
  induction H as [|g G l Hg Hl IH]; intros Hnd Hlast Ht Hf Hnotin; [discriminate Hlast|].
  assert (Hgf : g <> f) by (intros ->; apply Hnotin; left).
  assert (Hfl : f ∉ l) by (intros Hin; apply Hnotin; right; exact Hin).
  apply NoDup_cons in Hnd as [Hgl Hnd].
  destruct l as [|g' l'].
  - cbn in Hlast. injection Hlast as ->. rewrite Hg in Ht. injection Ht as ->.
    inversion Hl as [Hnil|]; subst. cbn.
    econstructor.
    + rewrite lookup_insert_ne by congruence. apply lookup_insert_eq.
    + cbn. econstructor; [apply lookup_insert_eq|]. cbn. constructor.
  - assert (Hgt : g <> t).
    { intros ->. apply Hgl. apply last_Some_elem_of. exact Hlast. }
    cbn [app]. econstructor.
    + rewrite !lookup_insert_ne by congruence. exact Hg.
    + apply IH; auto.
Qed.

Lemma links_only_refl (fh : gmap FunId Function) : links_only fh fh.
Proof. intros g G Hg. exists G. auto 10. Qed.

Lemma links_only_trans (fh1 fh2 fh3 : gmap FunId Function) :
  links_only fh1 fh2 -> links_only fh2 fh3 -> links_only fh1 fh3.
Proof.
  intros H12 H23 g G Hg.
  destruct (H12 g G Hg) as (G2 & Hg2 & ? & ? & ? & ? & ?).
  destruct (H23 g G2 Hg2) as (G3 & Hg3 & ? & ? & ? & ? & ?).
  exists G3. repeat split; congruence.
Qed.

Lemma links_only_set_link (fh : gmap FunId Function) (f : FunId) (F : Function)
    (x : option FunId) :
  fh !! f = Some F -> links_only fh (<[f := set_link x F]> fh).
Proof.
  intros Hf g G Hg. destruct (decide (g = f)) as [-> | Hne].
  - rewrite Hf in Hg. injection Hg as <-. exists (set_link x F).
    rewrite lookup_insert_eq. auto 10.
  - exists G. rewrite lookup_insert_ne by congruence. auto 10.
Qed.

Lemma update_fun_ok (s : Memoize) (f : FunId) (F : Function) (g : Function -> Function) :
  funs s !! f = Some F ->
  update_fun f g s = Ok (tt, with_funs (<[f := g F]> (funs s)) s).
Proof. intros Hf. unfold update_fun, bind, get_fun, modify. rewrite Hf. reflexivity. Qed.

Lemma update_var_ok (s : Memoize) (v : VarId) (x : VariableFields)
    (g : VariableFields -> VariableFields) :
  vars s !! v = Some x ->
  update_var v g s = Ok (tt, with_vars (<[v := g x]> (vars s)) s).
Proof. intros Hv. unfold update_var, bind, get_var, modify. rewrite Hv. reflexivity. Qed.

Lemma get_var_inv (s s' : Memoize) (v : VarId) (x : VariableFields) :
  get_var v s = Ok (x, s') -> s' = s /\ vars s !! v = Some x.
Proof.
  unfold get_var. destruct (vars s !! v) as [y|]; [|discriminate].
  intros H. injection H as <- <-. auto.
Qed.

Lemma get_fun_inv (s s' : Memoize) (f : FunId) (F : Function) :
  get_fun f s = Ok (F, s') -> s' = s /\ funs s !! f = Some F.
Proof.
  unfold get_fun. destruct (funs s !! f) as [y|]; [|discriminate].
  intros H. injection H as <- <-. auto.
Qed.

Lemma update_var_inv (s s' : Memoize) (v : VarId) (g : VariableFields -> VariableFields) :
  update_var v g s = Ok (tt, s') ->
  exists x, vars s !! v = Some x /\ s' = with_vars (<[v := g x]> (vars s)) s.
Proof.
  unfold update_var. intros H. apply bind_inv in H as (x & s1 & Hget & Hmod).
  apply get_var_inv in Hget as [-> Hx]. unfold modify in Hmod. injection Hmod as <-. eauto.
Qed.

Lemma builder_repr_nil_inv (fh : gmap FunId Function) (b : FListBuilder) :
  builder_repr fh b [] -> L.head (B.base b) = None /\ L.count (B.base b) = 0%nat.
Proof.
  intros (Hc & Hn & _). split; [|exact Hn].
  inversion Hc as [Hhead|]. symmetry. exact Hhead.
Qed.

(** [push_back] appends to the represented sequence and touches the links
    of the old tail and of [f] only *)
Lemma push_back_spec (s : Memoize) (f : FunId) (b : FListBuilder) (l : list FunId) :
  is_Some (funs s !! f) -> builder_repr (funs s) b l -> f ∉ l ->
  exists fh' b',
    push_back f b s = Ok (b', with_funs fh' s) /\
    builder_repr fh' b' (l ++ [f]) /\
    links_only (funs s) fh' /\
    (forall g, g <> f -> Some g <> last l -> fh' !! g = funs s !! g).
Proof.
  intros [F Hf] (Hc & Hn & Ht) Hnotin. unfold push_back.
  destruct l as [|h0 l0].
  - inversion Hc as [Hhead|]; subst. unfold B.front, L.front in Hhead.
    rewrite <- Hhead. unfold bind at 1. unfold ret at 1. cbv beta iota.
    unfold bind at 1. rewrite (update_fun_ok s f F) by exact Hf. cbv beta iota.
    eexists _, _. split; [reflexivity|]. split; [|split].
    + split; [|split].
      * cbn. econstructor; [apply lookup_insert_eq|]. cbn. constructor.
      * unfold B.size, L.size in *. cbn in *. rewrite Hn. reflexivity.
      * intros _. reflexivity.
    + apply links_only_set_link. exact Hf.
    + intros g Hg _. rewrite lookup_insert_ne by congruence. reflexivity.
  - assert (Hhead : L.head (B.base b) = Some h0).
    { inversion Hc; subst. unfold B.front, L.front in *. congruence. }
    rewrite Hhead.
    assert (Hlast : is_Some (last (h0 :: l0))).
    { rewrite last_is_Some. discriminate. }
    destruct Hlast as [t Hlast]. rewrite Ht by discriminate. rewrite Hlast.
    assert (Htin : t ∈ h0 :: l0) by (apply last_Some_elem_of; exact Hlast).
    destruct (is_chain_lookup _ _ _ _ Hc Htin) as [T HT].
    assert (Htf : t <> f) by (intros ->; contradiction).
    unfold bind at 1. rewrite (update_fun_ok s t T) by exact HT. cbv beta iota.
    unfold bind at 1.
    rewrite (update_fun_ok _ f F) by (cbn; rewrite lookup_insert_ne by congruence; exact Hf).
    cbv beta iota. cbn [funs with_funs].
    eexists _, _. split; [reflexivity|]. split; [|split].
    + split; [|split].
      * cbn [B.front L.front B.base L.head].
        replace (Some h0) with (B.front b) by (unfold B.front, L.front; exact Hhead).
        eapply is_chain_snoc; eauto.
      * unfold B.size, L.size in *. cbn in *. rewrite Hn, length_app. cbn. lia.
      * intros _. rewrite last_snoc. reflexivity.
    + eapply links_only_trans.
      * apply links_only_set_link. exact HT.
      * apply links_only_set_link. rewrite lookup_insert_ne by congruence. exact Hf.
    + intros g Hgf Hgt. rewrite !lookup_insert_ne by congruence. reflexivity.
Qed.

Lemma Builder_of_spec (s : Memoize) (f : FunId) (F : Function) :
  funs s !! f = Some F ->
  exists b',
    Builder_of f s = Ok (b', with_funs (<[f := set_link None F]> (funs s)) s) /\
    builder_repr (<[f := set_link None F]> (funs s)) b' [f].
Proof.
  intros Hf. unfold Builder_of, bind. rewrite (update_fun_ok s f F) by exact Hf.
  eexists. split; [reflexivity|]. split; [|split].
  - cbn. econstructor; [apply lookup_insert_eq|]. constructor.
  - reflexivity.
  - intros _. reflexivity.
Qed.

Lemma builder_repr_frame (fh fh' : gmap FunId Function) (b : FListBuilder) (l : list FunId) :
  builder_repr fh b l ->
  (forall g, g ∈ l -> fh' !! g = fh !! g) ->
  builder_repr fh' b l.
Proof.
  intros (Hc & Hn & Ht) Hsame. split; [|split]; auto.
  eapply is_chain_frame; [exact Hc|].
  intros g G Hg HG. exists G. rewrite Hsame by exact Hg. auto.
Qed.

Lemma elem_of_concat (R : list (list FunId)) (g : FunId) :
  g ∈ concat R <-> exists l, g ∈ l /\ l ∈ R.
Proof.
  induction R as [|l0 R IH]; cbn.
  - split; [intros H; inversion H | intros (l & _ & H); inversion H].
  - rewrite elem_of_app, IH. split.
    + intros [H | (l & Hg & Hl)]; [exists l0; split; [exact H | left] | exists l; split; [exact Hg | right; exact Hl]].
    + intros (l & Hg & Hl). apply elem_of_cons in Hl as [-> | Hl]; [left; exact Hg | right; eauto].
Qed.

Lemma elem_of_concat_lookup (R : list (list FunId)) (k : nat) (l : list FunId) (g : FunId) :
  R !! k = Some l -> g ∈ l -> g ∈ concat R.
Proof.
  intros Hk Hg. apply elem_of_concat. exists l. split; [exact Hg|].
  eapply list_elem_of_lookup_2. exact Hk.
Qed.

Lemma buckets_repr_frame (fh fh' : gmap FunId Function) (buckets : list FListBuilder)
    (R : list (list FunId)) :
  Forall2 (builder_repr fh) buckets R ->
  (forall g, g ∈ concat R -> fh' !! g = fh !! g) ->
  Forall2 (builder_repr fh') buckets R.
Proof.
  intros H. induction H as [|b l buckets R Hb Hrest IH]; intros Hsame; constructor.
  - eapply builder_repr_frame; [exact Hb|]. intros g Hg. apply Hsame.
    cbn. apply elem_of_app. left. exact Hg.
  - apply IH. intros g Hg. apply Hsame. cbn. apply elem_of_app. right. exact Hg.
Qed.

(** the scan of [Schedule] over the regular buckets *)
Lemma Schedule_scan_spec (s : Memoize) (f : FunId) :
  is_Some (funs s !! f) ->
  forall (buckets : list FListBuilder) (R : list (list FunId)),
    Forall2 (builder_repr (funs s)) buckets R ->
    Forall (fun l => l <> []) R ->
    NoDup (concat R) -> f ∉ concat R ->
    match first_batchable s f (omap head R) with
    | Err e => Schedule_scan f buckets s = Err e
    | Ok (Some k) =>
        exists l fh' buckets',
          R !! k = Some l /\
          Schedule_scan f buckets s = Ok (buckets', with_funs fh' s) /\
          Forall2 (builder_repr fh') buckets' (<[k := l ++ [f]]> R) /\
          links_only (funs s) fh' /\
          (forall g, g <> f -> g ∉ l -> fh' !! g = funs s !! g)
    | Ok None =>
        exists fh' buckets',
          Schedule_scan f buckets s = Ok (buckets', with_funs fh' s) /\
          Forall2 (builder_repr fh') buckets' (R ++ [[f]]) /\
          links_only (funs s) fh' /\
          (forall g, g <> f -> fh' !! g = funs s !! g)
    end.
Proof.
  intros HF buckets R Hrepr. induction Hrepr as [|b l buckets R Hb Hrest IH];
    intros Hne Hnd Hnotin.
  - destruct HF as [F Hf]. cbn.
    destruct (Builder_of_spec s f F Hf) as (b' & Hrun & Hb').
    eexists _, _. unfold bind. rewrite Hrun. split; [reflexivity|].
    split; [|split].
    + constructor; [exact Hb' | constructor].
    + apply links_only_set_link. exact Hf.
    + intros g Hg. rewrite lookup_insert_ne by congruence. reflexivity.
  - apply Forall_cons in Hne as [Hl Hne].
    cbn [concat] in Hnd, Hnotin.
    apply NoDup_app in Hnd as (Hndl & Hdisj & HndR).
    apply not_elem_of_app in Hnotin as [Hfl HfR].
    specialize (IH Hne HndR HfR).
    destruct l as [|h l0]; [contradiction|].
    assert (Hfront : B.front b = Some h).
    { destruct Hb as (Hc & _). apply is_chain_head in Hc. cbn in Hc. congruence. }
    change (omap head ((h :: l0) :: R)) with (h :: omap head R).
    cbn [first_batchable Schedule_scan]. rewrite Hfront.
    destruct (AreBatchable s f h) as [[|]|e] eqn:Hab.
    + (* batchable with this bucket's head *)
      destruct (push_back_spec s f b (h :: l0) HF Hb Hfl) as (fh' & b' & Hrun & Hb' & Hlinks & Hframe).
      exists (h :: l0), fh', (b' :: buckets). split; [reflexivity|].
      split.
      { erewrite bind_ok by (apply read_ok; exact Hab). cbv beta iota.
        erewrite bind_ok by exact Hrun. reflexivity. }
      split; [|split].
      * cbn. constructor; [exact Hb'|].
        eapply buckets_repr_frame; [exact Hrest|]. intros g Hg.
        apply Hframe.
        -- intros ->. contradiction.
        -- intros Hlast. apply (Hdisj g); [|exact Hg].
           apply last_Some_elem_of. symmetry. exact Hlast.
      * exact Hlinks.
      * intros g Hgf Hgl. apply Hframe; [exact Hgf|].
        intros Hlast. apply Hgl. apply last_Some_elem_of. symmetry. exact Hlast.
    + (* not batchable: go on *)
      destruct (first_batchable s f (omap head R)) as [[k|]|e] eqn:Hfb.
      * destruct IH as (l' & fh' & buckets' & Hk & Hrun & Hrepr' & Hlinks & Hframe).
        exists l', fh', (b :: buckets'). split; [exact Hk|].
        split.
        { erewrite bind_ok by (apply read_ok; exact Hab). cbv beta iota.
          erewrite bind_ok by exact Hrun. reflexivity. }
        split; [|split; [exact Hlinks|exact Hframe]].
        cbn. constructor; [|exact Hrepr'].
        eapply builder_repr_frame; [exact Hb|].
        intros g Hg. apply Hframe.
        -- intros ->. contradiction.
        -- intros Hgl'. apply (Hdisj g Hg). eapply elem_of_concat_lookup; eauto.
      * destruct IH as (fh' & buckets' & Hrun & Hrepr' & Hlinks & Hframe).
        exists fh', (b :: buckets').
        split.
        { erewrite bind_ok by (apply read_ok; exact Hab). cbv beta iota.
          erewrite bind_ok by exact Hrun. reflexivity. }
        split; [|split; [exact Hlinks|exact Hframe]].
        cbn. constructor; [|exact Hrepr'].
        eapply builder_repr_frame; [exact Hb|].
        intros g Hg. apply Hframe. intros ->. contradiction.
      * erewrite bind_ok by (apply read_ok; exact Hab). cbv beta iota.
        erewrite bind_err by exact IH. reflexivity.
    + erewrite bind_err by (apply read_err; exact Hab). reflexivity.
Qed.

Lemma batchable_spec_mono (s s' : Memoize) (a b : FunId) :
  (forall f F, funs s !! f = Some F ->
     exists F', funs s' !! f = Some F' /\ m_op F' = m_op F /\ m_inputs F' = m_inputs F /\
                m_attributes F' = m_attributes F) ->
  (forall v x, vars s !! v = Some x ->
     exists x', vars s' !! v = Some x' /\ m_shape x' = m_shape x) ->
  batchable_spec s a b -> batchable_spec s' a b.
Proof.
  intros Hfuns Hvars (A & Bf & HA & HB & Hop & Hlen & Hin & Hat).
  destruct (Hfuns a A HA) as (A' & HA' & HopA & HinA & HatA).
  destruct (Hfuns b Bf HB) as (B' & HB' & HopB & HinB & HatB).
  exists A', B'. split; [exact HA'|]. split; [exact HB'|].
  rewrite HopA, HopB, HinA, HinB, HatA, HatB.
  split; [exact Hop|]. split; [exact Hlen|]. split; [|exact Hat].
  intros i ia ib Hia Hib. specialize (Hin i ia ib Hia Hib).
  destruct (bool_decide (m_op A = Times /\ i = 0%nat)); [exact Hin|].
  destruct Hin as (sh & Ha & Hb). exists sh. unfold ShapeOf in *.
  apply fmap_Some in Ha as (xa & Hxa & ->). apply fmap_Some in Hb as (xb & Hxb & Heq).
  destruct (Hvars _ _ Hxa) as (xa' & Hxa' & Hsa). destruct (Hvars _ _ Hxb) as (xb' & Hxb' & Hsb).
  rewrite Hxa', Hxb'. cbn. split; congruence.
Qed.

Lemma links_only_static (fh fh' : gmap FunId Function) :
  links_only fh fh' ->
  forall f F, fh !! f = Some F ->
    exists F', fh' !! f = Some F' /\ m_op F' = m_op F /\ m_inputs F' = m_inputs F /\
               m_attributes F' = m_attributes F.
Proof.
  intros H f F Hf. destruct (H f F Hf) as (F' & ? & ? & ? & ? & ? & ?). exists F'. auto.
Qed.

Lemma first_batchable_Some (s : Memoize) (f : FunId) (heads : list FunId) :
  forall k, first_batchable s f heads = Ok (Some k) ->
    exists h, heads !! k = Some h /\ AreBatchable s f h = Ok true /\
              forall (j : nat) h', (j < k)%nat -> heads !! j = Some h' ->
                                   AreBatchable s f h' = Ok false.
Proof.
  induction heads as [|h heads IH]; intros k Hk; [discriminate Hk|].
  cbn in Hk. destruct (AreBatchable s f h) as [[|]|e] eqn:Hab; [| |discriminate].
  - injection Hk as <-. exists h. split; [reflexivity|]. split; [exact Hab|]. intros j h' Hj. lia.
  - destruct (first_batchable s f heads) as [[k'|]|e] eqn:Hfb; [|discriminate|discriminate].
    injection Hk as <-. destruct (IH k' eq_refl) as (h0 & Hl & Hb0 & Hprev).
    exists h0. split; [exact Hl|]. split; [exact Hb0|].
    intros [|j] h' Hj Hl'; cbn in Hl'.
    + injection Hl' as <-. exact Hab.
    + apply (Hprev j h'); [lia | exact Hl'].
Qed.

Lemma first_batchable_None (s : Memoize) (f : FunId) (heads : list FunId) :
  first_batchable s f heads = Ok None ->
  forall h, h ∈ heads -> AreBatchable s f h = Ok false.
Proof.
  induction heads as [|h heads IH]; intros Hn h' Hin; [inversion Hin|].
  cbn in Hn. destruct (AreBatchable s f h) as [[|]|e] eqn:Hab; [discriminate| |discriminate].
  destruct (first_batchable s f heads) as [[k'|]|e] eqn:Hfb; [discriminate| |discriminate].
  apply elem_of_cons in Hin as [-> | Hin]; [exact Hab | apply IH; auto].
Qed.

Lemma heads_lookup (R : list (list FunId)) :
  Forall (fun l => l <> []) R ->
  forall k, omap head R !! k = R !! k ≫= head.
Proof.
  induction 1 as [|l R Hl Hne IH]; intros k; [reflexivity|].
  destruct l as [|h l0]; [contradiction|].
  change (omap head ((h :: l0) :: R)) with (h :: omap head R).
  destruct k as [|k]; [reflexivity|]. cbn. apply IH.
Qed.

Lemma concat_insert_snoc (R : list (list FunId)) (f : FunId) :
  forall (k : nat) l, R !! k = Some l -> concat (<[k := l ++ [f]]> R) ≡ₚ f :: concat R.
Proof.
  induction R as [|l0 R IH]; intros k l Hk; [discriminate Hk|].
  destruct k as [|k]; cbn in Hk |- *.
  - injection Hk as ->. rewrite <- app_assoc. cbn.
    rewrite (Permutation_middle l (concat R) f). reflexivity.
  - rewrite (IH k l Hk). rewrite (Permutation_middle l0 (concat R) f). reflexivity.
Qed.

Lemma concat_snoc (R : list (list FunId)) (l : list FunId) :
  concat (R ++ [l]) = concat R ++ l.
Proof. rewrite concat_app. cbn. rewrite app_nil_r. reflexivity. Qed.

Lemma homogeneous_mono (s s' : Memoize) (l : list FunId) :
  links_only (funs s) (funs s') -> vars s' = vars s ->
  homogeneous s l -> homogeneous s' l.
Proof.
  intros Hl Hv Hh h g Hhead Hg. destruct (Hh h g Hhead Hg) as [-> | Hb]; [left; reflexivity|].
  right. eapply batchable_spec_mono; [| |exact Hb].
  - apply links_only_static. exact Hl.
  - intros v x Hx. exists x. rewrite Hv. auto.
Qed.

Lemma NoDup_queue_snoc (V C Bq X : list FunId) (f : FunId) :
  NoDup (V ++ C ++ Bq) -> f ∉ V ++ C ++ Bq ->
  X ≡ₚ f :: V ++ C ++ Bq -> NoDup X.
Proof. intros Hnd Hf HX. rewrite HX. constructor; assumption. Qed.

Lemma homogeneous_snoc (s : Memoize) (l : list FunId) (f h : FunId) :
  head l = Some h -> homogeneous s l -> batchable_spec s f h -> homogeneous s (l ++ [f]).
Proof.
  intros Hh Hl Hf h' g Hh' Hg.
  assert (h' = h) as ->.
  { destruct l; [discriminate Hh|]. cbn in Hh, Hh'. congruence. }
  apply elem_of_app in Hg as [Hg | Hg].
  - apply Hl; assumption.
  - apply list_elem_of_singleton in Hg as ->. right. exact Hf.
Qed.

Lemma homogeneous_singleton (s : Memoize) (f : FunId) : homogeneous s [f].
Proof.
  intros h g Hh Hg. cbn in Hh. injection Hh as <-.
  apply list_elem_of_singleton in Hg. left. exact Hg.
Qed.

(** [Schedule], on the represented queues *)
Lemma Schedule_spec (s : Memoize) (f : FunId) (F : Function)
    (V : list FunId) (R : list (list FunId)) (Bq : list FunId) :
  funs s !! f = Some F -> sched_repr s V R Bq -> f ∉ V ++ concat R ++ Bq ->
  if bool_decide (m_op F = BarrierOp) then
    exists fh' r',
      Schedule f s = Ok (tt, with_schedule r' (with_funs fh' s)) /\
      links_only (funs s) fh' /\
      sched_repr (with_schedule r' (with_funs fh' s)) V R (Bq ++ [f])
  else if IsViewOp (m_op F) then
    exists fh' r',
      Schedule f s = Ok (tt, with_schedule r' (with_funs fh' s)) /\
      links_only (funs s) fh' /\
      sched_repr (with_schedule r' (with_funs fh' s)) (V ++ [f]) R Bq
  else
    match first_batchable s f (omap head R) with
    | Err e => Schedule f s = Err e
    | Ok (Some k) =>
        exists l fh' r',
          R !! k = Some l /\
          Schedule f s = Ok (tt, with_schedule r' (with_funs fh' s)) /\
          links_only (funs s) fh' /\
          sched_repr (with_schedule r' (with_funs fh' s)) V (<[k := l ++ [f]]> R) Bq
    | Ok None =>
        exists fh' r',
          Schedule f s = Ok (tt, with_schedule r' (with_funs fh' s)) /\
          links_only (funs s) fh' /\
          sched_repr (with_schedule r' (with_funs fh' s)) V (R ++ [[f]]) Bq
    end.
Proof.
  intros Hf [HV HR HB Hnd Hne Hhom] Hnotin.
  pose proof Hnd as Hnd0.
  apply NoDup_app in Hnd as (HndV & HdisjV & Hnd). apply NoDup_app in Hnd as (HndR & HdisjR & HndB).
  pose proof Hnotin as Hnotin0.
  apply not_elem_of_app in Hnotin as [HfV Hnotin]. apply not_elem_of_app in Hnotin as [HfR HfB].
  assert (Hget : get_fun f s = Ok (F, s)) by (unfold get_fun; rewrite Hf; reflexivity).
  unfold Schedule. rewrite (bind_ok _ _ _ _ _ Hget).
  assert (Hgetst : @get Memoize s = Ok (s, s)) by reflexivity.
  rewrite (bind_ok _ _ _ _ _ Hgetst).
  destruct (bool_decide (m_op F = BarrierOp)) eqn:Hbar; [|destruct (IsViewOp (m_op F)) eqn:Hview].
  - (* barrier queue *)
    destruct (push_back_spec s f _ Bq (ex_intro _ F Hf) HB HfB)
      as (fh' & b' & Hrun & Hb' & Hlinks & Hframe).
    exists fh', (set_barrierOps b' (m_schedule s)).
    split; [rewrite (bind_ok _ _ _ _ _ Hrun); reflexivity|]. split; [exact Hlinks|].
    assert (Hold : forall g, g ∈ V ++ concat R -> fh' !! g = funs s !! g).
    { intros g Hg. apply Hframe; [intros ->; apply elem_of_app in Hg as [?|?]; contradiction|].
      intros Hlast. symmetry in Hlast. apply last_Some_elem_of in Hlast.
      apply elem_of_app in Hg as [Hg | Hg].
      - apply (HdisjV g Hg). apply elem_of_app. right. exact Hlast.
      - apply (HdisjR g Hg). exact Hlast. }
    constructor; cbn.
    + eapply builder_repr_frame; [exact HV|]. intros g Hg. apply Hold, elem_of_app. auto.
    + eapply buckets_repr_frame; [exact HR|]. intros g Hg. apply Hold, elem_of_app. auto.
    + exact Hb'.
    + eapply NoDup_queue_snoc; [exact Hnd0 | exact Hnotin0 |].
      rewrite !app_assoc. rewrite <- Permutation_cons_append. reflexivity.
    + exact Hne.
    + eapply Forall_impl; [exact Hhom|]. intros l Hl.
      eapply homogeneous_mono; [| |exact Hl]; [exact Hlinks | reflexivity].
  - (* view queue *)
    destruct (push_back_spec s f _ V (ex_intro _ F Hf) HV HfV)
      as (fh' & b' & Hrun & Hb' & Hlinks & Hframe).
    exists fh', (set_viewOps b' (m_schedule s)).
    split; [rewrite (bind_ok _ _ _ _ _ Hrun); reflexivity|]. split; [exact Hlinks|].
    assert (Hold : forall g, g ∈ concat R ++ Bq -> fh' !! g = funs s !! g).
    { intros g Hg. apply Hframe; [intros ->; apply elem_of_app in Hg as [?|?]; contradiction|].
      intros Hlast. symmetry in Hlast. apply last_Some_elem_of in Hlast.
      apply (HdisjV g Hlast). exact Hg. }
    constructor; cbn.
    + exact Hb'.
    + eapply buckets_repr_frame; [exact HR|]. intros g Hg. apply Hold, elem_of_app. auto.
    + eapply builder_repr_frame; [exact HB|]. intros g Hg. apply Hold, elem_of_app. auto.
    + eapply NoDup_queue_snoc; [exact Hnd0 | exact Hnotin0 |].
      rewrite <- app_assoc. cbn. rewrite <- Permutation_middle. reflexivity.
    + exact Hne.
    + eapply Forall_impl; [exact Hhom|]. intros l Hl.
      eapply homogeneous_mono; [| |exact Hl]; [exact Hlinks | reflexivity].
  - (* regular buckets *)
    pose proof (Schedule_scan_spec s f (ex_intro _ F Hf) _ R HR Hne HndR HfR) as Hscan.
    destruct (first_batchable s f (omap head R)) as [[k|]|e] eqn:Hfb.
    + destruct Hscan as (l & fh' & buckets' & Hk & Hrun & Hrepr' & Hlinks & Hframe).
      exists l, fh', (set_regularOps buckets' (m_schedule s)). split; [exact Hk|].
      split; [rewrite (bind_ok _ _ _ _ _ Hrun); reflexivity|]. split; [exact Hlinks|].
      assert (Hlne : l <> []).
      { eapply Forall_lookup_1 in Hne; [|exact Hk]. exact Hne. }
      assert (Hold : forall g, g ∈ V ++ Bq -> fh' !! g = funs s !! g).
      { intros g Hg. apply Hframe; [intros ->; apply elem_of_app in Hg as [?|?]; contradiction|].
        intros Hgl. pose proof (elem_of_concat_lookup _ _ _ _ Hk Hgl) as HgR.
        apply elem_of_app in Hg as [Hg | Hg].
        - apply (HdisjV g Hg). apply elem_of_app. left. exact HgR.
        - apply (HdisjR g HgR). exact Hg. }
      constructor; cbn.
      * eapply builder_repr_frame; [exact HV|]. intros g Hg. apply Hold, elem_of_app. auto.
      * exact Hrepr'.
      * eapply builder_repr_frame; [exact HB|]. intros g Hg. apply Hold, elem_of_app. auto.
      * eapply NoDup_queue_snoc; [exact Hnd0 | exact Hnotin0 |].
        rewrite (concat_insert_snoc R f k l Hk). cbn. rewrite <- Permutation_middle. reflexivity.
      * apply Forall_insert; [exact Hne|]. intros Happ. apply app_eq_nil in Happ as [_ Habs].
        discriminate Habs.
      * destruct (first_batchable_Some _ _ _ _ Hfb) as (h & Hh & Hab & _).
        rewrite (heads_lookup R Hne), Hk in Hh. cbn in Hh.
        assert (Hspec : batchable_spec s f h) by (eapply AreBatchable_true; eauto).
        apply Forall_insert.
        -- eapply Forall_impl; [exact Hhom|]. intros l1 Hl1.
           eapply homogeneous_mono; [| |exact Hl1]; [exact Hlinks | reflexivity].
        -- eapply homogeneous_mono; [exact Hlinks | reflexivity |].
           apply homogeneous_snoc with (h := h); [exact Hh | | exact Hspec].
           eapply Forall_lookup_1 in Hhom; [|exact Hk]. exact Hhom.
    + destruct Hscan as (fh' & buckets' & Hrun & Hrepr' & Hlinks & Hframe).
      exists fh', (set_regularOps buckets' (m_schedule s)).
      split; [rewrite (bind_ok _ _ _ _ _ Hrun); reflexivity|]. split; [exact Hlinks|].
      assert (Hold : forall g, g ∈ V ++ Bq -> fh' !! g = funs s !! g).
      { intros g Hg. apply Hframe. intros ->. apply elem_of_app in Hg as [?|?]; contradiction. }
      constructor; cbn.
      * eapply builder_repr_frame; [exact HV|]. intros g Hg. apply Hold, elem_of_app. auto.
      * exact Hrepr'.
      * eapply builder_repr_frame; [exact HB|]. intros g Hg. apply Hold, elem_of_app. auto.
      * eapply NoDup_queue_snoc; [exact Hnd0 | exact Hnotin0 |].
        rewrite concat_snoc. rewrite <- !app_assoc. cbn.
        rewrite <- (Permutation_middle (concat R) Bq f).
        rewrite <- (Permutation_middle V (concat R ++ Bq) f). reflexivity.
      * apply Forall_app. split; [exact Hne|]. constructor; [discriminate | constructor].
      * apply Forall_app. split.
        -- eapply Forall_impl; [exact Hhom|]. intros l1 Hl1.
           eapply homogeneous_mono; [| |exact Hl1]; [exact Hlinks | reflexivity].
        -- constructor; [apply homogeneous_singleton | constructor].
    + rewrite (bind_err _ _ _ _ Hscan). reflexivity.
Qed.

(** ** pop_best *)

(** the search loop returns the first bucket of maximum size *)
Lemma pop_best_scan_spec (rest : list FListBuilder) :
  forall (pre : list FListBuilder) (k0 : nat) (b0 : FListBuilder),
    pre !! k0 = Some b0 ->
    (forall (j : nat) b, pre !! j = Some b -> (B.size b <= B.size b0)%nat) ->
    (forall (j : nat) b, (j < k0)%nat -> pre !! j = Some b -> (B.size b < B.size b0)%nat) ->
    let r := pop_best_scan (k0, b0) (length pre) rest in
    (pre ++ rest) !! fst r = Some (snd r) /\
    (forall (j : nat) b, (pre ++ rest) !! j = Some b -> (B.size b <= B.size (snd r))%nat) /\
    (forall (j : nat) b, (j < fst r)%nat -> (pre ++ rest) !! j = Some b ->
                         (B.size b < B.size (snd r))%nat).
Proof.
  induction rest as [|b rest IH]; intros pre k0 b0 Hk0 Hmax Hfirst.
  - cbn. rewrite app_nil_r. auto.
  - cbn [pop_best_scan snd].
    replace (pre ++ b :: rest) with ((pre ++ [b]) ++ rest) by (rewrite <- app_assoc; reflexivity).
    replace (S (length pre)) with (length (pre ++ [b])) by (rewrite length_app; cbn; lia).
    destruct (Nat.ltb_spec (B.size b0) (B.size b)) as [Hlt | Hge].
    + apply IH.
      * rewrite lookup_app_r by lia. rewrite Nat.sub_diag. reflexivity.
      * intros j b' Hj. apply lookup_app_Some in Hj as [Hj | [_ Hj]].
        -- specialize (Hmax j b' Hj). lia.
        -- apply list_lookup_singleton_Some in Hj as [_ ->]. lia.
      * intros j b' Hj Hl. rewrite lookup_app_l in Hl by exact Hj.
        specialize (Hmax j b' Hl). lia.
    + apply IH.
      * rewrite lookup_app_l by (eapply lookup_lt_Some; exact Hk0). exact Hk0.
      * intros j b' Hj. apply lookup_app_Some in Hj as [Hj | [_ Hj]].
        -- apply (Hmax j b' Hj).
        -- apply list_lookup_singleton_Some in Hj as [_ ->]. lia.
      * intros j b' Hj Hl.
        assert (j < length pre)%nat by (apply lookup_lt_Some in Hk0; lia).
        rewrite lookup_app_l in Hl by assumption. apply (Hfirst j b' Hj Hl).
Qed.

Lemma concat_sublist (R' R : list (list FunId)) :
  R' `sublist_of` R -> concat R' `sublist_of` concat R.
Proof.
  induction 1 as [|l R1 R2 H IH|l R1 R2 H IH]; cbn.
  - constructor.
  - apply sublist_app; [reflexivity | exact IH].
  - apply sublist_inserts_l. exact IH.
Qed.

Lemma builder_repr_moved_from (fh : gmap FunId Function) (b : FListBuilder) :
  builder_repr fh (B.moved_from b) [].
Proof. split; [constructor | split; [reflexivity | intros H; contradiction]]. Qed.

Lemma builder_repr_empty (fh : gmap FunId Function) (b : FListBuilder) (l : list FunId) :
  builder_repr fh b l -> B.empty b = bool_decide (l = []).
Proof.
  intros (Hc & _). apply is_chain_head in Hc. unfold B.empty, L.empty.
  unfold B.front, L.front in Hc. rewrite <- Hc.
  destruct l; cbn; reflexivity.
Qed.

(** [pop_best], on the represented queues *)
Lemma pop_best_repr (s : Memoize) (V : list FunId) (R : list (list FunId)) (Bq : list FunId) :
  sched_repr s V R Bq ->
  let r := pop_best (m_schedule s) in
  let s' := with_schedule (snd r) s in
  (V <> [] ->
   fst r = B.base (m_viewOps (m_schedule s)) /\
   is_chain (funs s) (L.front (fst r)) V /\ L.size (fst r) = length V /\
   sched_repr s' [] R Bq) /\
  (V = [] -> R <> [] ->
   exists k b l,
     m_regularOps (m_schedule s) !! k = Some b /\ fst r = B.base b /\
     snd r = set_regularOps (delete k (m_regularOps (m_schedule s))) (m_schedule s) /\
     R !! k = Some l /\
     is_chain (funs s) (L.front (fst r)) l /\ L.size (fst r) = length l /\
     (forall (j : nat) l', R !! j = Some l' -> (length l' <= length l)%nat) /\
     (forall (j : nat) l', (j < k)%nat -> R !! j = Some l' -> (length l' < length l)%nat) /\
     sched_repr s' V (delete k R) Bq) /\
  (V = [] -> R = [] ->
   fst r = B.base (m_barrierOps (m_schedule s)) /\
   is_chain (funs s) (L.front (fst r)) Bq /\ L.size (fst r) = length Bq /\
   sched_repr s' [] [] []).
Proof.
  intros [HV HR HB Hnd Hne Hhom]. cbv zeta. unfold pop_best.
  pose proof (builder_repr_empty _ _ _ HV) as HemptyV.
  split; [|split].
  - intros HVne. rewrite HemptyV. rewrite bool_decide_eq_false_2 by exact HVne. cbn [negb fst snd].
    destruct HV as (Hc & Hn & Ht).
    split; [reflexivity|]. split; [exact Hc|]. split; [exact Hn|].
    constructor; cbn.
    + apply builder_repr_moved_from.
    + exact HR.
    + exact HB.
    + eapply sublist_NoDup; [exact Hnd|]. apply sublist_inserts_l. reflexivity.
    + exact Hne.
    + exact Hhom.
  - intros -> HRne. rewrite HemptyV. rewrite bool_decide_eq_true_2 by reflexivity. cbn [negb].
    destruct HR as [|b0 l0 rest R0 Hb0 Hrest]; [contradiction|].
    pose proof (pop_best_scan_spec rest [b0] 0 b0 eq_refl) as Hscan.
    cbv zeta in Hscan. cbn [length app] in Hscan.
    destruct Hscan as (Hk & Hmax & Hfirst).
    { intros [|j] b Hj; cbn in Hj; [injection Hj as <-; lia | discriminate Hj]. }
    { intros j b Hj. lia. }
    set (r := pop_best_scan (0%nat, b0) 1 rest) in *.
    assert (HR : Forall2 (builder_repr (funs s)) (b0 :: rest) (l0 :: R0)) by (constructor; assumption).
    destruct (Forall2_lookup_l _ _ _ _ _ HR Hk) as (l & Hl & Hbl).
    exists (fst r), (snd r), l. cbn [fst snd].
    split; [exact Hk|]. split; [reflexivity|]. split; [reflexivity|]. split; [exact Hl|].
    destruct Hbl as (Hc & Hn & Ht).
    split; [exact Hc|]. split; [exact Hn|].
    assert (Hsize : forall (j : nat) l', (l0 :: R0) !! j = Some l' ->
               exists b', (b0 :: rest) !! j = Some b' /\ B.size b' = length l').
    { intros j l' Hj. destruct (Forall2_lookup_r _ _ _ _ _ HR Hj) as (b' & Hb'j & (_ & Hn' & _)).
      eauto. }
    unfold B.size in *. split; [|split].
    + intros j l' Hj. destruct (Hsize j l' Hj) as (b' & Hb' & <-). rewrite <- Hn. eapply Hmax. exact Hb'.
    + intros j l' Hlt Hj. destruct (Hsize j l' Hj) as (b' & Hb' & <-). rewrite <- Hn.
      eapply Hfirst; [exact Hlt | exact Hb'].
    + constructor; cbn [m_schedule with_schedule set_regularOps m_viewOps m_regularOps m_barrierOps funs].
      * exact HV.
      * apply Forall2_delete. exact HR.
      * exact HB.
      * eapply sublist_NoDup; [exact Hnd|]. cbn [app]. apply sublist_app; [|reflexivity].
        apply concat_sublist. apply sublist_delete.
      * apply Forall_delete. exact Hne.
      * apply Forall_delete. exact Hhom.
  - intros -> ->. rewrite HemptyV. rewrite bool_decide_eq_true_2 by reflexivity. cbn [negb].
    inversion HR as [Hnil|]; subst. cbn [fst snd].
    destruct HB as (Hc & Hn & Ht).
    split; [reflexivity|]. split; [exact Hc|]. split; [exact Hn|].
    constructor; cbn.
    + exact HV.
    + rewrite <- Hnil. constructor.
    + apply builder_repr_moved_from.
    + constructor.
    + constructor.
    + constructor.
Qed.

(** ** The invariant of the schedule *)

Lemma not_queued_notin (s : Memoize) (f : FunId)
    (V : list FunId) (R : list (list FunId)) (Bq : list FunId) :
  sched_repr s V R Bq -> ~ queued s f -> f ∉ V ++ concat R ++ Bq.
Proof.
  intros [HV HR HB _ _ _] Hnq Hin. apply Hnq. unfold queued.
  apply elem_of_app in Hin as [Hin | Hin]; [|apply elem_of_app in Hin as [Hin | Hin]].
  - exists (m_viewOps (m_schedule s)), V. destruct HV as (Hc & _). auto.
  - apply elem_of_concat in Hin as (l & Hfl & Hl).
    apply list_elem_of_lookup in Hl as (k & Hk).
    destruct (Forall2_lookup_r _ _ _ _ _ HR Hk) as (b & Hb & (Hc & _)).
    exists b, l. split; [|auto]. right. left. eapply list_elem_of_lookup_2. exact Hb.
  - exists (m_barrierOps (m_schedule s)), Bq. destruct HB as (Hc & _). auto.
Qed.

Lemma queued_in (s : Memoize) (f : FunId)
    (V : list FunId) (R : list (list FunId)) (Bq : list FunId) :
  sched_repr s V R Bq -> queued s f -> f ∈ V ++ concat R ++ Bq.
Proof.
  intros [HV HR HB _ _ _] (b & l & Hb & Hc & Hin).
  destruct Hb as [-> | [Hb | ->]].
  - destruct HV as (Hc' & _). rewrite (is_chain_functional _ _ _ _ Hc Hc') in Hin.
    apply elem_of_app. auto.
  - apply list_elem_of_lookup in Hb as (k & Hk).
    destruct (Forall2_lookup_l _ _ _ _ _ HR Hk) as (l' & Hl' & (Hc' & _)).
    rewrite (is_chain_functional _ _ _ _ Hc Hc') in Hin.
    apply elem_of_app. right. apply elem_of_app. left.
    eapply elem_of_concat_lookup; eauto.
  - destruct HB as (Hc' & _). rewrite (is_chain_functional _ _ _ _ Hc Hc') in Hin.
    apply elem_of_app. right. apply elem_of_app. auto.
Qed.

Lemma Schedule_allocated (s s' : Memoize) (f : FunId) :
  Schedule f s = Ok (tt, s') -> is_Some (funs s !! f).
Proof.
  unfold Schedule, bind at 1, get_fun. destruct (funs s !! f); [eauto | discriminate].
Qed.

Lemma sched_repr_new (s : Memoize) :
  m_schedule s = ReadyOps_new -> sched_repr s [] [] [].
Proof.
  intros Hs. constructor; rewrite ?Hs; cbn.
  - split; [constructor | split; [reflexivity | intros H; contradiction]].
  - constructor.
  - split; [constructor | split; [reflexivity | intros H; contradiction]].
  - constructor.
  - constructor.
  - constructor.
Qed.

Lemma sched_repr_frame (s s' : Memoize)
    (V : list FunId) (R : list (list FunId)) (Bq : list FunId) :
  m_schedule s' = m_schedule s -> same_skeleton s s' ->
  sched_repr s V R Bq -> sched_repr s' V R Bq.
Proof.
  intros Hsch [Hfuns Hvars] [HV HR HB Hnd Hne Hhom].
  assert (Hb : forall b l, builder_repr (funs s) b l -> builder_repr (funs s') b l).
  { intros b l (Hc & Hn & Ht). split; [|split]; auto.
    eapply is_chain_frame; [exact Hc|]. intros g G _ HG.
    destruct (Hfuns g G HG) as (G' & HG' & _ & _ & _ & Hlink). eauto. }
  constructor; rewrite ?Hsch; auto.
  - eapply Forall2_impl; [exact HR|]. exact Hb.
  - eapply Forall_impl; [exact Hhom|]. intros l Hl h g Hh Hg.
    destruct (Hl h g Hh Hg) as [-> | Hbs]; [left; reflexivity | right].
    eapply batchable_spec_mono; [| exact Hvars | exact Hbs].
    intros f F HF. destruct (Hfuns f F HF) as (F' & ? & ? & ? & ? & ?). exists F'. auto.
Qed.

(** every state of a run represents queues *)
Lemma sched_reachable_repr (s : Memoize) :
  sched_reachable s -> exists V R Bq, sched_repr s V R Bq.
Proof.
  induction 1 as [s Hnew | s s' f Hreach IH Hnq Hrun | s Hreach IH | s s' Hreach IH Hsch Hskel].
  - exists [], [], []. apply sched_repr_new. exact Hnew.
  - destruct IH as (V & R & Bq & Hrepr).
    destruct (Schedule_allocated _ _ _ Hrun) as [F Hf].
    pose proof (not_queued_notin _ _ _ _ _ Hrepr Hnq) as Hnotin.
    pose proof (Schedule_spec s f F V R Bq Hf Hrepr Hnotin) as Hspec.
    destruct (bool_decide (m_op F = BarrierOp)); [|destruct (IsViewOp (m_op F))].
    + destruct Hspec as (fh' & r' & Hrun' & _ & Hrepr').
      rewrite Hrun in Hrun'. injection Hrun' as ->. eauto.
    + destruct Hspec as (fh' & r' & Hrun' & _ & Hrepr').
      rewrite Hrun in Hrun'. injection Hrun' as ->. eauto.
    + destruct (first_batchable s f (omap head R)) as [[k|]|e].
      * destruct Hspec as (l & fh' & r' & _ & Hrun' & _ & Hrepr').
        rewrite Hrun in Hrun'. injection Hrun' as ->. eauto.
      * destruct Hspec as (fh' & r' & Hrun' & _ & Hrepr').
        rewrite Hrun in Hrun'. injection Hrun' as ->. eauto.
      * rewrite Hrun in Hspec. discriminate Hspec.
  - destruct IH as (V & R & Bq & Hrepr).
    destruct (pop_best_repr s V R Bq Hrepr) as (Hview & Hreg & Hbar).
    destruct (decide (V = [])) as [HV | HV]; [destruct (decide (R = [])) as [HR | HR]|].
    + destruct (Hbar HV HR) as (_ & _ & _ & Hrepr'). eauto.
    + destruct (Hreg HV HR) as (k & b & l & _ & _ & _ & _ & _ & _ & _ & _ & Hrepr'). eauto.
    + destruct (Hview HV) as (_ & _ & _ & Hrepr'). eauto.
  - destruct IH as (V & R & Bq & Hrepr). exists V, R, Bq.
    eapply sched_repr_frame; eauto.
Qed.

(** ** The claims about the scheduler *)

Lemma not_queued_new (s : Memoize) (f : FunId) : m_schedule s = ReadyOps_new -> ~ queued s f.
Proof.
  intros Hs (b & l & Hb & Hc & Hin). rewrite Hs in Hb. cbn in Hb.
  destruct Hb as [-> | [Hb | ->]].
  - inversion Hc; subst. inversion Hin.
  - inversion Hb.
  - inversion Hc; subst. inversion Hin.
Qed.

Lemma sched_repr_two_weights_scheduled :
  Schedule 10 ex_two_weights = Ok (tt, ex_two_weights_scheduled) /\
  sched_repr ex_two_weights_scheduled [] [[10%nat]] [].
Proof.
  assert (Hrun : Schedule 10 ex_two_weights = Ok (tt, ex_two_weights_scheduled))
    by (vm_compute; reflexivity).
  split; [exact Hrun|].
  assert (Hf : funs ex_two_weights !! 10%nat = Some (ex_fun Times [0%nat; 2%nat] 3%nat))
    by reflexivity.
  assert (Hnotin : 10%nat ∉ [] ++ concat [] ++ ([] : list FunId)) by apply not_elem_of_nil.
  pose proof (Schedule_spec ex_two_weights 10 _ [] [] [] Hf
                (sched_repr_new ex_two_weights eq_refl) Hnotin) as Hspec.
  change (exists fh' r',
             Schedule 10 ex_two_weights
               = Ok (tt, with_schedule r' (with_funs fh' ex_two_weights)) /\
             links_only (funs ex_two_weights) fh' /\
             sched_repr (with_schedule r' (with_funs fh' ex_two_weights)) [] [[10%nat]] [])
    in Hspec.
  destruct Hspec as (fh' & r' & Hrun' & _ & Hrepr).
  assert (Heq : ex_two_weights_scheduled = with_schedule r' (with_funs fh' ex_two_weights))
    by congruence.
  rewrite Heq. exact Hrepr.
Defined.

(** the two cases on the examples: distinct weights of the same shape open
    two buckets, a shared weight gives one bucket of two *)
Example two_weights_two_buckets :
  exists s1 s2,
    Schedule 10 ex_two_weights = Ok (tt, s1) /\ Schedule 11 s1 = Ok (tt, s2) /\
    map B.front (m_regularOps (m_schedule s2)) = [Some 10%nat; Some 11%nat] /\
    map B.size (m_regularOps (m_schedule s2)) = [1%nat; 1%nat].
Proof.
  eexists _, _. split; [vm_compute; reflexivity|]. split; [vm_compute; reflexivity|].
  split; reflexivity.
Qed.

Example shared_weight_one_bucket :
  exists s1 s2,
    Schedule 10 ex_shared_weight = Ok (tt, s1) /\ Schedule 11 s1 = Ok (tt, s2) /\
    map B.front (m_regularOps (m_schedule s2)) = [Some 10%nat] /\
    map B.size (m_regularOps (m_schedule s2)) = [2%nat] /\
    is_chain (funs s2) (Some 10%nat) [10%nat; 11%nat].
Proof.
  eexists _, _. split; [vm_compute; reflexivity|]. split; [vm_compute; reflexivity|].
  split; [reflexivity|]. split; [reflexivity|].
  econstructor; [vm_compute; reflexivity|]. cbn.
  econstructor; [vm_compute; reflexivity|]. cbn. constructor.
Qed.

(** C1: for two regular functions a and b with the same op code, AreBatchable
    answers true iff they have the same number of inputs, every input
    position has equal shapes, except that position 0 of a Times must be the
    very same Variable object, and the attribute dictionaries are equal.
    Consequently, in every state of a run of the scheduler, two Times ops
    whose weight operands are distinct variables (even of the same shape)
    are never in the same regular bucket. *)
Theorem AreBatchable_shared_weight (s : Memoize) (a b : FunId) (A Bf : Function) :
  funs s !! a = Some A -> funs s !! b = Some Bf ->
  IsViewOp (m_op A) = false -> m_op A = m_op Bf ->
  (AreBatchable s a b = Ok true <->
   length (m_inputs A) = length (m_inputs Bf) /\
   (forall (i : nat) ia ib,
       m_inputs A !! i = Some ia -> m_inputs Bf !! i = Some ib ->
       if bool_decide (m_op A = Times /\ i = 0%nat)
       then m_dataFields ia = m_dataFields ib
       else exists sh, ShapeOf s ia = Some sh /\ ShapeOf s ib = Some sh) /\
   m_attributes A = m_attributes Bf) /\
  (sched_reachable s -> m_op A = Times ->
   forall wa wb,
     m_inputs A !! 0%nat = Some wa -> m_inputs Bf !! 0%nat = Some wb ->
     m_dataFields wa <> m_dataFields wb ->
     ~ exists bucket l,
         bucket ∈ m_regularOps (m_schedule s) /\
         is_chain (funs s) (B.front bucket) l /\ a ∈ l /\ b ∈ l).
Proof.
  intros Ha Hb Hview Hop. split.
  - rewrite (AreBatchable_true s a b A Ha Hview). unfold batchable_spec. split.
    + intros (A' & B' & HA & HB & _ & Hlen & Hin & Hat).
      rewrite Ha in HA. injection HA as <-. rewrite Hb in HB. injection HB as <-. auto.
    + intros (Hlen & Hin & Hat). exists A, Bf. auto 10.
  - intros Hreach HTimes wa wb Hwa Hwb Hdiff (bucket & l & Hbucket & Hc & Hal & Hbl).
    destruct (sched_reachable_repr s Hreach) as (V & R & Bq & Hrepr).
    apply list_elem_of_lookup in Hbucket as (k & Hk).
    destruct (Forall2_lookup_l _ _ _ _ _ (repr_regular _ _ _ _ Hrepr) Hk) as (l' & Hl' & (Hc' & _)).
    rewrite <- (is_chain_functional _ _ _ _ Hc Hc') in Hl'.
    pose proof (Forall_lookup_1 _ _ _ _ (repr_homogeneous _ _ _ _ Hrepr) Hl') as Hhom.
    pose proof (Forall_lookup_1 _ _ _ _ (repr_nonempty _ _ _ _ Hrepr) Hl') as Hne.
    destruct l as [|h l0]; [contradiction|].
    (* the weight of every Times in the bucket is the weight of the head *)
    assert (Hkey : forall g G w, g ∈ h :: l0 -> funs s !! g = Some G -> m_op G = Times ->
               m_inputs G !! 0%nat = Some w ->
               exists H wh, funs s !! h = Some H /\ m_inputs H !! 0%nat = Some wh /\
                            m_dataFields w = m_dataFields wh).
    { intros g G w Hg HG HopG Hw. destruct (Hhom h g eq_refl Hg) as [-> | Hspec].
      - exists G, w. auto.
      - destruct Hspec as (G' & H & HG' & HH & Hop' & Hlen & Hin & _).
        rewrite HG in HG'. injection HG' as <-.
        assert (is_Some (m_inputs H !! 0%nat)) as [wh Hwh].
        { apply lookup_lt_is_Some. rewrite <- Hlen. eapply lookup_lt_Some. exact Hw. }
        specialize (Hin 0%nat w wh Hw Hwh).
        rewrite bool_decide_eq_true_2 in Hin by auto.
        exists H, wh. auto. }
    destruct (Hkey a A wa Hal Ha HTimes Hwa) as (H1 & wh1 & HH1 & Hwh1 & He1).
    destruct (Hkey b Bf wb Hbl Hb ltac:(congruence) Hwb) as (H2 & wh2 & HH2 & Hwh2 & He2).
    rewrite HH1 in HH2. injection HH2 as <-. rewrite Hwh1 in Hwh2. injection Hwh2 as <-.
    congruence.
Qed.

Lemma AreBatchable_shared_weight_witness :
  (AreBatchable ex_two_weights 10 11 = Ok true <->
   length (m_inputs (ex_fun Times [0%nat; 2%nat] 3%nat))
     = length (m_inputs (ex_fun Times [1%nat; 2%nat] 4%nat)) /\
   (forall (i : nat) ia ib,
       m_inputs (ex_fun Times [0%nat; 2%nat] 3%nat) !! i = Some ia ->
       m_inputs (ex_fun Times [1%nat; 2%nat] 4%nat) !! i = Some ib ->
       if bool_decide (m_op (ex_fun Times [0%nat; 2%nat] 3%nat) = Times /\ i = 0%nat)
       then m_dataFields ia = m_dataFields ib
       else exists sh, ShapeOf ex_two_weights ia = Some sh /\ ShapeOf ex_two_weights ib = Some sh) /\
   m_attributes (ex_fun Times [0%nat; 2%nat] 3%nat)
     = m_attributes (ex_fun Times [1%nat; 2%nat] 4%nat)) /\
  (sched_reachable ex_two_weights ->
   m_op (ex_fun Times [0%nat; 2%nat] 3%nat) = Times ->
   forall wa wb,
     m_inputs (ex_fun Times [0%nat; 2%nat] 3%nat) !! 0%nat = Some wa ->
     m_inputs (ex_fun Times [1%nat; 2%nat] 4%nat) !! 0%nat = Some wb ->
     m_dataFields wa <> m_dataFields wb ->
     ~ exists bucket l,
         bucket ∈ m_regularOps (m_schedule ex_two_weights) /\
         is_chain (funs ex_two_weights) (B.front bucket) l /\ 10%nat ∈ l /\ 11%nat ∈ l).
Proof.
  apply (AreBatchable_shared_weight ex_two_weights 10 11
           (ex_fun Times [0%nat; 2%nat] 3%nat) (ex_fun Times [1%nat; 2%nat] 4%nat));
    reflexivity.
Defined.

Lemma ReadyOps_empty_repr (s : Memoize)
    (V : list FunId) (R : list (list FunId)) (Bq : list FunId) :
  sched_repr s V R Bq ->
  ReadyOps_empty (m_schedule s) = false -> V <> [] \/ R <> [] \/ Bq <> [].
Proof.
  intros [HV HR HB _ _ _] Hempty. unfold ReadyOps_empty in Hempty.
  rewrite (builder_repr_empty _ _ _ HV), (builder_repr_empty _ _ _ HB) in Hempty.
  destruct V as [|v V]; [|left; discriminate].
  destruct Bq as [|q Bq]; [|right; right; discriminate].
  destruct R as [|l R]; [|right; left; discriminate].
  inversion HR as [Hnil|]; subst. rewrite <- Hnil in Hempty. discriminate Hempty.
Qed.

Lemma pop_best_priority_repr (s : Memoize)
    (V : list FunId) (R : list (list FunId)) (Bq : list FunId) :
  sched_repr s V R Bq ->
  ReadyOps_empty (m_schedule s) = false ->
  let batch := fst (pop_best (m_schedule s)) in
  let s' := with_schedule (snd (pop_best (m_schedule s))) s in
  exists l,
    l <> [] /\ L.empty batch = false /\
    is_chain (funs s) (L.front batch) l /\ L.size batch = length l /\
    ((V <> [] /\ l = V /\ sched_repr s' [] R Bq)
     \/ (V = [] /\ exists k : nat,
           R !! k = Some l /\
           (forall (j : nat) l', R !! j = Some l' -> (length l' <= length l)%nat) /\
           (forall (j : nat) l', (j < k)%nat -> R !! j = Some l' -> (length l' < length l)%nat) /\
           sched_repr s' [] (delete k R) Bq)
     \/ (V = [] /\ R = [] /\ l = Bq /\ sched_repr s' [] [] [])).
Proof.
  intros Hrepr Hnonempty. cbv zeta.
  pose proof (ReadyOps_empty_repr _ _ _ _ Hrepr Hnonempty) as Hsome.
  destruct (pop_best_repr s V R Bq Hrepr) as (Hview & Hreg & Hbar).
  assert (Hhead : forall batch l, l <> [] -> is_chain (funs s) (L.front batch) l ->
                                  L.empty batch = false).
  { intros batch l Hl Hc. apply is_chain_head in Hc. unfold L.empty, L.front in *.
    apply bool_decide_eq_false_2. rewrite <- Hc. destruct l; [contradiction | discriminate]. }
  destruct (decide (V = [])) as [HV | HV]; [destruct (decide (R = [])) as [HR | HR]|].
  - destruct (Hbar HV HR) as (_ & Hc & Hn & Hrepr').
    assert (HBq : Bq <> []) by (destruct Hsome as [? | [? | ?]]; [contradiction.. | assumption]).
    exists Bq. split; [exact HBq|]. split; [eapply Hhead; eauto|].
    split; [exact Hc|]. split; [exact Hn|]. right. right. auto.
  - destruct (Hreg HV HR) as (k & b & l & _ & _ & _ & Hl & Hc & Hn & Hmax & Hfirst & Hrepr').
    assert (Hlne : l <> []) by (eapply (Forall_lookup_1 _ _ _ _ (repr_nonempty _ _ _ _ Hrepr)); eauto).
    exists l. split; [exact Hlne|]. split; [eapply Hhead; eauto|].
    split; [exact Hc|]. split; [exact Hn|]. right. left.
    split; [exact HV|]. exists k. subst V. auto.
  - destruct (Hview HV) as (_ & Hc & Hn & Hrepr').
    exists V. split; [exact HV|]. split; [eapply Hhead; eauto|].
    split; [exact Hc|]. split; [exact Hn|]. left. auto.
Qed.

(** C2: in every state of a run, whenever the scheduler is non-empty,
    pop_best returns a non-empty batch: the entire view queue V if it is
    non-empty; otherwise the regular bucket of maximum size, the first such
    in the bucket list R (which is in order of creation), and that bucket
    is removed from the list; otherwise the entire barrier queue Bq. *)
Theorem pop_best_priority (s : Memoize) :
  sched_reachable s ->
  ReadyOps_empty (m_schedule s) = false ->
  let batch := fst (pop_best (m_schedule s)) in
  let s' := with_schedule (snd (pop_best (m_schedule s))) s in
  exists V R Bq l,
    sched_repr s V R Bq /\
    l <> [] /\ L.empty batch = false /\
    is_chain (funs s) (L.front batch) l /\ L.size batch = length l /\
    ((V <> [] /\ l = V /\ sched_repr s' [] R Bq)
     \/ (V = [] /\ exists k : nat,
           R !! k = Some l /\
           (forall (j : nat) l', R !! j = Some l' -> (length l' <= length l)%nat) /\
           (forall (j : nat) l', (j < k)%nat -> R !! j = Some l' -> (length l' < length l)%nat) /\
           sched_repr s' [] (delete k R) Bq)
     \/ (V = [] /\ R = [] /\ l = Bq /\ sched_repr s' [] [] [])).
Proof.
  intros Hreach Hnonempty. cbv zeta.
  destruct (sched_reachable_repr s Hreach) as (V & R & Bq & Hrepr).
  destruct (pop_best_priority_repr s V R Bq Hrepr Hnonempty) as (l & H).
  exists V, R, Bq, l. split; [exact Hrepr | exact H].
Qed.

Lemma pop_best_priority_witness :
  let s := ex_two_weights_scheduled in
  let batch := fst (pop_best (m_schedule s)) in
  let s' := with_schedule (snd (pop_best (m_schedule s))) s in
  exists V R Bq l,
    sched_repr s V R Bq /\
    l <> [] /\ L.empty batch = false /\
    is_chain (funs s) (L.front batch) l /\ L.size batch = length l /\
    ((V <> [] /\ l = V /\ sched_repr s' [] R Bq)
     \/ (V = [] /\ exists k : nat,
           R !! k = Some l /\
           (forall (j : nat) l', R !! j = Some l' -> (length l' <= length l)%nat) /\
           (forall (j : nat) l', (j < k)%nat -> R !! j = Some l' -> (length l' < length l)%nat) /\
           sched_repr s' [] (delete k R) Bq)
     \/ (V = [] /\ R = [] /\ l = Bq /\ sched_repr s' [] [] [])).
Proof.
  apply (pop_best_priority ex_two_weights_scheduled).
  - apply (reach_Schedule ex_two_weights ex_two_weights_scheduled 10).
    + apply reach_new. reflexivity.
    + apply not_queued_new. reflexivity.
    + exact (proj1 sched_repr_two_weights_scheduled).
  - vm_compute. reflexivity.
Defined.

Lemma first_batchable_intro_Some (s : Memoize) (f : FunId) (heads : list FunId) :
  forall (k : nat) h,
    heads !! k = Some h -> AreBatchable s f h = Ok true ->
    (forall (j : nat) h', (j < k)%nat -> heads !! j = Some h' -> AreBatchable s f h' = Ok false) ->
    first_batchable s f heads = Ok (Some k).
Proof.
  induction heads as [|h0 heads IH]; intros k h Hk Hab Hprev; [discriminate Hk|].
  destruct k as [|k]; cbn in Hk |- *.
  - injection Hk as ->. rewrite Hab. reflexivity.
  - rewrite (Hprev 0%nat h0) by (first [lia | reflexivity]).
    rewrite (IH k h Hk Hab); [reflexivity|].
    intros j h' Hj Hl. apply (Hprev (S j) h'); [lia | exact Hl].
Qed.

Lemma first_batchable_intro_None (s : Memoize) (f : FunId) (heads : list FunId) :
  (forall h, h ∈ heads -> AreBatchable s f h = Ok false) ->
  first_batchable s f heads = Ok None.
Proof.
  induction heads as [|h0 heads IH]; intros Hall; [reflexivity|].
  cbn. rewrite (Hall h0) by left. rewrite IH; [reflexivity|].
  intros h Hh. apply Hall. right. exact Hh.
Qed.

(** C3, as stated, fails: a BarrierOp (the op code NoOp, one of the
    view-only ops) is put on the barrier queue and not on the view queue. *)
Lemma Schedule_barrier_not_on_view_queue :
  exists F s',
    funs ex_barrier !! 10%nat = Some F /\ m_op F = NoOp /\ IsViewOp (m_op F) = true /\
    Schedule 10 ex_barrier = Ok (tt, s') /\
    B.empty (m_viewOps (m_schedule s')) = true /\
    ~ (exists l, is_chain (funs s') (B.front (m_viewOps (m_schedule s'))) l /\ 10%nat ∈ l) /\
    B.front (m_barrierOps (m_schedule s')) = Some 10%nat.
Proof.
  eexists _, _. split; [reflexivity|]. split; [reflexivity|]. split; [reflexivity|].
  split; [vm_compute; reflexivity|]. split; [reflexivity|]. split; [|reflexivity].
  intros (l & Hc & Hin). inversion Hc; subst. inversion Hin.
Qed.

(** C3 (amended): schedule(f) enqueues f on the barrier queue, and on no
    other queue, when f's op code is BarrierOp (which is the op code NoOp);
    on the view queue when f's op code is one of the other view-only ops
    StopGradient, Pass, Reshape, Slice; every other op is appended to the
    first regular bucket whose head is batchable with it, or opens a new
    bucket at the end of the bucket list. *)
Theorem Schedule_classifies (s : Memoize) (f : FunId) (F : Function)
    (V : list FunId) (R : list (list FunId)) (Bq : list FunId) :
  funs s !! f = Some F -> sched_repr s V R Bq -> ~ queued s f ->
  (m_op F = BarrierOp ->
   exists s', Schedule f s = Ok (tt, s') /\ sched_repr s' V R (Bq ++ [f])) /\
  (m_op F = StopGradient \/ m_op F = Pass \/ m_op F = Reshape \/ m_op F = Slice ->
   exists s', Schedule f s = Ok (tt, s') /\ sched_repr s' (V ++ [f]) R Bq) /\
  (IsViewOp (m_op F) = false ->
   (forall (k : nat) l h,
       R !! k = Some l -> head l = Some h -> AreBatchable s f h = Ok true ->
       (forall (j : nat) l' h', (j < k)%nat -> R !! j = Some l' -> head l' = Some h' ->
                                AreBatchable s f h' = Ok false) ->
       exists s', Schedule f s = Ok (tt, s') /\ sched_repr s' V (<[k := l ++ [f]]> R) Bq) /\
   ((forall l h, l ∈ R -> head l = Some h -> AreBatchable s f h = Ok false) ->
    exists s', Schedule f s = Ok (tt, s') /\ sched_repr s' V (R ++ [[f]]) Bq)).
Proof.
  intros Hf Hrepr Hnq.
  pose proof (not_queued_notin _ _ _ _ _ Hrepr Hnq) as Hnotin.
  pose proof (Schedule_spec s f F V R Bq Hf Hrepr Hnotin) as Hspec.
  pose proof (repr_nonempty _ _ _ _ Hrepr) as Hne.
  split; [|split].
  - intros Hop. rewrite bool_decide_eq_true_2 in Hspec by exact Hop.
    destruct Hspec as (fh' & r' & Hrun & _ & Hrepr'). eauto.
  - intros Hop.
    assert (Hnb : m_op F <> BarrierOp) by (unfold BarrierOp; destruct Hop as [-> | [-> | [-> | ->]]]; discriminate).
    assert (Hv : IsViewOp (m_op F) = true) by (destruct Hop as [-> | [-> | [-> | ->]]]; reflexivity).
    rewrite bool_decide_eq_false_2 in Hspec by exact Hnb. rewrite Hv in Hspec.
    destruct Hspec as (fh' & r' & Hrun & _ & Hrepr'). eauto.
  - intros Hv.
    assert (Hnb : m_op F <> BarrierOp).
    { intros Hop. rewrite Hop in Hv. discriminate Hv. }
    rewrite bool_decide_eq_false_2 in Hspec by exact Hnb. rewrite Hv in Hspec.
    split.
    + intros k l h Hk Hh Hab Hprev.
      rewrite (first_batchable_intro_Some s f (omap head R) k h) in Hspec.
      * destruct Hspec as (l0 & fh' & r' & Hk' & Hrun & _ & Hrepr').
        rewrite Hk in Hk'. injection Hk' as <-. eauto.
      * rewrite (heads_lookup R Hne), Hk. exact Hh.
      * exact Hab.
      * intros j h' Hj Hl'. rewrite (heads_lookup R Hne) in Hl'.
        destruct (R !! j) as [l'|] eqn:Hj'; [|discriminate Hl'].
        eapply Hprev; eauto.
    + intros Hall. rewrite first_batchable_intro_None in Hspec.
      * destruct Hspec as (fh' & r' & Hrun & _ & Hrepr'). eauto.
      * intros h Hh. apply list_elem_of_lookup in Hh as (k & Hk).
        rewrite (heads_lookup R Hne) in Hk.
        destruct (R !! k) as [l|] eqn:Hl; [|discriminate Hk].
        eapply Hall; [|exact Hk]. eapply list_elem_of_lookup_2. exact Hl.
Qed.


Lemma Schedule_classifies_witness :
  (m_op (ex_fun NoOp [0%nat] 1%nat) = BarrierOp ->
   exists s', Schedule 10 ex_barrier = Ok (tt, s') /\ sched_repr s' [] [] ([] ++ [10%nat])) /\
  (m_op (ex_fun NoOp [0%nat] 1%nat) = StopGradient \/ m_op (ex_fun NoOp [0%nat] 1%nat) = Pass
   \/ m_op (ex_fun NoOp [0%nat] 1%nat) = Reshape \/ m_op (ex_fun NoOp [0%nat] 1%nat) = Slice ->
   exists s', Schedule 10 ex_barrier = Ok (tt, s') /\ sched_repr s' ([] ++ [10%nat]) [] []) /\
  (IsViewOp (m_op (ex_fun NoOp [0%nat] 1%nat)) = false ->
   (forall (k : nat) l h,
       ([] : list (list FunId)) !! k = Some l -> head l = Some h ->
       AreBatchable ex_barrier 10 h = Ok true ->
       (forall (j : nat) l' h', (j < k)%nat -> ([] : list (list FunId)) !! j = Some l' ->
                                head l' = Some h' -> AreBatchable ex_barrier 10 h' = Ok false) ->
       exists s', Schedule 10 ex_barrier = Ok (tt, s') /\
                  sched_repr s' [] (<[k := l ++ [10%nat]]> []) []) /\
   ((forall l h, l ∈ ([] : list (list FunId)) -> head l = Some h ->
                 AreBatchable ex_barrier 10 h = Ok false) ->
    exists s', Schedule 10 ex_barrier = Ok (tt, s') /\ sched_repr s' [] ([] ++ [[10%nat]]) [])).
Proof.
  apply (Schedule_classifies ex_barrier 10 (ex_fun NoOp [0%nat] 1%nat) [] [] []).
  - reflexivity.
  - apply sched_repr_new. reflexivity.
  - apply not_queued_new. reflexivity.
Defined.

(** C9: notify_input_available(f) fails when the pending-inputs counter is
    already 0 (or negative); otherwise it decrements the counter and calls
    schedule(f) exactly when the counter has reached 0. *)
Theorem NotifyInputAvailable_spec (s : Memoize) (f : FunId) (F : Function) :
  funs s !! f = Some F ->
  let s1 := with_funs (<[f := set_pendingInputs (m_pendingInputs F - 1) F]> (funs s)) s in
  (m_pendingInputs F <= 0 ->
   exists msg, NotifyInputAvailable f s = Err (LogicError msg)) /\
  (m_pendingInputs F = 1 ->
   m_pendingInputs (set_pendingInputs (m_pendingInputs F - 1) F) = 0 /\
   NotifyInputAvailable f s = Schedule f s1) /\
  (m_pendingInputs F > 1 ->
   NotifyInputAvailable f s = Ok (tt, s1)).
Proof.
  intros Hf. cbv zeta.
  assert (Hget : get_fun f s = Ok (F, s)) by (unfold get_fun; rewrite Hf; reflexivity).
  unfold NotifyInputAvailable. rewrite (bind_ok _ _ _ _ _ Hget).
  split; [|split].
  - intros Hle. destruct (Z.leb_spec (m_pendingInputs F) 0); [|lia].
    eexists. reflexivity.
  - intros H1. destruct (Z.leb_spec (m_pendingInputs F) 0); [lia|].
    split; [cbn; lia|].
    rewrite (bind_ok _ _ _ _ _ (update_fun_ok s f F _ Hf)).
    rewrite H1. reflexivity.
  - intros Hgt. destruct (Z.leb_spec (m_pendingInputs F) 0); [lia|].
    rewrite (bind_ok _ _ _ _ _ (update_fun_ok s f F _ Hf)).
    destruct (Z.eqb_spec (m_pendingInputs F - 1) 0); [lia|]. reflexivity.
Qed.

Lemma NotifyInputAvailable_spec_witness :
  let F := set_pendingInputs 1 (ex_fun Times [0%nat; 2%nat] 3%nat) in
  let s1 := with_funs (<[10%nat := set_pendingInputs (m_pendingInputs F - 1) F]>
                         (funs ex_one_pending)) ex_one_pending in
  (m_pendingInputs F <= 0 ->
   exists msg, NotifyInputAvailable 10 ex_one_pending = Err (LogicError msg)) /\
  (m_pendingInputs F = 1 ->
   m_pendingInputs (set_pendingInputs (m_pendingInputs F - 1) F) = 0 /\
   NotifyInputAvailable 10 ex_one_pending = Schedule 10 s1) /\
  (m_pendingInputs F > 1 ->
   NotifyInputAvailable 10 ex_one_pending = Ok (tt, s1)).
Proof.
  apply (NotifyInputAvailable_spec ex_one_pending 10
           (set_pendingInputs 1 (ex_fun Times [0%nat; 2%nat] 3%nat))).
  reflexivity.
Defined.

(** ** Forward execution *)


Lemma on_tensors_inv {A : Type} (c : M TensorHeap A) (s s' : Memoize) (a : A) :
  on_tensors c s = Ok (a, s') -> exists th, s' = with_tensors th s.
Proof.
  unfold on_tensors. destruct (c (tensors s)) as [[a0 th]|]; [|discriminate].
  intros H. injection H as <- <-. eauto.
Qed.

Lemma update_fun_inv (s s' : Memoize) (f : FunId) (g : Function -> Function) :
  update_fun f g s = Ok (tt, s') ->
  exists F, funs s !! f = Some F /\ s' = with_funs (<[f := g F]> (funs s)) s.
Proof.
  unfold update_fun. intros H. apply bind_inv in H as (F & s1 & Hget & Hmod).
  apply get_fun_inv in Hget as [-> HF]. unfold modify in Hmod. injection Hmod as <-. eauto.
Qed.

(** resolving lazy values touches Variables and tensors only *)
Lemma LazilyIndexedValue_funs (fuel : nat) :
  forall (v : CNTKVariable) (s s' : Memoize) (t : NDArrayView),
    LazilyIndexedValue fuel v s = Ok (t, s') -> funs s' = funs s.
Proof.
  induction fuel as [|fuel IH]; intros v s s' t H; [discriminate H|].
  cbn [LazilyIndexedValue] in H.
  apply bind_inv in H as (fields & s0 & Hget & H). apply get_var_inv in Hget as [-> _].
  destruct (m_value fields); [injection H as <- <-; reflexivity|].
  destruct (fst (m_lazyIndex fields)) as [p|]; [|discriminate H].
  apply bind_inv in H as (P & s1 & Hgf & H). apply get_fun_inv in Hgf as [-> _].
  destruct (m_outputs P !! 0%nat) as [out|]; [|discriminate H].
  apply bind_inv in H as (from & s2 & Hrec & H). apply IH in Hrec.
  apply bind_inv in H as (t1 & s3 & Ht & H).
  apply bind_inv in H as ([] & s4 & Hupd & H). injection H as <- <-.
  apply update_var_inv in Hupd as (x & _ & ->). cbn.
  destruct (snd (m_lazyIndex fields) =? SIZE_MAX).
  - injection Ht as <- <-. exact Hrec.
  - apply on_tensors_inv in Ht as (th & ->). exact Hrec.
Qed.

Lemma mapM_funs {A B : Type} (g : A -> M Memoize B) (l : list A) :
  (forall x s s' y, g x s = Ok (y, s') -> funs s' = funs s) ->
  forall s s' ys, mapM g l s = Ok (ys, s') -> funs s' = funs s.
Proof.
  intros Hg. induction l as [|x l IH]; intros s s' ys H; cbn in H.
  - injection H as <- <-. reflexivity.
  - apply bind_inv in H as (y & s1 & Hx & H). apply bind_inv in H as (ys' & s2 & Hl & H).
    injection H as <- <-. rewrite (IH _ _ _ Hl). eapply Hg. exact Hx.
Qed.

Lemma MemoizeKnowableValueInArena_funs (K : Collaborators) (fuel : nat) (f : FunId)
    (isFree : bool) (s s' : Memoize) (o : CNTKVariable) :
  MemoizeKnowableValueInArena K fuel f isFree s = Ok (o, s') -> funs s' = funs s.
Proof.
  unfold MemoizeKnowableValueInArena. intros H.
  apply bind_inv in H as (F & s0 & Hgf & H). apply get_fun_inv in Hgf as [-> _].
  destruct (m_outputs F) as [|output [|]]; [discriminate H | | discriminate H].
  apply bind_inv in H as (inputValues & s1 & Hin & H).
  apply (mapM_funs _ _ (LazilyIndexedValue_funs fuel)) in Hin.
  apply bind_inv in H as (outputShape & s2 & Hsh & H).
  assert (s2 = s1) as ->.
  { unfold read in Hsh. destruct (ShapeOf s1 output); [|discriminate Hsh].
    injection Hsh as _ <-. reflexivity. }
  apply bind_inv in H as (outValue & s3 & Hout & H).
  assert (Hs3 : funs s3 = funs s1).
  { destruct isFree; [injection Hout as _ <-; reflexivity|].
    destruct inputValues as [|v0 ?]; [discriminate Hout|].
    apply bind_inv in Hout as (t & s4 & Halloc & Hret). injection Hret as _ <-.
    apply on_tensors_inv in Halloc as (th & ->). reflexivity. }
  apply bind_inv in H as (val & s4 & Hk & H).
  apply on_tensors_inv in Hk as (th & ->).
  apply bind_inv in H as ([] & s5 & Hupd & H). injection H as _ <-.
  apply update_var_inv in Hupd as (x & _ & ->). cbn. congruence.
Qed.


(** the tensor that [LazilyIndexedValue] returns is in the value slot *)
Lemma LazilyIndexedValue_cached (fuel : nat) (v : CNTKVariable) (s s' : Memoize)
    (t : NDArrayView) :
  LazilyIndexedValue fuel v s = Ok (t, s') ->
  exists x, vars s' !! m_dataFields v = Some x /\ m_value x = Some t.
Proof.
  destruct fuel as [|fuel]; [discriminate|]. cbn [LazilyIndexedValue]. intros H.
  apply bind_inv in H as (fields & s0 & Hget & H).
  apply get_var_inv in Hget as [-> Hfields].
  destruct (m_value fields) as [t0|] eqn:Hval.
  - injection H as <- <-. eauto.
  - destruct (fst (m_lazyIndex fields)) as [p|]; [|discriminate H].
    apply bind_inv in H as (P & s1 & _ & H).
    destruct (m_outputs P !! 0%nat) as [out|]; [|discriminate H].
    apply bind_inv in H as (from & s2 & _ & H).
    apply bind_inv in H as (t1 & s3 & _ & H).
    apply bind_inv in H as ([] & s4 & Hupd & H).
    injection H as <- <-.
    apply update_var_inv in Hupd as (x & Hx & ->). cbn.
    exists (set_value (Some t1) x). rewrite lookup_insert_eq. auto.
Qed.

Lemma GetValue_value_present (K : Collaborators) (fuel : nat) (v : CNTKVariable) (s : Memoize)
    (fields : VariableFields) (t : NDArrayView) :
  vars s !! m_dataFields v = Some fields -> m_value fields = Some t ->
  GetValue K fuel v s = Ok (Some t, s).
Proof.
  intros Hfields Hval. unfold GetValue.
  assert (Hget : get_var (m_dataFields v) s = Ok (fields, s))
    by (unfold get_var; rewrite Hfields; reflexivity).
  rewrite (bind_ok _ _ _ _ _ Hget). rewrite Hval. reflexivity.
Qed.

(** C8: whenever v's value slot is already populated, GetValue returns it
    immediately and leaves the engine state as it is; hence a second call
    of GetValue on the same variable returns the identical tensor object
    as the first and performs no traversal, scheduling or kernel call. *)
Theorem GetValue_idempotent (K : Collaborators) (fuel : nat) (v : CNTKVariable) (s : Memoize) :
  (forall fields t,
      vars s !! m_dataFields v = Some fields -> m_value fields = Some t ->
      forall fuel', GetValue K fuel' v s = Ok (Some t, s)) /\
  (forall r s',
      GetValue K fuel v s = Ok (r, s') ->
      exists t, r = Some t /\ forall fuel', GetValue K fuel' v s' = Ok (Some t, s')).
Proof.
  split.
  { intros fields t Hfields Hval fuel'. eapply GetValue_value_present; eauto. }
  intros r s' Hrun. unfold GetValue in Hrun.
  apply bind_inv in Hrun as (fields & s0 & Hget & Hrun).
  apply get_var_inv in Hget as [-> Hfields].
  destruct (m_value fields) as [t|] eqn:Hval.
  - injection Hrun as <- <-. exists t. split; [reflexivity|].
    intros fuel'. eapply GetValue_value_present; eauto.
  - apply bind_inv in Hrun as ([] & s1 & _ & Hrun).
    apply bind_inv in Hrun as ([] & s2 & _ & Hrun).
    apply bind_inv in Hrun as (fields' & s3 & _ & Hrun).
    destruct (bool_decide (m_value fields' = None)); [discriminate Hrun|].
    apply bind_inv in Hrun as (t & s4 & Hlazy & Hret).
    injection Hret as <- <-.
    destruct (LazilyIndexedValue_cached _ _ _ _ _ Hlazy) as (x & Hx & Hxval).
    exists t. split; [reflexivity|]. intros fuel'. eapply GetValue_value_present; eauto.
Qed.

(** an instance: the forward evaluation of the example chain succeeds, and
    a second call returns the same tensor object and the same state *)
Lemma GetValue_idempotent_witness :
  exists t s',
    GetValue ex_kernels 20 (mkVariable 2 None) ex_chain = Ok (Some t, s') /\
    forall fuel', GetValue ex_kernels fuel' (mkVariable 2 None) s' = Ok (Some t, s').
Proof.
  destruct (GetValue ex_kernels 20 (mkVariable 2 None) ex_chain) as [[r s']|e] eqn:Hrun;
    [|vm_compute in Hrun; discriminate Hrun].
  destruct (proj2 (GetValue_idempotent ex_kernels 20 (mkVariable 2 None) ex_chain) r s' Hrun)
    as (t & -> & Hagain).
  exists t, s'. split; [reflexivity | exact Hagain].
Defined.

(** ** Backward: lazily created gradients *)

Lemma nd_coversb_spec (v : NDArrayView) (blk : nat) (i : Z) :
  nd_coversb v blk i = true <-> nd_covers v blk i.
Proof.
  unfold nd_coversb, nd_covers.
  rewrite !andb_true_iff, bool_decide_eq_true, Z.leb_le, Z.ltb_lt. tauto.
Qed.

Lemma on_tensors_ok {A : Type} (c : M TensorHeap A) (s : Memoize) (a : A) (th : TensorHeap) :
  c (tensors s) = Ok (a, th) -> on_tensors c s = Ok (a, with_tensors th s).
Proof. intros H. unfold on_tensors. rewrite H. reflexivity. Qed.

Lemma SetValue_ok (g : NDArrayView) (c : Q) (th : TensorHeap) :
  SetValue g c th =
    Ok (tt, th_set_contents
              (fun blk i => if nd_coversb g blk i then Some c else th_contents th blk i) th).
Proof. reflexivity. Qed.

(** beta is 0 or 1 *)
Lemma LazilyCreateLazilyIndexedGradient_beta (fuel : nat) :
  forall (v : CNTKVariable) (s s' : Memoize) (beta : Q),
    LazilyCreateLazilyIndexedGradient fuel v s = Ok (beta, s') -> beta = 0%Q \/ beta = 1%Q.
Proof.
  induction fuel as [|fuel IH]; intros v s s' beta H; [discriminate H|].
  cbn [LazilyCreateLazilyIndexedGradient] in H.
  apply bind_inv in H as (fields & s0 & Hget & H).
  destruct (m_gradient fields); [injection H as <- <-; auto|].
  destruct (fst (m_lazyIndex fields)) as [from|].
  - apply bind_inv in H as (FROM & s1 & _ & H).
    destruct (m_outputs FROM !! 0%nat) as [fromOutput|]; [|discriminate H].
    apply bind_inv in H as (beta0 & s2 & Hrec & H).
    apply IH in Hrec.
    apply bind_inv in H as (fromFields & s3 & _ & H).
    destruct (snd (m_lazyIndex fields) =? SIZE_MAX).
    + apply bind_inv in H as ([] & s4 & _ & H). injection H as <- <-. exact Hrec.
    + destruct (m_gradient fromFields) as [g|]; [|discriminate H].
      apply bind_inv in H as (beta' & s4 & Hb & H).
      apply bind_inv in H as (t & s5 & _ & H).
      apply bind_inv in H as ([] & s6 & _ & H). injection H as <- <-.
      destruct Hrec as [-> | ->]; cbn in Hb.
      * apply bind_inv in Hb as ([] & s7 & _ & Hb). injection Hb as <- <-. auto.
      * injection Hb as <- <-. auto.
  - destruct (m_value fields); [|discriminate H].
    apply bind_inv in H as (t & s1 & _ & H).
    apply bind_inv in H as ([] & s2 & _ & H). injection H as <- <-. auto.
Qed.

(** C5: LazilyCreateLazilyIndexedGradient (ensure_gradient) returns 1.0 if
    v's gradient tensor already exists. Otherwise, if v's lazy-index
    producer is set, it recursively ensures the gradient of the producer's
    output; with the sentinel index v's gradient becomes the producer's
    gradient and the recursive beta is returned; with a real slice index a
    recursive beta of 0.0 makes it set the whole producer gradient tensor to
    zero, it returns 1.0, and v's gradient becomes the index-last-axis view
    into the producer's gradient. Otherwise it allocates a fresh gradient
    tensor in the arena and returns 0.0. *)
Theorem LazilyCreateLazilyIndexedGradient_spec (fuel : nat) (v : CNTKVariable) (s : Memoize)
    (fields : VariableFields) :
  vars s !! m_dataFields v = Some fields ->
  (m_gradient fields <> None ->
   LazilyCreateLazilyIndexedGradient (S fuel) v s = Ok (1%Q, s)) /\
  (m_gradient fields = None ->
   forall from index FROM fromOutput beta s1 fromFields fields1,
     m_lazyIndex fields = (Some from, index) ->
     funs s !! from = Some FROM -> m_outputs FROM !! 0%nat = Some fromOutput ->
     LazilyCreateLazilyIndexedGradient fuel fromOutput s = Ok (beta, s1) ->
     vars s1 !! m_dataFields fromOutput = Some fromFields ->
     vars s1 !! m_dataFields v = Some fields1 ->
     (index = SIZE_MAX ->
      LazilyCreateLazilyIndexedGradient (S fuel) v s =
        Ok (beta, with_vars (<[m_dataFields v := set_gradient (m_gradient fromFields) fields1]>
                               (vars s1)) s1)) /\
     (index <> SIZE_MAX ->
      forall g d rest,
        m_gradient fromFields = Some g -> reverse (nd_shape g) = d :: rest -> 0 <= index < d ->
        exists t s2,
          LazilyCreateLazilyIndexedGradient (S fuel) v s = Ok (1%Q, s2) /\
          (exists x, vars s2 !! m_dataFields v = Some x /\ m_gradient x = Some t) /\
          nd_block t = nd_block g /\
          nd_offset t = nd_offset g + index * TotalSize (reverse rest) /\
          nd_shape t = reverse rest /\
          (beta = 0%Q ->
           forall blk i, nd_covers g blk i -> th_contents (tensors s2) blk i = Some 0%Q) /\
          (beta <> 0%Q -> th_contents (tensors s2) = th_contents (tensors s1)))) /\
  (m_gradient fields = None -> fst (m_lazyIndex fields) = None ->
   forall val, m_value fields = Some val -> arena_wf (tensors s) ->
   exists t th',
     AllocateTensorInArena (m_shape fields) (m_dataType fields) (nd_device val) (tensors s)
       = Ok (t, th') /\
     nd_shape t = m_shape fields /\
     LazilyCreateLazilyIndexedGradient (S fuel) v s =
       Ok (0%Q, with_vars (<[m_dataFields v := set_gradient (Some t) fields]> (vars s))
                 (with_tensors th' s))).
Proof.
  intros Hfields.
  assert (Hget : get_var (m_dataFields v) s = Ok (fields, s))
    by (unfold get_var; rewrite Hfields; reflexivity).
  split; [|split].
  - intros Hgrad. cbn [LazilyCreateLazilyIndexedGradient].
    rewrite (bind_ok _ _ _ _ _ Hget).
    destruct (m_gradient fields); [reflexivity | contradiction].
  - intros Hgrad from index FROM fromOutput beta s1 fromFields fields1
           Hlazy Hfrom Hout Hrec HfromFields Hfields1.
    assert (Hstart :
               LazilyCreateLazilyIndexedGradient (S fuel) v s =
               (if index =? SIZE_MAX
                then update_var (m_dataFields v) (set_gradient (m_gradient fromFields)) ;; ret beta
                else match m_gradient fromFields with
                     | None => throw (UndefinedBehavior "fromGradient is null")
                     | Some g =>
                         do beta' <- (if Qeq_bool beta 0
                                      then on_tensors (SetValue g 0%Q) ;; ret 1%Q
                                      else ret beta);
                         do t <- on_tensors (IndexLastAxis g index);
                         update_var (m_dataFields v) (set_gradient (Some t)) ;;
                         ret beta'
                     end) s1).
    { cbn [LazilyCreateLazilyIndexedGradient].
      rewrite (bind_ok _ _ _ _ _ Hget). rewrite Hgrad, Hlazy. cbn [fst snd].
      assert (Hgf : get_fun from s = Ok (FROM, s)) by (unfold get_fun; rewrite Hfrom; reflexivity).
      rewrite (bind_ok _ _ _ _ _ Hgf). rewrite Hout.
      rewrite (bind_ok _ _ _ _ _ Hrec).
      assert (Hgv : get_var (m_dataFields fromOutput) s1 = Ok (fromFields, s1))
        by (unfold get_var; rewrite HfromFields; reflexivity).
      rewrite (bind_ok _ _ _ _ _ Hgv). reflexivity. }
    split.
    + intros ->. rewrite Hstart. rewrite Z.eqb_refl.
      rewrite (bind_ok _ _ _ _ _ (update_var_ok s1 _ fields1 _ Hfields1)). reflexivity.
    + intros Hidx g d rest Hg Hshape Hrange. rewrite Hstart.
      destruct (Z.eqb_spec index SIZE_MAX) as [|_]; [contradiction|]. rewrite Hg.
      assert (Hsub : forall th, IndexLastAxis g index th =
                 new_view_of g (nd_offset g + index * TotalSize (reverse rest)) (reverse rest) th).
      { intros th. unfold IndexLastAxis. rewrite Hshape.
        replace ((0 <=? index) && (index <? d)) with true; [reflexivity|].
        symmetry. apply andb_true_iff. split; [apply Z.leb_le | apply Z.ltb_lt]; lia. }
      destruct (LazilyCreateLazilyIndexedGradient_beta _ _ _ _ _ Hrec) as [-> | ->].
      * (* the gradient is fresh: it is reset as a whole *)
        change (Qeq_bool 0 0) with true. cbv iota.
        erewrite bind_ok;
          [|erewrite bind_ok; [reflexivity | apply on_tensors_ok; apply SetValue_ok]].
        erewrite bind_ok; [|apply on_tensors_ok; rewrite Hsub; reflexivity].
        erewrite bind_ok; [|apply update_var_ok; cbn; exact Hfields1].
        eexists _, _. split; [reflexivity|].
        split; [eexists; cbn; rewrite lookup_insert_eq; split; reflexivity|].
        split; [reflexivity|]. split; [reflexivity|]. split; [reflexivity|].
        split; [|intros Habs; contradiction].
        intros _ blk i Hcov. cbn. apply nd_coversb_spec in Hcov. rewrite Hcov. reflexivity.
      * change (Qeq_bool 1 0) with false. cbv iota.
        erewrite bind_ok; [|reflexivity].
        erewrite bind_ok; [|apply on_tensors_ok; rewrite Hsub; reflexivity].
        erewrite bind_ok; [|apply update_var_ok; cbn; exact Hfields1].
        eexists _, _. split; [reflexivity|].
        split; [eexists; cbn; rewrite lookup_insert_eq; split; reflexivity|].
        split; [reflexivity|]. split; [reflexivity|]. split; [reflexivity|].
        split; [intros Habs; discriminate Habs|]. intros _. reflexivity.
  - intros Hgrad Hlazy val Hval Hwf.
    destruct (allocate_cases (m_shape fields) (m_dataType fields) (nd_device val) (tensors s) Hwf)
      as (t & th' & Halloc & Hshape & _).
    exists t, th'. split; [exact Halloc|]. split; [exact Hshape|].
    cbn [LazilyCreateLazilyIndexedGradient].
    rewrite (bind_ok _ _ _ _ _ Hget). rewrite Hgrad, Hlazy, Hval.
    erewrite bind_ok; [|apply on_tensors_ok; exact Halloc].
    erewrite bind_ok; [|apply update_var_ok; cbn; exact Hfields]. reflexivity.
Qed.

Lemma LazilyCreateLazilyIndexedGradient_spec_witness :
  let fuel := 0%nat in
  let v := mkVariable 0 None in
  let s := ex_chain_valued in
  let fields := set_value (Some (mkNDArrayView 0 0 0 [4] DT_Float CPUDevice false))
                  (ex_var VK_Parameter [4] None) in
  vars s !! m_dataFields v = Some fields /\
  ((m_gradient fields <> None ->
    LazilyCreateLazilyIndexedGradient (S fuel) v s = Ok (1%Q, s)) /\
   (m_gradient fields = None ->
    forall from index FROM fromOutput beta s1 fromFields fields1,
      m_lazyIndex fields = (Some from, index) ->
      funs s !! from = Some FROM -> m_outputs FROM !! 0%nat = Some fromOutput ->
      LazilyCreateLazilyIndexedGradient fuel fromOutput s = Ok (beta, s1) ->
      vars s1 !! m_dataFields fromOutput = Some fromFields ->
      vars s1 !! m_dataFields v = Some fields1 ->
      (index = SIZE_MAX ->
       LazilyCreateLazilyIndexedGradient (S fuel) v s =
         Ok (beta, with_vars (<[m_dataFields v := set_gradient (m_gradient fromFields) fields1]>
                                (vars s1)) s1)) /\
      (index <> SIZE_MAX ->
       forall g d rest,
         m_gradient fromFields = Some g -> reverse (nd_shape g) = d :: rest -> 0 <= index < d ->
         exists t s2,
           LazilyCreateLazilyIndexedGradient (S fuel) v s = Ok (1%Q, s2) /\
           (exists x, vars s2 !! m_dataFields v = Some x /\ m_gradient x = Some t) /\
           nd_block t = nd_block g /\
           nd_offset t = nd_offset g + index * TotalSize (reverse rest) /\
           nd_shape t = reverse rest /\
           (beta = 0%Q ->
            forall blk i, nd_covers g blk i -> th_contents (tensors s2) blk i = Some 0%Q) /\
           (beta <> 0%Q -> th_contents (tensors s2) = th_contents (tensors s1)))) /\
   (m_gradient fields = None -> fst (m_lazyIndex fields) = None ->
    forall val, m_value fields = Some val -> arena_wf (tensors s) ->
    exists t th',
      AllocateTensorInArena (m_shape fields) (m_dataType fields) (nd_device val) (tensors s)
        = Ok (t, th') /\
      nd_shape t = m_shape fields /\
      LazilyCreateLazilyIndexedGradient (S fuel) v s =
        Ok (0%Q, with_vars (<[m_dataFields v := set_gradient (Some t) fields]> (vars s))
                  (with_tensors th' s)))).
Proof.
  cbv zeta. split; [reflexivity|].
  apply (LazilyCreateLazilyIndexedGradient_spec 0 (mkVariable 0 None) ex_chain_valued).
  reflexivity.
Defined.

(** ** Backward *)

Lemma allocate_new_object (shape : NDShape) dt dev (th th' : TensorHeap) (r : NDArrayView) :
  arena_wf th -> AllocateTensorInArena shape dt dev th = Ok (r, th') ->
  (th_nextView th <= nd_id r)%nat /\ (nd_id r < th_nextView th')%nat /\
  th_contents th' = th_contents th.
Proof.
  intros [Hused Harena] Hrun.
  destruct (Z_gt_le_dec (TotalSize shape) ARENASIZE) as [Hbig | Hsmall].
  - rewrite allocate_plain in Hrun by exact Hbig. injection Hrun as <- <-. cbn. repeat split; first [lia | reflexivity].
  - destruct (m_currentArena th) as [a|] eqn:Ha.
    + destruct (Harena a eq_refl) as (Hsh & Hoff & Hblk).
      destruct (Z_gt_le_dec (TotalSize shape) (ARENASIZE - m_currentArenaUsed th)) as [Hfull | Hfit].
      * rewrite allocate_fresh_block in Hrun by auto. injection Hrun as <- <-. cbn. repeat split; first [lia | reflexivity].
      * rewrite (allocate_carve shape dt dev th a) in Hrun by auto.
        injection Hrun as <- <-. cbn. repeat split; first [lia | reflexivity].
    + rewrite allocate_fresh_block in Hrun by auto. injection Hrun as <- <-. cbn. repeat split; first [lia | reflexivity].
Qed.

(** C10: Backward is the forward evaluation and the consumer discovery,
    then the implanting of the first gradient, then the aggregation. The
    implanting step, whatever gradient the root held before, overwrites the
    root's gradient slot with a tensor newly allocated in the arena, of the
    root's shape, and sets every element of it to 1.0. *)
Theorem Backward_implants_first_gradient (K : Collaborators) (fuel : nat)
    (root : CNTKVariable) (gradients : list (CNTKVariable * NDArrayViewPtr)) (s : Memoize) :
  (forall r s',
      Backward K fuel root gradients s = Ok (r, s') ->
      exists s1 s2,
        (do rootFields <- get_var (m_dataFields root);
         GetValue K fuel root ;; DetermineConsumersForBackward fuel root) s = Ok (tt, s1) /\
        implant_first_gradient root s1 = Ok (tt, s2) /\
        backward_pull K fuel gradients s2 = Ok (r, s')) /\
  (forall s1 fields val,
      vars s1 !! m_dataFields root = Some fields -> m_value fields = Some val ->
      arena_wf (tensors s1) ->
      exists g th' s2,
        AllocateTensorInArena (m_shape fields) (m_dataType fields) (nd_device val) (tensors s1)
          = Ok (g, th') /\
        implant_first_gradient root s1 = Ok (tt, s2) /\
        (exists x, vars s2 !! m_dataFields root = Some x /\ m_gradient x = Some g) /\
        nd_shape g = m_shape fields /\
        (th_nextView (tensors s1) <= nd_id g)%nat /\
        (forall r0, accounted r0 (tensors s1) -> ~ nd_overlap r0 g) /\
        (forall blk i, nd_covers g blk i -> th_contents (tensors s2) blk i = Some 1%Q) /\
        (forall blk i, ~ nd_covers g blk i ->
                       th_contents (tensors s2) blk i = th_contents (tensors s1) blk i)).
Proof.
  split.
  - intros r s' Hrun. unfold Backward in Hrun.
    apply bind_inv in Hrun as (rootFields & s0 & Hget & Hrun).
    apply bind_inv in Hrun as (val & sa & Hfwd & Hrun).
    apply bind_inv in Hrun as ([] & sb & Hdcb & Hrun).
    apply bind_inv in Hrun as ([] & sc & Himplant & Hpull).
    exists sb, sc. split; [|auto].
    rewrite (bind_ok _ _ _ _ _ Hget). rewrite (bind_ok _ _ _ _ _ Hfwd). exact Hdcb.
  - intros s1 fields val Hfields Hval Hwf.
    destruct (allocate_cases (m_shape fields) (m_dataType fields) (nd_device val) (tensors s1) Hwf)
      as (g & th' & Halloc & Hshape & _).
    destruct (allocate_new_object _ _ _ _ _ _ Hwf Halloc) as (Hid & _ & Hcont).
    destruct (allocate_preserves_wf _ _ _ _ _ _ Hwf Halloc) as (_ & _ & Hfresh).
    eexists g, th', _. split; [exact Halloc|].
    split.
    { unfold implant_first_gradient.
      erewrite bind_ok; [|unfold get_var; rewrite Hfields; reflexivity].
      rewrite Hval.
      erewrite bind_ok; [|apply on_tensors_ok; exact Halloc].
      erewrite bind_ok; [|apply update_var_ok; cbn; exact Hfields].
      apply on_tensors_ok. apply SetValue_ok. }
    split; [eexists; cbn; rewrite lookup_insert_eq; split; reflexivity|].
    split; [exact Hshape|]. split; [exact Hid|].
    split; [intros r0 Hr0; apply Hfresh; exact Hr0|].
    split.
    + intros blk i Hcov. cbn. apply nd_coversb_spec in Hcov. rewrite Hcov. reflexivity.
    + intros blk i Hcov. cbn. rewrite <- Hcont.
      destruct (nd_coversb g blk i) eqn:Hc; [|reflexivity].
      apply nd_coversb_spec in Hc. contradiction.
Qed.

(** an instance: on the example chain Backward succeeds, and the first
    gradient it implants is a tensor of ones *)
Lemma Backward_implants_first_gradient_witness :
  exists r s' s1 s2,
    Backward ex_kernels 20 (mkVariable 2 None) [(mkVariable 0 None, None)] ex_chain = Ok (r, s') /\
    (do rootFields <- get_var 2%nat;
     GetValue ex_kernels 20 (mkVariable 2 None) ;;
     DetermineConsumersForBackward 20 (mkVariable 2 None)) ex_chain = Ok (tt, s1) /\
    implant_first_gradient (mkVariable 2 None) s1 = Ok (tt, s2) /\
    backward_pull ex_kernels 20 [(mkVariable 0 None, None)] s2 = Ok (r, s').
Proof.
  destruct (Backward ex_kernels 20 (mkVariable 2 None) [(mkVariable 0 None, None)] ex_chain)
    as [[r s']|e] eqn:Hrun; [|vm_compute in Hrun; discriminate Hrun].
  destruct (proj1 (Backward_implants_first_gradient ex_kernels 20 (mkVariable 2 None)
                     [(mkVariable 0 None, None)] ex_chain) r s' Hrun)
    as (s1 & s2 & H1 & H2 & H3).
  exists r, s', s1, s2. auto.
Defined.

(** C6 fails on the code: after Backward the traversed Functions keep the
    visited mark 0 in their pending-inputs counter, and the inner Variables
    keep their consumers, although the state was clean before the call (and
    is clean after a forward evaluation). A second Backward then finds
    every Function "already visited" and returns no gradient. *)
Lemma Backward_leaves_state_dirty :
  state_clean ex_chain /\
  (exists t s1, GetValue ex_kernels 20 (mkVariable 2 None) ex_chain = Ok (t, s1) /\
                state_cleanb s1 = true) /\
  exists r s',
    Backward ex_kernels 20 (mkVariable 2 None) [(mkVariable 0 None, None)] ex_chain = Ok (r, s') /\
    (exists g, r = [(mkVariable 0 None, Some g)]) /\
    (exists F, funs s' !! 10%nat = Some F /\ m_pendingInputs F = 0) /\
    (exists F, funs s' !! 11%nat = Some F /\ m_pendingInputs F = 0) /\
    (exists x, vars s' !! 1%nat = Some x /\ fst (m_consumers x) = (Some 11%nat, 0%nat)) /\
    ~ state_clean s' /\
    exists s'',
      Backward ex_kernels 20 (mkVariable 2 None) [(mkVariable 0 None, None)] s'
        = Ok ([(mkVariable 0 None, None)], s'').
Proof.
  split; [|split].
  - split.
    + intros f F Hf. unfold ex_chain, ex_engine in Hf. cbn [funs] in Hf.
      apply lookup_insert_Some in Hf as [[_ <-] | [_ Hf]]; [reflexivity|].
      apply lookup_insert_Some in Hf as [[_ <-] | [_ Hf]]; [reflexivity|].
      rewrite lookup_empty in Hf. discriminate Hf.
    + intros v x Hx. unfold ex_chain, ex_engine in Hx. cbn [vars] in Hx.
      apply lookup_insert_Some in Hx as [[_ <-] | [_ Hx]]; [split; reflexivity|].
      apply lookup_insert_Some in Hx as [[_ <-] | [_ Hx]]; [split; reflexivity|].
      apply lookup_insert_Some in Hx as [[_ <-] | [_ Hx]]; [split; reflexivity|].
      rewrite lookup_empty in Hx. discriminate Hx.
  - destruct (GetValue ex_kernels 20 (mkVariable 2 None) ex_chain) as [[t s1]|e] eqn:Hrun;
      [|vm_compute in Hrun; discriminate Hrun].
    exists t, s1. split; [reflexivity|].
    assert (Hs1 : s1 = match GetValue ex_kernels 20 (mkVariable 2 None) ex_chain with
                       | Ok (_, s) => s | Err _ => ex_chain end) by (rewrite Hrun; reflexivity).
    rewrite Hs1. vm_compute. reflexivity.
  - destruct (Backward ex_kernels 20 (mkVariable 2 None) [(mkVariable 0 None, None)] ex_chain)
      as [[r s']|e] eqn:Hrun; [|vm_compute in Hrun; discriminate Hrun].
    exists r, s'. split; [reflexivity|].
    assert (Hrs : (r, s') = match Backward ex_kernels 20 (mkVariable 2 None)
                                    [(mkVariable 0 None, None)] ex_chain with
                            | Ok x => x | Err _ => ([], ex_chain) end)
      by (rewrite Hrun; reflexivity).
    assert (Hr : r = fst (r, s')) by reflexivity.
    assert (Hs' : s' = snd (r, s')) by reflexivity.
    rewrite Hrs in Hr, Hs'. clear Hrs Hrun.
    assert (H10 : exists F, funs s' !! 10%nat = Some F /\ m_pendingInputs F = 0).
    { rewrite Hs'. vm_compute. eexists. split; reflexivity. }
    split; [rewrite Hr; vm_compute; eexists; reflexivity|].
    split; [exact H10|].
    split; [rewrite Hs'; vm_compute; eexists; split; reflexivity|].
    split; [rewrite Hs'; vm_compute; eexists; split; reflexivity|].
    split.
    + intros [Hclean _]. destruct H10 as (F & HF & Hp). specialize (Hclean _ _ HF). lia.
    + rewrite Hs'. vm_compute. eexists. reflexivity.
Qed.

(** *** Backward never restores the idle mark

    The defect is not particular to the example: whenever Backward returns
    for a root that is not a leaf and already has its value, the Function
    that consumer discovery entered for the root is left with a
    pending-inputs counter other than -1. *)

Lemma fail_if_inv (cond : bool) (msg : string) (s s' : Memoize) :
  fail_if cond msg s = Ok (tt, s') -> cond = false /\ s' = s.
Proof.
  unfold fail_if. destruct cond; [discriminate|]. intros H. injection H as <-. auto.
Qed.

Lemma for_each_funs {A : Type} (body : A -> M Memoize unit) (l : list A) :
  (forall x s s', body x s = Ok (tt, s') -> funs s' = funs s) ->
  forall s s', for_each body l s = Ok (tt, s') -> funs s' = funs s.
Proof.
  intros Hbody. induction l as [|x l IH]; intros s s' H; cbn in H.
  - injection H as <-. reflexivity.
  - apply bind_inv in H as ([] & s1 & Hx & H). rewrite (IH _ _ H). eapply Hbody. exact Hx.
Qed.

Lemma LazilyCreateLazilyIndexedGradient_funs (fuel : nat) :
  forall (v : CNTKVariable) (s s' : Memoize) (beta : Q),
    LazilyCreateLazilyIndexedGradient fuel v s = Ok (beta, s') -> funs s' = funs s.
Proof.
  induction fuel as [|fuel IH]; intros v s s' beta H; [discriminate H|].
  cbn [LazilyCreateLazilyIndexedGradient] in H.
  apply bind_inv in H as (fields & s0 & Hget & H). apply get_var_inv in Hget as [-> _].
  destruct (m_gradient fields); [injection H as _ <-; reflexivity|].
  destruct (fst (m_lazyIndex fields)) as [from|].
  - apply bind_inv in H as (FROM & s1 & Hgf & H). apply get_fun_inv in Hgf as [-> _].
    destruct (m_outputs FROM !! 0%nat) as [fromOutput|]; [|discriminate H].
    apply bind_inv in H as (beta0 & s2 & Hrec & H). apply IH in Hrec.
    apply bind_inv in H as (fromFields & s3 & Hgv & H). apply get_var_inv in Hgv as [-> _].
    destruct (snd (m_lazyIndex fields) =? SIZE_MAX).
    + apply bind_inv in H as ([] & s4 & Hupd & H). injection H as _ <-.
      apply update_var_inv in Hupd as (x & _ & ->). exact Hrec.
    + destruct (m_gradient fromFields) as [g|]; [|discriminate H].
      apply bind_inv in H as (beta' & s4 & Hb & H).
      assert (Hs4 : funs s4 = funs s2).
      { destruct (Qeq_bool beta0 0).
        - apply bind_inv in Hb as ([] & s5 & Hset & Hb). injection Hb as _ <-.
          apply on_tensors_inv in Hset as (th & ->). reflexivity.
        - injection Hb as _ <-. reflexivity. }
      apply bind_inv in H as (t & s5 & Hidx & H). apply on_tensors_inv in Hidx as (th & ->).
      apply bind_inv in H as ([] & s6 & Hupd & H). injection H as _ <-.
      apply update_var_inv in Hupd as (x & _ & ->). cbn. congruence.
  - destruct (m_value fields); [|discriminate H].
    apply bind_inv in H as (t & s1 & Halloc & H). apply on_tensors_inv in Halloc as (th & ->).
    apply bind_inv in H as ([] & s2 & Hupd & H). injection H as _ <-.
    apply update_var_inv in Hupd as (x & _ & ->). reflexivity.
Qed.

Lemma BackpropTo_funs (K : Collaborators) (fuel : nat) (f : FunId) (index : nat)
    (s s' : Memoize) :
  BackpropTo K fuel f index s = Ok (tt, s') -> funs s' = funs s.
Proof.
  unfold BackpropTo. intros H.
  apply bind_inv in H as (F & s0 & Hgf & H). apply get_fun_inv in Hgf as [-> _].
  destruct (m_inputs F !! index) as [input|]; [|discriminate H].
  apply bind_inv in H as (fields & s1 & Hgv & H). apply get_var_inv in Hgv as [-> _].
  apply bind_inv in H as ([] & s2 & Hf1 & H). apply fail_if_inv in Hf1 as [_ ->].
  apply bind_inv in H as ([] & s3 & Hf2 & H). apply fail_if_inv in Hf2 as [_ ->].
  destruct (m_outputs F !! 0%nat) as [output|]; [|discriminate H].
  apply bind_inv in H as (outputFields & s4 & Hgv & H). apply get_var_inv in Hgv as [-> _].
  apply bind_inv in H as ([] & s5 & Hf3 & H). apply fail_if_inv in Hf3 as [_ ->].
  destruct (m_value outputFields); [|discriminate H].
  destruct (m_gradient outputFields); [|discriminate H].
  apply bind_inv in H as (inputValues & s6 & Hin & H).
  assert (Hs6 : funs s6 = funs s).
  { eapply mapM_funs; [|exact Hin]. intros x sx sx' y Hx.
    apply bind_inv in Hx as (fx & sy & Hgv & Hx). apply get_var_inv in Hgv as [-> _].
    destruct (m_value fx); [|discriminate Hx]. injection Hx as _ <-. reflexivity. }
  apply bind_inv in H as (beta & s7 & Hgrad & H).
  apply LazilyCreateLazilyIndexedGradient_funs in Hgrad.
  apply bind_inv in H as (fields' & s8 & Hgv & H). apply get_var_inv in Hgv as [-> _].
  apply on_tensors_inv in H as (th & ->). cbn. congruence.
Qed.

Lemma bucket_push_back_funs (c : FunId * nat) (s s' : Memoize) :
  bucket_push_back c s = Ok (tt, s') -> funs s' = funs s.
Proof.
  unfold bucket_push_back, DetermineBucket. intros H.
  apply bind_inv in H as (isMW & s0 & Hd & H).
  apply bind_inv in Hd as (F & s1 & Hgf & Hd). apply get_fun_inv in Hgf as [-> _].
  apply bind_inv in Hd as ([] & s2 & Hf & Hd). apply fail_if_inv in Hf as [_ ->].
  injection Hd as _ <-. unfold modify in H. injection H as <-.
  destruct isMW; reflexivity.
Qed.

Lemma AggregateGradientFromAllConsumers_funs (K : Collaborators) (fuel : nat) :
  forall (var : CNTKVariable) (s s' : Memoize),
    AggregateGradientFromAllConsumers K fuel var s = Ok (tt, s') -> funs s' = funs s.
Proof.
  induction fuel as [|fuel IH]; intros var s s' H; [discriminate H|].
  cbn [AggregateGradientFromAllConsumers] in H.
  apply bind_inv in H as (fields & s0 & Hgv & H). apply get_var_inv in Hgv as [-> _].
  destruct (m_visited fields); [injection H as <-; reflexivity|].
  destruct (fst (fst (m_consumers fields))) as [cf|]; [|injection H as <-; reflexivity].
  apply bind_inv in H as ([] & s1 & Hf & H). apply fail_if_inv in Hf as [_ ->].
  apply bind_inv in H as ([] & s2 & Hupd & H). apply update_var_inv in Hupd as (x & _ & ->).
  apply bind_inv in H as (CF & s3 & Hgf & H). apply get_fun_inv in Hgf as [-> _].
  apply bind_inv in H as ([] & s4 & Hfirst & H).
  apply (for_each_funs _ _ (IH)) in Hfirst. cbn in Hfirst.
  apply bind_inv in H as ([] & s5 & Hmore & H).
  assert (Hs5 : funs s5 = funs s4).
  { eapply for_each_funs; [|exact Hmore]. intros c' sx sx' Hx.
    apply bind_inv in Hx as (CF' & sy & Hgf & Hx). apply get_fun_inv in Hgf as [-> _].
    eapply for_each_funs; [|exact Hx]. exact IH. }
  apply bind_inv in H as (fields' & s6 & Hgv & H). apply get_var_inv in Hgv as [-> _].
  apply bind_inv in H as ([] & s7 & Hf & H). apply fail_if_inv in Hf as [_ ->].
  destruct (bool_decide (snd (m_consumers fields') = [])).
  - apply BackpropTo_funs in H. congruence.
  - apply bind_inv in H as (sg & s8 & Hget & H). injection Hget as <- <-.
    apply bind_inv in H as ([] & s9 & Hf & H). apply fail_if_inv in Hf as [_ ->].
    apply bind_inv in H as ([] & s10 & Hp1 & H). apply bucket_push_back_funs in Hp1.
    apply bind_inv in H as ([] & s11 & Hp2 & H).
    apply (for_each_funs _ _ bucket_push_back_funs) in Hp2.
    apply bind_inv in H as (sg1 & s12 & Hget & H). injection Hget as <- <-.
    apply bind_inv in H as ([] & s13 & Hmw & H).
    assert (Hs13 : funs s13 = funs s11).
    { destruct (bool_decide (m_matrixWeightConsumers s11 <> [])).
      - apply bind_inv in Hmw as ([] & s14 & Hb & Hmw). unfold modify in Hmw.
        injection Hmw as <-. cbn.
        eapply for_each_funs; [|exact Hb]. intros c' sx sx' Hx.
        eapply BackpropTo_funs. exact Hx.
      - injection Hmw as <-. reflexivity. }
    apply bind_inv in H as (sg2 & s14 & Hget & H). injection Hget as <- <-.
    apply bind_inv in H as ([] & s15 & Hoth & H).
    assert (Hs15 : funs s15 = funs s13).
    { eapply for_each_funs; [|exact Hoth]. intros c' sx sx' Hx.
      eapply BackpropTo_funs. exact Hx. }
    unfold modify in H. injection H as <-. cbn. congruence.
Qed.

Lemma backward_pull_funs (K : Collaborators) (fuel : nat)
    (gradients : list (CNTKVariable * NDArrayViewPtr)) (s s' : Memoize)
    (r : list (CNTKVariable * NDArrayViewPtr)) :
  backward_pull K fuel gradients s = Ok (r, s') -> funs s' = funs s.
Proof.
  unfold backward_pull. intros H.
  apply bind_inv in H as ([] & s1 & H1 & H).
  assert (Hs1 : funs s1 = funs s).
  { eapply for_each_funs; [|exact H1]. intros kv sx sx' Hx.
    apply bind_inv in Hx as ([] & sy & Hset & Hx).
    apply update_var_inv in Hx as (x & _ & ->). cbn.
    destruct (snd kv); [apply on_tensors_inv in Hset as (th & ->) | injection Hset as <-];
      reflexivity. }
  apply bind_inv in H as ([] & s2 & H2 & H).
  assert (Hs2 : funs s2 = funs s1).
  { eapply for_each_funs; [|exact H2]. intros kv sx sx' Hx.
    apply bind_inv in Hx as (fx & sy & Hgv & Hx). apply get_var_inv in Hgv as [-> _].
    eapply AggregateGradientFromAllConsumers_funs. exact Hx. }
  apply bind_inv in H as (res & s3 & H3 & H).
  assert (Hs3 : funs s3 = funs s2).
  { eapply mapM_funs; [|exact H3]. intros kv sx sx' y Hx.
    apply bind_inv in Hx as (fx & sy & Hgv & Hx). apply get_var_inv in Hgv as [-> _].
    injection Hx as _ <-. reflexivity. }
  apply bind_inv in H as ([] & s4 & H4 & H). injection H as _ <-.
  assert (Hs4 : funs s4 = funs s3).
  { eapply for_each_funs; [|exact H4]. intros kv sx sx' Hx.
    apply update_var_inv in Hx as (x & _ & ->). reflexivity. }
  congruence.
Qed.

Lemma implant_first_gradient_funs (root : CNTKVariable) (s s' : Memoize) :
  implant_first_gradient root s = Ok (tt, s') -> funs s' = funs s.
Proof.
  unfold implant_first_gradient. intros H.
  apply bind_inv in H as (fields & s0 & Hgv & H). apply get_var_inv in Hgv as [-> _].
  destruct (m_value fields); [|discriminate H].
  apply bind_inv in H as (g & s1 & Halloc & H). apply on_tensors_inv in Halloc as (th & ->).
  apply bind_inv in H as ([] & s2 & Hupd & H). apply update_var_inv in Hupd as (x & _ & ->).
  apply on_tensors_inv in H as (th' & ->). reflexivity.
Qed.

Lemma DetermineConsumersForBackward_Function_marks (rec : CNTKVariable -> M Memoize unit)
    (f : FunId) (s s' : Memoize) :
  DetermineConsumersForBackward_Function rec f s = Ok (tt, s') ->
  exists F', funs s' !! f = Some F' /\ m_pendingInputs F' <> -1.
Proof.
  unfold DetermineConsumersForBackward_Function. intros H.
  apply bind_inv in H as (F & s0 & Hgf & H). apply get_fun_inv in Hgf as [-> HF].
  apply bind_inv in H as ([] & s1 & Hf & H). apply fail_if_inv in Hf as [_ ->].
  destruct (decide (m_pendingInputs F = -1)) as [Hidle | Hbusy].
  - rewrite bool_decide_eq_false_2 in H by tauto.
    apply bind_inv in H as ([] & s2 & _ & H).
    apply bind_inv in H as ([] & s3 & _ & H).
    apply bind_inv in H as (n & s4 & _ & H).
    apply update_fun_inv in H as (F4 & HF4 & ->). cbn.
    exists (set_pendingInputs 0 F4). rewrite lookup_insert_eq. split; [reflexivity|]. cbn. lia.
  - rewrite bool_decide_eq_true_2 in H by exact Hbusy. injection H as <-. eauto.
Qed.

Lemma Backward_never_restores_idle (K : Collaborators) (fuel : nat) (root : CNTKVariable)
    (gradients : list (CNTKVariable * NDArrayViewPtr)) (s s' : Memoize)
    (fields : VariableFields) (t : NDArrayView) (r : list (CNTKVariable * NDArrayViewPtr)) :
  vars s !! m_dataFields root = Some fields -> m_value fields = Some t ->
  m_varKind fields <> VK_Parameter -> m_varKind fields <> VK_Constant ->
  Backward K fuel root gradients s = Ok (r, s') ->
  ~ state_clean s'.
Proof.
  intros Hfields Hval Hnp Hnc Hrun [Hclean _].
  unfold Backward in Hrun.
  apply bind_inv in Hrun as (rootFields & s0 & Hgv & Hrun). apply get_var_inv in Hgv as [-> _].
  apply bind_inv in Hrun as (val & sa & Hfwd & Hrun).
  rewrite (GetValue_value_present K fuel root s fields t Hfields Hval) in Hfwd.
  injection Hfwd as _ <-.
  apply bind_inv in Hrun as ([] & sb & Hdcb & Hrun).
  apply bind_inv in Hrun as ([] & sc & Himplant & Hpull).
  apply implant_first_gradient_funs in Himplant. apply backward_pull_funs in Hpull.
  assert (Hmark : exists f F', funs sb !! f = Some F' /\ m_pendingInputs F' <> -1).
  { destruct fuel as [|fuel]; [discriminate Hdcb|]. cbn [DetermineConsumersForBackward] in Hdcb.
    apply bind_inv in Hdcb as ([] & s1 & Hupd & Hdcb).
    apply update_var_inv in Hupd as (x & Hx & ->).
    rewrite Hfields in Hx. injection Hx as <-.
    apply bind_inv in Hdcb as (fields1 & s2 & Hgv & Hdcb). apply get_var_inv in Hgv as [-> Hf1].
    cbn in Hf1. rewrite lookup_insert_eq in Hf1. injection Hf1 as <-. cbn [m_varKind set_visited] in Hdcb.
    rewrite !bool_decide_eq_false_2 in Hdcb by assumption. cbn [orb] in Hdcb.
    apply bind_inv in Hdcb as ([] & s3 & Hf & Hdcb). apply fail_if_inv in Hf as [_ ->].
    apply bind_inv in Hdcb as ([] & s4 & Hf & Hdcb). apply fail_if_inv in Hf as [_ ->].
    apply bind_inv in Hdcb as ([] & s5 & Hf & Hdcb). apply fail_if_inv in Hf as [_ ->].
    destruct (fst (m_lazyIndex (set_visited false fields))) as [f|].
    - exists f. eapply DetermineConsumersForBackward_Function_marks. exact Hdcb.
    - destruct (m_ownerFunction (set_visited false fields)) as [f|]; [|discriminate Hdcb].
      exists f. eapply DetermineConsumersForBackward_Function_marks. exact Hdcb. }
  destruct Hmark as (f & F' & HF' & Hne).
  apply Hne. apply (Hclean f F'). congruence.
Qed.

(** * Further properties of the engine *)

(** ** Relating the states before and after a call *)

Section Preserves.
Context (R : Memoize -> Memoize -> Prop) `{!PreOrder R}.

Lemma preserves_ret {A : Type} (a : A) : preserves R (ret a).
Proof. intros s a' s' H. injection H as _ <-. reflexivity. Qed.

Lemma preserves_throw {A : Type} (e : error) : preserves R (@throw Memoize A e).
Proof. intros s a s' H. discriminate H. Qed.

Lemma preserves_bind {A B : Type} (c : M Memoize A) (k : A -> M Memoize B) :
  preserves R c -> (forall a, preserves R (k a)) -> preserves R (bind c k).
Proof.
  intros Hc Hk s b s' H. apply bind_inv in H as (a & s1 & H1 & H2).
  transitivity s1; [eapply Hc | eapply Hk]; eauto.
Qed.

Lemma preserves_get : preserves R get.
Proof. intros s a s' H. injection H as _ <-. reflexivity. Qed.

Lemma preserves_read {A : Type} (g : Memoize -> result A) : preserves R (read g).
Proof.
  intros s a s' H. unfold read in H. destruct (g s); [|discriminate H].
  injection H as _ <-. reflexivity.
Qed.

Lemma preserves_get_var (v : VarId) : preserves R (get_var v).
Proof. intros s a s' H. apply get_var_inv in H as [-> _]. reflexivity. Qed.

Lemma preserves_get_fun (f : FunId) : preserves R (get_fun f).
Proof. intros s a s' H. apply get_fun_inv in H as [-> _]. reflexivity. Qed.

Lemma preserves_fail_if (cond : bool) (msg : string) : preserves R (fail_if cond msg).
Proof. intros s [] s' H. apply fail_if_inv in H as [_ ->]. reflexivity. Qed.

Lemma preserves_Shape (v : CNTKVariable) : preserves R (Shape v).
Proof.
  apply preserves_bind; [apply preserves_get_var | intros x; apply preserves_ret].
Qed.

Lemma preserves_for_each {A : Type} (body : A -> M Memoize unit) (l : list A) :
  (forall x, preserves R (body x)) -> preserves R (for_each body l).
Proof.
  intros Hb. induction l as [|x l IH]; cbn [for_each].
  - apply preserves_ret.
  - apply preserves_bind; [apply Hb | intros _; exact IH].
Qed.

Lemma preserves_mapM {A B : Type} (g : A -> M Memoize B) (l : list A) :
  (forall x, preserves R (g x)) -> preserves R (mapM g l).
Proof.
  intros Hg. induction l as [|x l IH]; cbn [mapM].
  - apply preserves_ret.
  - apply preserves_bind; [apply Hg | intros y].
    apply preserves_bind; [exact IH | intros ys; apply preserves_ret].
Qed.

Lemma preserves_foldM {A B : Type} (g : B -> A -> M Memoize B) (l : list A) :
  (forall acc x, preserves R (g acc x)) -> forall acc, preserves R (foldM g acc l).
Proof.
  intros Hg. induction l as [|x l IH]; intros acc; cbn [foldM].
  - apply preserves_ret.
  - apply preserves_bind; [apply Hg | intros acc'; apply IH].
Qed.

Lemma preserves_fold_chain {A : Type} (body : A -> FunId -> M Memoize A) :
  (forall acc f, preserves R (body acc f)) ->
  forall (fuel : nat) acc iter, preserves R (fold_chain fuel body acc iter).
Proof.
  intros Hb. induction fuel as [|fuel IH]; intros acc [f|]; cbn [fold_chain];
    try apply preserves_ret; try apply preserves_throw.
  apply preserves_bind; [apply Hb | intros acc'].
  apply preserves_bind; [apply preserves_get_fun | intros F; apply IH].
Qed.

Lemma preserves_update_var (v : VarId) (g : VariableFields -> VariableFields) :
  (forall s x, vars s !! v = Some x -> R s (with_vars (<[v := g x]> (vars s)) s)) ->
  preserves R (update_var v g).
Proof.
  intros Hg s [] s' H. apply update_var_inv in H as (x & Hx & ->). apply Hg, Hx.
Qed.

Lemma preserves_update_fun (f : FunId) (g : Function -> Function) :
  (forall s F, funs s !! f = Some F -> R s (with_funs (<[f := g F]> (funs s)) s)) ->
  preserves R (update_fun f g).
Proof.
  intros Hg s [] s' H. apply update_fun_inv in H as (F & HF & ->). apply Hg, HF.
Qed.

Lemma preserves_on_tensors {A : Type} (c : M TensorHeap A) :
  (forall s th, R s (with_tensors th s)) -> preserves R (on_tensors c).
Proof. intros Hg s a s' H. apply on_tensors_inv in H as (th & ->). apply Hg. Qed.

Lemma preserves_modify (g : Memoize -> Memoize) :
  (forall s, R s (g s)) -> preserves R (modify g).
Proof. intros Hg s [] s' H. injection H as <-. apply Hg. Qed.

End Preserves.

(** one step of a proof that a computation preserves a relation: follow
    the structure of the program *)
Ltac papply H := apply H; try solve [typeclasses eauto].

Ltac pres_step :=
  lazymatch goal with
  | |- preserves _ (ret _) => papply @preserves_ret
  | |- preserves _ (throw _) => papply @preserves_throw
  | |- preserves _ (bind _ _) => papply @preserves_bind; [|intros ?]
  | |- preserves _ get => papply @preserves_get
  | |- preserves _ (read _) => papply @preserves_read
  | |- preserves _ (get_var _) => papply @preserves_get_var
  | |- preserves _ (get_fun _) => papply @preserves_get_fun
  | |- preserves _ (fail_if _ _) => papply @preserves_fail_if
  | |- preserves _ (Shape _) => papply @preserves_Shape
  | |- preserves _ (for_each _ _) => papply @preserves_for_each; intros ?
  | |- preserves _ (mapM _ _) => papply @preserves_mapM; intros ?
  | |- preserves _ (foldM _ _ _) => papply @preserves_foldM; intros ? ?
  | |- preserves _ (fold_chain _ _ _ _) => papply @preserves_fold_chain; intros ? ?
  | |- preserves _ (for_chain _ _ _) => unfold for_chain
  | |- preserves _ (match ?x with _ => _ end) => destruct x
  end.

Ltac pres := repeat (pres_step; try assumption).

(** ** Frame properties of the forward pass

    The forward pass changes the state through a few primitive steps only.
    A relation that every one of these steps respects is respected by the
    whole pass. *)

Section ForwardFrame.
Context (K : Collaborators).
Context (R : Memoize -> Memoize -> Prop) `{!PreOrder R}.
Hypothesis R_tensors : forall s th, R s (with_tensors th s).
Hypothesis R_schedule : forall s r, R s (with_schedule r s).
Hypothesis R_launches : forall s n, R s (with_numBatchedLaunches n s).
Hypothesis R_set_link : forall s f F x,
  funs s !! f = Some F -> R s (with_funs (<[f := set_link x F]> (funs s)) s).
Hypothesis R_set_pendingInputs : forall s f F n,
  funs s !! f = Some F -> R s (with_funs (<[f := set_pendingInputs n F]> (funs s)) s).
Hypothesis R_set_value : forall s v x t,
  vars s !! v = Some x -> R s (with_vars (<[v := set_value t x]> (vars s)) s).
Hypothesis R_init_leaf : forall s v x t,
  vars s !! v = Some x -> m_value x = None ->
  m_varKind x = VK_Parameter \/ m_varKind x = VK_Constant ->
  R s (with_vars (<[v := set_value t x]> (vars s)) s).
Hypothesis R_set_lazyIndex : forall s v x i,
  vars s !! v = Some x -> R s (with_vars (<[v := set_lazyIndex i x]> (vars s)) s).
Hypothesis R_add_consumer : forall s v x c,
  vars s !! v = Some x -> R s (with_vars (<[v := add_consumer c x]> (vars s)) s).
Hypothesis R_clear_consumers : forall s v x,
  vars s !! v = Some x -> R s (with_vars (<[v := clear_consumers x]> (vars s)) s).
Hypothesis R_new_function : forall op inputs outputShape attributes,
  preserves R (RawPrimitiveFunction op inputs outputShape attributes).

Ltac frame_prim :=
  lazymatch goal with
  | |- preserves _ (on_tensors _) => papply @preserves_on_tensors; intros; apply R_tensors
  | |- preserves _ (modify_schedule _) =>
      unfold modify_schedule; papply @preserves_modify; intros; apply R_schedule
  | |- preserves _ (modify (fun s => with_numBatchedLaunches _ s)) =>
      papply @preserves_modify; intros; apply R_launches
  | |- preserves _ (update_fun _ (set_link _)) =>
      papply @preserves_update_fun; intros; apply R_set_link; assumption
  | |- preserves _ (update_fun _ (set_pendingInputs _)) =>
      papply @preserves_update_fun; intros; apply R_set_pendingInputs; assumption
  | |- preserves _ (update_var _ (set_value _)) =>
      papply @preserves_update_var; intros; apply R_set_value; assumption
  | |- preserves _ (update_var _ (set_lazyIndex _)) =>
      papply @preserves_update_var; intros; apply R_set_lazyIndex; assumption
  | |- preserves _ (update_var _ (add_consumer _)) =>
      papply @preserves_update_var; intros; apply R_add_consumer; assumption
  | |- preserves _ (update_var _ clear_consumers) =>
      papply @preserves_update_var; intros; apply R_clear_consumers; assumption
  | |- preserves _ (RawPrimitiveFunction _ _ _ _) => apply R_new_function
  end.

Ltac frame := repeat first [pres_step | frame_prim | assumption].

Lemma frame_LazilyIndexedValue (fuel : nat) :
  forall v, preserves R (LazilyIndexedValue fuel v).
Proof.
  induction fuel as [|fuel IH]; intros v; cbn [LazilyIndexedValue]; frame. apply IH.
Qed.

Lemma frame_MemoizeKnowableValueInArena (fuel : nat) (f : FunId) (isFree : bool) :
  preserves R (MemoizeKnowableValueInArena K fuel f isFree).
Proof.
  unfold MemoizeKnowableValueInArena. frame; apply frame_LazilyIndexedValue.
Qed.

Lemma frame_ResetPendingToIdle (f : FunId) : preserves R (ResetPendingToIdle f).
Proof. unfold ResetPendingToIdle. frame. Qed.

(** where the counter may change only from ready to idle, the reset is a
    step of its own *)
Hypothesis R_reset : forall f, preserves R (ResetPendingToIdle f).

Lemma frame_push_back (f : FunId) (b : FListBuilder) : preserves R (push_back f b).
Proof. unfold push_back. frame. Qed.

Lemma frame_Builder_of (f : FunId) : preserves R (Builder_of f).
Proof. unfold Builder_of. frame. Qed.

Lemma frame_Schedule_scan (f : FunId) (buckets : list FListBuilder) :
  preserves R (Schedule_scan f buckets).
Proof.
  induction buckets as [|b rest IH]; cbn [Schedule_scan]; frame;
    first [apply frame_Builder_of | apply frame_push_back].
Qed.

Lemma frame_Schedule (f : FunId) : preserves R (Schedule f).
Proof.
  unfold Schedule. frame; first [apply frame_push_back | apply frame_Schedule_scan].
Qed.

Lemma frame_NotifyInputAvailable (f : FunId) : preserves R (NotifyInputAvailable f).
Proof. unfold NotifyInputAvailable. frame. apply frame_Schedule. Qed.

Lemma frame_execute_naively (fuel : nat) (ops : FList) (isFree : bool) :
  preserves R (execute_naively K fuel ops isFree).
Proof.
  unfold execute_naively. frame;
    first [apply frame_MemoizeKnowableValueInArena | apply R_reset].
Qed.

Lemma frame_collect_step (i : nat) (pfields0 : VarId) (lazyIndex0 : option FunId * Z)
    (acc : bool * bool * nat * list CNTKVariable) (op : FunId) :
  preserves R (collect_step i pfields0 lazyIndex0 acc op).
Proof. unfold collect_step. frame. Qed.

Lemma frame_batch_input (fuel : nat) (ops : FList) (F0 : Function) (maxRank i : nat) :
  preserves R (batch_input K fuel ops F0 maxRank i).
Proof.
  unfold batch_input. frame;
    first [apply frame_collect_step | apply frame_MemoizeKnowableValueInArena
          | apply frame_LazilyIndexedValue].
Qed.

Lemma frame_implant_step (batchedOp : FunId) (j : Z) (op : FunId) :
  preserves R (implant_step batchedOp j op).
Proof. unfold implant_step. frame. apply R_reset. Qed.

Lemma frame_execute_batched (fuel : nat) (ops : FList) (F0 : Function) :
  preserves R (execute_batched K fuel ops F0).
Proof.
  unfold execute_batched. frame;
    first [apply frame_batch_input | apply frame_MemoizeKnowableValueInArena
          | apply frame_implant_step].
Qed.

Lemma frame_notify_consumers (fuel : nat) (ops : FList) :
  preserves R (notify_consumers fuel ops).
Proof. unfold notify_consumers. frame; apply frame_NotifyInputAvailable. Qed.

Lemma frame_ExecuteBatchedOpAndUpdateSchedule (fuel : nat) (ops : FList) :
  preserves R (ExecuteBatchedOpAndUpdateSchedule K fuel ops).
Proof.
  unfold ExecuteBatchedOpAndUpdateSchedule. frame;
    first [apply frame_execute_naively | apply frame_execute_batched
          | apply frame_notify_consumers].
Qed.

Lemma frame_run_schedule (execFuel : nat) (fuel : nat) :
  preserves R (run_schedule K fuel execFuel).
Proof.
  induction fuel as [|fuel IH]; cbn [run_schedule]; frame;
    first [apply frame_ExecuteBatchedOpAndUpdateSchedule | exact IH].
Qed.

Lemma frame_traverse_inputs (rec : CNTKVariable -> M Memoize unit) (f : FunId)
    (inputs : list CNTKVariable) :
  (forall v, preserves R (rec v)) -> preserves R (traverse_inputs rec f inputs).
Proof. intros Hrec. unfold traverse_inputs. frame. apply Hrec. Qed.

Lemma frame_TraverseFunctionTreeForward (fuel : nat) :
  forall var, preserves R (TraverseFunctionTreeForward K fuel var).
Proof.
  induction fuel as [|fuel IH]; intros var; cbn [TraverseFunctionTreeForward]; [frame|].
  intros s a s' H.
  apply bind_inv in H as (fields & s1 & Hget & H). apply get_var_inv in Hget as [-> Hfields].
  destruct (bool_decide (m_value fields <> None)) eqn:Hval; [discriminate H|].
  destruct (bool_decide (m_varKind fields = VK_Input)
            || bool_decide (m_varKind fields = VK_Placeholder)); [discriminate H|].
  destruct (bool_decide (m_varKind fields = VK_Parameter)
            || bool_decide (m_varKind fields = VK_Constant)) eqn:Hleaf.
  - (* a leaf is initialised *)
    apply bind_inv in H as (val & s2 & Htens & H). apply on_tensors_inv in Htens as (th & ->).
    apply bind_inv in H as ([] & s3 & Hupd & H). apply update_var_inv in Hupd as (x & Hx & ->).
    cbn in Hx. rewrite Hfields in Hx. injection Hx as <-.
    destruct (bool_decide (val = None)); [discriminate H|]. injection H as _ <-.
    transitivity (with_tensors th s); [apply R_tensors|].
    apply (R_init_leaf (with_tensors th s)).
    + exact Hfields.
    + apply bool_decide_eq_false in Hval.
      destruct (m_value fields); [exfalso; apply Hval; discriminate | reflexivity].
    + apply orb_true_iff in Hleaf as [H1|H1]; apply bool_decide_eq_true in H1; auto.
  - match type of H with
    | ?c s = _ => assert (Hp : preserves R c)
    end.
    { frame; first [apply frame_traverse_inputs; exact IH | apply frame_Schedule]. }
    exact (Hp _ _ _ H).
Qed.

Lemma frame_GetValue (fuel : nat) (v : CNTKVariable) : preserves R (GetValue K fuel v).
Proof.
  unfold GetValue. frame;
    first [apply frame_TraverseFunctionTreeForward | apply frame_run_schedule
          | apply frame_LazilyIndexedValue].
Qed.

End ForwardFrame.

(** ** The forward pass augments the graph *)

#[local] Instance graph_augmented_preorder : PreOrder graph_augmented.
Proof.
  split.
  - intros s Hf. split; [exact Hf|]. split; [lia|]. split.
    + intros f G HG. exists G. split; [exact HG|]. repeat split.
    + intros v x Hx. exists x. split; [exact Hx|]. repeat split.
  - intros s1 s2 s3 H12 H23 Hf.
    destruct (H12 Hf) as (Hf2 & Hle12 & HF12 & HV12).
    destruct (H23 Hf2) as (Hf3 & Hle23 & HF23 & HV23).
    split; [exact Hf3|]. split; [lia|]. split.
    + intros f G HG. destruct (HF12 f G HG) as (G2 & HG2 & Hs2).
      destruct (HF23 f G2 HG2) as (G3 & HG3 & Hs3). exists G3. split; [exact HG3|].
      unfold fun_static in *. intuition congruence.
    + intros v x Hx. destruct (HV12 v x Hx) as (x2 & Hx2 & Hs2 & Hg2 & Hv2).
      destruct (HV23 v x2 Hx2) as (x3 & Hx3 & Hs3 & Hg3 & Hv3). exists x3.
      split; [exact Hx3|]. unfold var_static in *. intuition congruence.
Qed.

Lemma graph_augmented_same (s s' : Memoize) :
  vars s' = vars s -> funs s' = funs s -> next_id s' = next_id s -> graph_augmented s s'.
Proof.
  intros Hv Hf Hn [Hff Hfv]. unfold ids_fresh. rewrite Hv, Hf, Hn.
  split; [split; assumption|]. split; [lia|]. split.
  - intros f G HG. exists G. split; [exact HG | repeat split].
  - intros v x Hx. exists x. split; [exact Hx | repeat split].
Qed.

Lemma graph_augmented_var (s : Memoize) (v : VarId) (x x' : VariableFields) :
  vars s !! v = Some x -> var_static x x' ->
  m_gradient x' = m_gradient x -> m_visited x' = m_visited x ->
  graph_augmented s (with_vars (<[v := x']> (vars s)) s).
Proof.
  intros Hx Hs Hg Hvis [Hff Hfv]. split; [split|]; cbn.
  - exact Hff.
  - intros w Hw. apply lookup_insert_is_Some in Hw as [<- | [_ Hw]]; [|auto].
    apply Hfv. rewrite Hx. eauto.
  - split; [lia|]. split.
    + intros f G HG. exists G. split; [exact HG | repeat split].
    + intros w y Hy. destruct (decide (w = v)) as [->|Hne].
      * rewrite Hx in Hy. injection Hy as <-. exists x'.
        rewrite lookup_insert_eq. auto.
      * exists y. rewrite lookup_insert_ne by congruence. split; [exact Hy | repeat split].
Qed.

Lemma graph_augmented_fun (s : Memoize) (f : FunId) (F F' : Function) :
  funs s !! f = Some F -> fun_static F F' ->
  graph_augmented s (with_funs (<[f := F']> (funs s)) s).
Proof.
  intros HF Hs [Hff Hfv]. split; [split|]; cbn.
  - intros g Hg. apply lookup_insert_is_Some in Hg as [<- | [_ Hg]]; [|auto].
    apply Hff. rewrite HF. eauto.
  - exact Hfv.
  - split; [lia|]. split.
    + intros g G HG. destruct (decide (g = f)) as [->|Hne].
      * rewrite HF in HG. injection HG as <-. exists F'. rewrite lookup_insert_eq. auto.
      * exists G. rewrite lookup_insert_ne by congruence. split; [exact HG | repeat split].
    + intros w y Hy. exists y. split; [exact Hy | repeat split].
Qed.

Lemma graph_augmented_new_function (op : PrimitiveOpType) (inputs : list CNTKVariable)
    (outputShape : NDShape) (attributes : Dictionary) :
  preserves graph_augmented (RawPrimitiveFunction op inputs outputShape attributes).
Proof.
  intros s f s' H. unfold RawPrimitiveFunction in H.
  apply bind_inv in H as (s0 & s1 & Hget & H). injection Hget as <- <-.
  apply bind_inv in H as ([] & s2 & Hput & H). injection Hput as <-. injection H as _ <-.
  intros [Hff Hfv]. split; [split|]; cbn.
  - intros g Hg. apply lookup_insert_is_Some in Hg as [<- | [_ Hg]]; [lia|].
    specialize (Hff g Hg). lia.
  - intros w Hw. apply lookup_insert_is_Some in Hw as [<- | [_ Hw]]; [lia|].
    specialize (Hfv w Hw). lia.
  - split; [lia|]. split.
    + intros g G HG. exists G. split; [|repeat split].
      rewrite lookup_insert_ne; [exact HG|].
      intros <-. assert (next_id s < next_id s)%nat by (apply Hff; rewrite HG; eauto). lia.
    + intros w y Hy. exists y. split; [|repeat split].
      rewrite lookup_insert_ne; [exact Hy|].
      intros <-. assert (next_id s < next_id s)%nat by (apply Hfv; rewrite Hy; eauto). lia.
Qed.

Lemma add_consumer_static (c : FunId * nat) (x : VariableFields) :
  var_static x (add_consumer c x) /\
  m_gradient (add_consumer c x) = m_gradient x /\ m_visited (add_consumer c x) = m_visited x /\
  m_value (add_consumer c x) = m_value x /\ m_lazyIndex (add_consumer c x) = m_lazyIndex x.
Proof.
  unfold add_consumer. destruct (m_consumers x) as [[[?|] ?] ?]; repeat split.
Qed.

Lemma GetValue_graph_augmented (K : Collaborators) (fuel : nat) (v : CNTKVariable) :
  preserves graph_augmented (GetValue K fuel v).
Proof.
  apply frame_GetValue; try typeclasses eauto.
  - intros s th. apply graph_augmented_same; reflexivity.
  - intros s r. apply graph_augmented_same; reflexivity.
  - intros s n. apply graph_augmented_same; reflexivity.
  - intros s f F x HF. eapply graph_augmented_fun; [exact HF | repeat split].
  - intros s f F n HF. eapply graph_augmented_fun; [exact HF | repeat split].
  - intros s w x t Hx. eapply graph_augmented_var; [exact Hx | repeat split ..].
  - intros s w x t Hx _ _. eapply graph_augmented_var; [exact Hx | repeat split ..].
  - intros s w x i Hx. eapply graph_augmented_var; [exact Hx | repeat split ..].
  - intros s w x c Hx. eapply graph_augmented_var; [exact Hx | apply add_consumer_static ..].
  - intros s w x Hx. eapply graph_augmented_var; [exact Hx | repeat split ..].
  - apply graph_augmented_new_function.
  - intros f. apply frame_ResetPendingToIdle; [typeclasses eauto|].
    intros s g G n HG. eapply graph_augmented_fun; [exact HG | repeat split].
Qed.

Lemma ids_freshb_spec (s : Memoize) : ids_freshb s = true -> ids_fresh s.
Proof.
  unfold ids_freshb. intros H. apply andb_true_iff in H as [Hf Hv].
  rewrite forallb_forall in Hf, Hv. split.
  - intros f [F HF]. apply elem_of_map_to_list, list_elem_of_In in HF.
    specialize (Hf _ HF). cbn in Hf. apply Nat.ltb_lt in Hf. exact Hf.
  - intros v [x Hx]. apply elem_of_map_to_list, list_elem_of_In in Hx.
    specialize (Hv _ Hx). cbn in Hv. apply Nat.ltb_lt in Hv. exact Hv.
Qed.

(** X1: the forward pass is a graph augmentation. Whenever GetValue returns,
    every Function that existed before still exists with the same op code,
    inputs, outputs and attributes, and every Variable that existed before
    still exists with the same kind, shape, data type, needs-gradient flag
    and owner, and with its gradient slot and visited flag untouched; the
    Functions and Variables that batching creates are new objects. *)
Theorem GetValue_augments_graph (K : Collaborators) (fuel : nat) (v : CNTKVariable)
    (s s' : Memoize) (r : NDArrayViewPtr) :
  ids_fresh s -> GetValue K fuel v s = Ok (r, s') ->
  ids_fresh s' /\ (next_id s <= next_id s')%nat /\
  (forall f G, funs s !! f = Some G ->
     exists G', funs s' !! f = Some G' /\ m_op G' = m_op G /\ m_inputs G' = m_inputs G /\
                m_outputs G' = m_outputs G /\ m_attributes G' = m_attributes G) /\
  (forall w x, vars s !! w = Some x ->
     exists x', vars s' !! w = Some x' /\ m_varKind x' = m_varKind x /\
                m_shape x' = m_shape x /\ m_dataType x' = m_dataType x /\
                m_needsGradient x' = m_needsGradient x /\
                m_ownerFunction x' = m_ownerFunction x /\
                m_gradient x' = m_gradient x /\ m_visited x' = m_visited x).
Proof.
  intros Hfresh Hrun.
  destruct (GetValue_graph_augmented K fuel v s r s' Hrun Hfresh) as (Hf' & Hle & HF & HV).
  split; [exact Hf'|]. split; [exact Hle|]. split.
  - intros f G HG. destruct (HF f G HG) as (G' & HG' & H1 & H2 & H3 & H4). eauto 10.
  - intros w x Hx. destruct (HV w x Hx) as (x' & Hx' & (H1 & H2 & H3 & H4 & H5) & H6 & H7).
    eauto 12.
Qed.

Lemma GetValue_augments_graph_witness :
  exists r s',
    GetValue ex_kernels 20 (mkVariable 2 None) ex_chain = Ok (r, s') /\
    ids_fresh s' /\ (next_id ex_chain <= next_id s')%nat /\
    (forall f G, funs ex_chain !! f = Some G ->
       exists G', funs s' !! f = Some G' /\ m_op G' = m_op G /\ m_inputs G' = m_inputs G /\
                  m_outputs G' = m_outputs G /\ m_attributes G' = m_attributes G) /\
    (forall w x, vars ex_chain !! w = Some x ->
       exists x', vars s' !! w = Some x' /\ m_varKind x' = m_varKind x /\
                  m_shape x' = m_shape x /\ m_dataType x' = m_dataType x /\
                  m_needsGradient x' = m_needsGradient x /\
                  m_ownerFunction x' = m_ownerFunction x /\
                  m_gradient x' = m_gradient x /\ m_visited x' = m_visited x).
Proof.
  destruct (GetValue ex_kernels 20 (mkVariable 2 None) ex_chain) as [[r s']|e] eqn:Hrun;
    [|vm_compute in Hrun; discriminate Hrun].
  exists r, s'. split; [reflexivity|].
  apply (GetValue_augments_graph ex_kernels 20 (mkVariable 2 None) ex_chain s' r);
    [apply ids_freshb_spec; vm_compute; reflexivity | exact Hrun].
Defined.

(** ** The launch counter *)

#[local] Instance launches_kept_preorder : PreOrder launches_kept.
Proof.
  split; [intros s; reflexivity|]. intros s1 s2 s3 H12 H23. unfold launches_kept in *. congruence.
Qed.

Lemma launches_kept_new_function (op : PrimitiveOpType) (inputs : list CNTKVariable)
    (outputShape : NDShape) (attributes : Dictionary) :
  preserves launches_kept (RawPrimitiveFunction op inputs outputShape attributes).
Proof.
  intros s f s' H. unfold RawPrimitiveFunction in H.
  apply bind_inv in H as (s0 & s1 & Hget & H). injection Hget as <- <-.
  apply bind_inv in H as ([] & s2 & Hput & H). injection Hput as <-. injection H as _ <-.
  reflexivity.
Qed.

(** X2: [m_numBatchedLaunches] counts the batches of regular ops. A
    successful ExecuteBatchedOpAndUpdateSchedule adds exactly one to the
    counter (modulo 2^64) when the representative op is not a view op, and
    leaves the counter alone for a batch of view ops; nothing else that the
    function calls touches the counter. *)
Theorem ExecuteBatchedOp_counts_launches (K : Collaborators) (fuel : nat) (ops : FList)
    (f0 : FunId) (F0 : Function) (s s' : Memoize) :
  L.front ops = Some f0 -> funs s !! f0 = Some F0 ->
  ExecuteBatchedOpAndUpdateSchedule K fuel ops s = Ok (tt, s') ->
  m_numBatchedLaunches s' =
    if IsViewOp (m_op F0) then m_numBatchedLaunches s
    else size_t_add (m_numBatchedLaunches s) 1.
Proof.
  intros Hfront HF0 Hrun. unfold ExecuteBatchedOpAndUpdateSchedule in Hrun.
  rewrite Hfront in Hrun.
  apply bind_inv in Hrun as (F & s1 & Hget & Hrun).
  apply get_fun_inv in Hget as [-> HF]. rewrite HF0 in HF. injection HF as <-.
  apply bind_inv in Hrun as ([] & s1 & Hcount & Hrun).
  assert (Hrest : launches_kept s1 s').
  { revert Hrun.
    match goal with
    | |- ?c s1 = _ -> _ => assert (Hp : preserves launches_kept c)
    end.
    { pres.
      - apply frame_execute_naively; try typeclasses eauto; try (intros; reflexivity).
        intros f. apply frame_ResetPendingToIdle; [typeclasses eauto | intros; reflexivity].
      - apply frame_execute_batched; try typeclasses eauto; try (intros; reflexivity).
        + apply launches_kept_new_function.
        + intros f. apply frame_ResetPendingToIdle; [typeclasses eauto | intros; reflexivity].
      - apply frame_notify_consumers; try typeclasses eauto; intros; reflexivity. }
    intros Hrun. exact (Hp _ _ _ Hrun). }
  unfold launches_kept in Hrest. rewrite Hrest.
  destruct (IsViewOp (m_op F0)).
  - injection Hcount as <-. reflexivity.
  - injection Hcount as <-. reflexivity.
Qed.

Lemma ExecuteBatchedOp_counts_launches_witness :
  exists s',
    ExecuteBatchedOpAndUpdateSchedule ex_kernels 5 (L.mk (Some 10%nat) 1) ex_chain_ready
      = Ok (tt, s') /\
    m_numBatchedLaunches s' =
      if IsViewOp (m_op (set_pendingInputs 0 (ex_fun (OtherOp 0) [0%nat] 1%nat)))
      then m_numBatchedLaunches ex_chain_ready
      else size_t_add (m_numBatchedLaunches ex_chain_ready) 1.
Proof.
  destruct (ExecuteBatchedOpAndUpdateSchedule ex_kernels 5 (L.mk (Some 10%nat) 1) ex_chain_ready)
    as [[[] s']|e] eqn:Hrun; [|vm_compute in Hrun; discriminate Hrun].
  exists s'. split; [reflexivity|].
  apply (ExecuteBatchedOp_counts_launches ex_kernels 5 (L.mk (Some 10%nat) 1) 10
           (set_pendingInputs 0 (ex_fun (OtherOp 0) [0%nat] 1%nat)) ex_chain_ready s');
    [reflexivity | reflexivity | exact Hrun].
Defined.

(** ** The intrusive lists *)

Lemma builder_repr_new (fh : gmap FunId Function) : builder_repr fh B.new [].
Proof. split; [constructor|]. split; [reflexivity|]. intros H. contradiction. Qed.

Lemma build_spec (l : list FunId) :
  forall (done : list FunId) (b : FListBuilder) (s : Memoize),
    builder_repr (funs s) b done -> NoDup (done ++ l) ->
    (forall f, f ∈ l -> is_Some (funs s !! f)) ->
    exists fh' b',
      foldM (fun b f => push_back f b) b l s = Ok (b', with_funs fh' s) /\
      builder_repr fh' b' (done ++ l) /\ links_only (funs s) fh'.
Proof.
  induction l as [|f l IH]; intros done b s Hrepr Hnd Hlive; cbn [foldM].
  - exists (funs s), b. rewrite app_nil_r. split; [destruct s; reflexivity|].
    split; [exact Hrepr | apply links_only_refl].
  - assert (Hf : f ∉ done).
    { apply NoDup_app in Hnd as (_ & Hdis & _). intros Hin. apply (Hdis f Hin). left. }
    destruct (push_back_spec s f b done (Hlive f ltac:(left)) Hrepr Hf)
      as (fh1 & b1 & Hpush & Hrepr1 & Hlinks1 & _).
    destruct (IH (done ++ [f]) b1 (with_funs fh1 s)) as (fh2 & b2 & Hrun & Hrepr2 & Hlinks2).
    + exact Hrepr1.
    + rewrite <- app_assoc. exact Hnd.
    + intros g Hg. cbn. destruct (Hlive g ltac:(right; exact Hg)) as [G HG].
      destruct (Hlinks1 g G HG) as (G' & HG' & _). eauto.
    + exists fh2, b2. split; [|split].
      * erewrite bind_ok by exact Hpush. exact Hrun.
      * rewrite <- app_assoc in Hrepr2. exact Hrepr2.
      * eapply links_only_trans; [exact Hlinks1 | exact Hlinks2].
Qed.

Lemma fold_chain_elements (fh : gmap FunId Function) (h : option FunId) (l : list FunId) :
  is_chain fh h l ->
  forall (s : Memoize) (fuel : nat) (acc : list FunId),
    funs s = fh -> (length l <= fuel)%nat ->
    fold_chain fuel (fun acc f => ret (acc ++ [f])) acc h s = Ok (acc ++ l, s).
Proof.
  induction 1 as [|f F l HF Hc IH]; intros s fuel acc Hs Hfuel.
  - destruct fuel; cbn; rewrite app_nil_r; reflexivity.
  - destruct fuel as [|fuel]; [cbn in Hfuel; lia|]. cbn [fold_chain].
    unfold bind at 1. cbn [ret].
    unfold bind at 1. unfold get_fun. rewrite Hs, HF.
    rewrite (IH s fuel (acc ++ [f]) Hs) by (cbn in Hfuel; lia).
    rewrite <- app_assoc. reflexivity.
Qed.

(** X3: a list that is built with push_back is iterated in insertion order.
    If the Functions [l] are distinct and live, building a list from them
    succeeds, changes nothing but [m_link] members, and the iteration
    from begin() to end() then visits exactly [l], in order; size() is the
    number of elements. *)
Theorem build_then_iterate (l : list FunId) (s : Memoize) :
  NoDup l -> (forall f, f ∈ l -> is_Some (funs s !! f)) ->
  exists b s',
    build l s = Ok (b, s') /\
    elements (length l) (B.base b) s' = Ok (l, s') /\
    B.size b = length l /\ B.front b = head l /\
    vars s' = vars s /\ links_only (funs s) (funs s').
Proof.
  intros Hnd Hlive.
  destruct (build_spec l [] B.new s (builder_repr_new _) Hnd Hlive)
    as (fh' & b' & Hrun & (Hchain & Hsize & _) & Hlinks).
  exists b', (with_funs fh' s). split; [exact Hrun|]. split; [|split; [|split; [|split]]].
  - unfold elements. change (L.head (B.base b')) with (B.front b').
    erewrite fold_chain_elements; [reflexivity | exact Hchain | reflexivity | reflexivity].
  - exact Hsize.
  - symmetry. eapply is_chain_head. exact Hchain.
  - reflexivity.
  - exact Hlinks.
Qed.

Lemma build_then_iterate_witness :
  exists b s',
    build [10%nat; 11%nat] ex_chain = Ok (b, s') /\
    elements (length [10%nat; 11%nat]) (B.base b) s' = Ok ([10%nat; 11%nat], s') /\
    B.size b = length [10%nat; 11%nat] /\ B.front b = head [10%nat; 11%nat] /\
    vars s' = vars ex_chain /\ links_only (funs ex_chain) (funs s').
Proof.
  apply (build_then_iterate [10%nat; 11%nat] ex_chain).
  - apply NoDup_cons. split; [|apply NoDup_singleton].
    intros H. apply list_elem_of_singleton in H. discriminate H.
  - intros f Hf. apply elem_of_cons in Hf as [-> | Hf]; [vm_compute; eauto|].
    apply list_elem_of_singleton in Hf as ->. vm_compute. eauto.
Defined.

Lemma last_in_suffix (l1 l2 : list FunId) (f t : FunId) :
  last (l1 ++ f :: l2) = Some t -> t ∈ f :: l2.
Proof.
  rewrite last_app. destruct (last (f :: l2)) as [y|] eqn:E.
  - intros H. injection H as ->. apply last_Some in E as [l' ->].
    apply elem_of_app. right. left.
  - apply last_None in E. discriminate E.
Qed.

Lemma is_chain_cut (fh fh' : gmap FunId Function) (f : FunId) (F' : Function)
    (l2 : list FunId) :
  fh' !! f = Some F' -> m_link F' = None ->
  forall (l1 : list FunId) (h : option FunId),
    is_chain fh h (l1 ++ f :: l2) ->
    (forall g G, g ∈ l1 -> fh !! g = Some G ->
                 exists G', fh' !! g = Some G' /\ m_link G' = m_link G) ->
    is_chain fh' h (l1 ++ [f]).
Proof.
  intros HF' Hlink. induction l1 as [|g l1 IH]; intros h Hc Hsame; cbn in *.
  - inversion Hc; subst. econstructor; [exact HF'|]. rewrite Hlink. constructor.
  - inversion Hc as [|g0 G l0 HG Hrest]; subst.
    destruct (Hsame g G ltac:(left) HG) as (G' & HG' & HlinkG).
    econstructor; [exact HG'|]. rewrite HlinkG. apply IH; [exact Hrest|].
    intros g1 G1 Hin. apply Hsame. right. exact Hin.
Qed.

(** X4: push_back does not check membership. Pushing a Function that is
    already on the list succeeds; afterwards the iteration stops at that
    Function, so the elements behind it are cut off, while size() has
    grown by one and no longer is the number of elements. *)
Theorem push_back_member_cuts (s : Memoize) (b : FListBuilder) (f : FunId)
    (l1 l2 : list FunId) :
  builder_repr (funs s) b (l1 ++ f :: l2) ->
  exists b' s',
    push_back f b s = Ok (b', s') /\
    is_chain (funs s') (B.front b') (l1 ++ [f]) /\
    B.size b' = S (length (l1 ++ f :: l2)) /\
    B.tail b' = Some f.
Proof.
  intros (Hchain & Hsize & Htail).
  pose proof (is_chain_NoDup _ _ _ Hchain) as Hnd.
  pose proof (is_chain_head _ _ _ Hchain) as Hhead.
  assert (Hne : l1 ++ f :: l2 <> []) by (destruct l1; discriminate).
  specialize (Htail Hne).
  destruct (is_chain_lookup _ _ _ f Hchain) as [F HF].
  { apply elem_of_app. right. left. }
  assert (Hfront : exists h, L.head (B.base b) = Some h).
  { change (L.head (B.base b)) with (B.front b). rewrite <- Hhead.
    destruct l1; cbn; eauto. }
  destruct Hfront as [h Hh].
  destruct (last (l1 ++ f :: l2)) as [t|] eqn:Hlast;
    [|apply last_None in Hlast; contradiction].
  destruct (is_chain_lookup _ _ _ t Hchain) as [T HT].
  { apply last_Some in Hlast as [l' ->]. apply elem_of_app. right. left. }
  apply NoDup_app in Hnd as (Hnd1 & Hdis & Hnd2).
  assert (Hf1 : f ∉ l1) by (intros Hin; apply (Hdis f Hin); left).
  unfold push_back. rewrite Hh, Htail.
  erewrite bind_ok by (apply update_fun_ok; exact HT).
  erewrite bind_ok.
  2:{ apply update_fun_ok. cbn.
      instantiate (1 := if decide (t = f) then set_link (Some f) T else F).
      destruct (decide (t = f)) as [->|Hne'].
      - apply lookup_insert_eq.
      - rewrite lookup_insert_ne by exact Hne'. exact HF. }
  eexists _, _. split; [reflexivity|]. cbn. split; [|split; [|reflexivity]].
  - change (Some h) with (Some h). rewrite <- Hh.
    change (L.head (B.base b)) with (B.front b).
    eapply is_chain_cut with (l2 := l2); [apply lookup_insert_eq | | exact Hchain |].
    + destruct (decide (t = f)); reflexivity.
    + intros g G Hg HG. exists G. split; [|reflexivity].
      assert (g <> f) by (intros ->; contradiction).
      assert (g <> t).
      { intros ->. apply (Hdis t Hg). eapply last_in_suffix. exact Hlast. }
      rewrite !lookup_insert_ne by congruence. exact HG.
  - f_equal. exact Hsize.
Qed.

Lemma push_back_member_cuts_witness :
  let b := B.mk (L.mk (Some 10%nat) 2) (Some 11%nat) in
  builder_repr (funs ex_chain_linked) b ([] ++ 10%nat :: [11%nat]) /\
  exists b' s',
    push_back 10 b ex_chain_linked = Ok (b', s') /\
    is_chain (funs s') (B.front b') ([] ++ [10%nat]) /\
    B.size b' = S (length ([] ++ 10%nat :: [11%nat])) /\
    B.tail b' = Some 10%nat.
Proof.
  assert (Hrepr : builder_repr (funs ex_chain_linked) (B.mk (L.mk (Some 10%nat) 2) (Some 11%nat))
                    ([] ++ 10%nat :: [11%nat])).
  { split; [|split; [reflexivity | intros _; reflexivity]].
    econstructor; [vm_compute; reflexivity|]. cbn.
    econstructor; [vm_compute; reflexivity|]. cbn. constructor. }
  split; [exact Hrepr|].
  exact (push_back_member_cuts ex_chain_linked _ 10 [] [11%nat] Hrepr).
Defined.

(** ** The batchability predicate is an equivalence *)

Lemma batchable_spec_sym (s : Memoize) (a b : FunId) :
  batchable_spec s a b -> batchable_spec s b a.
Proof.
  intros (A & Bf & HA & HB & Hop & Hlen & Hin & Hattr).
  exists Bf, A. split; [exact HB|]. split; [exact HA|]. split; [congruence|].
  split; [congruence|]. split; [|congruence].
  intros i ib ia Hib Hia. specialize (Hin i ia ib Hia Hib). rewrite <- Hop.
  destruct (bool_decide (m_op A = Times /\ i = 0%nat)); [congruence|].
  destruct Hin as (sh & H1 & H2). eauto.
Qed.

Lemma batchable_spec_trans (s : Memoize) (a b c : FunId) :
  batchable_spec s a b -> batchable_spec s b c -> batchable_spec s a c.
Proof.
  intros (A & Bf & HA & HB & Hop & Hlen & Hin & Hattr)
         (Bf' & Cf & HB' & HC & Hop' & Hlen' & Hin' & Hattr').
  rewrite HB in HB'. injection HB' as <-.
  exists A, Cf. split; [exact HA|]. split; [exact HC|]. split; [congruence|].
  split; [congruence|]. split; [|congruence].
  intros i ia ic Hia Hic.
  destruct (lookup_lt_is_Some_2 (m_inputs Bf) i) as [ib Hib].
  { rewrite <- Hlen. eapply lookup_lt_Some. exact Hia. }
  specialize (Hin i ia ib Hia Hib). specialize (Hin' i ib ic Hib Hic).
  rewrite <- Hop in Hin'.
  destruct (bool_decide (m_op A = Times /\ i = 0%nat)); [congruence|].
  destruct Hin as (sh & H1 & H2). destruct Hin' as (sh' & H1' & H2').
  exists sh. split; [exact H1|]. congruence.
Qed.

Lemma batchable_spec_refl (s : Memoize) (a : FunId) (A : Function) :
  funs s !! a = Some A ->
  (forall ia, ia ∈ m_inputs A -> is_Some (vars s !! m_dataFields ia)) ->
  batchable_spec s a a.
Proof.
  intros HA Hlive. exists A, A. repeat (split; [first [exact HA | reflexivity]|]).
  split; [|reflexivity].
  intros i ia ib Hia Hib. rewrite Hia in Hib. injection Hib as <-.
  destruct (bool_decide (m_op A = Times /\ i = 0%nat)); [reflexivity|].
  destruct (Hlive ia) as [x Hx]; [eapply list_elem_of_lookup_2; exact Hia|].
  exists (m_shape x). unfold ShapeOf. rewrite Hx. split; reflexivity.
Qed.

(** X5: on regular ops AreBatchable is an equivalence relation, which is
    why Schedule may test a bucket's first op only. For a Function a whose
    op is not a view op: a is batchable with itself when its inputs are
    live; if a is batchable with b then b is batchable with a; and if a is
    batchable with b and b with c then a is batchable with c. *)
Theorem AreBatchable_equivalence (s : Memoize) (a b c : FunId) (A : Function) :
  funs s !! a = Some A -> IsViewOp (m_op A) = false ->
  ((forall ia, ia ∈ m_inputs A -> is_Some (vars s !! m_dataFields ia)) ->
   AreBatchable s a a = Ok true) /\
  (AreBatchable s a b = Ok true -> AreBatchable s b a = Ok true) /\
  (AreBatchable s a b = Ok true -> AreBatchable s b c = Ok true ->
   AreBatchable s a c = Ok true).
Proof.
  intros HA Hview. split; [|split].
  - intros Hlive. apply (AreBatchable_true s a a A HA Hview).
    eapply batchable_spec_refl; eauto.
  - intros Hab. apply (AreBatchable_true s a b A HA Hview) in Hab.
    pose proof (batchable_spec_sym _ _ _ Hab) as Hba.
    destruct Hba as (Bf & A' & HB & HA' & Hop & Hrest).
    apply (AreBatchable_true s b a Bf HB).
    + rewrite HA in HA'. injection HA' as <-. rewrite Hop. exact Hview.
    + exists Bf, A'. auto.
  - intros Hab Hbc. apply (AreBatchable_true s a b A HA Hview) in Hab.
    destruct Hab as (A' & Bf & HA' & HB & Hop & Hrest).
    rewrite HA in HA'. injection HA' as <-.
    apply (AreBatchable_true s b c Bf HB) in Hbc; [|rewrite <- Hop; exact Hview].
    apply (AreBatchable_true s a c A HA Hview).
    eapply batchable_spec_trans; [|exact Hbc]. exists A, Bf. auto.
Qed.

Lemma AreBatchable_equivalence_witness :
  ((forall ia, ia ∈ m_inputs (ex_fun Times [0%nat; 2%nat] 3%nat) ->
               is_Some (vars ex_shared_weight !! m_dataFields ia)) ->
   AreBatchable ex_shared_weight 10 10 = Ok true) /\
  (AreBatchable ex_shared_weight 10 11 = Ok true ->
   AreBatchable ex_shared_weight 11 10 = Ok true) /\
  (AreBatchable ex_shared_weight 10 11 = Ok true ->
   AreBatchable ex_shared_weight 11 10 = Ok true ->
   AreBatchable ex_shared_weight 10 10 = Ok true).
Proof.
  apply (AreBatchable_equivalence ex_shared_weight 10 11 10 (ex_fun Times [0%nat; 2%nat] 3%nat));
    reflexivity.
Defined.

(** ** Conservation of the scheduled Functions *)

Lemma in_queued (s : Memoize) (g : FunId)
    (V : list FunId) (R : list (list FunId)) (Bq : list FunId) :
  sched_repr s V R Bq -> g ∈ V ++ concat R ++ Bq -> queued s g.
Proof.
  intros Hrepr Hin. apply elem_of_app in Hin as [Hin | Hin].
  - exists (m_viewOps (m_schedule s)), V. split; [left; reflexivity|].
    split; [apply (repr_view _ _ _ _ Hrepr) | exact Hin].
  - apply elem_of_app in Hin as [Hin | Hin].
    + apply elem_of_concat in Hin as (l & Hgl & HlR).
      apply list_elem_of_lookup in HlR as [k Hk].
      destruct (Forall2_lookup_r _ _ _ _ _ (repr_regular _ _ _ _ Hrepr) Hk)
        as (b & Hb & Hbrepr).
      exists b, l. split; [right; left; eapply list_elem_of_lookup_2; exact Hb|].
      split; [apply Hbrepr | exact Hgl].
    + exists (m_barrierOps (m_schedule s)), Bq. split; [right; right; reflexivity|].
      split; [apply (repr_barrier _ _ _ _ Hrepr) | exact Hin].
Qed.

Lemma Schedule_queue_perm (s s' : Memoize) (f : FunId)
    (V : list FunId) (R : list (list FunId)) (Bq : list FunId) :
  sched_repr s V R Bq -> f ∉ V ++ concat R ++ Bq -> Schedule f s = Ok (tt, s') ->
  exists V' R' Bq',
    sched_repr s' V' R' Bq' /\ V' ++ concat R' ++ Bq' ≡ₚ f :: V ++ concat R ++ Bq /\
    vars s' = vars s /\ links_only (funs s) (funs s').
Proof.
  intros Hrepr Hnotin Hrun.
  destruct (Schedule_allocated _ _ _ Hrun) as [F HF].
  pose proof (Schedule_spec s f F V R Bq HF Hrepr Hnotin) as Hspec.
  destruct (bool_decide (m_op F = BarrierOp)).
  { destruct Hspec as (fh' & r' & Hrun' & Hlinks & Hrepr').
    rewrite Hrun in Hrun'. injection Hrun' as ->.
    exists V, R, (Bq ++ [f]). split; [exact Hrepr'|]. split; [|split; [reflexivity | exact Hlinks]].
    rewrite !app_assoc. rewrite <- Permutation_cons_append. reflexivity. }
  destruct (IsViewOp (m_op F)).
  { destruct Hspec as (fh' & r' & Hrun' & Hlinks & Hrepr').
    rewrite Hrun in Hrun'. injection Hrun' as ->.
    exists (V ++ [f]), R, Bq. split; [exact Hrepr'|]. split; [|split; [reflexivity | exact Hlinks]].
    rewrite <- app_assoc. cbn. rewrite <- Permutation_middle. reflexivity. }
  destruct (first_batchable s f (omap head R)) as [[k|]|e].
  - destruct Hspec as (l & fh' & r' & Hk & Hrun' & Hlinks & Hrepr').
    rewrite Hrun in Hrun'. injection Hrun' as ->.
    exists V, (<[k := l ++ [f]]> R), Bq. split; [exact Hrepr'|].
    split; [|split; [reflexivity | exact Hlinks]].
    rewrite (concat_insert_snoc R f k l Hk). cbn. rewrite <- Permutation_middle. reflexivity.
  - destruct Hspec as (fh' & r' & Hrun' & Hlinks & Hrepr').
    rewrite Hrun in Hrun'. injection Hrun' as ->.
    exists V, (R ++ [[f]]), Bq. split; [exact Hrepr'|].
    split; [|split; [reflexivity | exact Hlinks]].
    rewrite concat_snoc. rewrite <- !app_assoc. cbn.
    rewrite <- !Permutation_middle. reflexivity.
  - rewrite Hrun in Hspec. discriminate Hspec.
Qed.

(** X6: Schedule adds the Function to the ready lists and disturbs nothing
    else. In every state of a run of the scheduler, after a successful
    Schedule of a Function f that was not queued, a Function is queued iff
    it was queued before or it is f; no Variable has changed and the
    Functions differ in their list links only. *)
Theorem Schedule_conserves (s s' : Memoize) (f : FunId) :
  sched_reachable s -> ~ queued s f -> Schedule f s = Ok (tt, s') ->
  (forall g, queued s' g <-> queued s g \/ g = f) /\
  vars s' = vars s /\ links_only (funs s) (funs s').
Proof.
  intros Hreach Hnq Hrun.
  destruct (sched_reachable_repr s Hreach) as (V & R & Bq & Hrepr).
  pose proof (not_queued_notin s f V R Bq Hrepr Hnq) as Hnotin.
  destruct (Schedule_queue_perm s s' f V R Bq Hrepr Hnotin Hrun)
    as (V' & R' & Bq' & Hrepr' & Hperm & Hvars & Hlinks).
  split; [|split; assumption].
  intros g. split.
  - intros Hq. apply (queued_in s' g V' R' Bq' Hrepr') in Hq.
    rewrite Hperm in Hq. apply elem_of_cons in Hq as [-> | Hq]; [right; reflexivity|].
    left. eapply in_queued; eauto.
  - intros [Hq | ->].
    + apply (queued_in s g V R Bq Hrepr) in Hq. eapply in_queued; [exact Hrepr'|].
      rewrite Hperm. right. exact Hq.
    + eapply in_queued; [exact Hrepr'|]. rewrite Hperm. left.
Qed.

Lemma Schedule_conserves_witness :
  (forall g, queued ex_two_weights_scheduled g <-> queued ex_two_weights g \/ g = 10%nat) /\
  vars ex_two_weights_scheduled = vars ex_two_weights /\
  links_only (funs ex_two_weights) (funs ex_two_weights_scheduled).
Proof.
  apply (Schedule_conserves ex_two_weights ex_two_weights_scheduled 10).
  - apply reach_new. reflexivity.
  - apply not_queued_new. reflexivity.
  - exact (proj1 sched_repr_two_weights_scheduled).
Defined.

Lemma concat_delete_perm (R : list (list FunId)) :
  forall (k : nat) l, R !! k = Some l -> concat R ≡ₚ l ++ concat (delete k R).
Proof.
  induction R as [|l0 R IH]; intros [|k] l Hk; try discriminate Hk.
  - injection Hk as ->. reflexivity.
  - cbn in Hk. cbn. rewrite (IH k l Hk). rewrite !app_assoc.
    apply Permutation_app_tail, Permutation_app_comm.
Qed.

Lemma pop_queue_perm (s : Memoize) (V : list FunId) (R : list (list FunId)) (Bq : list FunId) :
  sched_repr s V R Bq ->
  exists l V' R' Bq',
    is_chain (funs s) (L.front (fst (pop_best (m_schedule s)))) l /\
    L.size (fst (pop_best (m_schedule s))) = length l /\
    sched_repr (with_schedule (snd (pop_best (m_schedule s))) s) V' R' Bq' /\
    V ++ concat R ++ Bq ≡ₚ l ++ V' ++ concat R' ++ Bq'.
Proof.
  intros Hrepr. pose proof (pop_best_repr s V R Bq Hrepr) as Hpop. cbv zeta in Hpop.
  destruct Hpop as (Hview & Hreg & Hbar).
  destruct V as [|v V].
  - destruct R as [|l0 R].
    + destruct (Hbar eq_refl eq_refl) as (_ & Hc & Hsz & Hrepr').
      exists Bq, [], [], []. split; [exact Hc|]. split; [exact Hsz|]. split; [exact Hrepr'|].
      cbn. rewrite app_nil_r. reflexivity.
    + destruct (Hreg eq_refl ltac:(discriminate))
        as (k & b & l & _ & _ & _ & Hk & Hc & Hsz & _ & _ & Hrepr').
      exists l, [], (delete k (l0 :: R)), Bq. split; [exact Hc|]. split; [exact Hsz|].
      split; [exact Hrepr'|]. cbn [app].
      rewrite (concat_delete_perm (l0 :: R) k l Hk). rewrite <- app_assoc. reflexivity.
  - destruct (Hview ltac:(discriminate)) as (_ & Hc & Hsz & Hrepr').
    exists (v :: V), [], R, Bq. split; [exact Hc|]. split; [exact Hsz|]. split; [exact Hrepr'|].
    reflexivity.
Qed.

(** X7: pop_best removes exactly the batch it returns. In every state of a
    run of the scheduler, the returned list holds distinct Functions, size()
    is their number, a Function was queued before iff it is in the batch or
    still queued afterwards, and no Function of the batch is still queued. *)
Theorem pop_best_conserves (s : Memoize) :
  sched_reachable s ->
  let batch := fst (pop_best (m_schedule s)) in
  let s' := with_schedule (snd (pop_best (m_schedule s))) s in
  exists l,
    is_chain (funs s) (L.front batch) l /\ L.size batch = length l /\ NoDup l /\
    (forall g, queued s g <-> g ∈ l \/ queued s' g) /\
    (forall g, g ∈ l -> ~ queued s' g).
Proof.
  intros Hreach. cbv zeta.
  destruct (sched_reachable_repr s Hreach) as (V & R & Bq & Hrepr).
  destruct (pop_queue_perm s V R Bq Hrepr) as (l & V' & R' & Bq' & Hc & Hsz & Hrepr' & Hperm).
  pose proof (repr_nodup _ _ _ _ Hrepr) as Hnd. rewrite Hperm in Hnd.
  apply NoDup_app in Hnd as (Hndl & Hdis & _).
  exists l. split; [exact Hc|]. split; [exact Hsz|]. split; [exact Hndl|]. split.
  - intros g. split.
    + intros Hq. apply (queued_in s g V R Bq Hrepr) in Hq. rewrite Hperm in Hq.
      apply elem_of_app in Hq as [Hq | Hq]; [left; exact Hq|].
      right. eapply in_queued; eauto.
    + intros [Hq | Hq].
      * eapply in_queued; [exact Hrepr|]. rewrite Hperm. apply elem_of_app. left. exact Hq.
      * apply (queued_in _ g V' R' Bq' Hrepr') in Hq.
        eapply in_queued; [exact Hrepr|]. rewrite Hperm. apply elem_of_app. right. exact Hq.
  - intros g Hg Hq. apply (queued_in _ g V' R' Bq' Hrepr') in Hq. exact (Hdis g Hg Hq).
Qed.

Lemma pop_best_conserves_witness :
  let s := ex_two_weights_scheduled in
  let batch := fst (pop_best (m_schedule s)) in
  let s' := with_schedule (snd (pop_best (m_schedule s))) s in
  exists l,
    is_chain (funs s) (L.front batch) l /\ L.size batch = length l /\ NoDup l /\
    (forall g, queued s g <-> g ∈ l \/ queued s' g) /\
    (forall g, g ∈ l -> ~ queued s' g).
Proof.
  apply (pop_best_conserves ex_two_weights_scheduled).
  apply (reach_Schedule ex_two_weights ex_two_weights_scheduled 10).
  - apply reach_new. reflexivity.
  - apply not_queued_new. reflexivity.
  - exact (proj1 sched_repr_two_weights_scheduled).
Defined.

(** X8: every two ops of a regular bucket are batchable with each other. In
    every state of a run of the scheduler, if a and b are distinct members
    of the same regular bucket and a's op is not a view op, AreBatchable
    answers true on them, although Schedule compared each of them with the
    bucket's first op only. *)
Theorem bucket_pairwise_batchable (s : Memoize) (bucket : FListBuilder) (l : list FunId)
    (a b : FunId) (A : Function) :
  sched_reachable s ->
  bucket ∈ m_regularOps (m_schedule s) -> is_chain (funs s) (B.front bucket) l ->
  a ∈ l -> b ∈ l -> a <> b ->
  funs s !! a = Some A -> IsViewOp (m_op A) = false ->
  AreBatchable s a b = Ok true.
Proof.
  intros Hreach Hbucket Hchain Ha Hb Hab HA Hview.
  destruct (sched_reachable_repr s Hreach) as (V & R & Bq & Hrepr).
  apply list_elem_of_lookup in Hbucket as [k Hk].
  destruct (Forall2_lookup_l _ _ _ _ _ (repr_regular _ _ _ _ Hrepr) Hk) as (l' & Hl' & Hbrepr).
  assert (l' = l) as -> by (eapply is_chain_functional; [apply Hbrepr | exact Hchain]).
  pose proof (Forall_lookup_1 _ _ _ _ (repr_homogeneous _ _ _ _ Hrepr) Hl') as Hhom.
  destruct l as [|h l0]; [inversion Ha|].
  destruct (Hhom h a eq_refl Ha) as [-> | Hah];
    destruct (Hhom h b eq_refl Hb) as [-> | Hbh].
  - contradiction.
  - apply (AreBatchable_true s h b A HA Hview). apply batchable_spec_sym. exact Hbh.
  - apply (AreBatchable_true s a h A HA Hview). exact Hah.
  - apply (AreBatchable_true s a b A HA Hview).
    eapply batchable_spec_trans; [exact Hah | apply batchable_spec_sym; exact Hbh].
Qed.

Lemma sched_reachable_shared_weight : sched_reachable ex_shared_weight_scheduled.
Proof.
  assert (H1 : Schedule 10 ex_shared_weight = Ok (tt, ex_shared_weight_first))
    by (vm_compute; reflexivity).
  assert (H2 : Schedule 11 ex_shared_weight_first = Ok (tt, ex_shared_weight_scheduled))
    by (vm_compute; reflexivity).
  apply (reach_Schedule ex_shared_weight_first ex_shared_weight_scheduled 11); [| |exact H2].
  - apply (reach_Schedule ex_shared_weight ex_shared_weight_first 10); [| |exact H1].
    + apply reach_new. reflexivity.
    + apply not_queued_new. reflexivity.
  - intros Hq.
    destruct (Schedule_queue_perm ex_shared_weight ex_shared_weight_first 10 [] [] []
                (sched_repr_new ex_shared_weight eq_refl) ltac:(apply not_elem_of_nil) H1)
      as (V' & R' & Bq' & Hrepr' & Hperm & _).
    apply (queued_in _ _ _ _ _ Hrepr') in Hq. rewrite Hperm in Hq.
    apply list_elem_of_singleton in Hq. discriminate Hq.
Defined.

Lemma bucket_pairwise_batchable_witness :
  AreBatchable ex_shared_weight_scheduled 10 11 = Ok true.
Proof.
  apply (bucket_pairwise_batchable ex_shared_weight_scheduled
           (B.mk (L.mk (Some 10%nat) 2) (Some 11%nat)) [10%nat; 11%nat] 10 11
           (set_link (Some 11%nat) (ex_fun Times [0%nat; 2%nat] 3%nat))).
  - exact sched_reachable_shared_weight.
  - apply list_elem_of_here.
  - econstructor; [vm_compute; reflexivity|]. cbn.
    econstructor; [vm_compute; reflexivity|]. cbn. constructor.
  - left.
  - right. left.
  - discriminate.
  - vm_compute. reflexivity.
  - reflexivity.
Defined.

(** an empty schedule of a run: the two queues are cleared, there is no
    bucket *)
Lemma sched_reachable_empty (s : Memoize) :
  sched_reachable s -> ReadyOps_empty (m_schedule s) = true ->
  exists tv tb,
    m_schedule s = mkReadyOps (B.mk L.clear tv) [] (B.mk L.clear tb).
Proof.
  intros Hreach Hempty. destruct (sched_reachable_repr s Hreach) as (V & R & Bq & Hrepr).
  destruct Hrepr as [HV HR HB _ _ _]. unfold ReadyOps_empty in Hempty.
  apply andb_true_iff in Hempty as [Hempty HeB]. apply andb_true_iff in Hempty as [HeV HeR].
  rewrite (builder_repr_empty _ _ _ HV) in HeV. apply bool_decide_eq_true in HeV. subst V.
  rewrite (builder_repr_empty _ _ _ HB) in HeB. apply bool_decide_eq_true in HeB. subst Bq.
  apply bool_decide_eq_true in HeR.
  apply builder_repr_nil_inv in HV as [HV1 HV2]. apply builder_repr_nil_inv in HB as [HB1 HB2].
  destruct (m_schedule s) as [[[hv cv] tv] rs [[hb cb] tb]]. cbn in *. subst.
  exists tv, tb. reflexivity.
Qed.

(** X9: a Function that is scheduled on an empty schedule is what pop_best
    returns next. In every state of a run of the scheduler in which the
    schedule is empty, whatever the op code of the Function, Schedule
    succeeds, pop_best returns the list that holds this Function alone, and
    the schedule is empty again. *)
Theorem Schedule_then_pop_best (s : Memoize) (f : FunId) (F : Function) :
  sched_reachable s -> ReadyOps_empty (m_schedule s) = true -> funs s !! f = Some F ->
  exists s1,
    Schedule f s = Ok (tt, s1) /\
    fst (pop_best (m_schedule s1)) = L.mk (Some f) 1 /\
    is_chain (funs s1) (Some f) [f] /\
    ReadyOps_empty (m_schedule s1) = false /\
    ReadyOps_empty (snd (pop_best (m_schedule s1))) = true.
Proof.
  intros Hreach Hempty HF.
  destruct (sched_reachable_empty s Hreach Hempty) as (tv & tb & Hs).
  unfold Schedule.
  erewrite bind_ok by (unfold get_fun; rewrite HF; reflexivity).
  unfold bind at 1. cbn [get]. rewrite Hs.
  assert (Hchain : is_chain (<[f := set_link None F]> (funs s)) (Some f) [f]).
  { econstructor; [apply lookup_insert_eq|]. constructor. }
  destruct (bool_decide (m_op F = BarrierOp)); [|destruct (IsViewOp (m_op F))].
  - unfold push_back. cbn. unfold bind at 1. cbn.
    erewrite bind_ok by (apply update_fun_ok; exact HF).
    eexists. split; [reflexivity|]. cbn. rewrite Hs. cbn. auto.
  - unfold push_back. cbn. unfold bind at 1. cbn.
    erewrite bind_ok by (apply update_fun_ok; exact HF).
    eexists. split; [reflexivity|]. cbn. rewrite Hs. cbn. auto.
  - cbn [m_regularOps Schedule_scan]. unfold Builder_of.
    erewrite bind_ok.
    2:{ erewrite bind_ok.
        2:{ erewrite bind_ok by (apply update_fun_ok; exact HF). reflexivity. }
        reflexivity. }
    eexists. split; [reflexivity|]. cbn. rewrite Hs. cbn. auto.
Qed.

Lemma Schedule_then_pop_best_witness :
  m_schedule ex_barrier_popped <> ReadyOps_new /\
  exists s1,
    Schedule 10 ex_barrier_popped = Ok (tt, s1) /\
    fst (pop_best (m_schedule s1)) = L.mk (Some 10%nat) 1 /\
    is_chain (funs s1) (Some 10%nat) [10%nat] /\
    ReadyOps_empty (m_schedule s1) = false /\
    ReadyOps_empty (snd (pop_best (m_schedule s1))) = true.
Proof.
  split; [vm_compute; discriminate|].
  destruct (Schedule 10 ex_barrier) as [[[] sa]|e] eqn:Hrun;
    [|vm_compute in Hrun; discriminate Hrun].
  assert (Hpop : ex_barrier_popped = with_schedule (snd (pop_best (m_schedule sa))) sa)
    by (unfold ex_barrier_popped; rewrite Hrun; reflexivity).
  apply (Schedule_then_pop_best ex_barrier_popped 10 (ex_fun NoOp [0%nat] 1%nat)).
  - rewrite Hpop. apply reach_pop.
    apply (reach_Schedule ex_barrier sa 10); [| |exact Hrun].
    + apply reach_new. reflexivity.
    + apply not_queued_new. reflexivity.
  - vm_compute. reflexivity.
  - vm_compute. reflexivity.
Defined.

(** X11: a Function becomes ready with its last pending input and not
    before. If its counter is n, then k < n notifications succeed, leave the
    counter at n - k, and change nothing else: the schedule, the Variables
    and the other Functions are as before. *)
Theorem NotifyInputAvailable_countdown (k : nat) :
  forall (s : Memoize) (f : FunId) (F : Function),
    funs s !! f = Some F -> Z.of_nat k < m_pendingInputs F ->
    exists s',
      for_each NotifyInputAvailable (replicate k f) s = Ok (tt, s') /\
      (exists F', funs s' !! f = Some F' /\
                  m_pendingInputs F' = m_pendingInputs F - Z.of_nat k /\
                  m_link F' = m_link F /\ fun_static F F') /\
      (forall g, g <> f -> funs s' !! g = funs s !! g) /\
      vars s' = vars s /\ m_schedule s' = m_schedule s.
Proof.
  induction k as [|k IH]; intros s f F HF Hlt.
  - exists s. split; [reflexivity|]. split; [|auto].
    exists F. split; [exact HF|]. split; [cbn; lia|]. split; [reflexivity | repeat split].
  - cbn [replicate for_each].
    assert (Hstep : NotifyInputAvailable f s
              = Ok (tt, with_funs (<[f := set_pendingInputs (m_pendingInputs F - 1) F]> (funs s)) s)).
    { unfold NotifyInputAvailable.
      erewrite bind_ok by (unfold get_fun; rewrite HF; reflexivity).
      destruct (m_pendingInputs F <=? 0) eqn:E; [apply Z.leb_le in E; lia|].
      erewrite bind_ok by (apply update_fun_ok; exact HF).
      destruct (m_pendingInputs F - 1 =? 0) eqn:E'; [apply Z.eqb_eq in E'; lia|].
      reflexivity. }
    erewrite bind_ok by exact Hstep.
    destruct (IH (with_funs (<[f := set_pendingInputs (m_pendingInputs F - 1) F]> (funs s)) s)
                 f (set_pendingInputs (m_pendingInputs F - 1) F))
      as (s' & Hrun & (F' & HF' & Hp & Hl & Hst) & Hother & Hvars & Hsched).
    { apply lookup_insert_eq. }
    { cbn. lia. }
    exists s'. split; [exact Hrun|]. split; [|split; [|split]].
    + exists F'. split; [exact HF'|]. split; [cbn in Hp; lia|]. split; [exact Hl | exact Hst].
    + intros g Hg. rewrite (Hother g Hg). cbn. apply lookup_insert_ne. congruence.
    + exact Hvars.
    + exact Hsched.
Qed.

Lemma NotifyInputAvailable_countdown_witness :
  let F := set_pendingInputs 3 (ex_fun Times [0%nat; 2%nat] 3%nat) in
  let s := with_funs (<[10%nat := F]> (funs ex_two_weights)) ex_two_weights in
  exists s',
    for_each NotifyInputAvailable (replicate 2 10%nat) s = Ok (tt, s') /\
    (exists F', funs s' !! 10%nat = Some F' /\
                m_pendingInputs F' = m_pendingInputs F - Z.of_nat 2 /\
                m_link F' = m_link F /\ fun_static F F') /\
    (forall g, g <> 10%nat -> funs s' !! g = funs s !! g) /\
    vars s' = vars s /\ m_schedule s' = m_schedule s.
Proof.
  apply (NotifyInputAvailable_countdown 2); [reflexivity | cbn; lia].
Defined.

(** ** The forward traversal counts the pending inputs *)

#[local] Instance values_grow_preorder : PreOrder values_grow.
Proof.
  split.
  - intros s v x Hx. exists x. split; [exact Hx|]. split; [reflexivity|]. split; [left; reflexivity|].
    reflexivity.
  - intros s1 s2 s3 H12 H23 v x Hx.
    destruct (H12 v x Hx) as (x2 & Hx2 & Hk2 & Hv2 & Hc2).
    destruct (H23 v x2 Hx2) as (x3 & Hx3 & Hk3 & Hv3 & Hc3).
    exists x3. split; [exact Hx3|]. split; [congruence|]. split.
    + destruct Hv2 as [Hv2 | [Hv2 Hleaf]]; [|right; auto].
      destruct Hv3 as [Hv3 | [Hv3 Hleaf]]; [left; congruence|].
      right. split; [congruence|]. rewrite <- Hk2. exact Hleaf.
    + etransitivity; eassumption.
Qed.

#[local] Instance relinked_preorder : PreOrder relinked.
Proof.
  split.
  - intros s. split; [reflexivity | apply links_only_refl].
  - intros s1 s2 s3 [Hv12 Hl12] [Hv23 Hl23]. split; [congruence|].
    eapply links_only_trans; eassumption.
Qed.

Lemma values_grow_same_vars (s s' : Memoize) : vars s' = vars s -> values_grow s s'.
Proof.
  intros Hv v x Hx. exists x. rewrite Hv. split; [exact Hx|]. split; [reflexivity|].
  split; [left; reflexivity | reflexivity].
Qed.

Lemma values_grow_var (s : Memoize) (v : VarId) (x x' : VariableFields) :
  vars s !! v = Some x -> m_varKind x' = m_varKind x ->
  (m_value x' = m_value x \/
   (m_value x = None /\ (m_varKind x = VK_Parameter \/ m_varKind x = VK_Constant))) ->
  consumers_of x ⊆ consumers_of x' ->
  values_grow s (with_vars (<[v := x']> (vars s)) s).
Proof.
  intros Hx Hk Hv Hc w y Hy. cbn. destruct (decide (w = v)) as [->|Hne].
  - rewrite Hx in Hy. injection Hy as <-. exists x'. rewrite lookup_insert_eq. auto.
  - exists y. rewrite lookup_insert_ne by congruence. split; [exact Hy|].
    split; [reflexivity|]. split; [left; reflexivity | reflexivity].
Qed.

Lemma consumers_of_add (c : FunId * nat) (x : VariableFields) :
  c ∈ consumers_of (add_consumer c x) /\ consumers_of x ⊆ consumers_of (add_consumer c x).
Proof.
  unfold add_consumer, consumers_of. destruct c as [cf ci].
  destruct (m_consumers x) as [[[c0|] i0] more] eqn:E; cbn.
  - split; [right; apply elem_of_app; right; left|].
    intros y Hy. apply elem_of_cons in Hy as [-> | Hy]; [left|].
    right. apply elem_of_app. left. exact Hy.
  - split; [left|]. intros y Hy. right. exact Hy.
Qed.

Lemma TraverseFunctionTreeForward_values_grow (K : Collaborators) (fuel : nat)
    (var : CNTKVariable) :
  preserves values_grow (TraverseFunctionTreeForward K fuel var).
Proof.
  apply frame_TraverseFunctionTreeForward; try typeclasses eauto.
  - intros s th. apply values_grow_same_vars. reflexivity.
  - intros s r. apply values_grow_same_vars. reflexivity.
  - intros s f F x HF. apply values_grow_same_vars. reflexivity.
  - intros s f F n HF. apply values_grow_same_vars. reflexivity.
  - intros s v x t Hx Hval Hleaf. eapply values_grow_var; [exact Hx | reflexivity | | reflexivity].
    right. auto.
  - intros s v x c Hx. eapply values_grow_var; [exact Hx | apply add_consumer_static | |].
    + left. apply add_consumer_static.
    + apply (proj2 (consumers_of_add _ _)).
Qed.

Lemma Schedule_relinked (f : FunId) : preserves relinked (Schedule f).
Proof.
  apply frame_Schedule; try typeclasses eauto.
  - intros s r. split; [reflexivity | apply links_only_refl].
  - intros s g G x HG. split; [reflexivity|]. apply links_only_set_link. exact HG.
Qed.

(** a successful traversal leaves no Parameter or Constant without value *)
Lemma TraverseFunctionTreeForward_leaf (K : Collaborators) (fuel : nat) (var : CNTKVariable)
    (s s' : Memoize) (x : VariableFields) :
  TraverseFunctionTreeForward K fuel var s = Ok (tt, s') ->
  vars s !! m_dataFields var = Some x ->
  m_varKind x = VK_Parameter \/ m_varKind x = VK_Constant ->
  no_value s' var = false.
Proof.
  intros Hrun Hx Hleaf. destruct fuel as [|fuel]; [discriminate Hrun|].
  cbn [TraverseFunctionTreeForward] in Hrun.
  apply bind_inv in Hrun as (fields & s1 & Hget & Hrun).
  apply get_var_inv in Hget as [-> Hfields]. rewrite Hx in Hfields. injection Hfields as <-.
  destruct (bool_decide (m_value x <> None)); [discriminate Hrun|].
  destruct (bool_decide (m_varKind x = VK_Input) || bool_decide (m_varKind x = VK_Placeholder));
    [discriminate Hrun|].
  assert (Hl : bool_decide (m_varKind x = VK_Parameter)
               || bool_decide (m_varKind x = VK_Constant) = true).
  { apply orb_true_iff. destruct Hleaf as [H|H]; [left|right]; apply bool_decide_eq_true; exact H. }
  rewrite Hl in Hrun.
  apply bind_inv in Hrun as (val & s2 & Htens & Hrun). apply on_tensors_inv in Htens as (th & ->).
  apply bind_inv in Hrun as ([] & s3 & Hupd & Hrun). apply update_var_inv in Hupd as (y & Hy & ->).
  destruct (bool_decide (val = None)) eqn:Hval; [discriminate Hrun|]. injection Hrun as <-.
  unfold no_value. cbn. rewrite lookup_insert_eq. cbn.
  apply bool_decide_eq_false in Hval. apply bool_decide_eq_false. exact Hval.
Qed.

Lemma no_value_grow (s s' : Memoize) (input : CNTKVariable) (x : VariableFields) :
  values_grow s s' -> vars s !! m_dataFields input = Some x ->
  (m_value x <> None -> no_value s' input = false) /\
  (m_value x = None -> m_varKind x <> VK_Parameter -> m_varKind x <> VK_Constant ->
   no_value s' input = true).
Proof.
  intros Hgrow Hx. destruct (Hgrow _ _ Hx) as (x' & Hx' & Hk & Hv & _).
  unfold no_value. rewrite Hx'. split.
  - intros Hsome. apply bool_decide_eq_false.
    destruct Hv as [Hv | [Hv _]]; [congruence | contradiction].
  - intros Hnone Hp Hc. apply bool_decide_eq_true.
    destruct Hv as [Hv | [_ [Hl | Hl]]]; [congruence | contradiction | contradiction].
Qed.

Lemma traverse_inputs_count (rec : CNTKVariable -> M Memoize unit) (f : FunId) :
  (forall v, preserves values_grow (rec v)) ->
  (forall v s s' x, rec v s = Ok (tt, s') -> vars s !! m_dataFields v = Some x ->
                    m_varKind x = VK_Parameter \/ m_varKind x = VK_Constant ->
                    no_value s' v = false) ->
  forall (inputs : list CNTKVariable) (pending i0 : nat) (s s1 : Memoize) (r : nat * nat),
    foldM (fun (acc : nat * nat) (input : CNTKVariable) =>
             let '(pendingInputs, i) := acc in
             do fields <- get_var (m_dataFields input);
             match m_value fields with
             | Some _ => ret (pendingInputs, S i)
             | None =>
                 rec input ;;
                 do fields' <- get_var (m_dataFields input);
                 match m_value fields' with
                 | Some _ => ret (pendingInputs, S i)
                 | None =>
                     update_var (m_dataFields input) (add_consumer (f, i)) ;;
                     ret (S pendingInputs, S i)
                 end
             end)
          (pending, i0) inputs s = Ok (r, s1) ->
    values_grow s s1 /\
    fst r = (pending + length (List.filter (no_value s1) inputs))%nat /\
    (forall (j : nat) input, inputs !! j = Some input -> no_value s1 input = true ->
       exists x1, vars s1 !! m_dataFields input = Some x1 /\
                  (f, (i0 + j)%nat) ∈ consumers_of x1).
Proof.
  intros Hrec Hleaf. induction inputs as [|a inputs IH]; intros pending i0 s s1 r Hrun.
  - injection Hrun as <- <-. split; [reflexivity|]. split; [cbn; lia|].
    intros j input Hj. discriminate Hj.
  - cbn [foldM] in Hrun. apply bind_inv in Hrun as (acc & sa & Hstep & Hrest).
    apply bind_inv in Hstep as (fields & s0 & Hget & Hstep).
    apply get_var_inv in Hget as [-> Hfields].
    assert (Hcase :
      values_grow s sa /\
      exists xa, vars sa !! m_dataFields a = Some xa /\
        ((m_value xa <> None /\ acc = (pending, S i0)) \/
         (m_value xa = None /\ m_varKind xa <> VK_Parameter /\ m_varKind xa <> VK_Constant /\
          acc = (S pending, S i0) /\ (f, i0) ∈ consumers_of xa))).
    { destruct (m_value fields) as [t|] eqn:Hval.
      - injection Hstep as <- <-. split; [reflexivity|].
        exists fields. split; [exact Hfields|]. left. split; [congruence | reflexivity].
      - apply bind_inv in Hstep as ([] & s2 & Hr & Hstep).
        apply bind_inv in Hstep as (fields' & s3 & Hget' & Hstep).
        apply get_var_inv in Hget' as [-> Hfields'].
        pose proof (Hrec a _ _ _ Hr) as Hgrow2.
        destruct (m_value fields') as [t|] eqn:Hval'.
        + injection Hstep as <- <-. split; [exact Hgrow2|].
          exists fields'. split; [exact Hfields'|]. left. split; [congruence | reflexivity].
        + apply bind_inv in Hstep as ([] & s4 & Hupd & Hstep). injection Hstep as <- <-.
          apply update_var_inv in Hupd as (y & Hy & ->).
          rewrite Hfields' in Hy. injection Hy as <-.
          assert (Hnl : m_varKind fields' <> VK_Parameter /\ m_varKind fields' <> VK_Constant).
          { destruct (Hgrow2 _ _ Hfields) as (x' & Hx' & Hk & _).
            rewrite Hfields' in Hx'. injection Hx' as <-.
            split; intros Habs.
            - assert (Hnv : no_value s2 a = false)
                by (eapply Hleaf; [exact Hr | exact Hfields | left; congruence]).
              unfold no_value in Hnv. rewrite Hfields' in Hnv.
              apply bool_decide_eq_false in Hnv. contradiction.
            - assert (Hnv : no_value s2 a = false)
                by (eapply Hleaf; [exact Hr | exact Hfields | right; congruence]).
              unfold no_value in Hnv. rewrite Hfields' in Hnv.
              apply bool_decide_eq_false in Hnv. contradiction. }
          split.
          * transitivity s2; [exact Hgrow2|].
            eapply values_grow_var; [exact Hfields' | apply add_consumer_static | |].
            -- left. apply add_consumer_static.
            -- apply (proj2 (consumers_of_add _ _)).
          * exists (add_consumer (f, i0) fields'). cbn. rewrite lookup_insert_eq.
            split; [reflexivity|]. right.
            destruct (add_consumer_static (f, i0) fields') as ((Hk & _) & _ & _ & Hv & _).
            rewrite Hv, Hk. split; [exact Hval'|]. split; [apply Hnl|]. split; [apply Hnl|].
            split; [reflexivity | apply (proj1 (consumers_of_add _ _))]. }
    destruct Hcase as (Hgrow_a & xa & Hxa & Hcase).
    destruct acc as [pending' i'].
    destruct (IH pending' i' sa s1 r Hrest) as (Hgrow_r & Hcount & Hcons).
    split; [transitivity sa; assumption|].
    destruct (no_value_grow sa s1 a xa Hgrow_r Hxa) as [Hsome Hnone].
    destruct Hcase as [[Hval Hacc] | (Hval & Hp & Hc & Hacc & Hin)];
      injection Hacc as -> ->.
    + cbn [List.filter]. rewrite (Hsome Hval). split; [exact Hcount|].
      intros [|j] input Hj Hnv.
      * injection Hj as <-. rewrite (Hsome Hval) in Hnv. discriminate Hnv.
      * cbn in Hj. destruct (Hcons j input Hj Hnv) as (x1 & Hx1 & Hin1).
        exists x1. split; [exact Hx1|]. replace (i0 + S j)%nat with (S i0 + j)%nat by lia.
        exact Hin1.
    + cbn [List.filter]. rewrite (Hnone Hval Hp Hc). split; [rewrite Hcount; cbn; lia|].
      intros [|j] input Hj Hnv.
      * injection Hj as <-. destruct (Hgrow_r _ _ Hxa) as (x1 & Hx1 & _ & _ & Hsub).
        exists x1. split; [exact Hx1|]. rewrite Nat.add_0_r. apply Hsub. exact Hin.
      * cbn in Hj. destruct (Hcons j input Hj Hnv) as (x1 & Hx1 & Hin1).
        exists x1. split; [exact Hx1|]. replace (i0 + S j)%nat with (S i0 + j)%nat by lia.
        exact Hin1.
Qed.

Lemma int_of_size_t_small (n : Z) : 0 <= n < 2 ^ 31 -> int_of_size_t n = n.
Proof.
  intros H. unfold int_of_size_t. rewrite Z.mod_small by lia. lia.
Qed.

(** X12: the forward traversal counts the inputs that are not yet computed.
    When TraverseFunctionTreeForward returns from an Output variable whose
    owner f was idle and has fewer than 2^31 inputs, [m_pendingInputs] of f
    is the number of input positions of f whose Variable has no value, and
    each of these Variables records (f, position) among its consumers. *)
Theorem TraverseFunctionTreeForward_counts (K : Collaborators) (fuel : nat)
    (var : CNTKVariable) (s s' : Memoize) (fields : VariableFields) (f : FunId) (F : Function) :
  vars s !! m_dataFields var = Some fields ->
  m_value fields = None -> m_varKind fields = VK_Output -> m_ownerFunction fields = Some f ->
  funs s !! f = Some F -> m_pendingInputs F = -1 ->
  Z.of_nat (length (m_inputs F)) < 2 ^ 31 ->
  TraverseFunctionTreeForward K fuel var s = Ok (tt, s') ->
  exists F',
    funs s' !! f = Some F' /\
    m_pendingInputs F' = Z.of_nat (length (List.filter (no_value s') (m_inputs F))) /\
    forall (i : nat) input,
      m_inputs F !! i = Some input -> no_value s' input = true ->
      exists x, vars s' !! m_dataFields input = Some x /\ (f, i) ∈ consumers_of x.
Proof.
  intros Hfields Hval Hkind Howner HF Hidle Hsmall Hrun.
  destruct fuel as [|fuel]; [discriminate Hrun|].
  cbn [TraverseFunctionTreeForward] in Hrun.
  apply bind_inv in Hrun as (fields0 & s0 & Hget & Hrun).
  apply get_var_inv in Hget as [-> Hf0]. rewrite Hfields in Hf0. injection Hf0 as <-.
  rewrite Hval, Hkind, Howner in Hrun.
  rewrite (bool_decide_eq_false_2 (@None NDArrayView <> None)) in Hrun by (intros H; apply H; reflexivity).
  change (bool_decide (VK_Output = VK_Input) || bool_decide (VK_Output = VK_Placeholder))
    with false in Hrun.
  change (bool_decide (VK_Output = VK_Parameter) || bool_decide (VK_Output = VK_Constant))
    with false in Hrun.
  apply bind_inv in Hrun as (F0 & s0 & Hget & Hrun).
  apply get_fun_inv in Hget as [-> HF0]. rewrite HF in HF0. injection HF0 as <-.
  rewrite Hidle in Hrun. change (bool_decide (-1 <> -1)) with false in Hrun.
  apply bind_inv in Hrun as (n & s1 & Hloop & Hrun).
  unfold traverse_inputs in Hloop.
  apply bind_inv in Hloop as (r & s1' & Hloop & Hret). injection Hret as <- <-.
  destruct (traverse_inputs_count (TraverseFunctionTreeForward K fuel) f
              (TraverseFunctionTreeForward_values_grow K fuel)
              ltac:(intros v s0 s0' x; apply TraverseFunctionTreeForward_leaf)
              (m_inputs F) 0%nat 0%nat s s1' r Hloop) as (Hgrow & Hcount & Hcons).
  apply bind_inv in Hrun as ([] & s2 & Hupd & Hrun).
  apply update_fun_inv in Hupd as (F1 & HF1 & ->).
  assert (Hrel : relinked (with_funs (<[f := set_pendingInputs (int_of_size_t (Z.of_nat (fst r))) F1]>
                                        (funs s1')) s1') s').
  { destruct (bool_decide (fst r = 0%nat)).
    - eapply Schedule_relinked. exact Hrun.
    - injection Hrun as <-. reflexivity. }
  destruct Hrel as [Hvars Hlinks]. cbn in Hvars.
  destruct (Hlinks f _ (lookup_insert_eq _ _ _)) as (F' & HF' & _ & _ & _ & _ & Hpend).
  assert (Hnv : forall input, no_value s' input = no_value s1' input).
  { intros input. unfold no_value. rewrite Hvars. reflexivity. }
  exists F'. split; [exact HF'|]. split.
  - rewrite Hpend. cbn. rewrite Hcount. cbn.
    rewrite (List.filter_ext _ _ Hnv). apply int_of_size_t_small.
    pose proof (List.filter_length_le (no_value s1') (m_inputs F)). lia.
  - intros i input Hi Hno. rewrite Hnv in Hno.
    destruct (Hcons i input Hi Hno) as (x1 & Hx1 & Hin). exists x1. rewrite Hvars. auto.
Qed.

Lemma TraverseFunctionTreeForward_counts_witness :
  exists s' F',
    TraverseFunctionTreeForward ex_kernels 20 (mkVariable 2 None) ex_chain = Ok (tt, s') /\
    funs s' !! 11%nat = Some F' /\
    m_pendingInputs F'
      = Z.of_nat (length (List.filter (no_value s') (m_inputs (ex_fun (OtherOp 0) [1%nat] 2%nat)))) /\
    forall (i : nat) input,
      m_inputs (ex_fun (OtherOp 0) [1%nat] 2%nat) !! i = Some input -> no_value s' input = true ->
      exists x, vars s' !! m_dataFields input = Some x /\ (11%nat, i) ∈ consumers_of x.
Proof.
  destruct (TraverseFunctionTreeForward ex_kernels 20 (mkVariable 2 None) ex_chain)
    as [[[] s']|e] eqn:Hrun; [|vm_compute in Hrun; discriminate Hrun].
  destruct (TraverseFunctionTreeForward_counts ex_kernels 20 (mkVariable 2 None) ex_chain s'
              (ex_var VK_Output [4] (Some 11%nat)) 11 (ex_fun (OtherOp 0) [1%nat] 2%nat)
              ltac:(vm_compute; reflexivity) eq_refl eq_refl eq_refl
              ltac:(vm_compute; reflexivity) eq_refl ltac:(cbn; lia) Hrun) as (F' & H).
  exists s', F'. split; [reflexivity | exact H].
Defined.

(** ** Values of leaves *)

(** X13: GetValue on a leaf without value. An Input or a Placeholder is not
    knowable: LogicError. A Parameter or Constant is initialised through
    Variable::Value(): if that yields no tensor the call fails with
    LogicError; if it yields a tensor and no op is scheduled, GetValue
    returns this tensor, and the only changes of the state are the tensors
    that the initialisation made and the value slot of the leaf. *)
Theorem GetValue_of_leaf (K : Collaborators) (fuel : nat) (v : CNTKVariable) (s : Memoize)
    (fields : VariableFields) :
  vars s !! m_dataFields v = Some fields -> m_value fields = None ->
  (m_varKind fields = VK_Input \/ m_varKind fields = VK_Placeholder ->
   GetValue K (S fuel) v s
     = Err (LogicError "Value() depends on Input or Placeholder, it is not knowable.")) /\
  (m_varKind fields = VK_Parameter \/ m_varKind fields = VK_Constant ->
   (forall th, InitialValue K (m_dataFields v) fields (tensors s) = Ok (None, th) ->
      GetValue K (S fuel) v s = Err (LogicError "Parameter/Constant has no Value??")) /\
   (forall t th, InitialValue K (m_dataFields v) fields (tensors s) = Ok (Some t, th) ->
      ReadyOps_empty (m_schedule s) = true ->
      GetValue K (S fuel) v s
        = Ok (Some t, with_vars (<[m_dataFields v := set_value (Some t) fields]> (vars s))
                        (with_tensors th s)))).
Proof.
  intros Hfields Hval.
  assert (Hnn : bool_decide (m_value fields <> None) = false).
  { apply bool_decide_eq_false. rewrite Hval. intros H. apply H. reflexivity. }
  split.
  - intros Hkind. unfold GetValue.
    erewrite bind_ok by (unfold get_var; rewrite Hfields; reflexivity). rewrite Hval.
    apply bind_err. cbn [TraverseFunctionTreeForward].
    erewrite bind_ok by (unfold get_var; rewrite Hfields; reflexivity). rewrite Hnn.
    destruct Hkind as [-> | ->]; reflexivity.
  - intros Hkind.
    assert (Hk1 : bool_decide (m_varKind fields = VK_Input)
                  || bool_decide (m_varKind fields = VK_Placeholder) = false)
      by (destruct Hkind as [-> | ->]; reflexivity).
    assert (Hk2 : bool_decide (m_varKind fields = VK_Parameter)
                  || bool_decide (m_varKind fields = VK_Constant) = true)
      by (destruct Hkind as [-> | ->]; reflexivity).
    split.
    + intros th Hinit. unfold GetValue.
      erewrite bind_ok by (unfold get_var; rewrite Hfields; reflexivity). rewrite Hval.
      apply bind_err. cbn [TraverseFunctionTreeForward].
      erewrite bind_ok by (unfold get_var; rewrite Hfields; reflexivity).
      rewrite Hnn, Hk1, Hk2.
      erewrite bind_ok by (apply on_tensors_ok; exact Hinit).
      erewrite bind_ok by (apply update_var_ok; exact Hfields). reflexivity.
    + intros t th Hinit Hempty. unfold GetValue.
      erewrite bind_ok by (unfold get_var; rewrite Hfields; reflexivity). rewrite Hval.
      erewrite bind_ok.
      2:{ cbn [TraverseFunctionTreeForward].
          erewrite bind_ok by (unfold get_var; rewrite Hfields; reflexivity).
          rewrite Hnn, Hk1, Hk2.
          erewrite bind_ok by (apply on_tensors_ok; exact Hinit).
          erewrite bind_ok by (apply update_var_ok; exact Hfields). reflexivity. }
      erewrite bind_ok.
      2:{ cbn [run_schedule]. unfold bind at 1. cbn [get]. cbn [m_schedule with_vars with_tensors].
          rewrite Hempty. reflexivity. }
      erewrite bind_ok by (unfold get_var; cbn; rewrite lookup_insert_eq; reflexivity).
      cbn [m_value set_value].
      rewrite bool_decide_eq_false_2 by discriminate.
      erewrite bind_ok.
      2:{ cbn [LazilyIndexedValue].
          erewrite bind_ok by (unfold get_var; cbn; rewrite lookup_insert_eq; reflexivity).
          reflexivity. }
      reflexivity.
Qed.

Lemma GetValue_of_leaf_witness :
  let v := mkVariable 0 None in
  let fields := ex_var VK_Parameter [4] None in
  (m_varKind fields = VK_Input \/ m_varKind fields = VK_Placeholder ->
   GetValue ex_kernels 1 v ex_chain
     = Err (LogicError "Value() depends on Input or Placeholder, it is not knowable.")) /\
  (m_varKind fields = VK_Parameter \/ m_varKind fields = VK_Constant ->
   (forall th, InitialValue ex_kernels (m_dataFields v) fields (tensors ex_chain) = Ok (None, th) ->
      GetValue ex_kernels 1 v ex_chain = Err (LogicError "Parameter/Constant has no Value??")) /\
   (forall t th, InitialValue ex_kernels (m_dataFields v) fields (tensors ex_chain) = Ok (Some t, th) ->
      ReadyOps_empty (m_schedule ex_chain) = true ->
      GetValue ex_kernels 1 v ex_chain
        = Ok (Some t, with_vars (<[m_dataFields v := set_value (Some t) fields]> (vars ex_chain))
                        (with_tensors th ex_chain)))).
Proof.
  apply (GetValue_of_leaf ex_kernels 0 (mkVariable 0 None) ex_chain (ex_var VK_Parameter [4] None));
    reflexivity.
Defined.

(** ** Lazily indexed values *)

(** X14: LazilyIndexedValue memoizes. Whenever it returns a tensor, the
    value slot of the variable holds this tensor afterwards, and every
    further call returns the same tensor object and leaves the state as it
    is. A variable that has neither a value nor a lazy index is a
    LogicError. *)
Theorem LazilyIndexedValue_memoizes (fuel : nat) (v : CNTKVariable) (s : Memoize) :
  (forall t s',
      LazilyIndexedValue fuel v s = Ok (t, s') ->
      (exists x, vars s' !! m_dataFields v = Some x /\ m_value x = Some t) /\
      forall fuel', LazilyIndexedValue (S fuel') v s' = Ok (t, s')) /\
  (forall x,
      vars s !! m_dataFields v = Some x -> m_value x = None -> fst (m_lazyIndex x) = None ->
      LazilyIndexedValue (S fuel) v s
        = Err (LogicError
                 "variable unexpectedly has no value yet, nor is it a slice view into a batched op")).
Proof.
  split.
  - intros t s' Hrun. destruct (LazilyIndexedValue_cached _ _ _ _ _ Hrun) as (x & Hx & Hval).
    split; [eauto|]. intros fuel'. cbn [LazilyIndexedValue].
    erewrite bind_ok by (unfold get_var; rewrite Hx; reflexivity). rewrite Hval. reflexivity.
  - intros x Hx Hval Hlazy. cbn [LazilyIndexedValue].
    erewrite bind_ok by (unfold get_var; rewrite Hx; reflexivity). rewrite Hval, Hlazy.
    reflexivity.
Qed.

Lemma LazilyIndexedValue_memoizes_witness :
  exists t s',
    LazilyIndexedValue 2 (mkVariable 6 None) ex_lazy = Ok (t, s') /\
    (exists x, vars s' !! 6%nat = Some x /\ m_value x = Some t) /\
    forall fuel', LazilyIndexedValue (S fuel') (mkVariable 6 None) s' = Ok (t, s').
Proof.
  destruct (LazilyIndexedValue 2 (mkVariable 6 None) ex_lazy) as [[t s']|e] eqn:Hrun;
    [|vm_compute in Hrun; discriminate Hrun].
  exists t, s'. split; [reflexivity|].
  exact (proj1 (LazilyIndexedValue_memoizes 2 (mkVariable 6 None) ex_lazy) t s' Hrun).
Defined.

Lemma LazilyIndexedValue_slice (fuel : nat) (v : CNTKVariable) (s : Memoize)
    (x : VariableFields) (p : FunId) (k : Z) (P : Function) (out : CNTKVariable)
    (ox : VariableFields) (from : NDArrayView) (d : Z) (rest : list Z) :
  vars s !! m_dataFields v = Some x -> m_value x = None -> m_lazyIndex x = (Some p, k) ->
  funs s !! p = Some P -> m_outputs P !! 0%nat = Some out ->
  vars s !! m_dataFields out = Some ox -> m_value ox = Some from ->
  k <> SIZE_MAX -> reverse (nd_shape from) = d :: rest -> 0 <= k < d ->
  let t := mkNDArrayView (th_nextView (tensors s)) (nd_block from)
             (nd_offset from + k * TotalSize (reverse rest)) (reverse rest)
             (nd_dataType from) (nd_device from) (nd_sparse from) in
  let th' := mkTensorHeap (S (th_nextView (tensors s))) (th_nextBlock (tensors s))
               (th_contents (tensors s)) (m_currentArena (tensors s))
               (m_currentArenaUsed (tensors s)) in
  LazilyIndexedValue (S (S fuel)) v s
    = Ok (t, with_vars (<[m_dataFields v := set_value (Some t) x]> (vars s)) (with_tensors th' s)).
Proof.
  intros Hx Hval Hlazy HP Hout Hox Hfrom Hk Hshape Hrange. cbv zeta.
  cbn [LazilyIndexedValue].
  erewrite bind_ok by (unfold get_var; rewrite Hx; reflexivity).
  rewrite Hval, Hlazy. cbn [fst snd].
  erewrite bind_ok by (unfold get_fun; rewrite HP; reflexivity). rewrite Hout.
  erewrite bind_ok.
  2:{ erewrite bind_ok by (unfold get_var; rewrite Hox; reflexivity). rewrite Hfrom. reflexivity. }
  destruct (k =? SIZE_MAX) eqn:E; [apply Z.eqb_eq in E; contradiction|].
  erewrite bind_ok.
  2:{ apply on_tensors_ok. unfold IndexLastAxis. rewrite Hshape.
      replace ((0 <=? k) && (k <? d)) with true
        by (symmetry; apply andb_true_iff; split; [apply Z.leb_le | apply Z.ltb_lt]; lia).
      reflexivity. }
  erewrite bind_ok by (apply update_var_ok; exact Hx).
  reflexivity.
Qed.

Lemma slices_apart (b : nat) (off T k1 k2 : Z) (sh : NDShape) (v1 v2 : NDArrayView) :
  nd_block v1 = b -> nd_block v2 = b ->
  nd_offset v1 = off + k1 * T -> nd_offset v2 = off + k2 * T ->
  nd_shape v1 = sh -> nd_shape v2 = sh -> TotalSize sh = T -> k1 <> k2 ->
  ~ nd_overlap v1 v2.
Proof.
  intros Hb1 Hb2 Ho1 Ho2 Hs1 Hs2 HT Hne (blk & i & [_ H1] & [_ H2]).
  rewrite Ho1, Hs1, HT in H1. rewrite Ho2, Hs2, HT in H2.
  pose proof (TotalSize_range sh) as Hr. rewrite HT in Hr. nia.
Qed.

(** X15: the results of a batch are sliced lazily and the slices are views.
    If two variables refer to the same batched op with distinct slice
    indices in range, resolving them one after the other with
    LazilyIndexedValue yields two tensors that view the buffer of the
    batched result, have its shape without the batch axis, and do not
    overlap. No buffer is allocated and no element is written. *)
Theorem lazy_slices_are_disjoint_views (fuel : nat) (v1 v2 : CNTKVariable) (s : Memoize)
    (x1 x2 : VariableFields) (p : FunId) (k1 k2 : Z) (P : Function) (out : CNTKVariable)
    (ox : VariableFields) (from : NDArrayView) (d : Z) (rest : list Z) :
  vars s !! m_dataFields v1 = Some x1 -> m_value x1 = None -> m_lazyIndex x1 = (Some p, k1) ->
  vars s !! m_dataFields v2 = Some x2 -> m_value x2 = None -> m_lazyIndex x2 = (Some p, k2) ->
  funs s !! p = Some P -> m_outputs P !! 0%nat = Some out ->
  vars s !! m_dataFields out = Some ox -> m_value ox = Some from ->
  reverse (nd_shape from) = d :: rest ->
  k1 <> SIZE_MAX -> k2 <> SIZE_MAX -> 0 <= k1 < d -> 0 <= k2 < d -> k1 <> k2 ->
  exists t1 s1 t2 s2,
    LazilyIndexedValue (S (S fuel)) v1 s = Ok (t1, s1) /\
    LazilyIndexedValue (S (S fuel)) v2 s1 = Ok (t2, s2) /\
    nd_block t1 = nd_block from /\ nd_block t2 = nd_block from /\
    nd_shape t1 = reverse rest /\ nd_shape t2 = reverse rest /\
    nd_offset t1 = nd_offset from + k1 * TotalSize (reverse rest) /\
    nd_offset t2 = nd_offset from + k2 * TotalSize (reverse rest) /\
    ~ nd_overlap t1 t2 /\
    th_contents (tensors s2) = th_contents (tensors s) /\
    th_nextBlock (tensors s2) = th_nextBlock (tensors s) /\
    m_currentArenaUsed (tensors s2) = m_currentArenaUsed (tensors s).
Proof.
  intros Hx1 Hv1 Hl1 Hx2 Hv2 Hl2 HP Hout Hox Hfrom Hshape Hk1 Hk2 Hr1 Hr2 Hne.
  assert (Hv12 : m_dataFields v1 <> m_dataFields v2).
  { intros Heq. rewrite Heq in Hx1. rewrite Hx1 in Hx2. injection Hx2 as <-.
    rewrite Hl1 in Hl2. congruence. }
  assert (Hvo : m_dataFields v1 <> m_dataFields out).
  { intros Heq. rewrite Heq in Hx1. rewrite Hx1 in Hox. injection Hox as <-. congruence. }
  pose proof (LazilyIndexedValue_slice fuel v1 s x1 p k1 P out ox from d rest
                Hx1 Hv1 Hl1 HP Hout Hox Hfrom Hk1 Hshape Hr1) as Hrun1. cbv zeta in Hrun1.
  eexists _, _. 
  match type of Hrun1 with _ = Ok (?t, ?s1) =>
    pose proof (LazilyIndexedValue_slice fuel v2 s1 x2 p k2 P out ox from d rest) as Hrun2
  end.
  cbv zeta in Hrun2. cbn [vars funs tensors with_vars with_tensors th_nextView th_nextBlock
                          th_contents m_currentArena m_currentArenaUsed] in Hrun2.
  rewrite !lookup_insert_ne in Hrun2 by congruence.
  specialize (Hrun2 Hx2 Hv2 Hl2 HP Hout Hox Hfrom Hk2 Hshape Hr2).
  eexists _, _. split; [exact Hrun1|]. split; [exact Hrun2|].
  cbn. repeat (split; [reflexivity|]). split; [|repeat split].
  eapply slices_apart with (sh := reverse rest); try reflexivity. exact Hne.
Qed.

Lemma lazy_slices_are_disjoint_views_witness :
  exists t1 s1 t2 s2,
    LazilyIndexedValue 2 (mkVariable 6 None) ex_lazy = Ok (t1, s1) /\
    LazilyIndexedValue 2 (mkVariable 7 None) s1 = Ok (t2, s2) /\
    nd_block t1 = 0%nat /\ nd_block t2 = 0%nat /\
    nd_shape t1 = reverse [4] /\ nd_shape t2 = reverse [4] /\
    nd_offset t1 = 0 + 1 * TotalSize (reverse [4]) /\
    nd_offset t2 = 0 + 2 * TotalSize (reverse [4]) /\
    ~ nd_overlap t1 t2 /\
    th_contents (tensors s2) = th_contents (tensors ex_lazy) /\
    th_nextBlock (tensors s2) = th_nextBlock (tensors ex_lazy) /\
    m_currentArenaUsed (tensors s2) = m_currentArenaUsed (tensors ex_lazy).
Proof.
  apply (lazy_slices_are_disjoint_views 0 (mkVariable 6 None) (mkVariable 7 None) ex_lazy
           (set_lazyIndex (Some 20%nat, 1) (ex_var VK_Output [4] (Some 21%nat)))
           (set_lazyIndex (Some 20%nat, 2) (ex_var VK_Output [4] (Some 22%nat)))
           20 1 2 (ex_fun (OtherOp 0) [] 5%nat) (mkVariable 5 None)
           (set_value (Some (mkNDArrayView 0 0 0 [4; 3] DT_Float CPUDevice false))
              (ex_var VK_Output [4; 3] (Some 20%nat)))
           (mkNDArrayView 0 0 0 [4; 3] DT_Float CPUDevice false) 3 [4]);
    first [reflexivity | discriminate | lia].
Defined.

(** ** The arena does not look at data types *)

(** X16: the arena block is shared by all data types and devices. When the
    request is carved from the current block, the returned tensor has the
    data type and the device of that block, whatever was requested; the
    requested data type and device are used only when a new buffer is
    allocated (a standalone tensor or a fresh block). *)
Theorem arena_tensor_type (th : TensorHeap) (shape : NDShape) (dt : DataType)
    (dev : DeviceDescriptor) :
  arena_wf th ->
  exists r th',
    AllocateTensorInArena shape dt dev th = Ok (r, th') /\
    (forall a, m_currentArena th = Some a ->
               TotalSize shape <= ARENASIZE - m_currentArenaUsed th ->
               nd_dataType r = nd_dataType a /\ nd_device r = nd_device a /\
               nd_block r = nd_block a) /\
    (m_currentArena th = None \/ TotalSize shape > ARENASIZE - m_currentArenaUsed th ->
     nd_dataType r = dt /\ nd_device r = dev /\ nd_block r = th_nextBlock th).
Proof.
  intros [Hused Harena].
  destruct (Z_gt_le_dec (TotalSize shape) ARENASIZE) as [Hbig | Hsmall].
  - eexists _, _. split; [apply allocate_plain; exact Hbig|]. cbn. split.
    + intros a _ Hfit. lia.
    + intros _. auto.
  - destruct (m_currentArena th) as [a|] eqn:Ha.
    + destruct (Z_gt_le_dec (TotalSize shape) (ARENASIZE - m_currentArenaUsed th)) as [Hno | Hfit].
      * eexists _, _. split; [apply allocate_fresh_block; auto|]. cbn. split.
        -- intros a0 _ Hfit. lia.
        -- intros _. auto.
      * destruct (Harena a eq_refl) as (Hash & _ & _).
        eexists _, _. split; [eapply allocate_carve; eauto|]. cbn. split.
        -- intros a0 Ha0 _. injection Ha0 as <-. auto.
        -- intros [Hnone | Hno]; [discriminate Hnone | lia].
    + eexists _, _. split; [apply allocate_fresh_block; auto|]. cbn. split.
      * intros a0 Ha0. discriminate Ha0.
      * intros _. auto.
Qed.

Lemma th_double_block_wf : arena_wf th_double_block.
Proof.
  split; [cbn; unfold ARENASIZE; lia|]. intros a Ha. injection Ha as <-. cbn. auto.
Defined.

Lemma arena_tensor_type_witness :
  exists r th',
    AllocateTensorInArena [4] DT_Float CPUDevice th_double_block = Ok (r, th') /\
    (forall a, m_currentArena th_double_block = Some a ->
               TotalSize [4] <= ARENASIZE - m_currentArenaUsed th_double_block ->
               nd_dataType r = nd_dataType a /\ nd_device r = nd_device a /\
               nd_block r = nd_block a) /\
    (m_currentArena th_double_block = None
     \/ TotalSize [4] > ARENASIZE - m_currentArenaUsed th_double_block ->
     nd_dataType r = DT_Float /\ nd_device r = CPUDevice /\
     nd_block r = th_nextBlock th_double_block).
Proof.
  exact (arena_tensor_type th_double_block [4] DT_Float CPUDevice th_double_block_wf).
Defined.

(** ** GatherBatchInArena *)

(** X17: GatherBatchInArena gathers into a new arena tensor. For a
    non-empty array whose first element is not null, the output buffer that
    GatherBatch receives has the shape of the first input with one more
    axis, whose size is the number of inputs; it overlaps no tensor that was
    allocated before, and the axis argument is the rank of the first input.
    An empty array, or a null first element, is undefined behaviour. *)
Theorem GatherBatchInArena_buffer
    (GatherBatch : list NDArrayViewPtr -> Z -> NDArrayView -> M TensorHeap NDArrayViewPtr)
    (th : TensorHeap) :
  arena_wf th ->
  (forall input0 rest,
      Z.of_nat (length (nd_shape input0)) < 2 ^ 31 ->
      exists out th1,
        AllocateTensorInArena (nd_shape input0 ++ [Z.of_nat (S (length rest))])
          (nd_dataType input0) (nd_device input0) th = Ok (out, th1) /\
        nd_shape out = nd_shape input0 ++ [Z.of_nat (S (length rest))] /\
        (forall r0, accounted r0 th -> ~ nd_overlap r0 out) /\
        GatherBatchInArena GatherBatch (Some input0 :: rest) th
          = GatherBatch (Some input0 :: rest) (Z.of_nat (length (nd_shape input0))) out th1) /\
  (exists msg, GatherBatchInArena GatherBatch [] th = Err (UndefinedBehavior msg)) /\
  (forall rest, exists msg,
      GatherBatchInArena GatherBatch (None :: rest) th = Err (UndefinedBehavior msg)).
Proof.
  intros Hwf. split; [|split].
  - intros input0 rest Hrank.
    destruct (allocate_cases (nd_shape input0 ++ [Z.of_nat (S (length rest))])
                (nd_dataType input0) (nd_device input0) th Hwf)
      as (out & th1 & Hrun & Hshape & _).
    exists out, th1. split; [exact Hrun|]. split; [exact Hshape|]. split.
    + intros r0 Hr0. eapply allocate_preserves_wf; eauto.
    + unfold GatherBatchInArena. cbn [length].
      erewrite bind_ok by exact Hrun.
      rewrite int_of_size_t_small by lia. reflexivity.
  - eexists. reflexivity.
  - intros rest. eexists. reflexivity.
Qed.

Lemma GatherBatchInArena_buffer_witness :
  (forall input0 rest,
      Z.of_nat (length (nd_shape input0)) < 2 ^ 31 ->
      exists out th1,
        AllocateTensorInArena (nd_shape input0 ++ [Z.of_nat (S (length rest))])
          (nd_dataType input0) (nd_device input0) th_init = Ok (out, th1) /\
        nd_shape out = nd_shape input0 ++ [Z.of_nat (S (length rest))] /\
        (forall r0, accounted r0 th_init -> ~ nd_overlap r0 out) /\
        GatherBatchInArena ex_GatherBatch (Some input0 :: rest) th_init
          = ex_GatherBatch (Some input0 :: rest) (Z.of_nat (length (nd_shape input0))) out th1) /\
  (exists msg, GatherBatchInArena ex_GatherBatch [] th_init = Err (UndefinedBehavior msg)) /\
  (forall rest, exists msg,
      GatherBatchInArena ex_GatherBatch (None :: rest) th_init = Err (UndefinedBehavior msg)).
Proof.
  exact (GatherBatchInArena_buffer ex_GatherBatch th_init th_init_wf).
Defined.

(** ** BatchedForward *)

Lemma GetValue_returns_value (K : Collaborators) (fuel : nat) (v : CNTKVariable)
    (s s' : Memoize) (r : NDArrayViewPtr) :
  GetValue K fuel v s = Ok (r, s') ->
  exists t x, r = Some t /\ vars s' !! m_dataFields v = Some x /\ m_value x = Some t.
Proof.
  intros Hrun. unfold GetValue in Hrun.
  apply bind_inv in Hrun as (fields & s0 & Hget & Hrun).
  apply get_var_inv in Hget as [-> Hfields].
  destruct (m_value fields) as [t|] eqn:Hval.
  - injection Hrun as <- <-. eauto.
  - apply bind_inv in Hrun as ([] & s1 & _ & Hrun).
    apply bind_inv in Hrun as ([] & s2 & _ & Hrun).
    apply bind_inv in Hrun as (fields' & s3 & _ & Hrun).
    destruct (bool_decide (m_value fields' = None)); [discriminate Hrun|].
    apply bind_inv in Hrun as (t & s4 & Hlazy & Hret). injection Hret as <- <-.
    destruct (LazilyIndexedValue_cached _ _ _ _ _ Hlazy) as (x & Hx & Hxval). eauto.
Qed.

Lemma ids_fresh_Memoize_new (s : Memoize) : ids_fresh s -> ids_fresh (Memoize_new s).
Proof. intros H. exact H. Qed.

(** X18: BatchedForward "does nothing if called again". If a call on the
    Function f returned, it returned a tensor, and every further call on f
    returns the same tensor object; the further call changes no Variable,
    no Function and no tensor: its final state consists of the objects as
    they were and of the members of a new engine. *)
Theorem BatchedForward_again (K : Collaborators) (fuel : nat) (f : FunId)
    (s s1 : Memoize) (r : NDArrayViewPtr) :
  ids_fresh s -> BatchedForward K fuel f s = Ok (r, s1) ->
  exists t, r = Some t /\
    forall fuel', BatchedForward K fuel' f s1 = Ok (Some t, Memoize_new s1).
Proof.
  intros Hfresh Hrun. unfold BatchedForward in Hrun.
  apply bind_inv in Hrun as ([] & s0 & Hnew & Hrun). injection Hnew as <-.
  apply bind_inv in Hrun as (F & s0 & Hget & Hrun). apply get_fun_inv in Hget as [-> HF].
  destruct (m_outputs F !! 0%nat) as [out|] eqn:Hout; [|discriminate Hrun].
  destruct (GetValue_returns_value _ _ _ _ _ _ Hrun) as (t & x & -> & Hx & Hval).
  destruct (GetValue_graph_augmented K fuel out _ _ _ Hrun (ids_fresh_Memoize_new s Hfresh))
    as (_ & _ & HFk & _).
  destruct (HFk f F HF) as (F' & HF' & _ & _ & Houts & _).
  exists t. split; [reflexivity|]. intros fuel'. unfold BatchedForward.
  unfold bind at 1. cbn [modify].
  erewrite bind_ok by (unfold get_fun; cbn; rewrite HF'; reflexivity).
  rewrite Houts, Hout.
  eapply GetValue_value_present; [exact Hx | exact Hval].
Qed.

Lemma BatchedForward_again_witness :
  exists t s1,
    BatchedForward ex_kernels 20 11 ex_chain = Ok (Some t, s1) /\
    forall fuel', BatchedForward ex_kernels fuel' 11 s1 = Ok (Some t, Memoize_new s1).
Proof.
  destruct (BatchedForward ex_kernels 20 11 ex_chain) as [[r s1]|e] eqn:Hrun;
    [|vm_compute in Hrun; discriminate Hrun].
  destruct (BatchedForward_again ex_kernels 20 11 ex_chain s1 r
              ltac:(apply ids_freshb_spec; vm_compute; reflexivity) Hrun) as (t & -> & H).
  exists t, s1. split; [reflexivity | exact H].
Defined.

(** ** Batched execution: operands and results *)

Lemma collect_step_shared (fuel : nat) (i : nat) (pfields0 : VarId)
    (lazyIndex0 : option FunId * Z) (fh : gmap FunId Function) (h : option FunId)
    (l : list FunId) :
  is_chain fh h l ->
  forall (s : Memoize) (acs : bool) (j : nat) (sp : list CNTKVariable),
    funs s = fh -> (length l <= fuel)%nat ->
    is_Some (vars s !! pfields0) ->
    (forall op, op ∈ l -> exists OP input,
        fh !! op = Some OP /\ m_inputs OP !! i = Some input /\ m_dataFields input = pfields0) ->
    exists (acs' : bool) (ins : list CNTKVariable),
      fold_chain fuel (collect_step i pfields0 lazyIndex0) (true, acs, j, sp) h s
        = Ok ((true, acs', (j + length l)%nat, sp ++ ins), s) /\
      length ins = length l /\
      (forall input, input ∈ ins -> m_dataFields input = pfields0).
Proof.
  intros Hchain. revert fuel.
  induction Hchain as [|f F l HF Hc IH]; intros fuel s acs j sp Hs Hfuel [x Hx] Hops.
  - exists acs, []. destruct fuel; cbn; rewrite app_nil_r, Nat.add_0_r; repeat split;
      intros input Hin; inversion Hin.
  - destruct fuel as [|fuel]; [cbn in Hfuel; lia|].
    destruct (Hops f ltac:(left)) as (OP & input & HOP & Hinput & Hsame).
    rewrite HF in HOP. injection HOP as <-.
    cbn [fold_chain].
    erewrite bind_ok.
    2:{ unfold collect_step.
        erewrite bind_ok by (unfold get_fun; rewrite Hs, HF; reflexivity).
        rewrite Hinput.
        erewrite bind_ok by (unfold get_var; rewrite Hsame, Hx; reflexivity).
        rewrite Hsame. rewrite bool_decide_eq_true_2 by reflexivity.
        cbn [andb orb]. reflexivity. }
    erewrite bind_ok by (unfold get_fun; rewrite Hs, HF; reflexivity).
    edestruct (IH fuel s) as (acs' & ins & Hrun & Hlen & Hins).
    + exact Hs.
    + cbn in Hfuel. lia.
    + eauto.
    + intros op Hop. apply Hops. right. exact Hop.
    + exists acs', (input :: ins). split; [|split].
      * rewrite Hrun. cbn [length]. rewrite <- app_assoc.
        replace (S j + length l)%nat with (j + S (length l))%nat by lia. reflexivity.
      * cbn. lia.
      * intros y Hy. apply elem_of_cons in Hy as [-> | Hy]; [exact Hsame | auto].
Qed.

(** X19: an operand that all ops of the batch share is not batched. If, at
    input position i, every op of the batch has the same Variable as the
    representative op, batch_input hands this operand on as it is and
    reports that nothing was batched: no Splice or Slice Function is
    created, no tensor is allocated, the state is unchanged. *)
Theorem batch_input_shared_operand (K : Collaborators) (fuel : nat) (ops : FList)
    (F0 : Function) (maxRank i : nat) (s : Memoize) (l : list FunId) (input0 : CNTKVariable) :
  is_chain (funs s) (L.head ops) l -> l <> [] -> (length l <= fuel)%nat ->
  m_inputs F0 !! i = Some input0 -> is_Some (vars s !! m_dataFields input0) ->
  (forall op, op ∈ l -> exists OP input,
      funs s !! op = Some OP /\ m_inputs OP !! i = Some input /\
      m_dataFields input = m_dataFields input0) ->
  exists first,
    batch_input K fuel ops F0 maxRank i s = Ok ((first, false), s) /\
    m_dataFields first = m_dataFields input0.
Proof.
  intros Hchain Hne Hfuel Hin0 [x Hx] Hops. unfold batch_input. rewrite Hin0.
  erewrite bind_ok by (unfold get_var; rewrite Hx; reflexivity).
  edestruct (collect_step_shared fuel i (m_dataFields input0) (m_lazyIndex x) (funs s)
               (L.head ops) l Hchain s) as (acs' & ins & Hrun & Hlen & Hins);
    [reflexivity | exact Hfuel | eauto | exact Hops |].
  erewrite bind_ok by exact Hrun.
  destruct ins as [|first ins]; [destruct l; [contradiction | discriminate Hlen]|].
  exists first. split; [reflexivity|]. apply Hins. left.
Qed.

Lemma batch_input_shared_operand_witness :
  exists first,
    batch_input ex_kernels 5 (L.mk (Some 10%nat) 2) (ex_fun Times [0%nat; 2%nat] 3%nat) 1 0
      ex_shared_weight_scheduled
      = Ok ((first, false), ex_shared_weight_scheduled) /\
    m_dataFields first = m_dataFields (mkVariable 0 None).
Proof.
  apply (batch_input_shared_operand ex_kernels 5 (L.mk (Some 10%nat) 2)
           (ex_fun Times [0%nat; 2%nat] 3%nat) 1 0 ex_shared_weight_scheduled
           [10%nat; 11%nat] (mkVariable 0 None)).
  - econstructor; [vm_compute; reflexivity|]. cbn.
    econstructor; [vm_compute; reflexivity|]. cbn. constructor.
  - discriminate.
  - cbn. lia.
  - reflexivity.
  - vm_compute. eauto.
  - intros op Hop. apply elem_of_cons in Hop as [-> | Hop].
    + eexists _, _. split; [vm_compute; reflexivity|]. split; reflexivity.
    + apply list_elem_of_singleton in Hop as ->.
      eexists _, _. split; [vm_compute; reflexivity|]. split; reflexivity.
Defined.

Lemma implant_chain (batchedOp : FunId) (b : bool) (fuel : nat) :
  forall (l : list FunId) (outs : list CNTKVariable) (h : option FunId) (s : Memoize) (k0 : nat),
    is_chain (funs s) h l -> (length l <= fuel)%nat ->
    Z.of_nat (k0 + length l) < SIZE_MAX ->
    Forall2 (fun op out => exists OP, funs s !! op = Some OP /\ m_pendingInputs OP = 0 /\
                                      m_outputs OP !! 0%nat = Some out) l outs ->
    NoDup (map m_dataFields outs) ->
    (forall out, out ∈ outs -> is_Some (vars s !! m_dataFields out)) ->
    exists s',
      fold_chain fuel (implant_step batchedOp) (if b then Z.of_nat k0 else SIZE_MAX) h s
        = Ok (if b then Z.of_nat (k0 + length l) else SIZE_MAX, s') /\
      (forall (i : nat) out, outs !! i = Some out ->
         exists x, vars s !! m_dataFields out = Some x /\
                   vars s' !! m_dataFields out
                     = Some (set_lazyIndex
                               (Some batchedOp, if b then Z.of_nat (k0 + i) else SIZE_MAX) x)) /\
      (forall w, w ∉ map m_dataFields outs -> vars s' !! w = vars s !! w) /\
      (forall op, op ∈ l -> exists OP, funs s !! op = Some OP /\
                                       funs s' !! op = Some (set_pendingInputs (-1) OP)) /\
      (forall g, g ∉ l -> funs s' !! g = funs s !! g) /\
      tensors s' = tensors s.
Proof.
  revert fuel. intros fuel l. revert fuel.
  induction l as [|op l IH]; intros fuel outs h s k0 Hchain Hfuel Hsmall Hall Hnd Hlive.
  - inversion Hchain; subst. inversion Hall; subst. exists s.
    split; [destruct fuel; cbn; rewrite Nat.add_0_r; reflexivity|].
    split; [intros i out Hi; discriminate Hi|]. repeat split; auto.
    intros op Hop. inversion Hop.
  - inversion Hchain as [|op0 OP0 l0 HOP0 Hrest]; subst.
    inversion Hall as [|op1 out l1 outs1 (OP & HOP & Hpend & Hout) Hall']; subst.
    rewrite HOP0 in HOP. injection HOP as <-.
    destruct fuel as [|fuel]; [cbn in Hfuel; lia|].
    destruct (Hlive out ltac:(left)) as [x Hx].
    pose proof (is_chain_NoDup _ _ _ Hchain) as Hndl.
    apply NoDup_cons in Hndl as [Hopl Hndl].
    cbn [map] in Hnd. apply NoDup_cons in Hnd as [Houtl Hnd].
    set (j := if b then Z.of_nat k0 else SIZE_MAX).
    set (sa := with_funs (<[op := set_pendingInputs (-1) OP0]> (funs s))
                 (with_vars (<[m_dataFields out := set_lazyIndex (Some batchedOp, j) x]> (vars s)) s)).
    assert (Hstep : implant_step batchedOp j op s
              = Ok (if b then Z.of_nat (S k0) else SIZE_MAX, sa)).
    { unfold implant_step.
      erewrite bind_ok by (unfold get_fun; rewrite HOP0; reflexivity). rewrite Hout.
      erewrite bind_ok by (apply update_var_ok; exact Hx).
      erewrite bind_ok.
      2:{ unfold ResetPendingToIdle.
          erewrite bind_ok by (unfold get_fun; cbn; rewrite HOP0; reflexivity).
          rewrite Hpend. change (bool_decide (0 <> 0)) with false.
          apply update_fun_ok. exact HOP0. }
      unfold ret. f_equal. f_equal. subst j. destruct b.
      - rewrite bool_decide_eq_true_2 by (cbn [length] in Hsmall; lia).
        unfold size_t_add, size_t_wrap. rewrite Z.mod_small; [lia|].
        cbn [length] in Hsmall. unfold SIZE_MAX in Hsmall. lia.
      - rewrite bool_decide_eq_false_2 by (intros H; apply H; reflexivity). reflexivity. }
    destruct (IH fuel outs1 (m_link OP0) sa (S k0)) as (s' & Hrun & Hvars & Hother & Hfuns & Hframe & Htens).
    + eapply is_chain_frame; [exact Hrest|]. intros g G Hg HG. exists G.
      split; [|reflexivity]. subst sa. cbn. rewrite lookup_insert_ne; [exact HG|].
      intros <-. contradiction.
    + cbn in Hfuel. lia.
    + cbn [length] in Hsmall. lia.
    + eapply Forall2_impl; [|intros op' out' H; exact H].
      assert (Hin : forall op', op' ∈ l -> op' <> op) by (intros op' Hin ->; contradiction).
      clear -Hall' Hin.
      revert Hin. induction Hall' as [|op' out' l' outs' (OP' & H1 & H2 & H3) Hall' IH'];
        intros Hin; constructor.
      * exists OP'. split; [|auto]. subst sa. cbn. rewrite lookup_insert_ne; [exact H1|].
        intros Heq. apply (Hin op'); [left | symmetry; exact Heq].
      * apply IH'. intros op'' Hop''. apply Hin. right. exact Hop''.
    + exact Hnd.
    + intros out' Hout'. subst sa. cbn. apply lookup_insert_is_Some'. right. apply Hlive.
      right. exact Hout'.
    + exists s'. split; [|split; [|split; [|split; [|split]]]].
      * cbn [fold_chain]. erewrite bind_ok by exact Hstep.
        erewrite bind_ok.
        2:{ unfold get_fun. subst sa. cbn. rewrite lookup_insert_eq. reflexivity. }
        change (m_link (set_pendingInputs (-1) OP0)) with (m_link OP0).
        etransitivity; [exact Hrun|]. cbn [length].
        replace (S k0 + length l)%nat with (k0 + S (length l))%nat by lia. reflexivity.
      * intros [|i] out' Hi.
        -- injection Hi as <-. exists x. split; [exact Hx|].
           rewrite (Hother _ Houtl). subst sa. cbn. rewrite lookup_insert_eq.
           rewrite Nat.add_0_r. reflexivity.
        -- cbn in Hi. destruct (Hvars i out' Hi) as (x' & Hx' & Hx'').
           assert (Hne : m_dataFields out' <> m_dataFields out).
           { intros Heq. apply Houtl. rewrite <- Heq. apply list_elem_of_fmap.
             exists out'. split; [reflexivity|]. eapply list_elem_of_lookup_2. exact Hi. }
           subst sa. cbn in Hx'. rewrite lookup_insert_ne in Hx' by congruence.
           exists x'. split; [exact Hx'|]. rewrite Hx''.
           replace (S k0 + i)%nat with (k0 + S i)%nat by lia. reflexivity.
      * intros w Hw. cbn [map] in Hw. apply not_elem_of_cons in Hw as [Hw1 Hw2].
        rewrite (Hother w Hw2). subst sa. cbn. apply lookup_insert_ne. congruence.
      * intros op' Hop'. apply elem_of_cons in Hop' as [-> | Hop'].
        -- exists OP0. split; [exact HOP0|]. rewrite (Hframe _ Hopl). subst sa. cbn.
           apply lookup_insert_eq.
        -- destruct (Hfuns op' Hop') as (OP' & H1 & H2). exists OP'. split; [|exact H2].
           subst sa. cbn in H1. rewrite lookup_insert_ne in H1; [exact H1|].
           intros <-. contradiction.
      * intros g Hg. apply not_elem_of_cons in Hg as [Hg1 Hg2].
        rewrite (Hframe g Hg2). subst sa. cbn. apply lookup_insert_ne. congruence.
      * rewrite Htens. reflexivity.
Qed.

(** X20: the results of a batch are implanted in batch order. After the
    batched op has run, the loop over the ops of the batch gives the output
    of the k-th op the lazy index (batchedOp, k) when inputs were batched,
    and (batchedOp, SIZE_MAX) ("don't slice") when all inputs were shared;
    it resets every op of the batch from ready (0) to idle (-1), and it
    changes nothing else: no value slot, no other Variable or Function, no
    tensor. *)
Theorem implant_in_batch_order (batchedOp : FunId) (anyBatchedInputs : bool) (fuel : nat)
    (l : list FunId) (outs : list CNTKVariable) (h : option FunId) (s : Memoize) :
  is_chain (funs s) h l -> (length l <= fuel)%nat -> Z.of_nat (length l) < SIZE_MAX ->
  Forall2 (fun op out => exists OP, funs s !! op = Some OP /\ m_pendingInputs OP = 0 /\
                                    m_outputs OP !! 0%nat = Some out) l outs ->
  NoDup (map m_dataFields outs) ->
  (forall out, out ∈ outs -> is_Some (vars s !! m_dataFields out)) ->
  exists j s',
    fold_chain fuel (implant_step batchedOp) (if anyBatchedInputs then 0 else SIZE_MAX) h s
      = Ok (j, s') /\
    (forall (i : nat) out, outs !! i = Some out ->
       exists x, vars s !! m_dataFields out = Some x /\
                 vars s' !! m_dataFields out
                   = Some (set_lazyIndex
                             (Some batchedOp, if anyBatchedInputs then Z.of_nat i else SIZE_MAX) x)) /\
    (forall w, w ∉ map m_dataFields outs -> vars s' !! w = vars s !! w) /\
    (forall op, op ∈ l -> exists OP, funs s !! op = Some OP /\
                                     funs s' !! op = Some (set_pendingInputs (-1) OP)) /\
    (forall g, g ∉ l -> funs s' !! g = funs s !! g) /\
    tensors s' = tensors s.
Proof.
  intros Hchain Hfuel Hsmall Hall Hnd Hlive.
  destruct (implant_chain batchedOp anyBatchedInputs fuel l outs h s 0 Hchain Hfuel
              ltac:(cbn; lia) Hall Hnd Hlive) as (s' & Hrun & H).
  eexists _, s'. split; [exact Hrun | exact H].
Qed.

Lemma implant_in_batch_order_witness :
  exists j s',
    fold_chain 5 (implant_step 50) (if true then 0 else SIZE_MAX) (Some 10%nat)
      ex_shared_weight_ready = Ok (j, s') /\
    (forall (i : nat) out, [mkVariable 3 None; mkVariable 4 None] !! i = Some out ->
       exists x, vars ex_shared_weight_ready !! m_dataFields out = Some x /\
                 vars s' !! m_dataFields out
                   = Some (set_lazyIndex (Some 50%nat, if true then Z.of_nat i else SIZE_MAX) x)) /\
    (forall w, w ∉ map m_dataFields [mkVariable 3 None; mkVariable 4 None] ->
               vars s' !! w = vars ex_shared_weight_ready !! w) /\
    (forall op, op ∈ [10%nat; 11%nat] ->
       exists OP, funs ex_shared_weight_ready !! op = Some OP /\
                  funs s' !! op = Some (set_pendingInputs (-1) OP)) /\
    (forall g, g ∉ [10%nat; 11%nat] -> funs s' !! g = funs ex_shared_weight_ready !! g) /\
    tensors s' = tensors ex_shared_weight_ready.
Proof.
  apply (implant_in_batch_order 50 true 5 [10%nat; 11%nat]
           [mkVariable 3 None; mkVariable 4 None] (Some 10%nat) ex_shared_weight_ready).
  - econstructor; [vm_compute; reflexivity|]. cbn.
    econstructor; [vm_compute; reflexivity|]. cbn. constructor.
  - cbn. lia.
  - cbn. unfold SIZE_MAX. lia.
  - constructor; [|constructor; [|constructor]].
    + eexists. split; [vm_compute; reflexivity|]. split; reflexivity.
    + eexists. split; [vm_compute; reflexivity|]. split; reflexivity.
  - cbn. apply NoDup_cons. split; [|apply NoDup_singleton].
    intros H. apply list_elem_of_singleton in H. discriminate H.
  - intros out Hout. apply elem_of_cons in Hout as [-> | Hout]; [vm_compute; eauto|].
    apply list_elem_of_singleton in Hout as ->. vm_compute. eauto.
Defined.

(** ** Frame properties of the backward pass *)

Section BackwardFrame.
Context (K : Collaborators).
Context (R : Memoize -> Memoize -> Prop) `{!PreOrder R}.
Hypothesis R_tensors : forall s th, R s (with_tensors th s).
Hypothesis R_set_visited : forall s v x b,
  vars s !! v = Some x -> R s (with_vars (<[v := set_visited b x]> (vars s)) s).
Hypothesis R_set_gradient : forall s v x g,
  vars s !! v = Some x -> R s (with_vars (<[v := set_gradient g x]> (vars s)) s).
Hypothesis R_reset_gradient : forall s v x,
  vars s !! v = Some x -> R s (with_vars (<[v := set_gradient None x]> (vars s)) s).
Hypothesis R_add_consumer : forall s v x c,
  vars s !! v = Some x -> R s (with_vars (<[v := add_consumer c x]> (vars s)) s).
Hypothesis R_clear_consumers : forall s v x,
  vars s !! v = Some x -> R s (with_vars (<[v := clear_consumers x]> (vars s)) s).
Hypothesis R_set_pendingInputs : forall s f F n,
  funs s !! f = Some F -> R s (with_funs (<[f := set_pendingInputs n F]> (funs s)) s).
Hypothesis R_matrixWeightConsumers : forall s l, R s (with_matrixWeightConsumers l s).
Hypothesis R_otherConsumers : forall s l, R s (with_otherConsumers l s).

Ltac bframe_prim0 :=
  lazymatch goal with
  | |- preserves _ (on_tensors _) => papply @preserves_on_tensors; intros; apply R_tensors
  | |- preserves _ (update_var _ (set_visited _)) =>
      papply @preserves_update_var; intros; apply R_set_visited; assumption
  | |- preserves _ (update_var _ (set_gradient None)) =>
      papply @preserves_update_var; intros; apply R_reset_gradient; assumption
  | |- preserves _ (update_var _ (set_gradient _)) =>
      papply @preserves_update_var; intros; apply R_set_gradient; assumption
  | |- preserves _ (update_var _ (add_consumer _)) =>
      papply @preserves_update_var; intros; apply R_add_consumer; assumption
  | |- preserves _ (update_var _ clear_consumers) =>
      papply @preserves_update_var; intros; apply R_clear_consumers; assumption
  | |- preserves _ (update_fun _ (set_pendingInputs _)) =>
      papply @preserves_update_fun; intros; apply R_set_pendingInputs; assumption
  | |- preserves _ (modify (with_matrixWeightConsumers _)) =>
      papply @preserves_modify; intros; apply R_matrixWeightConsumers
  | |- preserves _ (modify (with_otherConsumers _)) =>
      papply @preserves_modify; intros; apply R_otherConsumers
  end.

Lemma frame_LazilyCreateLazilyIndexedGradient (fuel : nat) :
  forall v, preserves R (LazilyCreateLazilyIndexedGradient fuel v).
Proof.
  induction fuel as [|fuel IH]; intros v; cbn [LazilyCreateLazilyIndexedGradient];
    repeat first [pres_step | bframe_prim0 | assumption].
  apply IH.
Qed.

(** where a gradient may be replaced only under a condition, the creation
    of gradients is a step of its own *)
Hypothesis R_create : forall fuel v, preserves R (LazilyCreateLazilyIndexedGradient fuel v).

Ltac bframe_prim :=
  lazymatch goal with
  | |- preserves _ (LazilyCreateLazilyIndexedGradient _ _) => apply R_create
  | _ => bframe_prim0
  end.

Ltac bframe := repeat first [pres_step | bframe_prim | assumption].

Lemma frame_BackpropTo (fuel : nat) (f : FunId) (index : nat) :
  preserves R (BackpropTo K fuel f index).
Proof. unfold BackpropTo. bframe. Qed.

Lemma frame_bucket_push_back (c : FunId * nat) : preserves R (bucket_push_back c).
Proof.
  unfold bucket_push_back. papply @preserves_bind.
  - unfold DetermineBucket. bframe.
  - intros b. papply @preserves_modify. intros s0. destruct b; auto.
Qed.

Lemma frame_AggregateGradientFromAllConsumers (fuel : nat) :
  forall var, preserves R (AggregateGradientFromAllConsumers K fuel var).
Proof.
  induction fuel as [|fuel IH]; intros var; cbn [AggregateGradientFromAllConsumers]; bframe;
    try apply IH; try apply frame_BackpropTo; try apply frame_bucket_push_back.
  unfold BackpropToMatrixWeight. bframe. apply frame_BackpropTo.
Qed.

Lemma frame_DetermineConsumersForBackward_Function (rec : CNTKVariable -> M Memoize unit)
    (f : FunId) :
  (forall v, preserves R (rec v)) ->
  preserves R (DetermineConsumersForBackward_Function rec f).
Proof. intros Hrec. unfold DetermineConsumersForBackward_Function. bframe. apply Hrec. Qed.

Lemma frame_DetermineConsumersForBackward (fuel : nat) :
  forall var, preserves R (DetermineConsumersForBackward fuel var).
Proof.
  induction fuel as [|fuel IH]; intros var; cbn [DetermineConsumersForBackward]; bframe;
    apply frame_DetermineConsumersForBackward_Function; exact IH.
Qed.

Lemma frame_implant_first_gradient (root : CNTKVariable) :
  preserves R (implant_first_gradient root).
Proof. unfold implant_first_gradient. bframe. Qed.

Lemma frame_backward_pull (fuel : nat) (gradients : list (CNTKVariable * NDArrayViewPtr)) :
  preserves R (backward_pull K fuel gradients).
Proof.
  unfold backward_pull. bframe. apply frame_AggregateGradientFromAllConsumers.
Qed.

End BackwardFrame.

(** ** The backward pass keeps the results of the forward pass *)

#[local] Instance forward_kept_preorder : PreOrder forward_kept.
Proof.
  split.
  - intros s. split; [|split; [|repeat split]].
    + intros v x Hx. exists x. split; [exact Hx | repeat split].
    + intros f F HF. exists F. split; [exact HF | repeat split].
  - intros s1 s2 s3 (HV12 & HF12 & Hdv12 & Hdf12 & Hs12 & Hn12 & Hl12)
                    (HV23 & HF23 & Hdv23 & Hdf23 & Hs23 & Hn23 & Hl23).
    split; [|split; [|repeat split; congruence]].
    + intros v x Hx. destruct (HV12 v x Hx) as (x2 & Hx2 & Hst2 & Hv2 & Hz2).
      destruct (HV23 v x2 Hx2) as (x3 & Hx3 & Hst3 & Hv3 & Hz3).
      exists x3. split; [exact Hx3|]. unfold var_static in *. intuition congruence.
    + intros f F HF. destruct (HF12 f F HF) as (F2 & HF2 & Hst2 & Hk2).
      destruct (HF23 f F2 HF2) as (F3 & HF3 & Hst3 & Hk3).
      exists F3. split; [exact HF3|]. unfold fun_static in *. intuition congruence.
Qed.

Lemma forward_kept_same (s s' : Memoize) :
  vars s' = vars s -> funs s' = funs s -> m_schedule s' = m_schedule s ->
  next_id s' = next_id s -> m_numBatchedLaunches s' = m_numBatchedLaunches s ->
  forward_kept s s'.
Proof.
  intros Hv Hf Hs Hn Hl. unfold forward_kept. rewrite Hv, Hf.
  split; [|split; [|repeat split; assumption]].
  - intros v x Hx. exists x. split; [exact Hx | repeat split].
  - intros f F HF. exists F. split; [exact HF | repeat split].
Qed.

Lemma forward_kept_var (s : Memoize) (v : VarId) (x x' : VariableFields) :
  vars s !! v = Some x -> var_static x x' ->
  m_value x' = m_value x -> m_lazyIndex x' = m_lazyIndex x ->
  forward_kept s (with_vars (<[v := x']> (vars s)) s).
Proof.
  intros Hx Hst Hval Hlazy. split; [|split; [|repeat split]]; cbn.
  - intros w y Hy. destruct (decide (w = v)) as [->|Hne].
    + rewrite Hx in Hy. injection Hy as <-. exists x'. rewrite lookup_insert_eq. auto.
    + exists y. rewrite lookup_insert_ne by congruence. split; [exact Hy | repeat split].
  - intros f F HF. exists F. split; [exact HF | repeat split].
  - apply dom_insert_lookup_L. rewrite Hx. eauto.
Qed.

Lemma forward_kept_fun (s : Memoize) (f : FunId) (F F' : Function) :
  funs s !! f = Some F -> fun_static F F' -> m_link F' = m_link F ->
  forward_kept s (with_funs (<[f := F']> (funs s)) s).
Proof.
  intros HF Hst Hlink. split; [|split; [|repeat split]]; cbn.
  - intros w y Hy. exists y. split; [exact Hy | repeat split].
  - intros g G HG. destruct (decide (g = f)) as [->|Hne].
    + rewrite HF in HG. injection HG as <-. exists F'. rewrite lookup_insert_eq. auto.
    + exists G. rewrite lookup_insert_ne by congruence. split; [exact HG | repeat split].
  - apply dom_insert_lookup_L. rewrite HF. eauto.
Qed.

Lemma backward_phases_forward_kept (K : Collaborators) (fuel : nat) (root : CNTKVariable)
    (gradients : list (CNTKVariable * NDArrayViewPtr)) :
  preserves forward_kept
    (DetermineConsumersForBackward fuel root ;;
     implant_first_gradient root ;;
     backward_pull K fuel gradients).
Proof.
  assert (Ht : forall s th, forward_kept s (with_tensors th s))
    by (intros; apply forward_kept_same; reflexivity).
  assert (Hvis : forall s v x b, vars s !! v = Some x ->
            forward_kept s (with_vars (<[v := set_visited b x]> (vars s)) s))
    by (intros s v x b Hx; eapply forward_kept_var; [exact Hx | repeat split ..]).
  assert (Hgrad : forall s v x g, vars s !! v = Some x ->
            forward_kept s (with_vars (<[v := set_gradient g x]> (vars s)) s))
    by (intros s v x g Hx; eapply forward_kept_var; [exact Hx | repeat split ..]).
  assert (Hadd : forall s v x c, vars s !! v = Some x ->
            forward_kept s (with_vars (<[v := add_consumer c x]> (vars s)) s))
    by (intros s v x c Hx; eapply forward_kept_var; [exact Hx | apply add_consumer_static ..]).
  assert (Hclear : forall s v x, vars s !! v = Some x ->
            forward_kept s (with_vars (<[v := clear_consumers x]> (vars s)) s))
    by (intros s v x Hx; eapply forward_kept_var; [exact Hx | repeat split ..]).
  assert (Hpend : forall s f F n, funs s !! f = Some F ->
            forward_kept s (with_funs (<[f := set_pendingInputs n F]> (funs s)) s))
    by (intros s f F n HF; eapply forward_kept_fun; [exact HF | repeat split ..]).
  assert (Hcreate : forall fuel' v,
            preserves forward_kept (LazilyCreateLazilyIndexedGradient fuel' v))
    by (intros; apply frame_LazilyCreateLazilyIndexedGradient; try typeclasses eauto; auto).
  pres.
  - apply frame_DetermineConsumersForBackward; try typeclasses eauto; auto.
  - apply frame_implant_first_gradient; try typeclasses eauto; auto.
  - apply frame_backward_pull; try typeclasses eauto; auto;
      intros; apply forward_kept_same; reflexivity.
Qed.

(** X21: what Backward does after the forward pass leaves the results of
    the forward pass alone. Whenever Backward returns, the state after its
    call of GetValue and the final state have the same Variables and
    Functions (none is created), with the same values, lazy indices, kinds,
    shapes and owners, the same ops, inputs, outputs, attributes and list
    links, and the same schedule. *)
Theorem Backward_keeps_forward_results (K : Collaborators) (fuel : nat) (root : CNTKVariable)
    (gradients : list (CNTKVariable * NDArrayViewPtr)) (s s' : Memoize)
    (r : list (CNTKVariable * NDArrayViewPtr)) :
  Backward K fuel root gradients s = Ok (r, s') ->
  exists t s1,
    GetValue K fuel root s = Ok (t, s1) /\
    (forall v x, vars s1 !! v = Some x ->
       exists x', vars s' !! v = Some x' /\ m_value x' = m_value x /\
                  m_lazyIndex x' = m_lazyIndex x /\ m_varKind x' = m_varKind x /\
                  m_shape x' = m_shape x /\ m_ownerFunction x' = m_ownerFunction x) /\
    (forall f F, funs s1 !! f = Some F ->
       exists F', funs s' !! f = Some F' /\ m_op F' = m_op F /\ m_inputs F' = m_inputs F /\
                  m_outputs F' = m_outputs F /\ m_attributes F' = m_attributes F /\
                  m_link F' = m_link F) /\
    dom (vars s') = dom (vars s1) /\ dom (funs s') = dom (funs s1) /\
    m_schedule s' = m_schedule s1.
Proof.
  intros Hrun. unfold Backward in Hrun.
  apply bind_inv in Hrun as (rootFields & s0 & Hget & Hrun).
  apply get_var_inv in Hget as [-> _].
  apply bind_inv in Hrun as (t & s1 & Hfwd & Hrun).
  exists t, s1. split; [exact Hfwd|].
  destruct (backward_phases_forward_kept K fuel root gradients s1 r s' Hrun)
    as (HV & HF & Hdv & Hdf & Hs & _).
  split; [|split; [|auto]].
  - intros v x Hx. destruct (HV v x Hx) as (x' & Hx' & (H1 & H2 & _ & _ & H5) & Hv & Hl).
    eauto 10.
  - intros f F HF'. destruct (HF f F HF') as (F' & HF'' & (H1 & H2 & H3 & H4) & Hl).
    eauto 10.
Qed.

Lemma Backward_keeps_forward_results_witness :
  exists r s' t s1,
    Backward ex_kernels 20 (mkVariable 2 None) [(mkVariable 0 None, None)] ex_chain = Ok (r, s') /\
    GetValue ex_kernels 20 (mkVariable 2 None) ex_chain = Ok (t, s1) /\
    (forall v x, vars s1 !! v = Some x ->
       exists x', vars s' !! v = Some x' /\ m_value x' = m_value x /\
                  m_lazyIndex x' = m_lazyIndex x /\ m_varKind x' = m_varKind x /\
                  m_shape x' = m_shape x /\ m_ownerFunction x' = m_ownerFunction x) /\
    (forall f F, funs s1 !! f = Some F ->
       exists F', funs s' !! f = Some F' /\ m_op F' = m_op F /\ m_inputs F' = m_inputs F /\
                  m_outputs F' = m_outputs F /\ m_attributes F' = m_attributes F /\
                  m_link F' = m_link F) /\
    dom (vars s') = dom (vars s1) /\ dom (funs s') = dom (funs s1) /\
    m_schedule s' = m_schedule s1.
Proof.
  destruct (Backward ex_kernels 20 (mkVariable 2 None) [(mkVariable 0 None, None)] ex_chain)
    as [[r s']|e] eqn:Hrun; [|vm_compute in Hrun; discriminate Hrun].
  destruct (Backward_keeps_forward_results ex_kernels 20 (mkVariable 2 None)
              [(mkVariable 0 None, None)] ex_chain s' r Hrun) as (t & s1 & H).
  exists r, s', t, s1. split; [reflexivity | exact H].
Defined.

(** ** The gradients that Backward hands back *)

#[local] Instance gradients_stay_preorder : PreOrder gradients_stay.
Proof.
  split.
  - intros s v x g Hx Hg. eauto.
  - intros s1 s2 s3 H12 H23 v x g Hx Hg.
    destruct (H12 v x g Hx Hg) as (x2 & Hx2 & Hg2). eauto.
Qed.

Lemma gradients_stay_same_vars (s s' : Memoize) : vars s' = vars s -> gradients_stay s s'.
Proof. intros Hv v x g Hx Hg. rewrite Hv. eauto. Qed.

Lemma gradients_stay_var (s : Memoize) (v : VarId) (x x' : VariableFields) :
  vars s !! v = Some x -> (forall g, m_gradient x = Some g -> m_gradient x' = Some g) ->
  gradients_stay s (with_vars (<[v := x']> (vars s)) s).
Proof.
  intros Hx Hkeep w y g Hy Hg. cbn. destruct (decide (w = v)) as [->|Hne].
  - rewrite Hx in Hy. injection Hy as <-. exists x'. rewrite lookup_insert_eq. auto.
  - exists y. rewrite lookup_insert_ne by congruence. auto.
Qed.

Lemma LazilyCreateLazilyIndexedGradient_gradients_stay (fuel : nat) :
  forall v, preserves gradients_stay (LazilyCreateLazilyIndexedGradient fuel v).
Proof.
  induction fuel as [|fuel IH]; intros v s beta s' Hrun; [discriminate Hrun|].
  cbn [LazilyCreateLazilyIndexedGradient] in Hrun.
  apply bind_inv in Hrun as (fields & s0 & Hget & Hrun).
  apply get_var_inv in Hget as [-> Hfields].
  destruct (m_gradient fields) as [g0|] eqn:Hg0.
  { injection Hrun as _ <-. reflexivity. }
  assert (Hfresh : forall (s1 : Memoize) (x1 : VariableFields) (gnew : NDArrayViewPtr),
            gradients_stay s s1 -> vars s1 !! m_dataFields v = Some x1 ->
            gradients_stay s (with_vars (<[m_dataFields v := set_gradient gnew x1]> (vars s1)) s1)).
  { intros s1 x1 gnew Hstay Hx1 w y g Hy Hg.
    assert (w <> m_dataFields v) by (intros ->; congruence).
    destruct (Hstay w y g Hy Hg) as (y' & Hy' & Hg'). exists y'. cbn.
    rewrite lookup_insert_ne by congruence. auto. }
  destruct (fst (m_lazyIndex fields)) as [from|].
  - apply bind_inv in Hrun as (FROM & s0 & Hget & Hrun). apply get_fun_inv in Hget as [-> _].
    destruct (m_outputs FROM !! 0%nat) as [fromOutput|]; [|discriminate Hrun].
    apply bind_inv in Hrun as (beta0 & s1 & Hrec & Hrun). apply IH in Hrec.
    apply bind_inv in Hrun as (fromFields & s0 & Hget & Hrun).
    apply get_var_inv in Hget as [-> _].
    destruct (snd (m_lazyIndex fields) =? SIZE_MAX).
    + apply bind_inv in Hrun as ([] & s2 & Hupd & Hrun). injection Hrun as _ <-.
      apply update_var_inv in Hupd as (x1 & Hx1 & ->). apply Hfresh; assumption.
    + destruct (m_gradient fromFields) as [gr|]; [|discriminate Hrun].
      apply bind_inv in Hrun as (beta' & s2 & Hzero & Hrun).
      assert (Hs2 : vars s2 = vars s1).
      { destruct (Qeq_bool beta0 0).
        - apply bind_inv in Hzero as ([] & s3 & Hz & Hret). injection Hret as _ <-.
          apply on_tensors_inv in Hz as (th & ->). reflexivity.
        - injection Hzero as _ <-. reflexivity. }
      apply bind_inv in Hrun as (t & s3 & Hidx & Hrun). apply on_tensors_inv in Hidx as (th & ->).
      apply bind_inv in Hrun as ([] & s4 & Hupd & Hrun). injection Hrun as _ <-.
      apply update_var_inv in Hupd as (x1 & Hx1 & ->). cbn in Hx1.
      apply (Hfresh (with_tensors th s2) x1 (Some t)); [|exact Hx1].
      transitivity s1; [exact Hrec|]. apply gradients_stay_same_vars. cbn. exact Hs2.
  - destruct (m_value fields) as [val|]; [|discriminate Hrun].
    apply bind_inv in Hrun as (t & s1 & Halloc & Hrun). apply on_tensors_inv in Halloc as (th & ->).
    apply bind_inv in Hrun as ([] & s2 & Hupd & Hrun). injection Hrun as _ <-.
    apply update_var_inv in Hupd as (x1 & Hx1 & ->). cbn in Hx1.
    apply (Hfresh (with_tensors th s) x1 (Some t)); [|exact Hx1].
    apply gradients_stay_same_vars. reflexivity.
Qed.

Lemma AggregateGradientFromAllConsumers_gradients_stay (K : Collaborators) (fuel : nat)
    (var : CNTKVariable) :
  preserves gradients_stay (AggregateGradientFromAllConsumers K fuel var).
Proof.
  apply frame_AggregateGradientFromAllConsumers; try typeclasses eauto.
  - intros s th. apply gradients_stay_same_vars. reflexivity.
  - intros s v x b Hx. eapply gradients_stay_var; [exact Hx | auto].
  - intros s l. apply gradients_stay_same_vars. reflexivity.
  - intros s l. apply gradients_stay_same_vars. reflexivity.
  - apply LazilyCreateLazilyIndexedGradient_gradients_stay.
Qed.

(** the first loop of [backward_pull] touches the requested variables only *)
Lemma pull_implant_frame (l : list (CNTKVariable * NDArrayViewPtr)) :
  forall (s s1 : Memoize),
    for_each (fun kv : CNTKVariable * NDArrayViewPtr =>
                (match snd kv with
                 | Some t => on_tensors (SetValue t 0%Q)
                 | None => ret tt
                 end) ;;
                update_var (m_dataFields (fst kv)) (set_gradient (snd kv)))
             l s = Ok (tt, s1) ->
    forall w, w ∉ map (fun kv => m_dataFields (fst kv)) l -> vars s1 !! w = vars s !! w.
Proof.
  induction l as [|kv l IH]; intros s s1 Hrun w Hw.
  - injection Hrun as <-. reflexivity.
  - cbn [for_each] in Hrun. apply bind_inv in Hrun as ([] & sa & Hstep & Hrun).
    cbn [map] in Hw. apply not_elem_of_cons in Hw as [Hw1 Hw2].
    rewrite (IH _ _ Hrun w Hw2).
    apply bind_inv in Hstep as ([] & sb & Hzero & Hupd).
    apply update_var_inv in Hupd as (x & Hx & ->). cbn.
    rewrite lookup_insert_ne by congruence.
    destruct (snd kv).
    + apply on_tensors_inv in Hzero as (th & ->). reflexivity.
    + injection Hzero as <-. reflexivity.
Qed.

Lemma pull_implant_sets (l : list (CNTKVariable * NDArrayViewPtr)) :
  forall (s s1 : Memoize),
    for_each (fun kv : CNTKVariable * NDArrayViewPtr =>
                (match snd kv with
                 | Some t => on_tensors (SetValue t 0%Q)
                 | None => ret tt
                 end) ;;
                update_var (m_dataFields (fst kv)) (set_gradient (snd kv)))
             l s = Ok (tt, s1) ->
    NoDup (map (fun kv => m_dataFields (fst kv)) l) ->
    forall (i : nat) kv, l !! i = Some kv ->
      exists x, vars s1 !! m_dataFields (fst kv) = Some x /\ m_gradient x = snd kv.
Proof.
  induction l as [|kv0 l IH]; intros s s1 Hrun Hnd i kv Hi; [discriminate Hi|].
  cbn [for_each] in Hrun. apply bind_inv in Hrun as ([] & sa & Hstep & Hrun).
  cbn [map] in Hnd. apply NoDup_cons in Hnd as [Hnotin Hnd].
  destruct i as [|i].
  - injection Hi as <-. rewrite (pull_implant_frame l _ _ Hrun _ Hnotin).
    apply bind_inv in Hstep as ([] & sb & Hzero & Hupd).
    apply update_var_inv in Hupd as (x & Hx & ->). cbn. rewrite lookup_insert_eq.
    eexists. split; reflexivity.
  - cbn in Hi. eapply IH; eauto.
Qed.

Lemma pull_read (l : list (CNTKVariable * NDArrayViewPtr)) :
  forall (s s' : Memoize) (r : list (CNTKVariable * NDArrayViewPtr)),
    mapM (fun kv : CNTKVariable * NDArrayViewPtr =>
            do fields <- get_var (m_dataFields (fst kv));
            ret (fst kv, m_gradient fields)) l s = Ok (r, s') ->
    s' = s /\ map fst r = map fst l /\
    forall (i : nat) kv, l !! i = Some kv ->
      exists x, vars s !! m_dataFields (fst kv) = Some x /\
                r !! i = Some (fst kv, m_gradient x).
Proof.
  induction l as [|kv0 l IH]; intros s s' r Hrun.
  - injection Hrun as <- <-. split; [reflexivity|]. split; [reflexivity|].
    intros i kv Hi. discriminate Hi.
  - cbn [mapM] in Hrun. apply bind_inv in Hrun as (y & sa & Hstep & Hrun).
    apply bind_inv in Hstep as (fields & sb & Hget & Hret).
    apply get_var_inv in Hget as [-> Hfields]. injection Hret as <- <-.
    apply bind_inv in Hrun as (ys & sc & Hrest & Hret). injection Hret as <- <-.
    destruct (IH _ _ _ Hrest) as (-> & Hkeys & Hread).
    split; [reflexivity|]. split; [cbn; f_equal; exact Hkeys|].
    intros [|i] kv Hi.
    + injection Hi as <-. eauto.
    + cbn in Hi. apply Hread. exact Hi.
Qed.

Lemma backward_pull_reuses (K : Collaborators) (fuel : nat)
    (gradients : list (CNTKVariable * NDArrayViewPtr)) (s s' : Memoize)
    (r : list (CNTKVariable * NDArrayViewPtr)) :
  backward_pull K fuel gradients s = Ok (r, s') ->
  NoDup (map (fun kv => m_dataFields (fst kv)) gradients) ->
  map fst r = map fst gradients /\
  forall (i : nat) p g, gradients !! i = Some (p, Some g) -> r !! i = Some (p, Some g).
Proof.
  intros Hrun Hnd. unfold backward_pull in Hrun.
  apply bind_inv in Hrun as ([] & s1 & Hloop1 & Hrun).
  apply bind_inv in Hrun as ([] & s2 & Hloop2 & Hrun).
  apply bind_inv in Hrun as (res & s3 & Hloop3 & Hrun).
  apply bind_inv in Hrun as ([] & s4 & _ & Hret). injection Hret as <- <-.
  destruct (pull_read _ _ _ _ Hloop3) as (-> & Hkeys & Hread).
  split; [exact Hkeys|]. intros i p g Hi.
  destruct (pull_implant_sets _ _ _ Hloop1 Hnd i _ Hi) as (x1 & Hx1 & Hg1). cbn in Hx1, Hg1.
  assert (Hstay : gradients_stay s1 s2).
  { revert Hloop2. match goal with |- ?c s1 = _ -> _ => assert (Hp : preserves gradients_stay c) end.
    { apply preserves_for_each; [typeclasses eauto|]. intros kv.
      apply preserves_bind; [typeclasses eauto | apply preserves_get_var; typeclasses eauto |].
      intros _. apply AggregateGradientFromAllConsumers_gradients_stay. }
    intros Hloop2. exact (Hp _ _ _ Hloop2). }
  destruct (Hstay _ _ _ Hx1 Hg1) as (x2 & Hx2 & Hg2).
  destruct (Hread i _ Hi) as (x & Hx & Hri). cbn in Hx, Hri.
  rewrite Hx2 in Hx. injection Hx as <-. rewrite Hri, Hg2. reflexivity.
Qed.

(** X22: Backward reuses the gradient buffers that the caller passes. When
    Backward returns, the result has the same parameters in the same order
    as the request, and for every parameter that was passed with a buffer
    the result holds this very tensor object: the gradient is accumulated
    into the caller's buffer, which is never replaced by a new tensor. *)
Theorem Backward_reuses_buffers (K : Collaborators) (fuel : nat) (root : CNTKVariable)
    (gradients : list (CNTKVariable * NDArrayViewPtr)) (s s' : Memoize)
    (r : list (CNTKVariable * NDArrayViewPtr)) :
  NoDup (map (fun kv => m_dataFields (fst kv)) gradients) ->
  Backward K fuel root gradients s = Ok (r, s') ->
  map fst r = map fst gradients /\
  forall (i : nat) p g, gradients !! i = Some (p, Some g) -> r !! i = Some (p, Some g).
Proof.
  intros Hnd Hrun. unfold Backward in Hrun.
  apply bind_inv in Hrun as (rootFields & s0 & _ & Hrun).
  apply bind_inv in Hrun as (t & s1 & _ & Hrun).
  apply bind_inv in Hrun as ([] & s2 & _ & Hrun).
  apply bind_inv in Hrun as ([] & s3 & _ & Hrun).
  eapply backward_pull_reuses; eauto.
Qed.

Lemma Backward_reuses_buffers_witness :
  let buffer := mkNDArrayView 77 9 0 [4] DT_Float CPUDevice false in
  let gradients := [(mkVariable 0 None, Some buffer)] in
  exists r s',
    Backward ex_kernels 20 (mkVariable 2 None) gradients ex_chain = Ok (r, s') /\
    map fst r = map fst gradients /\
    forall (i : nat) p g, gradients !! i = Some (p, Some g) -> r !! i = Some (p, Some g).
Proof.
  cbv zeta.
  destruct (Backward ex_kernels 20 (mkVariable 2 None)
              [(mkVariable 0 None, Some (mkNDArrayView 77 9 0 [4] DT_Float CPUDevice false))]
              ex_chain) as [[r s']|e] eqn:Hrun; [|vm_compute in Hrun; discriminate Hrun].
  exists r, s'. split; [reflexivity|].
  apply (Backward_reuses_buffers ex_kernels 20 (mkVariable 2 None) _ ex_chain s' r);
    [apply NoDup_singleton | exact Hrun].
Defined.

Lemma for_each_noop {A : Type} (body : A -> M Memoize unit) (l : list A) (s : Memoize) :
  (forall x, x ∈ l -> body x s = Ok (tt, s)) -> for_each body l s = Ok (tt, s).
Proof.
  induction l as [|x l IH]; intros H; [reflexivity|].
  cbn [for_each]. erewrite bind_ok by (apply H; left). apply IH.
  intros y Hy. apply H. right. exact Hy.
Qed.

Lemma pull_implant_total (l : list (CNTKVariable * NDArrayViewPtr)) :
  forall (s : Memoize),
    (forall kv, kv ∈ l -> is_Some (vars s !! m_dataFields (fst kv))) ->
    exists s1,
      for_each (fun kv : CNTKVariable * NDArrayViewPtr =>
                  (match snd kv with
                   | Some t => on_tensors (SetValue t 0%Q)
                   | None => ret tt
                   end) ;;
                  update_var (m_dataFields (fst kv)) (set_gradient (snd kv)))
               l s = Ok (tt, s1) /\
      forall v x, vars s !! v = Some x ->
        exists x', vars s1 !! v = Some x' /\ m_consumers x' = m_consumers x /\
                   m_visited x' = m_visited x.
Proof.
  induction l as [|kv l IH]; intros s Hlive.
  - exists s. split; [reflexivity|]. eauto.
  - destruct (Hlive kv ltac:(left)) as [x Hx].
    set (s0 := match snd kv with
               | Some t => with_tensors
                   (th_set_contents
                      (fun blk i => if nd_coversb t blk i then Some 0%Q
                                    else th_contents (tensors s) blk i) (tensors s)) s
               | None => s
               end).
    assert (Hzero : (match snd kv with
                     | Some t => on_tensors (SetValue t 0%Q)
                     | None => ret tt
                     end) s = Ok (tt, s0)).
    { subst s0. destruct (snd kv) as [t|]; [|reflexivity].
      apply on_tensors_ok. apply SetValue_ok. }
    assert (Hv0 : vars s0 = vars s) by (subst s0; destruct (snd kv); reflexivity).
    set (sa := with_vars (<[m_dataFields (fst kv) := set_gradient (snd kv) x]> (vars s0)) s0).
    destruct (IH sa) as (s1 & Hrun & Hframe).
    { intros kv' Hkv'. subst sa. cbn. apply lookup_insert_is_Some'. right.
      rewrite Hv0. apply Hlive. right. exact Hkv'. }
    exists s1. split.
    + cbn [for_each]. erewrite bind_ok; [exact Hrun|].
      erewrite bind_ok by exact Hzero. apply update_var_ok. rewrite Hv0. exact Hx.
    + intros v y Hy. subst sa. destruct (decide (v = m_dataFields (fst kv))) as [->|Hne].
      * rewrite Hx in Hy. injection Hy as <-.
        destruct (Hframe (m_dataFields (fst kv)) (set_gradient (snd kv) x)) as (x' & Hx' & Hc & Hvis).
        { cbn. apply lookup_insert_eq. }
        exists x'. split; [exact Hx' | split; assumption].
      * apply Hframe. cbn. rewrite lookup_insert_ne by congruence. rewrite Hv0. exact Hy.
Qed.

Lemma clear_consumers_total (l : list (CNTKVariable * NDArrayViewPtr)) :
  forall (s : Memoize),
    (forall kv, kv ∈ l -> is_Some (vars s !! m_dataFields (fst kv))) ->
    exists s',
      for_each (fun kv : CNTKVariable * NDArrayViewPtr =>
                  update_var (m_dataFields (fst kv)) clear_consumers) l s = Ok (tt, s').
Proof.
  induction l as [|kv l IH]; intros s Hlive.
  - exists s. reflexivity.
  - destruct (Hlive kv ltac:(left)) as [x Hx].
    destruct (IH (with_vars (<[m_dataFields (fst kv) := clear_consumers x]> (vars s)) s))
      as (s' & Hrun).
    { intros kv' Hkv'. cbn. apply lookup_insert_is_Some'. right. apply Hlive. right. exact Hkv'. }
    exists s'. cbn [for_each]. erewrite bind_ok by (apply update_var_ok; exact Hx). exact Hrun.
Qed.

Lemma pull_read_total (l : list (CNTKVariable * NDArrayViewPtr)) (s : Memoize) :
  (forall kv, kv ∈ l ->
     exists x, vars s !! m_dataFields (fst kv) = Some x /\ m_gradient x = snd kv) ->
  mapM (fun kv : CNTKVariable * NDArrayViewPtr =>
          do fields <- get_var (m_dataFields (fst kv));
          ret (fst kv, m_gradient fields)) l s = Ok (l, s).
Proof.
  induction l as [|kv l IH]; intros H; [reflexivity|].
  cbn [mapM]. destruct (H kv ltac:(left)) as (x & Hx & Hg).
  erewrite bind_ok.
  2:{ erewrite bind_ok by (unfold get_var; rewrite Hx; reflexivity). reflexivity. }
  erewrite bind_ok by (apply IH; intros kv' Hkv'; apply H; right; exact Hkv').
  rewrite Hg. destruct kv. reflexivity.
Qed.

(** X23: a requested gradient that the root does not reach is not an error.
    The statement [logic_error("Backward: a requested gradient is not part
    of root.")] constructs an exception without throwing it. So, when the
    gradients are pulled and none of the requested parameters has a
    consumer entry, the pull succeeds and hands back the request as it was:
    each parameter with the buffer the caller passed, or with a null
    gradient if none was passed. *)
Theorem backward_pull_unreached (K : Collaborators) (fuel : nat)
    (gradients : list (CNTKVariable * NDArrayViewPtr)) (s : Memoize) :
  NoDup (map (fun kv => m_dataFields (fst kv)) gradients) ->
  (forall kv, kv ∈ gradients ->
     exists x, vars s !! m_dataFields (fst kv) = Some x /\ fst (fst (m_consumers x)) = None) ->
  exists s', backward_pull K (S fuel) gradients s = Ok (gradients, s').
Proof.
  intros Hnd Hunreached.
  destruct (pull_implant_total gradients s) as (s1 & Hloop1 & Hframe).
  { intros kv Hkv. destruct (Hunreached kv Hkv) as (x & Hx & _). eauto. }
  assert (Hloop2 : for_each (fun kv : CNTKVariable * NDArrayViewPtr =>
                               do fields <- get_var (m_dataFields (fst kv));
                               AggregateGradientFromAllConsumers K (S fuel) (fst kv))
                            gradients s1 = Ok (tt, s1)).
  { apply for_each_noop. intros kv Hkv.
    destruct (Hunreached kv Hkv) as (x & Hx & Hc).
    destruct (Hframe _ _ Hx) as (x' & Hx' & Hc' & _).
    erewrite bind_ok by (unfold get_var; rewrite Hx'; reflexivity).
    cbn [AggregateGradientFromAllConsumers].
    erewrite bind_ok by (unfold get_var; rewrite Hx'; reflexivity).
    destruct (m_visited x'); [reflexivity|]. rewrite Hc', Hc. reflexivity. }
  assert (Hloop3 : mapM (fun kv : CNTKVariable * NDArrayViewPtr =>
                           do fields <- get_var (m_dataFields (fst kv));
                           ret (fst kv, m_gradient fields)) gradients s1 = Ok (gradients, s1)).
  { apply pull_read_total. intros kv Hkv. apply list_elem_of_lookup in Hkv as [i Hi].
    exact (pull_implant_sets _ _ _ Hloop1 Hnd i kv Hi). }
  destruct (clear_consumers_total gradients s1) as (s' & Hloop4).
  { intros kv Hkv. destruct (Hunreached kv Hkv) as (x & Hx & _).
    destruct (Hframe _ _ Hx) as (x' & Hx' & _). eauto. }
  exists s'. unfold backward_pull.
  erewrite bind_ok by exact Hloop1. erewrite bind_ok by exact Hloop2.
  erewrite bind_ok by exact Hloop3. erewrite bind_ok by exact Hloop4. reflexivity.
Qed.

Lemma backward_pull_unreached_witness :
  exists s',
    backward_pull ex_kernels 1 [(mkVariable 0 None, None)] ex_chain_valued
      = Ok ([(mkVariable 0 None, None)], s').
Proof.
  apply (backward_pull_unreached ex_kernels 0 [(mkVariable 0 None, None)] ex_chain_valued).
  - apply NoDup_singleton.
  - intros kv Hkv. apply list_elem_of_singleton in Hkv as ->.
    eexists. split; [vm_compute; reflexivity | reflexivity].
Defined.

(** ** A batch goes from ready to idle *)

#[local] Instance only_resets_preorder : PreOrder only_resets.
Proof.
  split.
  - intros s Hf. split; [exact Hf|]. intros f F HF. exists F. auto.
  - intros s1 s2 s3 H12 H23 Hf. destruct (H12 Hf) as (Hf2 & HF12).
    destruct (H23 Hf2) as (Hf3 & HF23). split; [exact Hf3|].
    intros f F HF. destruct (HF12 f F HF) as (F2 & HF2 & Hl2 & Hp2).
    destruct (HF23 f F2 HF2) as (F3 & HF3 & Hl3 & Hp3).
    exists F3. split; [exact HF3|]. split; [congruence|]. lia.
Qed.

#[local] Instance only_counts_down_preorder : PreOrder only_counts_down.
Proof.
  split.
  - intros s f F HF. exists F. auto.
  - intros s1 s2 s3 H12 H23 f F HF. destruct (H12 f F HF) as (F2 & HF2 & Hp2).
    destruct (H23 f F2 HF2) as (F3 & HF3 & Hp3). exists F3. split; [exact HF3|].
    intros Hle. rewrite Hp3; [apply Hp2, Hle | rewrite Hp2; assumption].
Qed.

Lemma only_resets_same_funs (s s' : Memoize) :
  funs s' = funs s -> dom (vars s') = dom (vars s) -> next_id s' = next_id s ->
  only_resets s s'.
Proof.
  intros Hf Hd Hn [Hff Hfv]. split.
  - split; [rewrite Hf, Hn; exact Hff|]. intros v Hv. rewrite Hn. apply Hfv.
    apply elem_of_dom. rewrite <- Hd. apply elem_of_dom. exact Hv.
  - intros f F HF. exists F. rewrite Hf. auto.
Qed.

Lemma only_resets_var (s : Memoize) (v : VarId) (x x' : VariableFields) :
  vars s !! v = Some x -> only_resets s (with_vars (<[v := x']> (vars s)) s).
Proof.
  intros Hx. apply only_resets_same_funs; [reflexivity | | reflexivity].
  cbn. apply dom_insert_lookup_L. rewrite Hx. eauto.
Qed.

Lemma only_resets_new_function (op : PrimitiveOpType) (inputs : list CNTKVariable)
    (outputShape : NDShape) (attributes : Dictionary) :
  preserves only_resets (RawPrimitiveFunction op inputs outputShape attributes).
Proof.
  intros s f s' H. unfold RawPrimitiveFunction in H.
  apply bind_inv in H as (s0 & s1 & Hget & H). injection Hget as <- <-.
  apply bind_inv in H as ([] & s2 & Hput & H). injection Hput as <-. injection H as _ <-.
  intros [Hff Hfv]. split; [split|]; cbn.
  - intros g Hg. apply lookup_insert_is_Some in Hg as [<- | [_ Hg]]; [lia|].
    specialize (Hff g Hg). lia.
  - intros w Hw. apply lookup_insert_is_Some in Hw as [<- | [_ Hw]]; [lia|].
    specialize (Hfv w Hw). lia.
  - intros g G HG. exists G. split; [|auto].
    rewrite lookup_insert_ne; [exact HG|].
    intros <-. assert (next_id s < next_id s)%nat by (apply Hff; rewrite HG; eauto). lia.
Qed.

Lemma ResetPendingToIdle_inv (f : FunId) (s s' : Memoize) :
  ResetPendingToIdle f s = Ok (tt, s') ->
  exists F, funs s !! f = Some F /\ m_pendingInputs F = 0 /\
            s' = with_funs (<[f := set_pendingInputs (-1) F]> (funs s)) s.
Proof.
  intros H. unfold ResetPendingToIdle in H.
  apply bind_inv in H as (F & s0 & Hget & H). apply get_fun_inv in Hget as [-> HF].
  destruct (bool_decide (m_pendingInputs F <> 0)) eqn:E; [discriminate H|].
  apply bool_decide_eq_false in E. apply update_fun_inv in H as (F' & HF' & ->).
  rewrite HF in HF'. injection HF' as <-. exists F. split; [exact HF|]. split; [lia | reflexivity].
Qed.

Lemma only_resets_reset (f : FunId) : preserves only_resets (ResetPendingToIdle f).
Proof.
  intros s [] s' H. apply ResetPendingToIdle_inv in H as (F & HF & Hp & ->).
  intros [Hff Hfv]. split; [split|]; cbn.
  - intros g Hg. apply lookup_insert_is_Some in Hg as [<- | [_ Hg]]; [|auto].
    apply Hff. rewrite HF. eauto.
  - exact Hfv.
  - intros g G HG. destruct (decide (g = f)) as [->|Hne].
    + rewrite HF in HG. injection HG as <-. eexists. rewrite lookup_insert_eq.
      split; [reflexivity|]. split; [reflexivity|]. right. auto.
    + exists G. rewrite lookup_insert_ne by congruence. auto.
Qed.

Lemma fold_chain_visits {A : Type} (R : Memoize -> Memoize -> Prop) `{!PreOrder R}
    (I : Memoize -> Prop) (Q P : FunId -> Memoize -> Prop)
    (body : A -> FunId -> M Memoize A) :
  (forall acc f, preserves R (body acc f)) ->
  (forall s s', I s -> R s s' -> I s') ->
  (forall s s', I s -> R s s' -> forall f F, funs s !! f = Some F ->
      exists F', funs s' !! f = Some F' /\ m_link F' = m_link F) ->
  (forall acc f s acc' s', body acc f s = Ok (acc', s') -> Q f s /\ P f s') ->
  (forall f s s', I s -> R s s' -> is_Some (funs s !! f) -> Q f s' -> Q f s) ->
  (forall f s s', I s -> R s s' -> P f s -> P f s') ->
  forall (l : list FunId) (h : option FunId) (s : Memoize),
    I s -> is_chain (funs s) h l ->
    forall (fuel : nat) acc r s',
      fold_chain fuel body acc h s = Ok (r, s') ->
      R s s' /\ forall f, f ∈ l -> Q f s /\ P f s'.
Proof.
  intros Hbody HI Hlink Hpost HQ HP.
  induction l as [|f l IH]; intros h s Hinv Hchain fuel acc r s' Hrun.
  - inversion Hchain; subst. destruct fuel; injection Hrun as _ <-;
      (split; [reflexivity | intros f Hf; inversion Hf]).
  - inversion Hchain as [|f0 F l0 HF Hrest]; subst.
    destruct fuel as [|fuel]; [discriminate Hrun|]. cbn [fold_chain] in Hrun.
    apply bind_inv in Hrun as (acc1 & s1 & Hstep & Hrun).
    apply bind_inv in Hrun as (F1 & s1' & Hget & Hrun).
    apply get_fun_inv in Hget as [-> HF1].
    pose proof (Hbody _ _ _ _ _ Hstep) as HR1.
    destruct (Hlink s s1 Hinv HR1 f F HF) as (F1' & HF1' & Hl1).
    rewrite HF1 in HF1'. injection HF1' as <-.
    assert (Hchain1 : is_chain (funs s1) (m_link F1) l).
    { rewrite Hl1. eapply is_chain_frame; [exact Hrest|].
      intros g G _ HG. exact (Hlink s s1 Hinv HR1 g G HG). }
    destruct (IH (m_link F1) s1 (HI _ _ Hinv HR1) Hchain1 fuel acc1 r s' Hrun) as (HR2 & Hall).
    split; [transitivity s1; assumption|].
    destruct (Hpost _ _ _ _ _ Hstep) as (HQf & HPf).
    intros g Hg. apply elem_of_cons in Hg as [-> | Hg].
    + split; [exact HQf|]. eapply HP; [| exact HR2 | exact HPf]. eauto.
    + destruct (Hall g Hg) as (HQg & HPg). split; [|exact HPg].
      eapply HQ; [exact Hinv | exact HR1 | | exact HQg].
      eapply is_chain_lookup; [exact Hchain | right; exact Hg].
Qed.

(** from a run of a computation that preserves [R], the relation between
    its states *)
Ltac pres_of H R tac :=
  lazymatch type of H with
  | ?c ?s = Ok (_, ?s') =>
      let HR := fresh "HR" in
      assert (HR : R s s') by (refine ((_ : preserves R c) _ _ _ H); tac)
  end.

Lemma only_resets_tensors (s : Memoize) (th : TensorHeap) : only_resets s (with_tensors th s).
Proof. apply only_resets_same_funs; reflexivity. Qed.

Lemma only_resets_Memoize (K : Collaborators) (fuel : nat) (f : FunId) (isFree : bool) :
  preserves only_resets (MemoizeKnowableValueInArena K fuel f isFree).
Proof.
  apply frame_MemoizeKnowableValueInArena; try typeclasses eauto.
  - apply only_resets_tensors.
  - intros s v x t Hx. eapply only_resets_var. exact Hx.
Qed.

Lemma only_resets_batch_input (K : Collaborators) (fuel : nat) (ops : FList) (F0 : Function)
    (maxRank i : nat) :
  preserves only_resets (batch_input K fuel ops F0 maxRank i).
Proof.
  apply frame_batch_input; try typeclasses eauto.
  - apply only_resets_tensors.
  - intros s v x t Hx. eapply only_resets_var. exact Hx.
  - apply only_resets_new_function.
Qed.

Lemma pending_idle_stable (f : FunId) (s s' : Memoize) :
  ids_fresh s -> only_resets s s' ->
  (exists F, funs s !! f = Some F /\ m_pendingInputs F = -1) ->
  exists F, funs s' !! f = Some F /\ m_pendingInputs F = -1.
Proof.
  intros Hf HR (F & HF & Hp). destruct (HR Hf) as (_ & HFs).
  destruct (HFs f F HF) as (F' & HF' & _ & Hp'). exists F'. split; [exact HF' | lia].
Qed.

Lemma pending_ready_back (f : FunId) (s s' : Memoize) :
  ids_fresh s -> only_resets s s' -> is_Some (funs s !! f) ->
  (exists F, funs s' !! f = Some F /\ m_pendingInputs F = 0) ->
  exists F, funs s !! f = Some F /\ m_pendingInputs F = 0.
Proof.
  intros Hf HR [F HF] (F' & HF' & Hp). destruct (HR Hf) as (_ & HFs).
  destruct (HFs f F HF) as (F'' & HF'' & _ & Hp'). rewrite HF' in HF''. injection HF'' as <-.
  exists F. split; [exact HF | lia].
Qed.

Lemma only_resets_links (s s' : Memoize) :
  ids_fresh s -> only_resets s s' ->
  forall f F, funs s !! f = Some F -> exists F', funs s' !! f = Some F' /\ m_link F' = m_link F.
Proof.
  intros Hf HR f F HF. destruct (HR Hf) as (_ & HFs).
  destruct (HFs f F HF) as (F' & HF' & Hl & _). eauto.
Qed.

Lemma execute_naively_resets (K : Collaborators) (fuel : nat) (ops : FList) (isFree : bool)
    (l : list FunId) (s s' : Memoize) :
  ids_fresh s -> is_chain (funs s) (L.head ops) l ->
  execute_naively K fuel ops isFree s = Ok (tt, s') ->
  only_resets s s' /\
  forall f, f ∈ l ->
    (exists F, funs s !! f = Some F /\ m_pendingInputs F = 0) /\
    (exists F, funs s' !! f = Some F /\ m_pendingInputs F = -1).
Proof.
  intros Hfresh Hchain Hrun. unfold execute_naively, for_chain in Hrun.
  eapply (fold_chain_visits only_resets ids_fresh
            (fun f s => exists F, funs s !! f = Some F /\ m_pendingInputs F = 0)
            (fun f s => exists F, funs s !! f = Some F /\ m_pendingInputs F = -1));
    [ | | | | | | exact Hfresh | exact Hchain | exact Hrun].
  - intros acc f. apply preserves_bind; [typeclasses eauto | apply only_resets_Memoize |].
    intros _. apply only_resets_reset.
  - intros s0 s1 Hf HR. apply HR, Hf.
  - apply only_resets_links.
  - intros [] f s0 [] s1 Hstep.
    apply bind_inv in Hstep as (o & s2 & Hmemo & Hreset).
    apply MemoizeKnowableValueInArena_funs in Hmemo.
    apply ResetPendingToIdle_inv in Hreset as (F & HF & Hp & ->).
    split.
    + exists F. rewrite <- Hmemo. auto.
    + eexists. cbn. rewrite lookup_insert_eq. split; reflexivity.
  - intros f s0 s1. apply pending_ready_back.
  - intros f s0 s1. apply pending_idle_stable.
Qed.

Lemma implant_chain_resets (batchedOp : FunId) (fuel : nat) (h : option FunId) (j j' : Z)
    (l : list FunId) (s s' : Memoize) :
  ids_fresh s -> is_chain (funs s) h l ->
  fold_chain fuel (implant_step batchedOp) j h s = Ok (j', s') ->
  only_resets s s' /\
  forall f, f ∈ l ->
    (exists F, funs s !! f = Some F /\ m_pendingInputs F = 0) /\
    (exists F, funs s' !! f = Some F /\ m_pendingInputs F = -1).
Proof.
  intros Hfresh Hchain Hrun.
  eapply (fold_chain_visits only_resets ids_fresh
            (fun f s => exists F, funs s !! f = Some F /\ m_pendingInputs F = 0)
            (fun f s => exists F, funs s !! f = Some F /\ m_pendingInputs F = -1));
    [ | | | | | | exact Hfresh | exact Hchain | exact Hrun].
  - intros acc f. apply frame_implant_step; try typeclasses eauto.
    + intros s0 v x i Hx. eapply only_resets_var. exact Hx.
    + apply only_resets_reset.
  - intros s0 s1 Hf HR. apply HR, Hf.
  - apply only_resets_links.
  - intros acc f s0 acc' s1 Hstep. unfold implant_step in Hstep.
    apply bind_inv in Hstep as (OP & s2 & Hget & Hstep). apply get_fun_inv in Hget as [-> HOP].
    destruct (m_outputs OP !! 0%nat) as [out|]; [|discriminate Hstep].
    apply bind_inv in Hstep as ([] & s2 & Hupd & Hstep).
    apply update_var_inv in Hupd as (x & Hx & ->).
    apply bind_inv in Hstep as ([] & s3 & Hreset & Hret). injection Hret as _ <-.
    apply ResetPendingToIdle_inv in Hreset as (F & HF & Hp & ->).
    split.
    + exists F. auto.
    + eexists. cbn. rewrite lookup_insert_eq. split; reflexivity.
  - intros f s0 s1. apply pending_ready_back.
  - intros f s0 s1. apply pending_idle_stable.
Qed.

Lemma execute_batched_resets (K : Collaborators) (fuel : nat) (ops : FList) (F0 : Function)
    (l : list FunId) (s s' : Memoize) (b : FunId) :
  ids_fresh s -> is_chain (funs s) (L.head ops) l ->
  execute_batched K fuel ops F0 s = Ok (b, s') ->
  only_resets s s' /\
  forall f, f ∈ l ->
    (exists F, funs s !! f = Some F /\ m_pendingInputs F = 0) /\
    (exists F, funs s' !! f = Some F /\ m_pendingInputs F = -1).
Proof.
  intros Hfresh Hchain Hrun. unfold execute_batched in Hrun.
  apply bind_inv in Hrun as (maxRank & s1 & H1 & Hrun).
  pres_of H1 only_resets ltac:(pres).
  apply bind_inv in Hrun as (first & s2 & H2 & Hrun).
  pres_of H2 only_resets ltac:(pres).
  apply bind_inv in Hrun as ([inputs any] & s3 & H3 & Hrun).
  pres_of H3 only_resets ltac:(pres; apply only_resets_batch_input).
  destruct (m_outputs F0 !! 0%nat) as [out0|]; [|discriminate Hrun].
  apply bind_inv in Hrun as (sh & s4 & H4 & Hrun).
  pres_of H4 only_resets ltac:(pres).
  apply bind_inv in Hrun as (batchedOp & s5 & H5 & Hrun).
  pres_of H5 only_resets ltac:(pres; apply only_resets_new_function).
  apply bind_inv in Hrun as (o & s6 & H6 & Hrun).
  pres_of H6 only_resets ltac:(apply only_resets_Memoize).
  apply bind_inv in Hrun as (j & s7 & H7 & Hret). injection Hret as _ <-.
  assert (Hpre : only_resets s s6).
  { repeat (etransitivity; [eassumption|]). reflexivity. }
  destruct (Hpre Hfresh) as (Hfresh6 & _).
  assert (Hchain6 : is_chain (funs s6) (L.head ops) l).
  { eapply is_chain_frame; [exact Hchain|]. intros g G _ HG.
    exact (only_resets_links s s6 Hfresh Hpre g G HG). }
  destruct (implant_chain_resets batchedOp fuel _ _ _ l s6 s7 Hfresh6 Hchain6 H7) as (HR7 & Hall).
  split; [transitivity s6; assumption|].
  intros f Hf. destruct (Hall f Hf) as (HQ & HP). split; [|exact HP].
  eapply pending_ready_back; [exact Hfresh | exact Hpre | | exact HQ].
  eapply is_chain_lookup; eauto.
Qed.

Lemma only_counts_down_same_funs (s s' : Memoize) : funs s' = funs s -> only_counts_down s s'.
Proof. intros Hf f F HF. exists F. rewrite Hf. auto. Qed.

Lemma only_counts_down_Schedule (f : FunId) : preserves only_counts_down (Schedule f).
Proof.
  apply frame_Schedule; try typeclasses eauto.
  - intros s r. apply only_counts_down_same_funs. reflexivity.
  - intros s g G x HG h H HH. cbn. destruct (decide (h = g)) as [->|Hne].
    + rewrite HG in HH. injection HH as <-. eexists. rewrite lookup_insert_eq.
      split; [reflexivity|]. auto.
    + exists H. rewrite lookup_insert_ne by congruence. auto.
Qed.

Lemma only_counts_down_notify (f : FunId) : preserves only_counts_down (NotifyInputAvailable f).
Proof.
  intros s [] s' H. unfold NotifyInputAvailable in H.
  apply bind_inv in H as (F & s0 & Hget & H). apply get_fun_inv in Hget as [-> HF].
  destruct (m_pendingInputs F <=? 0) eqn:E; [discriminate H|]. apply Z.leb_gt in E.
  apply bind_inv in H as ([] & s1 & Hupd & H). apply update_fun_inv in Hupd as (F' & HF' & ->).
  rewrite HF in HF'. injection HF' as <-.
  transitivity (with_funs (<[f := set_pendingInputs (m_pendingInputs F - 1) F]> (funs s)) s).
  - intros g G HG. cbn. destruct (decide (g = f)) as [->|Hne].
    + rewrite HF in HG. injection HG as <-. eexists. rewrite lookup_insert_eq.
      split; [reflexivity|]. intros Hle. lia.
    + exists G. rewrite lookup_insert_ne by congruence. auto.
  - destruct (m_pendingInputs F - 1 =? 0).
    + eapply only_counts_down_Schedule. exact H.
    + injection H as <-. reflexivity.
Qed.

Lemma only_counts_down_notify_consumers (fuel : nat) (ops : FList) :
  preserves only_counts_down (notify_consumers fuel ops).
Proof.
  unfold notify_consumers. pres; try apply only_counts_down_notify.
  papply @preserves_update_var. intros s0 v0 x0 Hx0. apply only_counts_down_same_funs. reflexivity.
Qed.

(** X24: "all ops passed to this function must get their m_pendingInputs
    changed from 0 to -1". Whenever ExecuteBatchedOpAndUpdateSchedule
    returns, every Function on the list it was given was ready
    ([m_pendingInputs] 0) before the call and is idle ([m_pendingInputs]
    -1) after it, in the naive and in the batched mode alike. *)
Theorem ExecuteBatchedOp_resets_batch (K : Collaborators) (fuel : nat) (ops : FList)
    (l : list FunId) (s s' : Memoize) :
  ids_fresh s -> is_chain (funs s) (L.head ops) l ->
  ExecuteBatchedOpAndUpdateSchedule K fuel ops s = Ok (tt, s') ->
  forall f, f ∈ l ->
    (exists F, funs s !! f = Some F /\ m_pendingInputs F = 0) /\
    (exists F, funs s' !! f = Some F /\ m_pendingInputs F = -1).
Proof.
  intros Hfresh Hchain Hrun f Hf. unfold ExecuteBatchedOpAndUpdateSchedule in Hrun.
  destruct (L.front ops) as [f0|]; [|discriminate Hrun].
  apply bind_inv in Hrun as (F0 & s0 & Hget & Hrun). apply get_fun_inv in Hget as [-> HF0].
  apply bind_inv in Hrun as ([] & s1 & Hcount & Hrun).
  assert (Hs1 : funs s1 = funs s /\ vars s1 = vars s /\ next_id s1 = next_id s).
  { destruct (IsViewOp (m_op F0)); injection Hcount as <-; auto. }
  destruct Hs1 as (Hf1 & Hv1 & Hn1).
  assert (Hfresh1 : ids_fresh s1) by (unfold ids_fresh; rewrite Hf1, Hv1, Hn1; exact Hfresh).
  apply bind_inv in Hrun as (naive & s1' & Hread & Hrun).
  assert (s1' = s1) as ->.
  { unfold read in Hread. destruct (doNaively s1 F0 (L.size ops)); [|discriminate Hread].
    injection Hread as _ <-. reflexivity. }
  apply bind_inv in Hrun as ([] & s2 & Hexec & Hnotify).
  assert (Hphase1 : forall g, g ∈ l ->
            (exists F, funs s1 !! g = Some F /\ m_pendingInputs F = 0) /\
            (exists F, funs s2 !! g = Some F /\ m_pendingInputs F = -1)).
  { rewrite <- Hf1 in Hchain. destruct naive.
    - eapply execute_naively_resets; eauto.
    - apply bind_inv in Hexec as (b & s3 & Hexec & Hret). injection Hret as <-.
      eapply execute_batched_resets; eauto. }
  destruct (Hphase1 f Hf) as (Hbefore & (F2 & HF2 & Hp2)).
  split; [rewrite <- Hf1; exact Hbefore|].
  destruct (only_counts_down_notify_consumers fuel ops _ _ _ Hnotify f F2 HF2) as (F' & HF' & Hp').
  exists F'. split; [exact HF'|]. rewrite Hp' by lia. exact Hp2.
Qed.

Lemma ExecuteBatchedOp_resets_batch_witness :
  exists s',
    ExecuteBatchedOpAndUpdateSchedule ex_kernels 5 (L.mk (Some 10%nat) 1) ex_chain_ready
      = Ok (tt, s') /\
    forall f, f ∈ [10%nat] ->
      (exists F, funs ex_chain_ready !! f = Some F /\ m_pendingInputs F = 0) /\
      (exists F, funs s' !! f = Some F /\ m_pendingInputs F = -1).
Proof.
  destruct (ExecuteBatchedOpAndUpdateSchedule ex_kernels 5 (L.mk (Some 10%nat) 1) ex_chain_ready)
    as [[[] s']|e] eqn:Hrun; [|vm_compute in Hrun; discriminate Hrun].
  exists s'. split; [reflexivity|].
  apply (ExecuteBatchedOp_resets_batch ex_kernels 5 (L.mk (Some 10%nat) 1) [10%nat]
           ex_chain_ready s').
  - apply ids_freshb_spec. vm_compute. reflexivity.
  - econstructor; [vm_compute; reflexivity|]. cbn. constructor.
  - exact Hrun.
Defined.

(** ** Forward, then backward *)

(** X25: BatchedBackward after BatchedForward does not compute the forward
    pass again. If BatchedForward returned on the Function f, a
    BatchedBackward on f that returns has launched no batched op (the
    counter of its engine is still 0), has left the schedule of its engine
    empty, has created no Variable and no Function, and has left every
    value and every lazy index as the forward pass computed them. *)
Theorem BatchedBackward_after_forward (K : Collaborators) (fuel fuel' : nat) (f : FunId)
    (gradients : list (CNTKVariable * NDArrayViewPtr)) (s s1 s2 : Memoize)
    (r : NDArrayViewPtr) (g : list (CNTKVariable * NDArrayViewPtr)) :
  ids_fresh s ->
  BatchedForward K fuel f s = Ok (r, s1) ->
  BatchedBackward K fuel' f gradients s1 = Ok (g, s2) ->
  m_numBatchedLaunches s2 = 0 /\ m_schedule s2 = ReadyOps_new /\
  dom (vars s2) = dom (vars s1) /\ dom (funs s2) = dom (funs s1) /\
  forall v x, vars s1 !! v = Some x ->
    exists x', vars s2 !! v = Some x' /\ m_value x' = m_value x /\
               m_lazyIndex x' = m_lazyIndex x.
Proof.
  intros Hfresh Hfwd Hbwd. unfold BatchedForward in Hfwd.
  apply bind_inv in Hfwd as ([] & s0 & Hnew & Hfwd). injection Hnew as <-.
  apply bind_inv in Hfwd as (F & s0 & Hget & Hfwd). apply get_fun_inv in Hget as [-> HF].
  destruct (m_outputs F !! 0%nat) as [out|] eqn:Hout; [|discriminate Hfwd].
  destruct (GetValue_returns_value _ _ _ _ _ _ Hfwd) as (t & x & -> & Hx & Hval).
  destruct (GetValue_graph_augmented K fuel out _ _ _ Hfwd (ids_fresh_Memoize_new s Hfresh))
    as (_ & _ & HFk & _).
  destruct (HFk f F HF) as (F' & HF' & _ & _ & Houts & _).
  unfold BatchedBackward in Hbwd.
  apply bind_inv in Hbwd as ([] & s0 & Hnew & Hbwd). injection Hnew as <-.
  apply bind_inv in Hbwd as (F'' & s0 & Hget & Hbwd). apply get_fun_inv in Hget as [-> HF''].
  cbn in HF''. rewrite HF' in HF''. injection HF'' as <-.
  rewrite Houts, Hout in Hbwd. unfold Backward in Hbwd.
  apply bind_inv in Hbwd as (rootFields & s0 & Hget & Hbwd). apply get_var_inv in Hget as [-> _].
  apply bind_inv in Hbwd as (t' & s3 & Hagain & Hbwd).
  rewrite (GetValue_value_present K fuel' out (Memoize_new s1) x t Hx Hval) in Hagain.
  injection Hagain as _ <-.
  destruct (backward_phases_forward_kept K fuel' out gradients _ g s2 Hbwd)
    as (HV & _ & Hdv & Hdf & Hs & _ & Hl).
  cbn in Hs, Hl, Hdv, Hdf. repeat split; try assumption.
  intros v y Hy. destruct (HV v y Hy) as (y' & Hy' & _ & Hv & Hli). eauto.
Qed.

Lemma BatchedBackward_after_forward_witness :
  exists r s1 g s2,
    BatchedForward ex_kernels 20 11 ex_chain = Ok (r, s1) /\
    BatchedBackward ex_kernels 20 11 [(mkVariable 0 None, None)] s1 = Ok (g, s2) /\
    m_numBatchedLaunches s2 = 0 /\ m_schedule s2 = ReadyOps_new /\
    dom (vars s2) = dom (vars s1) /\ dom (funs s2) = dom (funs s1) /\
    forall v x, vars s1 !! v = Some x ->
      exists x', vars s2 !! v = Some x' /\ m_value x' = m_value x /\
                 m_lazyIndex x' = m_lazyIndex x.
Proof.
  destruct (BatchedForward ex_kernels 20 11 ex_chain) as [[r s1]|e] eqn:Hfwd;
    [|vm_compute in Hfwd; discriminate Hfwd].
  destruct (BatchedBackward ex_kernels 20 11 [(mkVariable 0 None, None)] s1)
    as [[g s2]|e] eqn:Hbwd.
  - exists r, s1, g, s2. split; [reflexivity|]. split; [exact Hbwd|].
    exact (BatchedBackward_after_forward ex_kernels 20 20 11 [(mkVariable 0 None, None)]
             ex_chain s1 s2 r g
             ltac:(apply ids_freshb_spec; vm_compute; reflexivity) Hfwd Hbwd).
  - exfalso. vm_compute in Hfwd. injection Hfwd as _ <-.
    vm_compute in Hbwd. discriminate Hbwd.
Defined.

(** ** The two modes of a batch execution *)

#[local] Instance same_objects_preorder : PreOrder same_objects.
Proof.
  split.
  - intros s. repeat split.
  - intros s1 s2 s3 (H1 & H2 & H3) (H4 & H5 & H6). repeat split; congruence.
Qed.









(** *** The naive mode is the sequence of the individual executions *)



(** *** What building the batched inputs keeps *)

#[local] Instance lazy_kept_preorder : PreOrder lazy_kept.
Proof.
  split.
  - intros s Hf. split; [exact Hf|]. intros v x Hx. eauto.
  - intros s1 s2 s3 H12 H23 Hf. destruct (H12 Hf) as (Hf2 & HV12).
    destruct (H23 Hf2) as (Hf3 & HV23). split; [exact Hf3|].
    intros v x Hx. destruct (HV12 v x Hx) as (x2 & Hx2 & Hl2).
    destruct (HV23 v x2 Hx2) as (x3 & Hx3 & Hl3). exists x3. split; [exact Hx3 | congruence].
Qed.

Lemma lazy_kept_same (s s' : Memoize) :
  vars s' = vars s -> funs s' = funs s -> next_id s' = next_id s -> lazy_kept s s'.
Proof.
  intros Hv Hf Hn Hfresh. unfold ids_fresh. rewrite Hv, Hf, Hn. split; [exact Hfresh|].
  intros v x Hx. eauto.
Qed.

Lemma lazy_kept_var (s : Memoize) (v : VarId) (x x' : VariableFields) :
  vars s !! v = Some x -> m_lazyIndex x' = m_lazyIndex x ->
  lazy_kept s (with_vars (<[v := x']> (vars s)) s).
Proof.
  intros Hx Hl [Hff Hfv]. split; [split|]; cbn.
  - exact Hff.
  - intros w Hw. apply lookup_insert_is_Some in Hw as [<- | [_ Hw]]; [|auto].
    apply Hfv. rewrite Hx. eauto.
  - intros w y Hy. destruct (decide (w = v)) as [->|Hne].
    + rewrite Hx in Hy. injection Hy as <-. exists x'. rewrite lookup_insert_eq. auto.
    + exists y. rewrite lookup_insert_ne by congruence. auto.
Qed.



#[local] Instance operands_kept_preorder : PreOrder operands_kept.
Proof.
  split.
  - intros s. split; [|split]; reflexivity.
  - intros s1 s2 s3 (A1 & B1 & C1) (A2 & B2 & C2).
    split; [|split]; etransitivity; eassumption.
Qed.

Lemma operands_kept_same (s s' : Memoize) :
  vars s' = vars s -> funs s' = funs s -> next_id s' = next_id s -> operands_kept s s'.
Proof.
  intros Hv Hf Hn. split; [|split].
  - apply graph_augmented_same; assumption.
  - apply only_resets_same_funs; [assumption | rewrite Hv; reflexivity | assumption].
  - apply lazy_kept_same; assumption.
Qed.

Lemma operands_kept_set_value (s : Memoize) (v : VarId) (x : VariableFields)
    (t : NDArrayViewPtr) :
  vars s !! v = Some x -> operands_kept s (with_vars (<[v := set_value t x]> (vars s)) s).
Proof.
  intros Hx. split; [|split].
  - eapply graph_augmented_var; [exact Hx | repeat split ..].
  - eapply only_resets_var. exact Hx.
  - eapply lazy_kept_var; [exact Hx | reflexivity].
Qed.


Lemma operands_kept_LazilyIndexedValue (fuel : nat) (v : CNTKVariable) :
  preserves operands_kept (LazilyIndexedValue fuel v).
Proof.
  apply frame_LazilyIndexedValue; try typeclasses eauto.
  - intros s th. apply operands_kept_same; reflexivity.
  - apply operands_kept_set_value.
Qed.










(** *** The classification of the operands does not change while the
    batched inputs are built *)












(** *** The loop over the input positions *)

Section BatchedInputs.
Context (K : Collaborators) (fuel : nat) (ops : FList) (F0 : Function) (maxRank : nat).
Context (s0 : Memoize) (f0 : FunId) (l' : list FunId).
Hypothesis Hfresh0 : ids_fresh s0.
Hypothesis Hchain0 : is_chain (funs s0) (L.head ops) (f0 :: l').
Hypothesis HF0 : funs s0 !! f0 = Some F0.
Hypothesis Hlive0 : forall op OP input,
  op ∈ f0 :: l' -> funs s0 !! op = Some OP -> input ∈ m_inputs OP ->
  is_Some (vars s0 !! m_dataFields input).



End BatchedInputs.

(** *** The batched mode creates the batched inputs and one batched op *)







(** *** The batched op is executed and the results refer to it *)

#[local] Instance values_kept_preorder : PreOrder values_kept.
Proof.
  split.
  - intros s v x Hx. eauto.
  - intros s1 s2 s3 H12 H23 v x Hx. destruct (H12 v x Hx) as (x2 & Hx2 & E2).
    destruct (H23 v x2 Hx2) as (x3 & Hx3 & E3). exists x3. split; [exact Hx3 | congruence].
Qed.







#[local] Instance refers_kept_preorder (b : FunId) : PreOrder (refers_kept b).
Proof.
  split.
  - intros s v x Hx Hr. eauto.
  - intros s1 s2 s3 H12 H23 v x Hx Hr. destruct (H12 v x Hx Hr) as (x2 & Hx2 & E2).
    exact (H23 v x2 Hx2 E2).
Qed.








